(** * MyCraft: chunk meshing, lighting and chunk scheduling

    A shallow embedding of the voxel pipeline of the repository:

    - [ChunkMesher] (greedy meshing, ambient occlusion, packed face light),
    - [LightEngine] (column sunlight and the two flood fills),
    - [Chunk] and [ChunkManager] (block edits, dirty flags, mesh jobs),
    - [WorkerPool] (task queue in front of a fixed set of workers),
    - [CoordUtils], [World] and the chunk life cycle of [ChunkManager]
      (generation around the player, mesh queueing, unloading),
    - [ChunkMeshWorker] (the message handler around the mesher).

    JavaScript numbers that the code uses as integers are [Z]; a value that
    may be [undefined] is an [option Z]; floating point values that the code
    only copies or compares (AO weights, atlas coordinates) are exact
    rationals [Q], and so are world positions, of which the code takes
    [Math.floor] and which it divides by a power of two. *)

From Stdlib Require Import ZArith List Bool Lia QArith Qround.
From Stdlib Require Import Strings.Byte Sorting.Sorted.
From stdpp Require Import base option list strings gmap.
Import ListNotations.
Local Open Scope Z_scope.

(** ** Typed arrays *)

(** A [Uint8Array]: a length and one byte per index.  A read outside
    [0, length) yields [undefined]; a write outside is ignored; a stored
    number is reduced modulo 256. *)
Record Uint8Array := mkU8 { u8_length : Z; u8_elem : Z -> byte }.

Definition byte_to_Z (b : byte) : Z := Z.of_N (Byte.to_N b).

Definition byte_of_Z (v : Z) : byte :=
  default x00 (Byte.of_N (Z.to_N (v mod 256))).

Definition u8_in (a : Uint8Array) (i : Z) : bool :=
  (0 <=? i) && (i <? u8_length a).

Definition u8_get (a : Uint8Array) (i : Z) : option Z :=
  if u8_in a i then Some (byte_to_Z (u8_elem a i)) else None.

Definition u8_set (a : Uint8Array) (i v : Z) : Uint8Array :=
  if u8_in a i
  then mkU8 (u8_length a) (fun j => if j =? i then byte_of_Z v else u8_elem a j)
  else a.

Definition u8_fill (a : Uint8Array) (v : Z) : Uint8Array :=
  mkU8 (u8_length a) (fun _ => byte_of_Z v).

(** Two arrays hold the same bytes. *)
Definition u8_same (a b : Uint8Array) : Prop :=
  u8_length a = u8_length b /\
  forall i, 0 <= i < u8_length a -> u8_elem a i = u8_elem b i.

(** Two neighbour objects hold the same bytes under every key. *)
Definition neighbors_same (m m' : gmap (Z * Z) Uint8Array) : Prop :=
  forall k, match m !! k, m' !! k with
            | Some a, Some b => u8_same a b
            | None, None => True
            | _, _ => False
            end.

(** [ToInt32] of a possibly undefined number, as the bit operators apply it. *)
Definition toInt (v : option Z) : Z := default 0 v.

Definition CHUNK_SIZE : Z := 16.
Definition CHUNK_HEIGHT : Z := 256.
Definition ATLAS_SIZE : Z := 16.
Definition CHUNK_VOLUME : Z := CHUNK_SIZE * CHUNK_HEIGHT * CHUNK_SIZE.

(** The object keyed by ["dx,dz"] that holds the lateral neighbours; the key
    string is determined by the pair, which is the key here. [null] and a
    missing key are both [None]. *)
Abbreviation NeighborMap := (gmap (Z * Z) Uint8Array).

(** ** ChunkMesher *)

Module Mesher.

Record FaceTextures := mkFaces { ft_top : Z; ft_bottom : Z; ft_side : Z }.

Record BlockInfo := mkInfo {
  bi_id : Z;
  bi_transparent : bool;
  bi_solid : bool;
  bi_lightEmission : Z;
  bi_faceTextures : FaceTextures
}.

Record MeshData := mkMesh {
  positions : list Z;
  normals : list Z;
  uvs : list Q;
  aos : list Q;
  lights : list Z;
  indices : list Z
}.

Definition blockIndex (x y z : Z) : Z := (x * CHUNK_SIZE + z) * CHUNK_HEIGHT + y.

Definition outside (x y z : Z) : bool :=
  (x <? 0) || (x >=? CHUNK_SIZE) || (y <? 0) || (y >=? CHUNK_HEIGHT)
  || (z <? 0) || (z >=? CHUNK_SIZE).

Definition getBlock (blocks : Uint8Array) (x y z : Z) : option Z :=
  if outside x y z then Some 0 else u8_get blocks (blockIndex x y z).

(** The chunk offset and the wrapped coordinate along one lateral axis. *)
Definition wrapAxis (l : Z) : Z * Z :=
  if l <? 0 then (-1, l + CHUNK_SIZE)
  else if l >=? CHUNK_SIZE then (1, l - CHUNK_SIZE)
  else (0, l).

Definition getBlockOrNeighbor (blocks : Uint8Array) (lx ly lz : Z)
    (neighbors : NeighborMap) : option Z :=
  if (ly <? 0) || (ly >=? CHUNK_HEIGHT) then Some 0
  else
    let '(nx, sx) := wrapAxis lx in
    let '(nz, sz) := wrapAxis lz in
    if (nx =? 0) && (nz =? 0) then u8_get blocks (blockIndex sx ly sz)
    else match neighbors !! (nx, nz) with
         | None => Some 0
         | Some nb => u8_get nb (blockIndex sx ly sz)
         end.

Definition getLightOrNeighbor (light : Uint8Array) (lx ly lz : Z)
    (neighborLights : NeighborMap) : option Z :=
  if ly >=? CHUNK_HEIGHT then Some 240
  else if ly <? 0 then Some 0
  else
    let '(nx, sx) := wrapAxis lx in
    let '(nz, sz) := wrapAxis lz in
    if (nx =? 0) && (nz =? 0) then u8_get light (blockIndex sx ly sz)
    else match neighborLights !! (nx, nz) with
         | None => Some 240
         | Some nb => u8_get nb (blockIndex sx ly sz)
         end.

Definition DIR_UP : Z := 0.
Definition DIR_DOWN : Z := 1.
Definition DIR_NORTH : Z := 2.
Definition DIR_SOUTH : Z := 3.
Definition DIR_EAST : Z := 4.
Definition DIR_WEST : Z := 5.

Definition Vec3 : Type := Z * Z * Z.

Definition DIRECTION_NORMALS : list Vec3 :=
  [ (0, 1, 0); (0, -1, 0); (0, 0, -1); (0, 0, 1); (1, 0, 0); (-1, 0, 0) ].

Inductive FaceKey := top | bottom | side.

Definition dirToFace (dir : Z) : FaceKey :=
  if dir =? DIR_UP then top else if dir =? DIR_DOWN then bottom else side.

Definition faceTexture (f : FaceTextures) (k : FaceKey) : Z :=
  match k with top => ft_top f | bottom => ft_bottom f | side => ft_side f end.

(** *** Ambient occlusion *)

Definition vertexAO (side1 side2 corner : Z) : Q :=
  let count := side1 + side2 + corner in
  if (side1 =? 1) && (side2 =? 1) then 1 # 4
  else if count =? 0 then 1
  else if count =? 1 then 3 # 4
  else if count =? 2 then 1 # 2
  else 1 # 4.

(** [blockInfo[blockId]]: an undefined or out-of-range index gives undefined. *)
Definition lookupInfo (blockInfo : list BlockInfo) (blockId : option Z)
    : option BlockInfo :=
  match blockId with
  | Some i => if i <? 0 then None else blockInfo !! Z.to_nat i
  | None => None
  end.

Definition isOccluder (blockId : option Z) (blockInfo : list BlockInfo) : Z :=
  match blockId with
  | Some 0 => 0
  | _ => match lookupInfo blockInfo blockId with
         | Some info => if bi_solid info && negb (bi_transparent info) then 1 else 0
         | None => 0
         end
  end.

Definition AO4 : Type := Q * Q * Q * Q.

Definition computeFaceAO (x y z dir : Z) (blocks : Uint8Array)
    (neighbors : NeighborMap) (blockInfo : list BlockInfo) : AO4 :=
  let g dx dy dz :=
    isOccluder (getBlockOrNeighbor blocks (x + dx) (y + dy) (z + dz) neighbors)
               blockInfo in
  if dir =? DIR_UP then
    let s0 := g (-1) 1 0 in let s1 := g 1 1 0 in
    let s2 := g 0 1 (-1) in let s3 := g 0 1 1 in
    let c0 := g (-1) 1 (-1) in let c1 := g 1 1 (-1) in
    let c2 := g 1 1 1 in let c3 := g (-1) 1 1 in
    (vertexAO s0 s2 c0, vertexAO s1 s2 c1, vertexAO s1 s3 c2, vertexAO s0 s3 c3)
  else if dir =? DIR_DOWN then
    let s0 := g (-1) (-1) 0 in let s1 := g 1 (-1) 0 in
    let s2 := g 0 (-1) (-1) in let s3 := g 0 (-1) 1 in
    let c0 := g (-1) (-1) (-1) in let c1 := g 1 (-1) (-1) in
    let c2 := g 1 (-1) 1 in let c3 := g (-1) (-1) 1 in
    (vertexAO s0 s3 c3, vertexAO s1 s3 c2, vertexAO s1 s2 c1, vertexAO s0 s2 c0)
  else if dir =? DIR_NORTH then
    let s0 := g (-1) 0 (-1) in let s1 := g 1 0 (-1) in
    let s2 := g 0 (-1) (-1) in let s3 := g 0 1 (-1) in
    let c0 := g (-1) (-1) (-1) in let c1 := g 1 (-1) (-1) in
    let c2 := g 1 1 (-1) in let c3 := g (-1) 1 (-1) in
    (vertexAO s1 s2 c1, vertexAO s0 s2 c0, vertexAO s0 s3 c3, vertexAO s1 s3 c2)
  else if dir =? DIR_SOUTH then
    let s0 := g (-1) 0 1 in let s1 := g 1 0 1 in
    let s2 := g 0 (-1) 1 in let s3 := g 0 1 1 in
    let c0 := g (-1) (-1) 1 in let c1 := g 1 (-1) 1 in
    let c2 := g 1 1 1 in let c3 := g (-1) 1 1 in
    (vertexAO s0 s2 c0, vertexAO s1 s2 c1, vertexAO s1 s3 c2, vertexAO s0 s3 c3)
  else if dir =? DIR_EAST then
    let s0 := g 1 0 (-1) in let s1 := g 1 0 1 in
    let s2 := g 1 (-1) 0 in let s3 := g 1 1 0 in
    let c0 := g 1 (-1) (-1) in let c1 := g 1 (-1) 1 in
    let c2 := g 1 1 1 in let c3 := g 1 1 (-1) in
    (vertexAO s1 s2 c1, vertexAO s0 s2 c0, vertexAO s0 s3 c3, vertexAO s1 s3 c2)
  else if dir =? DIR_WEST then
    let s0 := g (-1) 0 (-1) in let s1 := g (-1) 0 1 in
    let s2 := g (-1) (-1) 0 in let s3 := g (-1) 1 0 in
    let c0 := g (-1) (-1) (-1) in let c1 := g (-1) (-1) 1 in
    let c2 := g (-1) 1 1 in let c3 := g (-1) 1 (-1) in
    (vertexAO s0 s2 c0, vertexAO s1 s2 c1, vertexAO s1 s3 c2, vertexAO s0 s3 c3)
  else (1, 1, 1, 1)%Q.

(** *** Atlas coordinates *)

Definition qmin (a b : Q) : Q := if Qle_bool a b then a else b.

Definition atlasUV (texIndex : Z) (u0 v0 u1 v1 : Q) : Q * Q * Q * Q :=
  let col := Z.rem texIndex ATLAS_SIZE in
  let row := texIndex / ATLAS_SIZE in
  let tileU := (1 # 16)%Q in
  let tileV := (1 # 16)%Q in
  let eps := (1 # 1000)%Q in
  let baseU := (inject_Z col * tileU + eps)%Q in
  let baseV := (inject_Z row * tileV + eps)%Q in
  let maxU := (inject_Z (col + 1) * tileU - eps)%Q in
  let maxV := (inject_Z (row + 1) * tileV - eps)%Q in
  ( (baseU + (maxU - baseU) * qmin u0 1)%Q,
    (baseV + (maxV - baseV) * qmin v0 1)%Q,
    (baseU + (maxU - baseU) * qmin u1 1)%Q,
    (baseV + (maxV - baseV) * qmin v1 1)%Q ).

(** *** Output buffers *)

Record TempArrays := mkTemp {
  t_positions : list Z;
  t_normals : list Z;
  t_uvs : list Q;
  t_aos : list Q;
  t_lights : list Z;
  t_indices : list Z;
  t_vertexCount : Z
}.

Definition createTemp : TempArrays := mkTemp [] [] [] [] [] [] 0.

Definition xyz (v : Vec3) : list Z := let '(a, b, c) := v in [a; b; c].

Definition pushQuad (tmp : TempArrays) (v0 v1 v2 v3 normal : Vec3)
    (uv : Q * Q * Q * Q) (ao : AO4) (faceLight : Z) : TempArrays :=
  let i := t_vertexCount tmp in
  let '(uv0, uv1, uv2, uv3) := uv in
  let '(ao0, ao1, ao2, ao3) := ao in
  mkTemp
    (t_positions tmp ++ xyz v0 ++ xyz v1 ++ xyz v2 ++ xyz v3)
    (t_normals tmp ++ xyz normal ++ xyz normal ++ xyz normal ++ xyz normal)
    (t_uvs tmp ++ [uv0; uv3; uv2; uv3; uv2; uv1; uv0; uv1])
    (t_aos tmp ++ [ao0; ao1; ao2; ao3])
    (t_lights tmp ++ [faceLight; faceLight; faceLight; faceLight])
    (t_indices tmp ++
       (if negb (Qle_bool (ao0 + ao2) (ao1 + ao3))
        then [i; i + 1; i + 2; i; i + 2; i + 3]
        else [i + 1; i + 2; i + 3; i; i + 1; i + 3]))
    (t_vertexCount tmp + 4).

Definition toMeshData (tmp : TempArrays) : MeshData :=
  mkMesh (t_positions tmp) (t_normals tmp) (t_uvs tmp) (t_aos tmp)
         (t_lights tmp) (t_indices tmp).

(** *** Greedy meshing *)

(** Sweep axis and tangent axes of a face direction, with their extents. *)
Record Sweep := mkSweep {
  dAxis : Z; uAxis : Z; vAxis : Z;
  dSize : Z; uSize : Z; vSize : Z
}.

Definition sweepOf (dir : Z) : Sweep :=
  if (dir =? DIR_UP) || (dir =? DIR_DOWN)
  then mkSweep 1 0 2 CHUNK_HEIGHT CHUNK_SIZE CHUNK_SIZE
  else if (dir =? DIR_NORTH) || (dir =? DIR_SOUTH)
  then mkSweep 2 0 1 CHUNK_SIZE CHUNK_SIZE CHUNK_HEIGHT
  else mkSweep 0 2 1 CHUNK_SIZE CHUNK_SIZE CHUNK_HEIGHT.

(** [p[axis] = val] on a three-element array. *)
Definition setAxis (p : Vec3) (axis val : Z) : Vec3 :=
  let '(a, b, c) := p in
  if axis =? 0 then (val, b, c)
  else if axis =? 1 then (a, val, c)
  else if axis =? 2 then (a, b, val)
  else p.

Definition getAxis (p : Vec3) (axis : Z) : Z :=
  let '(a, b, c) := p in
  if axis =? 0 then a else if axis =? 1 then b else c.

Definition place (s : Sweep) (d u v : Z) : Vec3 :=
  setAxis (setAxis (setAxis (0, 0, 0) (dAxis s) d) (uAxis s) u) (vAxis s) v.

Definition vadd (p q : Vec3) : Vec3 :=
  let '(a, b, c) := p in let '(a', b', c') := q in (a + a', b + b', c + c').


(** The slice mask, an [Int32Array]; the values stored are below [2^16], so
    the 32-bit store keeps them. *)
Definition maskGet (mask : list Z) (i : Z) : Z :=
  if i <? 0 then 0 else nth (Z.to_nat i) mask 0.

Definition maskSet (mask : list Z) (i v : Z) : list Z :=
  if i <? 0 then mask else <[Z.to_nat i := v]> mask.

Definition maskFill (mask : list Z) (v : Z) : list Z :=
  replicate (length mask) v.

Section Mesh.

Variables (blocks : Uint8Array) (cx cz : Z) (neighborBlocks : NeighborMap)
          (blockInfo : list BlockInfo) (light : Uint8Array)
          (neighborLights : NeighborMap).

(** The visibility test of one face: [None] when the voxel holds air or has
    no metadata (the [continue] branches), otherwise the value of [visible]. *)
Definition faceVisible (norm : Vec3) (lx ly lz : Z) : option (Z * bool) :=
  match getBlock blocks lx ly lz with
  | Some 0 => None
  | blockId =>
    match lookupInfo blockInfo blockId with
    | None => None
    | Some info =>
      let '(nlx, nly, nlz) := vadd (lx, ly, lz) norm in
      let neighborId := getBlockOrNeighbor blocks nlx nly nlz neighborBlocks in
      let neighborInfo :=
        match neighborId with
        | Some n => if n >? 0 then lookupInfo blockInfo neighborId else None
        | None => None
        end in
      let visible :=
        match neighborId with
        | Some 0 => true
        | _ => match neighborInfo with
               | Some ninfo =>
                 bi_transparent ninfo &&
                 (negb (bi_transparent info) ||
                  negb (bool_decide (blockId = neighborId)))
               | None => false
               end
        end in
      Some (toInt blockId, visible)
    end
  end.

(** The body of the mask-building loops for the cell [(u, v)] of slice [d]. *)
Definition maskCell (s : Sweep) (norm : Vec3) (d : Z) (mask : list Z)
    (v u : Z) : list Z :=
  let '(lx, ly, lz) := place s d u v in
  match faceVisible norm lx ly lz with
  | Some (blockId, true) =>
    let '(nlx, nly, nlz) := vadd (lx, ly, lz) norm in
    let faceLight := getLightOrNeighbor light nlx nly nlz neighborLights in
    maskSet mask (v * uSize s + u)
            (Z.lor blockId (Z.shiftl (toInt faceLight) 8))
  | _ => mask
  end.

(** The value that the mask receives for the face of voxel [(lx, ly, lz)]
    towards [norm]: the block id packed with the face light, or 0 when the
    loop body leaves the cleared cell alone (no face). *)
Definition faceValue (norm : Vec3) (lx ly lz : Z) : Z :=
  match faceVisible norm lx ly lz with
  | Some (blockId, true) =>
    let '(nlx, nly, nlz) := vadd (lx, ly, lz) norm in
    let faceLight := getLightOrNeighbor light nlx nly nlz neighborLights in
    Z.lor blockId (Z.shiftl (toInt faceLight) 8)
  | _ => 0
  end.

Definition buildMask (s : Sweep) (norm : Vec3) (d : Z) (mask : list Z) : list Z :=
  fold_left
    (fun m v => fold_left (fun m' u => maskCell s norm d m' v u)
                          (seqZ 0 (uSize s)) m)
    (seqZ 0 (vSize s)) (maskFill mask 0).

(** [while (u + w < uSize && mask[v * uSize + u + w] === maskVal) w++] *)
Fixpoint growWidth (fuel : nat) (s : Sweep) (mask : list Z) (v u maskVal w : Z) : Z :=
  match fuel with
  | O => w
  | S fuel' =>
    if (u + w <? uSize s) && (maskGet mask (v * uSize s + u + w) =? maskVal)
    then growWidth fuel' s mask v u maskVal (w + 1)
    else w
  end.

(** The inner [for (wu ...)] of the height loop: no cell of the row differs. *)
Definition rowMatches (s : Sweep) (mask : list Z) (row u w maskVal : Z) : bool :=
  forallb (fun wu => maskGet mask (row * uSize s + u + wu) =? maskVal) (seqZ 0 w).

Fixpoint growHeight (fuel : nat) (s : Sweep) (mask : list Z)
    (v u w maskVal h : Z) : Z :=
  match fuel with
  | O => h
  | S fuel' =>
    if (v + h <? vSize s) && rowMatches s mask (v + h) u w maskVal
    then growHeight fuel' s mask v u w maskVal (h + 1)
    else h
  end.

Definition clearRegion (s : Sweep) (mask : list Z) (v u w h : Z) : list Z :=
  fold_left
    (fun m hh => fold_left (fun m' ww => maskSet m' ((v + hh) * uSize s + u + ww) 0)
                           (seqZ 0 w) m)
    (seqZ 0 h) mask.

Record Buffers := mkBuffers { b_opaque : TempArrays; b_transparent : TempArrays }.

(** Everything from "Emit the quad" to [pushQuad]; [None] is the [TypeError]
    raised by [info.faceTextures] when [blockInfo[blockId]] is undefined. *)
Definition emitQuad (dir : Z) (s : Sweep) (norm : Vec3) (d v u w h maskVal : Z)
    (out : Buffers) : option Buffers :=
  let blockId := Z.land maskVal 255 in
  let faceLight := Z.land (Z.shiftr maskVal 8) 255 in
  match lookupInfo blockInfo (Some blockId) with
  | None => None
  | Some info =>
    let texIndex := faceTexture (bi_faceTextures info) (dirToFace dir) in
    let base := place s d u v in
    let base :=
      if (dir =? DIR_UP) || (dir =? DIR_SOUTH) || (dir =? DIR_EAST)
      then setAxis base (dAxis s) (getAxis base (dAxis s) + 1)
      else base in
    let du := setAxis (0, 0, 0) (uAxis s) w in
    let dv := setAxis (0, 0, 0) (vAxis s) h in
    let wx := cx * CHUNK_SIZE in
    let wz := cz * CHUNK_SIZE in
    let b := vadd base (wx, 0, wz) in
    let bdu := vadd b du in
    let bdv := vadd b dv in
    let bduv := vadd (vadd b du) dv in
    let '(v0, v1, v2, v3) :=
      if dir =? DIR_UP then (b, bdu, bduv, bdv)
      else if dir =? DIR_DOWN then (bdv, bduv, bdu, b)
      else if dir =? DIR_NORTH then (bdu, b, bdv, bduv)
      else if dir =? DIR_SOUTH then (b, bdu, bduv, bdv)
      else if dir =? DIR_EAST then (b, bdv, bduv, bdu)
      else if dir =? DIR_WEST then (bdu, bduv, bdv, b)
      else (b, bdu, bduv, bdv) in
    let uv := atlasUV texIndex 0 0 1 1 in
    let '(ax, ay, az) := place s d u v in
    let ao := computeFaceAO ax ay az dir blocks neighborBlocks blockInfo in
    Some (if bi_transparent info
          then mkBuffers (b_opaque out)
                         (pushQuad (b_transparent out) v0 v1 v2 v3 norm uv ao faceLight)
          else mkBuffers (pushQuad (b_opaque out) v0 v1 v2 v3 norm uv ao faceLight)
                         (b_transparent out))
  end.

(** [for (let u = 0; u < uSize; ) { ... }] of one mask row, from column [u]. *)
Fixpoint mergeRow (fuel : nat) (dir : Z) (s : Sweep) (norm : Vec3) (d v u : Z)
    (st : list Z * Buffers) : option (list Z * Buffers) :=
  match fuel with
  | O => Some st
  | S fuel' =>
    if u <? uSize s then
      let '(mask, out) := st in
      let maskVal := maskGet mask (v * uSize s + u) in
      if maskVal =? 0 then mergeRow fuel' dir s norm d v (u + 1) st
      else
        let w := growWidth (Z.to_nat (uSize s)) s mask v u maskVal 1 in
        let h := growHeight (Z.to_nat (vSize s)) s mask v u w maskVal 1 in
        let mask' := clearRegion s mask v u w h in
        match emitQuad dir s norm d v u w h maskVal out with
        | None => None
        | Some out' => mergeRow fuel' dir s norm d v (u + w) (mask', out')
        end
    else Some st
  end.

Definition mergeSlice (dir : Z) (s : Sweep) (norm : Vec3) (d : Z)
    (st : list Z * Buffers) : option (list Z * Buffers) :=
  fold_left
    (fun acc v => acc ≫= mergeRow (Z.to_nat (uSize s)) dir s norm d v 0)
    (seqZ 0 (vSize s)) (Some st).

Definition meshSlice (dir : Z) (s : Sweep) (norm : Vec3)
    (acc : option (list Z * Buffers)) (d : Z) : option (list Z * Buffers) :=
  acc ≫= fun '(mask, out) => mergeSlice dir s norm d (buildMask s norm d mask, out).

Definition meshDir (acc : option Buffers) (dir : Z) : option Buffers :=
  acc ≫= fun out =>
    let norm := nth (Z.to_nat dir) DIRECTION_NORMALS (0, 0, 0) in
    let s := sweepOf dir in
    let mask := replicate (Z.to_nat (uSize s * vSize s)) 0 in
    snd <$> fold_left (meshSlice dir s norm) (seqZ 0 (dSize s)) (Some (mask, out)).

Definition meshChunk : option (MeshData * MeshData) :=
  (fun out => (toMeshData (b_opaque out), toMeshData (b_transparent out)))
    <$> fold_left meshDir (seqZ 0 6) (Some (mkBuffers createTemp createTemp)).

(** *** Evaluation that skips empty slices

    A slice in which no face is visible leaves the buffers as they are.
    [meshChunkSkipping] tests every slice first and runs the merge only on the
    others; it is proved equal to [meshChunk] and used to evaluate it. *)

Definition cellHidden (s : Sweep) (norm : Vec3) (d v u : Z) : bool :=
  let '(lx, ly, lz) := place s d u v in
  match faceVisible norm lx ly lz with
  | Some (_, true) => false
  | _ => true
  end.

Definition sliceEmpty (s : Sweep) (norm : Vec3) (d : Z) : bool :=
  forallb (fun v => forallb (fun u => cellHidden s norm d v u) (seqZ 0 (uSize s)))
          (seqZ 0 (vSize s)).

Definition meshSliceSkipping (dir : Z) (s : Sweep) (norm : Vec3)
    (acc : option (list Z * Buffers)) (d : Z) : option (list Z * Buffers) :=
  acc ≫= fun '(mask, out) =>
    if sliceEmpty s norm d then Some (maskFill mask 0, out)
    else mergeSlice dir s norm d (buildMask s norm d mask, out).

Definition meshDirSkipping (acc : option Buffers) (dir : Z) : option Buffers :=
  acc ≫= fun out =>
    let norm := nth (Z.to_nat dir) DIRECTION_NORMALS (0, 0, 0) in
    let s := sweepOf dir in
    let mask := replicate (Z.to_nat (uSize s * vSize s)) 0 in
    snd <$> fold_left (meshSliceSkipping dir s norm) (seqZ 0 (dSize s))
                      (Some (mask, out)).

Definition meshChunkSkipping : option (MeshData * MeshData) :=
  (fun out => (toMeshData (b_opaque out), toMeshData (b_transparent out)))
    <$> fold_left meshDirSkipping (seqZ 0 6) (Some (mkBuffers createTemp createTemp)).

End Mesh.

End Mesher.

(** ** Predicates used by the proofs about the mesher *)

Module MeshSpec.
Import Mesher.

(** A mask cell is empty or carries the id of a block that has metadata. *)
Definition cell_ok (blockInfo : list BlockInfo) (m : Z) : Prop :=
  m = 0 \/ is_Some (lookupInfo blockInfo (Some (Z.land m 255))).

(** The state of the merge loops: a mask of known blocks, two buffers in [P]. *)
Definition state_inv (blockInfo : list BlockInfo) (P : TempArrays -> Prop)
    (st : list Z * Buffers) : Prop :=
  Forall (cell_ok blockInfo) st.1 /\ P (b_opaque st.2) /\ P (b_transparent st.2).

(** The rectangle of a merged quad in the mask of its slice: origin [(u, v)],
    width [w] along u, height [h] along v, and the mask value it was cut for. *)
Record Rect := mkRect { r_u : Z; r_v : Z; r_w : Z; r_h : Z; r_val : Z }.

Definition covers (r : Rect) (u v : Z) : bool :=
  (r_u r <=? u) && (u <? r_u r + r_w r) && (r_v r <=? v) && (v <? r_v r + r_h r).









(** The buffers under construction agree with their vertex counter. *)
Definition temp_wf (t : TempArrays) : Prop :=
  let V := t_vertexCount t in
  0 <= V /\
  Z.of_nat (length (t_positions t)) = 3 * V /\
  Z.of_nat (length (t_normals t)) = 3 * V /\
  Z.of_nat (length (t_uvs t)) = 2 * V /\
  Z.of_nat (length (t_aos t)) = V /\
  Z.of_nat (length (t_lights t)) = V /\
  2 * Z.of_nat (length (t_indices t)) = 3 * V /\
  Forall (fun i => 0 <= i < V) (t_indices t).

(** A returned mesh with [V] vertices: every attribute array has its stride
    times [V] entries, there are [3/2 * V] indices, all of them below [V]. *)
Definition mesh_wf (m : MeshData) (V : Z) : Prop :=
  0 <= V /\
  Z.of_nat (length (positions m)) = 3 * V /\
  Z.of_nat (length (normals m)) = 3 * V /\
  Z.of_nat (length (uvs m)) = 2 * V /\
  Z.of_nat (length (aos m)) = V /\
  Z.of_nat (length (lights m)) = V /\
  2 * Z.of_nat (length (indices m)) = 3 * V /\
  Forall (fun i => 0 <= i < V) (indices m).

(** The vertex count that the worker reports for a mesh. *)
Definition vertexCount (m : MeshData) : Z := Z.of_nat (length (positions m)) / 3.

End MeshSpec.

(** ** The end-to-end scenario: ten layers of stone under open sky *)

Module Scenario.
Import Mesher.

(** The chunk at (0,0): block id 1 for y in 0..9, air above.  The height of
    the voxel stored at index [i] is [i mod 256], the low eight bits. *)
Definition blocks : Uint8Array :=
  mkU8 CHUNK_VOLUME (fun i => if Z.land i 255 <? 10 then x01 else x00).

(** Its light field: full sunlight (0xF0) in the air, dark inside the stone. *)
Definition sunlit : Uint8Array :=
  mkU8 CHUNK_VOLUME (fun i => if Z.land i 255 <? 10 then x00 else xf0).

(** The light array the mesh worker allocates when the job carries none. *)
Definition unlit : Uint8Array := mkU8 CHUNK_VOLUME (fun _ => x00).

(** The same bytes in another array object, as a copied buffer holds them;
    what lies outside the 65536 bytes is not part of the array. *)
Definition blocksCopy : Uint8Array :=
  mkU8 CHUNK_VOLUME
       (fun i => if (0 <=? i) && (i <? CHUNK_VOLUME)
                 then (if Z.land i 255 <? 10 then x01 else x00)
                 else xff).

(** Air is transparent and not solid, stone is opaque and solid. *)
Definition blockInfo : list BlockInfo :=
  [ mkInfo 0 true false 0 (mkFaces 0 0 0); mkInfo 1 false true 0 (mkFaces 1 1 1) ].

(** Transparency and emission by block id, as the light engine takes them. *)
Definition transparency : list bool := [true; false].
Definition emissions : list Z := [0; 0].

(** A second chunk, for the block light: stone everywhere except a tunnel at
    y = 64, z = 8 that holds a torch (id 2, transparent, emission 14) at x = 4
    and air for x in 5..8.  The voxel stored at index [i] has y in the low
    eight bits of [i], z in the next four and x above them. *)
Definition tunnel : Uint8Array :=
  mkU8 CHUNK_VOLUME
       (fun i =>
          let y := Z.land i 255 in
          let z := Z.land (Z.shiftr i 8) 15 in
          let x := Z.shiftr i 12 in
          if (y =? 64) && (z =? 8) && (4 <=? x) && (x <=? 8)
          then (if x =? 4 then x02 else x00)
          else x01).

Definition tunnelTransparency : list bool := [true; false; true].
Definition tunnelEmissions : list Z := [0; 0; 14].

(** No lateral neighbour is loaded. *)
Definition absent : NeighborMap := ∅.

(** The corners of the six quads, in emission order: top, bottom, north,
    south, east, west. *)
Definition quads : list (list Vec3) :=
  [ [ (0, 10, 0); (16, 10, 0); (16, 10, 16); (0, 10, 16) ];
    [ (0, 0, 16); (16, 0, 16); (16, 0, 0); (0, 0, 0) ];
    [ (16, 0, 0); (0, 0, 0); (0, 10, 0); (16, 10, 0) ];
    [ (0, 0, 16); (16, 0, 16); (16, 10, 16); (0, 10, 16) ];
    [ (16, 0, 0); (16, 10, 0); (16, 10, 16); (16, 0, 16) ];
    [ (0, 0, 16); (0, 10, 16); (0, 10, 0); (0, 0, 0) ] ].

(** What the scenario's claims look at: corner positions and normals of the
    opaque mesh, its index count, and the size of the transparent mesh. *)
Definition summary (r : MeshData * MeshData) : list Z * list Z * nat * nat :=
  (positions r.1, normals r.1, length (indices r.1), length (positions r.2)).

Definition expected : list Z * list Z * nat * nat :=
  (flat_map xyz (concat quads),
   flat_map (fun n => xyz n ++ xyz n ++ xyz n ++ xyz n) DIRECTION_NORMALS,
   36%nat, 0%nat).

Definition triangleCount (m : MeshData) : Z := Z.of_nat (length (indices m)) / 3.

End Scenario.

(** ** LightEngine *)

Module Light.

Definition idx (x y z : Z) : Z := (x * CHUNK_SIZE + z) * CHUNK_HEIGHT + y.

Definition DX : list Z := [1; -1; 0; 0; 0; 0].
Definition DY : list Z := [0; 0; 1; -1; 0; 0].
Definition DZ : list Z := [0; 0; 0; 0; 1; -1].

Definition at6 (l : list Z) (d : Z) : Z := nth (Z.to_nat d) l 0.

Definition Vec3 : Type := Z * Z * Z.

(** The bounds test of the neighbour loops. *)
Definition outOfChunk (x y z : Z) : bool :=
  (x <? 0) || (x >=? CHUNK_SIZE) || (y <? 0) || (y >=? CHUNK_HEIGHT)
  || (z <? 0) || (z >=? CHUNK_SIZE).

(** Sun level (high nibble) and block-light level (low nibble) stored at an
    index; an undefined byte reads as 0 under the bit operators. *)
Definition sunAt (light : Uint8Array) (i : Z) : Z :=
  Z.shiftr (toInt (u8_get light i)) 4.

Definition blockAt (light : Uint8Array) (i : Z) : Z :=
  Z.land (toInt (u8_get light i)) 15.

Section Engine.

Variables (blocks : Uint8Array) (isTransparent : list bool) (emissions : list Z).

(** [isTransparent[blocks[i]]] as a condition. *)
Definition transparentAt (i : Z) : bool :=
  match u8_get blocks i with
  | Some b => default false (isTransparent !! Z.to_nat b)
  | None => false
  end.

(** [emissions[blocks[i]] || 0] *)
Definition emissionAt (i : Z) : Z :=
  match u8_get blocks i with
  | Some b => default 0 (emissions !! Z.to_nat b)
  | None => 0
  end.

(** *** Phase 1: column sunlight *)

(** The [y] loop of one column, over the heights still to visit. *)
Fixpoint columnSun (x z : Z) (ys : list Z) (light : Uint8Array) : Uint8Array :=
  match ys with
  | [] => light
  | y :: ys' =>
    let i := idx x y z in
    if transparentAt i then columnSun x z ys' (u8_set light i 240) else light
  end.

(** Heights from [CHUNK_HEIGHT - 1] down to 0. *)
Definition heightsDown : list Z := rev (seqZ 0 CHUNK_HEIGHT).

Definition columnSunlight (light : Uint8Array) : Uint8Array :=
  fold_left
    (fun l x => fold_left (fun l' z => columnSun x z heightsDown l')
                          (seqZ 0 CHUNK_SIZE) l)
    (seqZ 0 CHUNK_SIZE) light.

(** *** Phase 2: sunlight flood fill *)

Definition isFrontier (light : Uint8Array) (x y z : Z) : bool :=
  existsb
    (fun d =>
       let nx := x + at6 DX d in
       let ny := y + at6 DY d in
       let nz := z + at6 DZ d in
       if outOfChunk nx ny nz then false
       else let ni := idx nx ny nz in
            transparentAt ni && (sunAt light ni <? 15))
    (seqZ 0 6).

(** The [y] loop of the seeding scan; the state is [foundDark] and the queue. *)
Definition seedSunCell (light : Uint8Array) (x z : Z)
    (st : bool * list Vec3) (y : Z) : bool * list Vec3 :=
  let '(foundDark, q) := st in
  let sun := sunAt light (idx x y z) in
  if (sun =? 15) && negb foundDark then
    if isFrontier light x y z then (foundDark, q ++ [(x, y, z)]) else st
  else if sun <? 15 then (true, q)
  else st.

Definition sunSeeds (light : Uint8Array) : list Vec3 :=
  fold_left
    (fun q x =>
       fold_left
         (fun q' z => snd (fold_left (seedSunCell light x z) heightsDown (false, q')))
         (seqZ 0 CHUNK_SIZE) q)
    (seqZ 0 CHUNK_SIZE) [].

(** The body of [for (d ...)] in the sunlight loop, for the popped voxel
    [(sx, sy, sz)] whose level was read as [level]. *)
Definition sunVisit (level sx sy sz : Z) (st : Uint8Array * list Vec3) (d : Z)
    : Uint8Array * list Vec3 :=
  let '(light, q) := st in
  let nx := sx + at6 DX d in
  let ny := sy + at6 DY d in
  let nz := sz + at6 DZ d in
  if outOfChunk nx ny nz then st
  else
    let ni := idx nx ny nz in
    if negb (transparentAt ni) then st
    else
      let newLevel := if (at6 DY d =? -1) && (level =? 15) then 15 else level - 1 in
      if newLevel <=? 0 then st
      else if newLevel >? sunAt light ni
      then (u8_set light ni
                   (Z.lor (Z.shiftl newLevel 4) (Z.land (toInt (u8_get light ni)) 15)),
            q ++ [(nx, ny, nz)])
      else st.

(** [while (qi < sunQ.length)]: [q] is the part of the queue not read yet;
    one unit of fuel per popped entry, [None] when the fuel runs out. *)
Fixpoint sunFlood (fuel : nat) (light : Uint8Array) (q : list Vec3)
    : option Uint8Array :=
  match q with
  | [] => Some light
  | (sx, sy, sz) :: rest =>
    match fuel with
    | O => None
    | S fuel' =>
      let level := sunAt light (idx sx sy sz) in
      let '(light', q') :=
        fold_left (sunVisit level sx sy sz) (seqZ 0 6) (light, rest) in
      sunFlood fuel' light' q'
    end
  end.

(** *** Phase 3: block light flood fill *)

Definition seedBlockCell (x z : Z) (st : Uint8Array * list Vec3) (y : Z)
    : Uint8Array * list Vec3 :=
  let '(light, q) := st in
  let i := idx x y z in
  let em := emissionAt i in
  if em >? 0
  then (u8_set light i (Z.lor (Z.land (toInt (u8_get light i)) 240) em),
        q ++ [(x, y, z)])
  else st.

Definition blockSeeds (light : Uint8Array) : Uint8Array * list Vec3 :=
  fold_left
    (fun st x =>
       fold_left (fun st' z => fold_left (seedBlockCell x z) (seqZ 0 CHUNK_HEIGHT) st')
                 (seqZ 0 CHUNK_SIZE) st)
    (seqZ 0 CHUNK_SIZE) (light, []).

Definition blockVisit (level bx by_ bz : Z) (st : Uint8Array * list Vec3) (d : Z)
    : Uint8Array * list Vec3 :=
  let '(light, q) := st in
  let nx := bx + at6 DX d in
  let ny := by_ + at6 DY d in
  let nz := bz + at6 DZ d in
  if outOfChunk nx ny nz then st
  else
    let ni := idx nx ny nz in
    if negb (transparentAt ni) then st
    else
      let newLevel := level - 1 in
      if newLevel <=? 0 then st
      else if newLevel >? blockAt light ni
      then (u8_set light ni (Z.lor (Z.land (toInt (u8_get light ni)) 240) newLevel),
            q ++ [(nx, ny, nz)])
      else st.

Fixpoint blockFlood (fuel : nat) (light : Uint8Array) (q : list Vec3)
    : option Uint8Array :=
  match q with
  | [] => Some light
  | (bx, by_, bz) :: rest =>
    match fuel with
    | O => None
    | S fuel' =>
      let level := blockAt light (idx bx by_ bz) in
      let '(light', q') :=
        fold_left (blockVisit level bx by_ bz) (seqZ 0 6) (light, rest) in
      blockFlood fuel' light' q'
    end
  end.

(** [calculateLight]: the returned array is the final content of [light]. *)
Definition calculateLight (fuel : nat) (light : Uint8Array) : option Uint8Array :=
  let light1 := columnSunlight (u8_fill light 0) in
  match sunFlood fuel light1 (sunSeeds light1) with
  | None => None
  | Some light2 =>
    let '(light3, blkQ) := blockSeeds light2 in
    blockFlood fuel light3 blkQ
  end.

End Engine.

End Light.

(** ** Predicates used by the proofs about the light engine *)

Module LightSpec.
Import Light.

Definition inside (p : Vec3) : Prop :=
  let '(x, y, z) := p in outOfChunk x y z = false.

Definition index (p : Vec3) : Z := let '(x, y, z) := p in idx x y z.

(** The neighbour of [p] in direction [d] of the offset tables. *)
Definition toward (p : Vec3) (d : Z) : Vec3 :=
  let '(x, y, z) := p in (x + at6 DX d, y + at6 DY d, z + at6 DZ d).

Definition adjacent (p n : Vec3) : Prop := exists d, 0 <= d < 6 /\ n = toward p d.

(** The shape shared by the two flood-fill loops: [lvl] reads the level of the
    popped voxel, [visit] is the body of the loop over the six directions. *)
Fixpoint flood (lvl : Uint8Array -> Z -> Z)
    (visit : Z -> Z -> Z -> Z -> Uint8Array * list Vec3 -> Z -> Uint8Array * list Vec3)
    (fuel : nat) (light : Uint8Array) (q : list Vec3) : option Uint8Array :=
  match q with
  | [] => Some light
  | (sx, sy, sz) :: rest =>
    match fuel with
    | O => None
    | S fuel' =>
      let level := lvl light (idx sx sy sz) in
      let '(light', q') := fold_left (visit level sx sy sz) (seqZ 0 6) (light, rest) in
      flood lvl visit fuel' light' q'
    end
  end.

(** How far the levels of the chunk are from their maximum. *)
Definition deficit (lvl : Uint8Array -> Z -> Z) (light : Uint8Array) : nat :=
  sum_list_with (fun i => Z.to_nat (15 - lvl light i)) (seqZ 0 CHUNK_VOLUME).

(** The work left in a flood fill: an entry whose voxel is stored in the light
    array can enqueue its six neighbours, an entry beyond the array none, and
    every unit of deficit stands for one more stored entry. *)
Definition queueWeight (light : Uint8Array) (q : list Vec3) : nat :=
  sum_list_with (fun e => if u8_in light (index e) then 7%nat else 1%nat) q.

Definition work (lvl : Uint8Array -> Z -> Z) (light : Uint8Array)
    (q : list Vec3) : nat :=
  (queueWeight light q + 7 * deficit lvl light)%nat.

(** The nibble arithmetic of the two stores, for a byte [b] and a level [n]. *)
Definition nibbles_ok (b n : Z) : bool :=
  let v := Z.lor (Z.shiftl n 4) (Z.land b 15) in
  let w := Z.lor (Z.land b 240) n in
  (0 <=? Z.shiftr b 4) && (Z.shiftr b 4 <=? 15) &&
  (0 <=? Z.land b 15) && (Z.land b 15 <=? 15) &&
  (v mod 256 =? v) && (Z.shiftr v 4 =? n) && (Z.land v 15 =? Z.land b 15) &&
  (w mod 256 =? w) && (Z.shiftr w 4 =? Z.shiftr b 4) && (Z.land w 15 =? n).

Section Spec.

Variables (blocks : Uint8Array) (isTransparent : list bool) (emissions : list Z).

(** A voxel under open sky: it and everything above it is transparent. *)
Definition skyLit (p : Vec3) : Prop :=
  let '(x, y, z) := p in
  inside p /\
  forall y', y <= y' < CHUNK_HEIGHT -> transparentAt blocks isTransparent (idx x y' z) = true.

(** A voxel whose block emits light. *)
Definition emissive (p : Vec3) : Prop :=
  inside p /\ emissionAt blocks emissions (index p) > 0.

(** A way the flood fill can take from a source to a voxel, the voxel first
    and the source last: every step goes to one of the six neighbours, inside
    the chunk, into a transparent block. *)
Inductive lightPath (source : Vec3 -> Prop) : Vec3 -> list Vec3 -> Prop :=
| path_source p : source p -> lightPath source p [p]
| path_step p n path :
    lightPath source p path -> adjacent p n -> inside n ->
    transparentAt blocks isTransparent (index n) = true ->
    lightPath source n (n :: path).

(** [b] is reachable from a source only through [a]. *)
Definition onlyThrough (source : Vec3 -> Prop) (a b : Vec3) : Prop :=
  forall path, lightPath source b path -> In a path.

(** One pass of a loop body for the popped voxel [p] read at [level]: nothing
    changes; or the neighbour [n] towards [d] is transparent, its level
    strictly rises to [level - 1] (to 15 when [allowFull] and the step goes
    straight down from 15), the other nibble stays, and [n] is enqueued; or
    [n] lies beyond the end of a light array that is too short, where the
    store is lost and [n] is enqueued all the same. *)
Inductive relaxed (lvl other : Uint8Array -> Z -> Z) (allowFull : bool)
    (p : Vec3) (level d : Z)
    : Uint8Array * list Vec3 -> Uint8Array * list Vec3 -> Prop :=
| relaxed_same st : relaxed lvl other allowFull p level d st st
| relaxed_write light q v newLevel :
    inside (toward p d) ->
    transparentAt blocks isTransparent (index (toward p d)) = true ->
    u8_in light (index (toward p d)) = true ->
    lvl light (index (toward p d)) < newLevel ->
    (newLevel = level - 1 \/
     (allowFull = true /\ newLevel = 15 /\ level = 15 /\ at6 DY d = -1)) ->
    lvl (u8_set light (index (toward p d)) v) (index (toward p d)) = newLevel ->
    other (u8_set light (index (toward p d)) v) (index (toward p d))
      = other light (index (toward p d)) ->
    relaxed lvl other allowFull p level d
            (light, q) (u8_set light (index (toward p d)) v, q ++ [toward p d])
| relaxed_lost light q :
    inside (toward p d) ->
    u8_in light (index (toward p d)) = false ->
    relaxed lvl other allowFull p level d (light, q) (light, q ++ [toward p d]).

(** After the column scan a byte is 0, or 0xF0 at a voxel under open sky. *)
Definition columnBytes (light : Uint8Array) : Prop :=
  forall i, u8_get light i = None \/ u8_get light i = Some 0 \/
            (u8_get light i = Some 240 /\ exists p, skyLit p /\ index p = i).

(** Only source voxels are lit (as before a flood fill starts). *)
Definition litAtSources (lvl : Uint8Array -> Z -> Z) (source : Vec3 -> Prop)
    (light : Uint8Array) : Prop :=
  forall i, 0 < lvl light i -> exists p, source p /\ index p = i.

(** Every lit voxel hangs on a path from a source along which no level is
    lower than its own. *)
Definition supported (lvl : Uint8Array -> Z -> Z) (source : Vec3 -> Prop)
    (light : Uint8Array) : Prop :=
  forall v, inside v -> 0 < lvl light (index v) ->
  exists path, lightPath source v path /\
               forall u, In u path -> lvl light (index v) <= lvl light (index u).

End Spec.

End LightSpec.

(** ** Chunk *)

Module Chunk.

Record Chunk := mkChunk {
  cx : Z;
  cz : Z;
  data : Uint8Array;
  dirty : bool
}.

(** [new Chunk(cx, cz)]: all air, dirty. *)
Definition create (cx cz : Z) : Chunk :=
  mkChunk cx cz (mkU8 CHUNK_VOLUME (fun _ => x00)) true.

Definition getIndex (x y z : Z) : Z := (x * CHUNK_SIZE + z) * CHUNK_HEIGHT + y.

Definition inBounds (x y z : Z) : bool :=
  (x >=? 0) && (x <? CHUNK_SIZE) && (y >=? 0) && (y <? CHUNK_HEIGHT)
  && (z >=? 0) && (z <? CHUNK_SIZE).

(** [BlockType.AIR] *)
Definition AIR : Z := 0.

Definition getBlock (c : Chunk) (x y z : Z) : option Z :=
  if negb (inBounds x y z) then Some AIR else u8_get (data c) (getIndex x y z).

Definition setBlock (c : Chunk) (x y z type : Z) : Chunk :=
  if negb (inBounds x y z) then c
  else
    let idx := getIndex x y z in
    if negb (bool_decide (u8_get (data c) idx = Some type))
    then mkChunk (cx c) (cz c) (u8_set (data c) idx type) true
    else c.

(** The invariant of the constructor: the array has one byte per voxel. *)
Definition sized (c : Chunk) : Prop := u8_length (data c) = CHUNK_VOLUME.

End Chunk.

(** ** WorkerPool *)

Module Pool.

(** How a promise was settled. *)
Inductive Outcome (R : Type) :=
| Resolved (value : R)
| Rejected (reason : string).
Arguments Resolved {R} value.
Arguments Rejected {R} reason.

Section WorkerPool.

(** The message payload and the workers' answers. *)
Variables (D R : Type).

(** A task carries its payload and the [resolve]/[reject] pair of the promise
    that [queueTask] returned, named here by the promise's number. *)
Record PendingTask := mkTask { task_data : D; task_promise : nat }.

Record WorkerEntry := mkEntry { worker : nat; busy : bool }.

(** The pool, the promises it has settled, and what it did to its workers:
    the messages posted and the workers terminated. *)
Record WorkerPool := mkPool {
  workers : list WorkerEntry;
  queue : list PendingTask;
  resolvers : gmap nat PendingTask;
  settled : gmap nat (Outcome R);
  posted : list (nat * D);
  terminated : list nat;
  promises : nat
}.

(** [new WorkerPool(factory, poolSize)] *)
Definition create (poolSize : nat) : WorkerPool :=
  mkPool (map (fun i => mkEntry i false) (seq 0 poolSize)) [] ∅ ∅ [] [] 0.

(** [resolve] and [reject] settle a promise once; later calls change nothing. *)
Definition settle (p : nat) (o : Outcome R) (pool : WorkerPool) : WorkerPool :=
  match settled pool !! p with
  | Some _ => pool
  | None =>
    mkPool (workers pool) (queue pool) (resolvers pool) (<[p := o]> (settled pool))
           (posted pool) (terminated pool) (promises pool)
  end.

(** [entry.busy = b] on the entry of worker [w]. *)
Definition setBusy (w : nat) (b : bool) (ws : list WorkerEntry) : list WorkerEntry :=
  map (fun e => if Nat.eqb (worker e) w then mkEntry w b else e) ws.

Definition dispatch (w : nat) (task : PendingTask) (pool : WorkerPool) : WorkerPool :=
  mkPool (setBusy w true (workers pool)) (queue pool)
         (<[w := task]> (resolvers pool)) (settled pool)
         (posted pool ++ [(w, task_data task)]) (terminated pool) (promises pool).

(** The [busy] flag of the entry that a handler of worker [w] closes over. *)
Definition busyOf (w : nat) (pool : WorkerPool) : bool :=
  match find (fun e => Nat.eqb (worker e) w) (workers pool) with
  | Some e => busy e
  | None => false
  end.

Definition dispatchNext (w : nat) (pool : WorkerPool) : WorkerPool :=
  match queue pool with
  | next :: rest =>
    if negb (busyOf w pool)
    then dispatch w next
           (mkPool (workers pool) rest (resolvers pool) (settled pool)
                   (posted pool) (terminated pool) (promises pool))
    else pool
  | [] => pool
  end.

(** [queueTask(data)]: the new promise's number and the pool afterwards. *)
Definition queueTask (d : D) (pool : WorkerPool) : nat * WorkerPool :=
  let p := promises pool in
  let task := mkTask d p in
  let pool := mkPool (workers pool) (queue pool) (resolvers pool) (settled pool)
                     (posted pool) (terminated pool) (S p) in
  match find (fun e => negb (busy e)) (workers pool) with
  | Some idle => (p, dispatch (worker idle) task pool)
  | None =>
    (p, mkPool (workers pool) (queue pool ++ [task]) (resolvers pool) (settled pool)
               (posted pool) (terminated pool) (promises pool))
  end.

(** The two handlers of a worker, which differ in how they settle the promise
    of the job in flight: [worker.onmessage] resolves it with the message data,
    [worker.onerror] rejects it with the error. *)
Definition onSettled (w : nat) (o : Outcome R) (pool : WorkerPool) : WorkerPool :=
  let pool :=
    match resolvers pool !! w with
    | Some task =>
      settle (task_promise task) o
             (mkPool (setBusy w false (workers pool)) (queue pool)
                     (delete w (resolvers pool)) (settled pool)
                     (posted pool) (terminated pool) (promises pool))
    | None => pool
    end in
  dispatchNext w pool.

Definition onmessage (w : nat) (value : R) : WorkerPool -> WorkerPool :=
  onSettled w (Resolved value).

Definition onerror (w : nat) (err : string) : WorkerPool -> WorkerPool :=
  onSettled w (Rejected err).

Definition dispose (pool : WorkerPool) : WorkerPool :=
  let pool := mkPool [] (queue pool) (resolvers pool) (settled pool) (posted pool)
                     (terminated pool ++ map worker (workers pool)) (promises pool) in
  let pool := fold_left (fun acc task =>
                           settle (task_promise task) (Rejected "WorkerPool disposed") acc)
                        (queue pool) pool in
  mkPool (workers pool) [] ∅ (settled pool) (posted pool) (terminated pool)
         (promises pool).

Definition pendingCount (pool : WorkerPool) : nat := length (queue pool).

Definition busyCount (pool : WorkerPool) : nat :=
  length (filter (fun e => busy e = true) (workers pool)).

(** A job is outstanding: queued, or dispatched to a worker and not answered. *)
Definition queuedJob (pool : WorkerPool) (p : nat) : Prop :=
  exists task, In task (queue pool) /\ task_promise task = p.

Definition inFlightJob (pool : WorkerPool) (p : nat) : Prop :=
  exists w task, resolvers pool !! w = Some task /\ task_promise task = p.

End WorkerPool.

Arguments mkTask {D} _ _.
Arguments task_data {D} _.
Arguments task_promise {D} _.
Arguments workers {D R} _.
Arguments queue {D R} _.
Arguments resolvers {D R} _.
Arguments settled {D R} _.
Arguments posted {D R} _.
Arguments terminated {D R} _.
Arguments promises {D R} _.
Arguments create {D R} _.
Arguments queueTask {D R} _ _.
Arguments onmessage {D R} _ _ _.
Arguments onerror {D R} _ _ _.
Arguments dispose {D R} _.
Arguments queuedJob {D R} _ _.
Arguments inFlightJob {D R} _ _.

End Pool.

(** ** ChunkManager *)

Module Manager.
Import Chunk.

(** Mesh data as the worker sends it back: the arrays and the two counts. *)
Record TransferableMeshData := mkTransfer {
  tm_arrays : Mesher.MeshData;
  vertexCount : Z;
  indexCount : Z
}.

Record MeshMessage := mkMessage {
  chunkX : Z;
  chunkZ : Z;
  msg_blocks : Uint8Array;
  msg_neighbors : gmap (Z * Z) Uint8Array;
  msg_blockInfo : list Mesher.BlockInfo
}.

Record MeshResult := mkResult {
  res_chunkX : Z;
  res_chunkZ : Z;
  res_opaque : TransferableMeshData;
  res_transparent : TransferableMeshData
}.

(** [chunkKey(cx, cz)]: the string ["cx,cz"] names the pair, which is the key. *)
Definition chunkKey (cx cz : Z) : Z * Z := (cx, cz).

(** The manager: the chunk map, the set of keys being meshed, the worker pool
    with, for every promise of a mesh job, the key its callbacks close over,
    the scene manager's mesh entries, and the errors written to the console. *)
Record ChunkManager := mkManager {
  chunks : gmap (Z * Z) Chunk;
  meshingInProgress : gset (Z * Z);
  workerPool : Pool.WorkerPool MeshMessage MeshResult;
  awaiting : gmap nat (Z * Z);
  blockInfo : list Mesher.BlockInfo;
  sceneMeshes : gmap (Z * Z) (option TransferableMeshData * option TransferableMeshData);
  consoleErrors : list string
}.

Definition withChunks (m : ChunkManager) (cs : gmap (Z * Z) Chunk) : ChunkManager :=
  mkManager cs (meshingInProgress m) (workerPool m) (awaiting m) (blockInfo m)
            (sceneMeshes m) (consoleErrors m).

Definition getBlock (m : ChunkManager) (wx wy wz : Z) : option Z :=
  let cx := wx / CHUNK_SIZE in
  let cz := wz / CHUNK_SIZE in
  match chunks m !! chunkKey cx cz with
  | None => Some AIR
  | Some chunk =>
    let lx := Z.rem (Z.rem wx CHUNK_SIZE + CHUNK_SIZE) CHUNK_SIZE in
    let lz := Z.rem (Z.rem wz CHUNK_SIZE + CHUNK_SIZE) CHUNK_SIZE in
    Chunk.getBlock chunk lx wy lz
  end.

Definition markDirty (cx cz : Z) (m : ChunkManager) : ChunkManager :=
  match chunks m !! chunkKey cx cz with
  | Some chunk =>
    withChunks m (<[chunkKey cx cz := mkChunk (Chunk.cx chunk) (Chunk.cz chunk)
                                              (data chunk) true]> (chunks m))
  | None => m
  end.

Definition setBlock (m : ChunkManager) (wx wy wz type : Z) : ChunkManager :=
  let cx := wx / CHUNK_SIZE in
  let cz := wz / CHUNK_SIZE in
  let key := chunkKey cx cz in
  match chunks m !! key with
  | None => m
  | Some chunk =>
    let lx := Z.rem (Z.rem wx CHUNK_SIZE + CHUNK_SIZE) CHUNK_SIZE in
    let lz := Z.rem (Z.rem wz CHUNK_SIZE + CHUNK_SIZE) CHUNK_SIZE in
    let m := withChunks m (<[key := Chunk.setBlock chunk lx wy lz type]> (chunks m)) in
    let m := if lx =? 0 then markDirty (cx - 1) cz m else m in
    let m := if lx =? CHUNK_SIZE - 1 then markDirty (cx + 1) cz m else m in
    let m := if lz =? 0 then markDirty cx (cz - 1) m else m in
    let m := if lz =? CHUNK_SIZE - 1 then markDirty cx (cz + 1) m else m in
    m
  end.

(** The tests of the collection loop of [queueDirtyChunks]: the chunk under
    [key] is put on the list of chunks to mesh. *)
Definition collected (m : ChunkManager) (pcx pcz rd : Z) (key : Z * Z) : bool :=
  match chunks m !! key with
  | None => false
  | Some chunk =>
    dirty chunk && negb (bool_decide (key ∈ meshingInProgress m)) &&
    (let dx := Chunk.cx chunk - pcx in
     let dz := Chunk.cz chunk - pcz in
     dx * dx + dz * dz <=? (rd + 1) * (rd + 1))
  end.

(** The copies of the four lateral neighbours' data put into the message. *)
Definition gatherNeighbors (m : ChunkManager) (chunk : Chunk) : gmap (Z * Z) Uint8Array :=
  fold_left
    (fun acc '(dx, dz) =>
       match chunks m !! chunkKey (Chunk.cx chunk + dx) (Chunk.cz chunk + dz) with
       | Some nc => <[(dx, dz) := data nc]> acc
       | None => acc
       end)
    [(-1, 0); (1, 0); (0, -1); (0, 1)] ∅.

(** [queueChunkMesh(key, chunk)] for the chunk stored under [key]: mark it in
    progress and clean, post the job, and remember the key for the promise. *)
Definition queueChunkMesh (key : Z * Z) (m : ChunkManager) : ChunkManager :=
  match chunks m !! key with
  | None => m
  | Some chunk =>
    let clean := mkChunk (Chunk.cx chunk) (Chunk.cz chunk) (data chunk) false in
    let message := mkMessage (Chunk.cx chunk) (Chunk.cz chunk) (data chunk)
                             (gatherNeighbors m chunk) (blockInfo m) in
    let '(promise, pool) := Pool.queueTask message (workerPool m) in
    mkManager (<[key := clean]> (chunks m)) ({[key]} ∪ meshingInProgress m)
              pool (<[promise := key]> (awaiting m)) (blockInfo m)
              (sceneMeshes m) (consoleErrors m)
  end.

Definition buildMesh (data : TransferableMeshData) : option TransferableMeshData :=
  if (vertexCount data =? 0) || (indexCount data =? 0) then None else Some data.

Definition onMeshResult (result : MeshResult) (m : ChunkManager) : ChunkManager :=
  let key := chunkKey (res_chunkX result) (res_chunkZ result) in
  match chunks m !! key with
  | None => m
  | Some _ =>
    mkManager (chunks m) (meshingInProgress m) (workerPool m) (awaiting m)
              (blockInfo m)
              (<[key := (buildMesh (res_opaque result),
                         buildMesh (res_transparent result))]> (sceneMeshes m))
              (consoleErrors m)
  end.

(** The callbacks attached to the promise of the job for [key]:
    [then] on a result, [catch] on a rejection, [finally] in both cases. *)
Definition jobSettled (key : Z * Z) (o : Pool.Outcome MeshResult)
    (m : ChunkManager) : ChunkManager :=
  let m :=
    match o with
    | Pool.Resolved result => onMeshResult result m
    | Pool.Rejected err =>
      mkManager (chunks m) (meshingInProgress m) (workerPool m) (awaiting m)
                (blockInfo m) (sceneMeshes m)
                (consoleErrors m ++ ["Chunk mesh worker error: " +:+ err])
    end in
  mkManager (chunks m) (meshingInProgress m ∖ {[key]}) (workerPool m) (awaiting m)
            (blockInfo m) (sceneMeshes m) (consoleErrors m).

(** A worker of the pool answers (a result message or an error event): the
    pool settles the promise of the job in flight on it, and the callbacks
    of that promise run. *)
Definition workerAnswered (w : nat) (o : Pool.Outcome MeshResult)
    (m : ChunkManager) : ChunkManager :=
  let inFlight := Pool.resolvers (workerPool m) !! w in
  let m := mkManager (chunks m) (meshingInProgress m)
                     (Pool.onSettled _ _ w o (workerPool m)) (awaiting m)
                     (blockInfo m) (sceneMeshes m) (consoleErrors m) in
  match inFlight with
  | Some task =>
    match awaiting m !! Pool.task_promise task with
    | Some key => jobSettled key o m
    | None => m
    end
  | None => m
  end.

End Manager.

(** ** Predicates and examples used by the proofs about edits and jobs *)

Module ManagerSpec.
Import Chunk Manager.

(** The chunk with its dirty flag set. *)
Definition dirtied (c : Chunk) : Chunk := mkChunk (Chunk.cx c) (Chunk.cz c) (data c) true.

(** [setBlock] marks the chunk under [k] as a lateral neighbour of the edited
    voxel, whose chunk is [(cx, cz)] and whose local coordinates are [lx], [lz]. *)
Definition touched (cx cz lx lz : Z) (k : Z * Z) : bool :=
  ((lx =? 0) && bool_decide (k = (cx - 1, cz)))
  || ((lx =? CHUNK_SIZE - 1) && bool_decide (k = (cx + 1, cz)))
  || ((lz =? 0) && bool_decide (k = (cx, cz - 1)))
  || ((lz =? CHUNK_SIZE - 1) && bool_decide (k = (cx, cz + 1))).

(** A chunk of stone whose mesh is up to date, and a manager that holds it at
    (0,0) next to a pool of one worker. *)
Definition stoneChunk (isDirty : bool) : Chunk :=
  mkChunk 0 0 (mkU8 CHUNK_VOLUME (fun _ => x01)) isDirty.

Definition oneChunk (isDirty : bool) : ChunkManager :=
  mkManager {[ (0, 0) := stoneChunk isDirty ]} ∅ (Pool.create 1) ∅ [] ∅ [].

(** A pool of one worker with job 7 in flight and job 8 queued. *)
Definition busyPool : Pool.WorkerPool Z Z :=
  (Pool.queueTask 8 (Pool.queueTask 7 (Pool.create 1)).2).2.

End ManagerSpec.

(** ** CoordUtils *)

Module CoordUtils.

(** [Math.floor(v / CHUNK_SIZE)] for an integer [v]. *)
Definition worldToChunk (v : Z) : Z := v / CHUNK_SIZE.

(** [((v % CHUNK_SIZE) + CHUNK_SIZE) % CHUNK_SIZE]; the [%] of JavaScript
    takes the sign of the dividend, as [Z.rem] does. *)
Definition worldToLocal (v : Z) : Z :=
  Z.rem (Z.rem v CHUNK_SIZE + CHUNK_SIZE) CHUNK_SIZE.

Definition localToIndex (x y z : Z) : Z := (x * CHUNK_SIZE + z) * CHUNK_HEIGHT + y.

End CoordUtils.

(** ** World *)

(** The facade over [ChunkManager].  World coordinates are numbers with a
    fractional part, here rationals; [Math.floor] is [Qfloor]. *)
Module World.
Import Chunk Manager CoordUtils.

(** [worldY < 0 || worldY >= CHUNK_HEIGHT] *)
Definition outOfHeight (worldY : Q) : bool :=
  negb (Qle_bool 0 worldY) || Qle_bool (inject_Z CHUNK_HEIGHT) worldY.

Definition getBlock (m : ChunkManager) (worldX worldY worldZ : Q) : option Z :=
  if outOfHeight worldY then Some AIR
  else Manager.getBlock m (Qfloor worldX) (Qfloor worldY) (Qfloor worldZ).

Definition setBlock (m : ChunkManager) (worldX worldY worldZ : Q) (blockType : Z)
    : ChunkManager :=
  if outOfHeight worldY then m
  else Manager.setBlock m (Qfloor worldX) (Qfloor worldY) (Qfloor worldZ) blockType.

(** [ChunkManager.getChunk] *)
Definition getChunk (m : ChunkManager) (cx cz : Z) : option Chunk :=
  chunks m !! chunkKey cx cz.

Definition getChunkAtWorld (m : ChunkManager) (worldX worldZ : Q) : option Chunk :=
  getChunk m (worldToChunk (Qfloor worldX)) (worldToChunk (Qfloor worldZ)).

(** The loop [for (y = CHUNK_HEIGHT - 1; y >= 0; y--)] of [getHeightAt], over
    the heights still to visit. *)
Fixpoint scanDown (chunk : Chunk) (lx lz : Z) (ys : list Z) : Z :=
  match ys with
  | [] => -1
  | y :: ys' =>
    if negb (bool_decide (Chunk.getBlock chunk lx y lz = Some AIR)) then y
    else scanDown chunk lx lz ys'
  end.

Definition getHeightAt (m : ChunkManager) (worldX worldZ : Q) : Z :=
  let cx := worldToChunk (Qfloor worldX) in
  let cz := worldToChunk (Qfloor worldZ) in
  match getChunk m cx cz with
  | None => -1
  | Some chunk =>
    let lx := worldToLocal (Qfloor worldX) in
    let lz := worldToLocal (Qfloor worldZ) in
    scanDown chunk lx lz (rev (seqZ 0 CHUNK_HEIGHT))
  end.

End World.

(** ** Invariants of the worker pool *)

Module PoolSpec.
Import Pool.

Section Spec.

Variables (D R : Type).

(** The entries, the [busy] flags and the [resolvers] map agree: the pool
    holds every worker once, a worker is busy exactly when a job is in flight
    on it, and no task waits in the queue while a worker is idle. *)
Definition consistent (pool : WorkerPool D R) : Prop :=
  NoDup (map worker (workers pool)) /\
  (forall e, In e (workers pool) ->
     (busy e = true <-> is_Some (resolvers pool !! worker e))) /\
  (forall w, is_Some (resolvers pool !! w) -> In w (map worker (workers pool))) /\
  (queue pool <> [] -> forall e, In e (workers pool) -> busy e = true).

(** Every promise handed out is in one place: settled, or waiting in the
    queue, or in flight on one worker. *)
Definition accounted (pool : WorkerPool D R) : Prop :=
  (forall p, (p < promises pool)%nat ->
     is_Some (settled pool !! p) \/ queuedJob pool p \/ inFlightJob pool p) /\
  (forall p, is_Some (settled pool !! p) -> (p < promises pool)%nat) /\
  (forall p, queuedJob pool p \/ inFlightJob pool p ->
     (p < promises pool)%nat /\ settled pool !! p = None) /\
  NoDup (map task_promise (queue pool)) /\
  (forall p, queuedJob pool p -> ~ inFlightJob pool p) /\
  (forall w w' t t', resolvers pool !! w = Some t -> resolvers pool !! w' = Some t' ->
     task_promise t = task_promise t' -> w = w').

End Spec.

Arguments consistent {D R} _.
Arguments accounted {D R} _.

End PoolSpec.

(** ** ChunkManager: loading, queueing and unloading chunks *)

Module Lifecycle.
Import Chunk Manager.

Definition RENDER_DISTANCE : Z := 8.
Definition maxGeneratePerFrame : Z := 3.
Definition maxMeshQueuePerFrame : Z := 4.

(** The manager together with the iteration order of its chunk map: a [Map]
    iterates its keys in the order in which they were inserted. *)
Record State := mkState { manager : ChunkManager; order : list (Z * Z) }.

(** A [for] loop over [range] whose condition also asks for [cond]: once
    [cond] fails no further iteration runs. *)
Definition forWhile {S : Type} (cond : S -> bool) (body : S -> Z -> S)
    (range : list Z) (st : S) : S :=
  fold_left (fun s i => if cond s then body s i else s) range st.

(** [if (!this.chunks.has(key)) { ... this.chunks.set(key, chunk); }] with the
    generator installed by [setGenerator], if any; also tells whether a chunk
    was created. *)
Definition createChunk (generateChunk : option (Chunk -> Chunk)) (cx cz : Z)
    (st : State) : State * bool :=
  let key := chunkKey cx cz in
  match chunks (manager st) !! key with
  | Some _ => (st, false)
  | None =>
    let chunk := Chunk.create cx cz in
    let chunk := match generateChunk with Some gen => gen chunk | None => chunk end in
    (mkState (withChunks (manager st) (<[key := chunk]> (chunks (manager st))))
             (order st ++ [key]),
     true)
  end.

(** The body of the innermost loop of [generateNearbyChunks]; the state
    carries the counter [generated]. *)
Definition nearbyCell (generateChunk : option (Chunk -> Chunk)) (pcx pcz ring dx : Z)
    (s : State * Z) (dz : Z) : State * Z :=
  if negb (Z.abs dx =? ring) && negb (Z.abs dz =? ring) then s
  else
    let '(st, created) := createChunk generateChunk (pcx + dx) (pcz + dz) s.1 in
    (st, if created then s.2 + 1 else s.2).

Definition underBudget (s : State * Z) : bool := s.2 <? maxGeneratePerFrame.

Definition generateNearbyChunks (generateChunk : option (Chunk -> Chunk))
    (pcx pcz rd : Z) (st : State) : State :=
  fst (forWhile underBudget
         (fun s ring =>
            forWhile underBudget
              (fun s dx =>
                 forWhile underBudget (nearbyCell generateChunk pcx pcz ring dx)
                          (seqZ (- ring) (2 * ring + 1)) s)
              (seqZ (- ring) (2 * ring + 1)) s)
         (seqZ 0 (rd + 1)) (st, 0)).

(** One entry of [dirtyList]. *)
Record DirtyEntry := mkDirty { d_key : Z * Z; d_chunk : Chunk; d_dist : Z }.

(** The body of the collection loop of [queueDirtyChunks]. *)
Definition collect (m : ChunkManager) (pcx pcz rd : Z) (dirtyList : list DirtyEntry)
    (key : Z * Z) : list DirtyEntry :=
  match chunks m !! key with
  | None => dirtyList
  | Some chunk =>
    if collected m pcx pcz rd key then
      let dx := Chunk.cx chunk - pcx in
      let dz := Chunk.cz chunk - pcz in
      dirtyList ++ [mkDirty key chunk (dx * dx + dz * dz)]
    else dirtyList
  end.

(** [dirtyList.sort((a, b) => a.dist - b.dist)]: the sort is stable, entries
    of equal distance keep their order. *)
Fixpoint insertByDist (e : DirtyEntry) (l : list DirtyEntry) : list DirtyEntry :=
  match l with
  | [] => [e]
  | x :: l' => if d_dist e <? d_dist x then e :: l else x :: insertByDist e l'
  end.

Definition sortByDist (l : list DirtyEntry) : list DirtyEntry :=
  fold_left (fun acc e => insertByDist e acc) l [].

Definition queueDirtyChunks (pcx pcz rd : Z) (st : State) : State :=
  let m := manager st in
  let dirtyList := sortByDist (fold_left (collect m pcx pcz rd) (order st) []) in
  let toQueue := Z.min (Z.of_nat (length dirtyList)) maxMeshQueuePerFrame in
  mkState (fold_left (fun m e => queueChunkMesh (d_key e) m)
                     (firstn (Z.to_nat toQueue) dirtyList) m)
          (order st).

(** [generateInitialChunks] called without [onProgress]. *)
Definition generateInitialChunks (generateChunk : option (Chunk -> Chunk))
    (playerX playerZ : Q) (st : State) : State :=
  let pcx := Qfloor (playerX / inject_Z CHUNK_SIZE) in
  let pcz := Qfloor (playerZ / inject_Z CHUNK_SIZE) in
  let rd := RENDER_DISTANCE in
  let st :=
    fold_left
      (fun st dx =>
         fold_left (fun st dz => (createChunk generateChunk (pcx + dx) (pcz + dz) st).1)
                   (seqZ (- rd) (2 * rd + 1)) st)
      (seqZ (- rd) (2 * rd + 1)) st in
  queueDirtyChunks pcx pcz rd st.

(** The test of the first loop of [unloadDistantChunks]. *)
Definition isDistant (m : ChunkManager) (pcx pcz maxDist : Z) (key : Z * Z) : bool :=
  match chunks m !! key with
  | None => false
  | Some chunk =>
    let dx := Chunk.cx chunk - pcx in
    let dz := Chunk.cz chunk - pcz in
    dx * dx + dz * dz >? maxDist * maxDist
  end.

(** The body of the second loop: the chunk, its meshes in the scene and its
    in-progress mark go. *)
Definition removeChunk (st : State) (key : Z * Z) : State :=
  let m := manager st in
  mkState (mkManager (delete key (chunks m)) (meshingInProgress m ∖ {[key]})
                     (workerPool m) (awaiting m) (blockInfo m)
                     (delete key (sceneMeshes m)) (consoleErrors m))
          (List.filter (fun k => negb (bool_decide (k = key))) (order st)).

Definition unloadDistantChunks (pcx pcz maxDist : Z) (st : State) : State :=
  let toRemove := List.filter (isDistant (manager st) pcx pcz maxDist) (order st) in
  fold_left removeChunk toRemove st.

Definition update (generateChunk : option (Chunk -> Chunk)) (playerX playerZ : Q)
    (st : State) : State :=
  let pcx := Qfloor (playerX / inject_Z CHUNK_SIZE) in
  let pcz := Qfloor (playerZ / inject_Z CHUNK_SIZE) in
  let rd := RENDER_DISTANCE in
  let st := generateNearbyChunks generateChunk pcx pcz rd st in
  let st := queueDirtyChunks pcx pcz rd st in
  unloadDistantChunks pcx pcz (rd + 2) st.

End Lifecycle.

(** ** Predicates used by the proofs about the chunk life cycle *)

Module LifecycleSpec.
Import Chunk Manager Lifecycle.

(** The key list holds the keys of the chunk map, each once. *)
Definition ordered (st : State) : Prop :=
  NoDup (order st) /\
  forall k, k ∈ order st <-> is_Some (chunks (manager st) !! k).

(** Every chunk is stored under the key of its own coordinates. *)
Definition keyed (m : ChunkManager) : Prop :=
  forall k c, chunks m !! k = Some c -> chunkKey (Chunk.cx c) (Chunk.cz c) = k.

(** A generator leaves the (read-only) coordinates of the chunk alone. *)
Definition keepsCoordinates (generateChunk : option (Chunk -> Chunk)) : Prop :=
  forall gen c, generateChunk = Some gen ->
    Chunk.cx (gen c) = Chunk.cx c /\ Chunk.cz (gen c) = Chunk.cz c.

(** The chunk that a generation loop stores for the coordinates. *)
Definition generated (generateChunk : option (Chunk -> Chunk)) (cx cz : Z) : Chunk :=
  match generateChunk with
  | Some gen => gen (Chunk.create cx cz)
  | None => Chunk.create cx cz
  end.

(** The chunk with its dirty flag cleared. *)
Definition cleaned (c : Chunk) : Chunk :=
  mkChunk (Chunk.cx c) (Chunk.cz c) (data c) false.

(** The entry that the collection loop makes for a key, if any. *)
Definition entryOf (m : ChunkManager) (pcx pcz rd : Z) (key : Z * Z)
    : list DirtyEntry :=
  collect m pcx pcz rd [] key.

(** The distance of two dirty entries compares as [sort] needs it. *)
Definition byDist (a b : DirtyEntry) : Prop := d_dist a <= d_dist b.

(** [forWhile] over any list. *)
Definition forWhileL {S A : Type} (cond : S -> bool) (body : S -> A -> S)
    (range : list A) (st : S) : S :=
  fold_left (fun s i => if cond s then body s i else s) range st.

(** The cells that the three loops of [generateNearbyChunks] visit, in order:
    the ring, then [dx], then [dz]. *)
Definition cells (rd : Z) : list (Z * (Z * Z)) :=
  flat_map
    (fun ring =>
       map (pair ring)
           (flat_map (fun dx => map (pair dx) (seqZ (- ring) (2 * ring + 1)))
                     (seqZ (- ring) (2 * ring + 1))))
    (seqZ 0 (rd + 1)).

(** The cell lies on the outer edge of its ring (it is not skipped). *)
Definition onRing (c : Z * (Z * Z)) : bool :=
  (Z.abs c.2.1 =? c.1) || (Z.abs c.2.2 =? c.1).

Definition cellKey (pcx pcz : Z) (c : Z * (Z * Z)) : Z * Z :=
  chunkKey (pcx + c.2.1) (pcz + c.2.2).

(** The keys that a scan of the rings finds without a chunk, in scan order. *)
Definition scanMissing (m : ChunkManager) (pcx pcz : Z)
    (cs : list (Z * (Z * Z))) : list (Z * Z) :=
  List.filter (fun k => negb (bool_decide (is_Some (chunks m !! k))))
              (map (cellKey pcx pcz) (List.filter onRing cs)).

(** The ring of a chunk key around the player's chunk. *)
Definition ringOf (pcx pcz : Z) (k : Z * Z) : Z :=
  Z.max (Z.abs (k.1 - pcx)) (Z.abs (k.2 - pcz)).

(** [st'] is [st] with new chunks under the keys [news], in this order, each
    as the generator made it; nothing else differs. *)
Definition grown (generateChunk : option (Chunk -> Chunk)) (st st' : State)
    (news : list (Z * Z)) : Prop :=
  order st' = order st ++ news /\ NoDup news /\
  (forall k, k ∈ news -> chunks (manager st) !! k = None) /\
  (forall k, chunks (manager st') !! k
             = if bool_decide (k ∈ news) then Some (generated generateChunk k.1 k.2)
               else chunks (manager st) !! k) /\
  meshingInProgress (manager st') = meshingInProgress (manager st) /\
  workerPool (manager st') = workerPool (manager st) /\
  awaiting (manager st') = awaiting (manager st) /\
  blockInfo (manager st') = blockInfo (manager st) /\
  sceneMeshes (manager st') = sceneMeshes (manager st) /\
  consoleErrors (manager st') = consoleErrors (manager st).

(** The squared distance of a chunk key from the player's chunk. *)
Definition dist2 (pcx pcz : Z) (k : Z * Z) : Z :=
  (k.1 - pcx) * (k.1 - pcx) + (k.2 - pcz) * (k.2 - pcz).

(** A state without chunks, and the state after loading the chunks of a key
    list into it, with no generator installed. *)
Definition emptyState : State :=
  mkState (mkManager ∅ ∅ (Pool.create 1) ∅ [] ∅ []) [].

Definition loadAll (keys : list (Z * Z)) : State :=
  fold_left (fun st k => (createChunk None k.1 k.2 st).1) keys emptyState.

(** The chunks around the origin up to ring 7, and of ring 8 the thirteen in
    the middle of the first column. *)
Definition stuckKeys : list (Z * Z) :=
  flat_map (fun dx => map (pair dx) (seqZ (-7) 15)) (seqZ (-7) 15)
  ++ map (pair (-8)) (seqZ (-6) 13).

Definition inStuck (k : Z * Z) : bool :=
  (ringOf 0 0 k <=? 7) || ((k.1 =? -8) && (-6 <=? k.2) && (k.2 <=? 6)).

(** Two chunks, one at the player's chunk and one far from it. *)
Definition twoChunks : State := loadAll [(0, 0); (20, 0)].

End LifecycleSpec.

(** ** ChunkMeshWorker *)

Module MeshWorker.
Import Mesher Manager.

(** The data of a message event.  [neighbors], [light] and [neighborLights]
    are fields that the handler tests before it reads them. *)
Record WorkerData := mkData {
  wd_type : string;
  wd_chunkX : Z;
  wd_chunkZ : Z;
  wd_blocks : Uint8Array;
  wd_neighbors : option NeighborMap;
  wd_blockInfo : list BlockInfo;
  wd_light : option Uint8Array;
  wd_neighborLights : option NeighborMap
}.

(** [toTransferable]: the arrays with their two counts.  The quotient
    [positions.length / 3] is exact on the meshes of [meshChunk]. *)
Definition toTransferable (md : MeshData) : TransferableMeshData :=
  mkTransfer md (Z.of_nat (length (positions md)) / 3)
             (Z.of_nat (length (indices md))).

(** What the handler does with one event: it posts a result, it dies of the
    [TypeError] of the mesher, or it does nothing. *)
Inductive Reaction :=
| Posted (result : MeshResult)
| Uncaught
| Silent.

(** [new Uint8Array(n)]: [n] zero bytes. *)
Definition zeros (n : Z) : Uint8Array := mkU8 n (fun _ => x00).

Definition onmessage (data : WorkerData) : Reaction :=
  if bool_decide (wd_type data = "mesh") then
    let blocks := wd_blocks data in
    let neighbors := default ∅ (wd_neighbors data) in
    let blockInfo := wd_blockInfo data in
    let light := default (zeros (u8_length blocks)) (wd_light data) in
    let neighborLights := default ∅ (wd_neighborLights data) in
    match meshChunk blocks (wd_chunkX data) (wd_chunkZ data) neighbors blockInfo
                    light neighborLights with
    | None => Uncaught
    | Some (opaque, transparent) =>
      Posted (mkResult (wd_chunkX data) (wd_chunkZ data)
                       (toTransferable opaque) (toTransferable transparent))
    end
  else Silent.

(** The message that [queueChunkMesh] builds, as the worker receives it: its
    type is 'mesh' and it has no light fields. *)
Definition received (message : MeshMessage) : WorkerData :=
  mkData "mesh" (chunkX message) (chunkZ message) (msg_blocks message)
         (Some (msg_neighbors message)) (msg_blockInfo message) None None.

(** The message of the job that [queueChunkMesh] queues for a chunk. *)
Definition jobMessage (m : ChunkManager) (chunk : Chunk.Chunk) : MeshMessage :=
  mkMessage (Chunk.cx chunk) (Chunk.cz chunk) (Chunk.data chunk)
            (gatherNeighbors m chunk) (blockInfo m).

(** The main thread receives what worker [w] did with a message: the event
    of a posted result goes to the pool's [onmessage], the event of an
    uncaught error (with text [err]) to its [onerror]. *)
Definition delivered (w : nat) (r : Reaction) (err : string)
    (m : ChunkManager) : ChunkManager :=
  match r with
  | Posted result => workerAnswered w (Pool.Resolved result) m
  | Uncaught => workerAnswered w (Pool.Rejected err) m
  | Silent => m
  end.

End MeshWorker.

(** ** Predicates used by the proofs about mesh jobs *)

Module JobSpec.
Import Mesher Manager.

(** A mesh without a vertex. *)
Definition emptyMesh : MeshData := mkMesh [] [] [] [] [] [].

(** Every byte of the array is 0. *)
Definition allAir (blocks : Uint8Array) : Prop :=
  forall i, 0 <= i < u8_length blocks -> u8_elem blocks i = x00.

(** The four offsets of [neighborKeys]. *)
Definition lateral (k : Z * Z) : bool :=
  bool_decide (k = (-1, 0)) || bool_decide (k = (1, 0))
  || bool_decide (k = (0, -1)) || bool_decide (k = (0, 1)).

(** A manager that holds one chunk of stone at (0,0), with the metadata of
    air and stone, next to a pool of one worker. *)
Definition stoneWorld : ChunkManager :=
  mkManager {[ (0, 0) := ManagerSpec.stoneChunk true ]} ∅ (Pool.create 1) ∅
            Scenario.blockInfo ∅ [].

End JobSpec.

(** ** Predicates used by the proofs about the geometry of a mesh *)

Module GeometrySpec.
Import Mesher.

(** One quad as [pushQuad] receives it: four corners, the normal and the
    light of the face. *)
Record Quad := mkQuad {
  q_corners : Vec3 * Vec3 * Vec3 * Vec3;
  q_normal : Vec3;
  q_light : Z
}.

Definition corners (q : Quad) : list Vec3 :=
  let '(v0, v1, v2, v3) := q_corners q in [v0; v1; v2; v3].

(** The position, normal and light arrays hold the quads, four vertices
    each, in order. *)
Definition quadsOf (positions normals lights : list Z) (quads : list Quad) : Prop :=
  positions = flat_map (fun q => flat_map xyz (corners q)) quads /\
  normals = flat_map (fun q => flat_map xyz (replicate 4 (q_normal q))) quads /\
  lights = flat_map (fun q => replicate 4 (q_light q)) quads.

Definition dot (p q : Vec3) : Z :=
  let '(a, b, c) := p in let '(a', b', c') := q in a * a' + b * b' + c * c'.

(** The world-space box of the chunk [(cx, cz)], faces included. *)
Definition inChunkBox (cx cz : Z) (p : Vec3) : Prop :=
  let '(x, y, z) := p in
  cx * CHUNK_SIZE <= x <= cx * CHUNK_SIZE + CHUNK_SIZE /\
  0 <= y <= CHUNK_HEIGHT /\
  cz * CHUNK_SIZE <= z <= cz * CHUNK_SIZE + CHUNK_SIZE.

(** The normal is one of the six of the table, the corners lie in the box of
    the chunk and in one plane across the normal, and the light is a byte. *)
Definition wellPlaced (cx cz : Z) (q : Quad) : Prop :=
  In (q_normal q) DIRECTION_NORMALS /\
  Forall (inChunkBox cx cz) (corners q) /\
  (exists k, Forall (fun c => dot c (q_normal q) = k) (corners q)) /\
  0 <= q_light q <= 255.

(** A chunk coordinate whose world coordinates, up to the far faces of the
    chunk, are integers of at most 2^24 in size: the [Float32Array] of the
    positions holds them as they are. *)
Definition float32Exact (c : Z) : Prop := - 1048576 <= c < 1048576.

(** The face light packed into a mask value. *)
Definition faceLightOf (maskVal : Z) : Z := Z.land (Z.shiftr maskVal 8) 255.

(** The light byte that a job without light data gives to the voxel
    [(x, y, z)] in front of a face. *)
Definition unlitByte (x y z : Z) : Z :=
  if y >=? CHUNK_HEIGHT then 240
  else if y <? 0 then 0
  else if (0 <=? x) && (x <? CHUNK_SIZE) && (0 <=? z) && (z <? CHUNK_SIZE) then 0
  else 240.

(** The buffers under construction hold well placed quads. *)
Definition placed (cx cz : Z) (tmp : TempArrays) : Prop :=
  exists quads,
    quadsOf (t_positions tmp) (t_normals tmp) (t_lights tmp) quads /\
    Forall (wellPlaced cx cz) quads.

(** The state of the merge loops: every mask cell is empty or a face value of
    which [C] is known, and [P] holds of the two buffers. *)
Definition known (C : Z -> Prop) (P : TempArrays -> Prop)
    (st : list Z * Buffers) : Prop :=
  Forall (fun m => m = 0 \/ C m) st.1 /\ P (b_opaque st.2) /\ P (b_transparent st.2).

End GeometrySpec.

(** ** Predicates used by the proofs about the result of the light engine *)

Module FloodSpec.
Import Light LightSpec.

(** The level that the loop body computes for the neighbour in direction [d]
    of a voxel read at [level] ([newLevel]). *)
Definition proposed (allowFull : bool) (level d : Z) : Z :=
  if allowFull && ((at6 DY d =? -1) && (level =? 15)) then 15 else level - 1.

(** No further step of a flood fill would change the light: every transparent
    neighbour inside the chunk holds at least the level proposed to it. *)
Definition settledLight (blocks : Uint8Array) (isTransparent : list bool)
    (lvl : Uint8Array -> Z -> Z) (allowFull : bool) (light : Uint8Array) : Prop :=
  forall u d, inside u -> 0 <= d < 6 -> inside (toward u d) ->
    transparentAt blocks isTransparent (index (toward u d)) = true ->
    proposed allowFull (lvl light (index u)) d <= lvl light (index (toward u d)).

(** The same while the loop runs: a voxel may still wait in the queue. *)
Definition calm (blocks : Uint8Array) (isTransparent : list bool)
    (lvl : Uint8Array -> Z -> Z) (allowFull : bool)
    (light : Uint8Array) (q : list Vec3) : Prop :=
  forall u d, inside u -> 0 <= d < 6 -> inside (toward u d) ->
    transparentAt blocks isTransparent (index (toward u d)) = true ->
    In u q \/
    proposed allowFull (lvl light (index u)) d <= lvl light (index (toward u d)).

(** The light array has a byte for every voxel of the chunk. *)
Definition covers (light : Uint8Array) : Prop :=
  forall v, inside v -> u8_in light (index v) = true.

End FloodSpec.

(** * Properties *)

(** ** Bytes and typed arrays *)

Lemma byte_to_Z_range (b : byte) : 0 <= byte_to_Z b < 256.
Proof.
  unfold byte_to_Z. pose proof (Byte.to_N_bounded b) as H. lia.
Qed.

Lemma byte_to_of_Z (v : Z) : byte_to_Z (byte_of_Z v) = v mod 256.
Proof.
  unfold byte_to_Z, byte_of_Z.
  assert (Hr : 0 <= v mod 256 < 256) by (apply Z.mod_pos_bound; lia).
  destruct (Byte.of_N (Z.to_N (v mod 256))) as [b|] eqn:E.
  - apply Byte.to_of_N in E. simpl. rewrite E. lia.
  - apply Byte.of_N_None_iff in E. lia.
Qed.

Lemma u8_get_range (a : Uint8Array) (i v : Z) :
  u8_get a i = Some v -> 0 <= v < 256.
Proof.
  unfold u8_get. destruct (u8_in a i); [|discriminate].
  intros [= <-]. apply byte_to_Z_range.
Qed.

Lemma u8_get_same (a b : Uint8Array) (i : Z) :
  u8_same a b -> u8_get a i = u8_get b i.
Proof.
  intros [Hl He]. unfold u8_get, u8_in. rewrite <- Hl.
  destruct (0 <=? i) eqn:E1; [|reflexivity].
  destruct (i <? u8_length a) eqn:E2; [|reflexivity].
  simpl. rewrite He; [reflexivity|lia].
Qed.

Lemma land_pack (id f : Z) :
  0 <= id < 256 -> Z.land (Z.lor id (Z.shiftl f 8)) 255 = id.
Proof.
  intros H. change 255 with (Z.ones 8).
  rewrite Z.land_ones by lia. rewrite Z.shiftl_mul_pow2 by lia.
  rewrite <- Z.land_ones by lia. rewrite Z.land_lor_distr_l.
  rewrite !Z.land_ones by lia. rewrite Z.mod_mul by lia.
  rewrite Z.lor_0_r. apply Z.mod_small. exact H.
Qed.

(** ** Loops that thread an optional state *)

Lemma fold_bind_inv {A B : Type} (I : A -> Prop) (f : B -> A -> option A)
    (l : list B) (a : A) :
  (forall x a0, I a0 -> exists a', f x a0 = Some a' /\ I a') ->
  I a ->
  exists a', fold_left (fun acc x => acc ≫= f x) l (Some a) = Some a' /\ I a'.
Proof.
  intros Hf. revert a. induction l as [|x l IH]; intros a Ha; simpl.
  - eauto.
  - destruct (Hf x a Ha) as (a' & -> & Ha'). apply IH, Ha'.
Qed.

Lemma fold_left_inv {A B : Type} (I : A -> Prop) (f : A -> B -> A)
    (l : list B) (a : A) :
  (forall a0 x, I a0 -> I (f a0 x)) -> I a -> I (fold_left f l a).
Proof.
  intros Hf. revert a. induction l as [|x l IH]; intros a Ha; simpl; auto.
Qed.

Lemma fold_left_inv_in {A B : Type} (I : A -> Prop) (f : A -> B -> A)
    (l : list B) (a : A) :
  (forall a0 x, In x l -> I a0 -> I (f a0 x)) -> I a -> I (fold_left f l a).
Proof.
  revert a. induction l as [|x l IH]; intros a Hf Ha; simpl; [exact Ha|].
  apply IH.
  - intros a0 y Hy. apply Hf. right. exact Hy.
  - apply Hf; [left; reflexivity|exact Ha].
Qed.

Lemma in_seqZ x n : In x (seqZ 0 n) -> 0 <= x < n.
Proof. intros H. apply list_elem_of_In, elem_of_seqZ in H. lia. Qed.

(** ** The mesher keeps every invariant that [pushQuad] keeps *)

Module MesherFacts.
Import Mesher MeshSpec.

Lemma getBlock_range blocks x y z v :
  getBlock blocks x y z = Some v -> 0 <= v < 256.
Proof.
  unfold getBlock. destruct (outside x y z).
  - intros [= <-]. lia.
  - apply u8_get_range.
Qed.

Lemma cell_ok_0 blockInfo : cell_ok blockInfo 0.
Proof. left. reflexivity. Qed.

Lemma maskGet_ok blockInfo mask i :
  Forall (cell_ok blockInfo) mask -> cell_ok blockInfo (maskGet mask i).
Proof.
  intros H. unfold maskGet. destruct (i <? 0); [apply cell_ok_0|].
  destruct (nth_in_or_default (Z.to_nat i) mask 0) as [Hin | ->].
  - rewrite Forall_forall in H. apply H. apply list_elem_of_In, Hin.
  - apply cell_ok_0.
Qed.

Lemma maskSet_ok blockInfo mask i v :
  Forall (cell_ok blockInfo) mask -> cell_ok blockInfo v ->
  Forall (cell_ok blockInfo) (maskSet mask i v).
Proof.
  intros H Hv. unfold maskSet. destruct (i <? 0); [exact H|].
  apply Forall_insert; assumption.
Qed.


Lemma clearRegion_ok blockInfo s mask v u w h :
  Forall (cell_ok blockInfo) mask ->
  Forall (cell_ok blockInfo) (clearRegion s mask v u w h).
Proof.
  intros H. unfold clearRegion.
  apply fold_left_inv; [|exact H]. intros m hh Hm.
  apply fold_left_inv; [|exact Hm]. intros m' ww Hm'.
  apply maskSet_ok; [exact Hm'|apply cell_ok_0].
Qed.

Section Invariant.

Variables (blocks : Uint8Array) (cx cz : Z) (neighborBlocks : NeighborMap)
          (blockInfo : list BlockInfo) (light : Uint8Array)
          (neighborLights : NeighborMap).

Lemma faceVisible_info norm lx ly lz blockId vis :
  faceVisible blocks neighborBlocks blockInfo norm lx ly lz = Some (blockId, vis) ->
  0 < blockId < 256 /\ getBlock blocks lx ly lz = Some blockId /\
  is_Some (lookupInfo blockInfo (Some blockId)).
Proof.
  unfold faceVisible.
  destruct (getBlock blocks lx ly lz) as [id|] eqn:Eg; [|simpl; discriminate].
  pose proof (getBlock_range _ _ _ _ _ Eg) as Hr.
  destruct id as [|p|p]; [discriminate| |lia].
  destruct (lookupInfo blockInfo (Some (Z.pos p))) as [info|] eqn:Ei;
    [|discriminate].
  destruct (vadd (lx, ly, lz) norm) as [[nlx nly] nlz].
  intros [= <- _]. change (toInt (Some (Z.pos p))) with (Z.pos p).
  split; [lia|]. split; [reflexivity|]. rewrite Ei. eexists; reflexivity.
Qed.

Lemma maskCell_ok s norm d mask v u :
  Forall (cell_ok blockInfo) mask ->
  Forall (cell_ok blockInfo)
         (maskCell blocks neighborBlocks blockInfo light neighborLights s norm d mask v u).
Proof.
  intros H. unfold maskCell.
  destruct (place s d u v) as [[lx ly] lz].
  destruct (faceVisible blocks neighborBlocks blockInfo norm lx ly lz)
    as [[blockId [|]]|] eqn:Ev; try exact H.
  apply faceVisible_info in Ev as (Hr & _ & Hi).
  destruct (vadd (lx, ly, lz) norm) as [[nlx nly] nlz].
  apply maskSet_ok; [exact H|]. right. rewrite land_pack by lia. exact Hi.
Qed.

Lemma buildMask_ok s norm d mask :
  Forall (cell_ok blockInfo)
         (buildMask blocks neighborBlocks blockInfo light neighborLights s norm d mask).
Proof.
  unfold buildMask. apply fold_left_inv.
  - intros m v Hm. apply fold_left_inv; [|exact Hm].
    intros m' u Hm'. apply maskCell_ok, Hm'.
  - unfold maskFill. apply Forall_replicate, cell_ok_0.
Qed.

Variable P : TempArrays -> Prop.
Hypothesis P_push : forall tmp v0 v1 v2 v3 n uv x y z dir fl,
  P tmp ->
  P (pushQuad tmp v0 v1 v2 v3 n uv
              (computeFaceAO x y z dir blocks neighborBlocks blockInfo) fl).

Lemma emitQuad_inv dir s norm d v u w h maskVal out :
  cell_ok blockInfo maskVal -> maskVal <> 0 ->
  P (b_opaque out) -> P (b_transparent out) ->
  exists out', emitQuad blocks cx cz neighborBlocks blockInfo dir s norm d v u w h maskVal out
               = Some out' /\ P (b_opaque out') /\ P (b_transparent out').
Proof.
  intros [->|[info Hi]] Hnz Ho Ht; [congruence|].
  unfold emitQuad. rewrite Hi.
  destruct (if dir =? DIR_UP then _ else _) as [[[v0 v1] v2] v3].
  destruct (place s d u v) as [[ax ay] az].
  destruct (bi_transparent info); eexists; (split; [reflexivity|]);
    cbn [b_opaque b_transparent]; split; try assumption; apply P_push; assumption.
Qed.

Lemma mergeRow_inv fuel dir s norm d v u st :
  state_inv blockInfo P st ->
  exists st', mergeRow blocks cx cz neighborBlocks blockInfo fuel dir s norm d v u st
              = Some st' /\ state_inv blockInfo P st'.
Proof.
  revert u st. induction fuel as [|fuel IH]; intros u st Hst; simpl; [eauto|].
  destruct (u <? uSize s); [|eauto].
  destruct st as [mask out]. destruct Hst as (Hm & Ho & Ht). simpl in *.
  destruct (maskGet mask (v * uSize s + u) =? 0) eqn:E0.
  - apply IH. repeat split; assumption.
  - apply Z.eqb_neq in E0.
    edestruct emitQuad_inv as (out' & -> & Ho' & Ht');
      [apply maskGet_ok, Hm|exact E0|exact Ho|exact Ht|].
    apply IH. repeat split; simpl; try assumption. apply clearRegion_ok, Hm.
Qed.

Lemma mergeSlice_inv dir s norm d st :
  state_inv blockInfo P st ->
  exists st', mergeSlice blocks cx cz neighborBlocks blockInfo dir s norm d st
              = Some st' /\ state_inv blockInfo P st'.
Proof.
  intros Hst. unfold mergeSlice.
  apply (fold_bind_inv (state_inv blockInfo P)
           (fun v => mergeRow blocks cx cz neighborBlocks blockInfo
                              (Z.to_nat (uSize s)) dir s norm d v 0)); [|exact Hst].
  intros v st0 H0. apply mergeRow_inv, H0.
Qed.

Lemma meshDir_inv dir out :
  P (b_opaque out) -> P (b_transparent out) ->
  exists out', meshDir blocks cx cz neighborBlocks blockInfo light neighborLights
                       (Some out) dir = Some out' /\
               P (b_opaque out') /\ P (b_transparent out').
Proof.
  intros Ho Ht. unfold meshDir. cbn [mbind option_bind].
  set (s := sweepOf dir).
  set (norm := nth (Z.to_nat dir) DIRECTION_NORMALS (0, 0, 0)).
  edestruct (fold_bind_inv (state_inv blockInfo P)
    (fun d '(mask, o) =>
       mergeSlice blocks cx cz neighborBlocks blockInfo dir s norm d
         (buildMask blocks neighborBlocks blockInfo light neighborLights s norm d mask, o))
    (seqZ 0 (dSize s)) (replicate (Z.to_nat (uSize s * vSize s)) 0, out))
    as (st' & Hst' & Hinv').
  - intros d [mask o] (Hm & Ho' & Ht'). apply mergeSlice_inv.
    repeat split; simpl; try assumption. apply buildMask_ok.
  - repeat split; simpl; try assumption. apply Forall_replicate, cell_ok_0.
  - unfold meshSlice. rewrite Hst'. simpl. eexists; split; [reflexivity|].
    destruct Hinv' as (_ & ? & ?). split; assumption.
Qed.

Lemma meshDirs_inv dirs out :
  P (b_opaque out) -> P (b_transparent out) ->
  exists out',
    fold_left (meshDir blocks cx cz neighborBlocks blockInfo light neighborLights)
              dirs (Some out) = Some out' /\
    P (b_opaque out') /\ P (b_transparent out').
Proof.
  revert out. induction dirs as [|dir dirs IH]; intros out Ho Ht.
  - exists out. repeat split; assumption.
  - cbn [fold_left].
    destruct (meshDir_inv dir out Ho Ht) as (out1 & -> & Ho1 & Ht1).
    apply IH; assumption.
Qed.

Lemma meshChunk_inv :
  P createTemp ->
  exists o t,
    meshChunk blocks cx cz neighborBlocks blockInfo light neighborLights
      = Some (toMeshData o, toMeshData t) /\ P o /\ P t.
Proof.
  intros H0. unfold meshChunk.
  destruct (meshDirs_inv (seqZ 0 6) (mkBuffers createTemp createTemp) H0 H0)
    as ([o t] & -> & Ho & Ht).
  exists o, t. repeat split; assumption.
Qed.

End Invariant.

(** *** The fuel of the merge loops is enough *)

Lemma growWidth_ge fuel s mask v u maskVal w :
  w <= growWidth fuel s mask v u maskVal w.
Proof.
  revert w. induction fuel as [|fuel IH]; intros w; cbn [growWidth]; [lia|].
  destruct (_ && _); [|lia]. specialize (IH (w + 1)). lia.
Qed.

(** [growWidth] stops because the loop condition fails, not for lack of fuel. *)
Lemma growWidth_exit fuel s mask v u maskVal w :
  (Z.to_nat (uSize s - (u + w)) <= fuel)%nat ->
  let w' := growWidth fuel s mask v u maskVal w in
  (u + w' <? uSize s) && (maskGet mask (v * uSize s + u + w') =? maskVal) = false.
Proof.
  revert w. induction fuel as [|fuel IH]; intros w Hf; cbn [growWidth].
  - cbv zeta. destruct (u + w <? uSize s) eqn:E; [|reflexivity].
    apply Z.ltb_lt in E. lia.
  - destruct ((u + w <? uSize s) && _) eqn:E; [|exact E].
    apply IH. apply andb_prop in E as [E _]. apply Z.ltb_lt in E. lia.
Qed.

Lemma growHeight_exit fuel s mask v u w maskVal h :
  (Z.to_nat (vSize s - (v + h)) <= fuel)%nat ->
  let h' := growHeight fuel s mask v u w maskVal h in
  (v + h' <? vSize s) && rowMatches s mask (v + h') u w maskVal = false.
Proof.
  revert h. induction fuel as [|fuel IH]; intros h Hf; cbn [growHeight].
  - cbv zeta. destruct (v + h <? vSize s) eqn:E; [|reflexivity].
    apply Z.ltb_lt in E. lia.
  - destruct ((v + h <? vSize s) && _) eqn:E; [|exact E].
    apply IH. apply andb_prop in E as [E _]. apply Z.ltb_lt in E. lia.
Qed.

(** [mergeRow] reaches the end of the row within the fuel it is given: more
    fuel gives the same result. *)
Lemma mergeRow_fuel blocks cx cz neighborBlocks blockInfo fuel fuel' dir s norm d v u st :
  (Z.to_nat (uSize s - u) <= fuel)%nat -> (fuel <= fuel')%nat ->
  mergeRow blocks cx cz neighborBlocks blockInfo fuel' dir s norm d v u st
  = mergeRow blocks cx cz neighborBlocks blockInfo fuel dir s norm d v u st.
Proof.
  revert fuel' u st. induction fuel as [|fuel IH]; intros fuel' u st Hf Hle.
  - destruct fuel' as [|fuel']; [reflexivity|]. cbn [mergeRow].
    destruct (u <? uSize s) eqn:E; [|reflexivity]. apply Z.ltb_lt in E. lia.
  - destruct fuel' as [|fuel']; [lia|]. cbn [mergeRow].
    destruct (u <? uSize s) eqn:E; [|reflexivity]. apply Z.ltb_lt in E.
    destruct st as [mask out].
    destruct (maskGet mask (v * uSize s + u) =? 0); [apply IH; lia|].
    destruct (emitQuad _ _ _ _ _ _ _ _ _ _ _ _ _ _ _) as [out'|]; [|reflexivity].
    pose proof (growWidth_ge (Z.to_nat (uSize s)) s mask v u
                             (maskGet mask (v * uSize s + u)) 1).
    apply IH; lia.
Qed.

Lemma mergeRow_fuel_enough blocks cx cz neighborBlocks blockInfo k dir s norm d v st :
  mergeRow blocks cx cz neighborBlocks blockInfo (Z.to_nat (uSize s) + k) dir s norm d v 0 st
  = mergeRow blocks cx cz neighborBlocks blockInfo (Z.to_nat (uSize s)) dir s norm d v 0 st.
Proof. apply mergeRow_fuel; [rewrite Z.sub_0_r|]; lia. Qed.

(** *** Slices without a visible face *)

Lemma fold_left_fixed {A B : Type} (f : A -> B -> A) (l : list B) (a : A) :
  (forall x, In x l -> f a x = a) -> fold_left f l a = a.
Proof.
  induction l as [|x l IH]; intros H; simpl; [reflexivity|].
  rewrite (H x) by (left; reflexivity). apply IH.
  intros y Hy. apply H. right. exact Hy.
Qed.

Lemma fold_left_ext_all {A B : Type} (f g : A -> B -> A) (l : list B) (a : A) :
  (forall a0 x, f a0 x = g a0 x) -> fold_left f l a = fold_left g l a.
Proof.
  intros H. revert a. induction l as [|x l IH]; intros a; simpl; [reflexivity|].
  rewrite H. apply IH.
Qed.

Section Skipping.

Variables (blocks : Uint8Array) (cx cz : Z) (neighborBlocks : NeighborMap)
          (blockInfo : list BlockInfo) (light : Uint8Array)
          (neighborLights : NeighborMap).

Lemma buildMask_empty s norm d mask :
  sliceEmpty blocks neighborBlocks blockInfo s norm d = true ->
  buildMask blocks neighborBlocks blockInfo light neighborLights s norm d mask
    = maskFill mask 0.
Proof.
  intros He. unfold sliceEmpty in He. rewrite forallb_forall in He.
  unfold buildMask. apply fold_left_fixed. intros v Hv.
  specialize (He v Hv). rewrite forallb_forall in He.
  apply fold_left_fixed. intros u Hu. specialize (He u Hu).
  unfold cellHidden in He. unfold maskCell.
  destruct (place s d u v) as [[lx ly] lz].
  destruct (faceVisible blocks neighborBlocks blockInfo norm lx ly lz)
    as [[blockId [|]]|]; [discriminate|reflexivity|reflexivity].
Qed.

Lemma maskGet_zeros n i : maskGet (replicate n 0) i = 0.
Proof.
  unfold maskGet. destruct (i <? 0); [reflexivity|].
  destruct (nth_in_or_default (Z.to_nat i) (replicate n 0) 0) as [Hin | ->];
    [|reflexivity].
  apply list_elem_of_In, elem_of_replicate in Hin. apply Hin.
Qed.

Lemma mergeRow_zeros fuel dir s norm d v u n out :
  mergeRow blocks cx cz neighborBlocks blockInfo fuel dir s norm d v u
           (replicate n 0, out) = Some (replicate n 0, out).
Proof.
  revert u. induction fuel as [|fuel IH]; intros u; simpl; [reflexivity|].
  destruct (u <? uSize s); [|reflexivity].
  rewrite maskGet_zeros. simpl. apply IH.
Qed.

Lemma mergeSlice_zeros dir s norm d n out :
  mergeSlice blocks cx cz neighborBlocks blockInfo dir s norm d (replicate n 0, out)
    = Some (replicate n 0, out).
Proof.
  unfold mergeSlice. apply fold_left_fixed. intros v _.
  cbn [mbind option_bind]. apply mergeRow_zeros.
Qed.

Lemma meshSliceSkipping_eq dir s norm acc d :
  meshSliceSkipping blocks cx cz neighborBlocks blockInfo light neighborLights
                    dir s norm acc d
  = meshSlice blocks cx cz neighborBlocks blockInfo light neighborLights
              dir s norm acc d.
Proof.
  unfold meshSliceSkipping, meshSlice. destruct acc as [[mask out]|]; [|reflexivity].
  cbn [mbind option_bind].
  destruct (sliceEmpty blocks neighborBlocks blockInfo s norm d) eqn:He;
    [|reflexivity].
  rewrite (buildMask_empty _ _ _ _ He). unfold maskFill.
  symmetry. apply mergeSlice_zeros.
Qed.

Lemma meshDirSkipping_eq acc dir :
  meshDirSkipping blocks cx cz neighborBlocks blockInfo light neighborLights acc dir
  = meshDir blocks cx cz neighborBlocks blockInfo light neighborLights acc dir.
Proof.
  unfold meshDirSkipping, meshDir. destruct acc as [out|]; [|reflexivity].
  cbn [mbind option_bind]. f_equal.
  apply fold_left_ext_all. intros a0 d. apply meshSliceSkipping_eq.
Qed.

Lemma meshChunkSkipping_eq :
  meshChunkSkipping blocks cx cz neighborBlocks blockInfo light neighborLights
  = meshChunk blocks cx cz neighborBlocks blockInfo light neighborLights.
Proof.
  unfold meshChunkSkipping, meshChunk. f_equal.
  apply fold_left_ext_all. intros a0 d. apply meshDirSkipping_eq.
Qed.

End Skipping.

(** *** The mask holds the visible faces *)




Lemma fold_left_flat_map {A B C : Type} (f : A -> C -> A) (g : B -> list C)
    (l : list B) (a : A) :
  fold_left f (flat_map g l) a = fold_left (fun a0 x => fold_left f (g x) a0) l a.
Proof.
  revert a. induction l as [|x l IH]; intros a; simpl; [reflexivity|].
  rewrite fold_left_app. apply IH.
Qed.



(** *** The quads of a slice are those of its rectangles *)


Section Rects.

Variables (blocks : Uint8Array) (cx cz : Z) (neighborBlocks : NeighborMap)
          (blockInfo : list BlockInfo).
Variables (dir : Z) (s : Sweep) (norm : Vec3) (d : Z).





End Rects.

(** *** Every face is in one rectangle *)






Section Coverage.

Variable s : Sweep.
Hypothesis width16 : uSize s = 16.











End Coverage.

(** *** The visibility test *)

Section Visibility.

Variables (blocks : Uint8Array) (neighborBlocks : NeighborMap)
          (blockInfo : list BlockInfo) (light : Uint8Array)
          (neighborLights : NeighborMap).

Lemma faceValue_nonzero norm lx ly lz blockId :
  faceVisible blocks neighborBlocks blockInfo norm lx ly lz = Some (blockId, true) ->
  faceValue blocks neighborBlocks blockInfo light neighborLights norm lx ly lz <> 0 /\
  Z.land (faceValue blocks neighborBlocks blockInfo light neighborLights norm lx ly lz)
         255 = blockId.
Proof.
  intros Hv. unfold faceValue. rewrite Hv.
  apply faceVisible_info in Hv as (Hr & _ & _).
  destruct (vadd (lx, ly, lz) norm) as [[nlx nly] nlz].
  split; [|apply land_pack; lia].
  intros H0. apply Z.lor_eq_0_iff in H0. lia.
Qed.

Lemma maskCell_faceValue s norm d mask v u :
  maskCell blocks neighborBlocks blockInfo light neighborLights s norm d mask v u
  = let '(lx, ly, lz) := place s d u v in
    let x := faceValue blocks neighborBlocks blockInfo light neighborLights
                       norm lx ly lz in
    if x =? 0 then mask else maskSet mask (v * uSize s + u) x.
Proof.
  unfold maskCell. destruct (place s d u v) as [[lx ly] lz]. cbv zeta.
  destruct (faceVisible blocks neighborBlocks blockInfo norm lx ly lz)
    as [[blockId [|]]|] eqn:Ev.
  - destruct (faceValue_nonzero _ _ _ _ _ Ev) as [Hnz _].
    apply Z.eqb_neq in Hnz. rewrite Hnz.
    unfold faceValue. rewrite Ev.
    destruct (vadd (lx, ly, lz) norm) as [[nlx nly] nlz]. reflexivity.
  - unfold faceValue. rewrite Ev. reflexivity.
  - unfold faceValue. rewrite Ev. reflexivity.
Qed.







End Visibility.

Section Slice.

Variables (blocks : Uint8Array) (cx cz : Z) (neighborBlocks : NeighborMap)
          (blockInfo : list BlockInfo) (light : Uint8Array)
          (neighborLights : NeighborMap).



End Slice.


(** *** The result depends on the bytes of the inputs only *)

Section Determinism.

Variables (blocks blocks' : Uint8Array) (cx cz : Z)
          (neighborBlocks neighborBlocks' : NeighborMap)
          (blockInfo : list BlockInfo) (light light' : Uint8Array)
          (neighborLights neighborLights' : NeighborMap).
Hypothesis same_blocks : u8_same blocks blocks'.
Hypothesis same_neighbors : neighbors_same neighborBlocks neighborBlocks'.
Hypothesis same_light : u8_same light light'.
Hypothesis same_neighborLights : neighbors_same neighborLights neighborLights'.

Lemma getBlock_same x y z : getBlock blocks x y z = getBlock blocks' x y z.
Proof.
  unfold getBlock. destruct (outside x y z); [reflexivity|].
  apply u8_get_same, same_blocks.
Qed.

Lemma getBlockOrNeighbor_same x y z :
  getBlockOrNeighbor blocks x y z neighborBlocks
  = getBlockOrNeighbor blocks' x y z neighborBlocks'.
Proof.
  unfold getBlockOrNeighbor.
  destruct ((y <? 0) || (y >=? CHUNK_HEIGHT)); [reflexivity|].
  destruct (wrapAxis x) as [nx sx]. destruct (wrapAxis z) as [nz sz].
  destruct ((nx =? 0) && (nz =? 0)); [apply u8_get_same, same_blocks|].
  pose proof (same_neighbors (nx, nz)) as H.
  destruct (neighborBlocks !! (nx, nz)), (neighborBlocks' !! (nx, nz));
    try contradiction; [apply u8_get_same, H|reflexivity].
Qed.

Lemma getLightOrNeighbor_same x y z :
  getLightOrNeighbor light x y z neighborLights
  = getLightOrNeighbor light' x y z neighborLights'.
Proof.
  unfold getLightOrNeighbor.
  destruct (y >=? CHUNK_HEIGHT); [reflexivity|].
  destruct (y <? 0); [reflexivity|].
  destruct (wrapAxis x) as [nx sx]. destruct (wrapAxis z) as [nz sz].
  destruct ((nx =? 0) && (nz =? 0)); [apply u8_get_same, same_light|].
  pose proof (same_neighborLights (nx, nz)) as H.
  destruct (neighborLights !! (nx, nz)), (neighborLights' !! (nx, nz));
    try contradiction; [apply u8_get_same, H|reflexivity].
Qed.

Lemma faceVisible_same norm x y z :
  faceVisible blocks neighborBlocks blockInfo norm x y z
  = faceVisible blocks' neighborBlocks' blockInfo norm x y z.
Proof.
  unfold faceVisible. rewrite getBlock_same.
  destruct (vadd (x, y, z) norm) as [[nlx nly] nlz].
  rewrite getBlockOrNeighbor_same. reflexivity.
Qed.

Lemma maskCell_same s norm d mask v u :
  maskCell blocks neighborBlocks blockInfo light neighborLights s norm d mask v u
  = maskCell blocks' neighborBlocks' blockInfo light' neighborLights' s norm d mask v u.
Proof.
  unfold maskCell. destruct (place s d u v) as [[lx ly] lz].
  rewrite faceVisible_same.
  destruct (vadd (lx, ly, lz) norm) as [[nlx nly] nlz].
  rewrite getLightOrNeighbor_same. reflexivity.
Qed.

Lemma buildMask_same s norm d mask :
  buildMask blocks neighborBlocks blockInfo light neighborLights s norm d mask
  = buildMask blocks' neighborBlocks' blockInfo light' neighborLights' s norm d mask.
Proof.
  unfold buildMask. apply fold_left_ext_all. intros m v.
  apply fold_left_ext_all. intros m' u. apply maskCell_same.
Qed.

Lemma computeFaceAO_same x y z dir :
  computeFaceAO x y z dir blocks neighborBlocks blockInfo
  = computeFaceAO x y z dir blocks' neighborBlocks' blockInfo.
Proof.
  unfold computeFaceAO. rewrite !getBlockOrNeighbor_same. reflexivity.
Qed.

Lemma emitQuad_same dir s norm d v u w h maskVal out :
  emitQuad blocks cx cz neighborBlocks blockInfo dir s norm d v u w h maskVal out
  = emitQuad blocks' cx cz neighborBlocks' blockInfo dir s norm d v u w h maskVal out.
Proof.
  unfold emitQuad. destruct (lookupInfo blockInfo _) as [info|]; [|reflexivity].
  destruct (if dir =? DIR_UP then _ else _) as [[[v0 v1] v2] v3].
  destruct (place s d u v) as [[ax ay] az].
  rewrite computeFaceAO_same. reflexivity.
Qed.

Lemma mergeRow_same fuel dir s norm d v u st :
  mergeRow blocks cx cz neighborBlocks blockInfo fuel dir s norm d v u st
  = mergeRow blocks' cx cz neighborBlocks' blockInfo fuel dir s norm d v u st.
Proof.
  revert u st. induction fuel as [|fuel IH]; intros u st; simpl; [reflexivity|].
  destruct (u <? uSize s); [|reflexivity]. destruct st as [mask out].
  destruct (maskGet mask (v * uSize s + u) =? 0); [apply IH|].
  rewrite emitQuad_same.
  destruct (emitQuad blocks' cx cz neighborBlocks' blockInfo _ _ _ _ _ _ _ _ _ _);
    [apply IH|reflexivity].
Qed.

Lemma mergeSlice_same dir s norm d st :
  mergeSlice blocks cx cz neighborBlocks blockInfo dir s norm d st
  = mergeSlice blocks' cx cz neighborBlocks' blockInfo dir s norm d st.
Proof.
  unfold mergeSlice. apply fold_left_ext_all. intros acc v.
  destruct acc as [st0|]; cbn [mbind option_bind]; [|reflexivity].
  apply mergeRow_same.
Qed.

Lemma meshDir_same acc dir :
  meshDir blocks cx cz neighborBlocks blockInfo light neighborLights acc dir
  = meshDir blocks' cx cz neighborBlocks' blockInfo light' neighborLights' acc dir.
Proof.
  unfold meshDir. destruct acc as [out|]; cbn [mbind option_bind]; [|reflexivity].
  f_equal. apply fold_left_ext_all. intros a d. unfold meshSlice.
  destruct a as [[mask o]|]; cbn [mbind option_bind]; [|reflexivity].
  rewrite buildMask_same. apply mergeSlice_same.
Qed.

Lemma meshChunk_same :
  meshChunk blocks cx cz neighborBlocks blockInfo light neighborLights
  = meshChunk blocks' cx cz neighborBlocks' blockInfo light' neighborLights'.
Proof.
  unfold meshChunk. f_equal. apply fold_left_ext_all. intros a dir.
  apply meshDir_same.
Qed.

End Determinism.

Lemma maskFill_length_eq (mask mask' : list Z) v :
  length mask = length mask' -> maskFill mask v = maskFill mask' v.
Proof. unfold maskFill. intros ->. reflexivity. Qed.

(** C4: [meshChunk] is a function of the bytes it is given.  Two invocations
    whose block array, neighbour block arrays, light array and neighbour light
    arrays hold the same bytes (in the same or in different array objects),
    with the same chunk coordinates and block metadata, return the same
    opaque and transparent meshes: same arrays, so same vertex count, values
    and index order.  Nothing is carried from one slice to the next: the mask
    built for a slice does not depend on what the previous slice left in it. *)
Theorem meshChunk_deterministic
    (blocks blocks' : Uint8Array) (cx cz : Z)
    (neighborBlocks neighborBlocks' : NeighborMap)
    (blockInfo : list BlockInfo) (light light' : Uint8Array)
    (neighborLights neighborLights' : NeighborMap) :
  u8_same blocks blocks' ->
  neighbors_same neighborBlocks neighborBlocks' ->
  u8_same light light' ->
  neighbors_same neighborLights neighborLights' ->
  meshChunk blocks cx cz neighborBlocks blockInfo light neighborLights
  = meshChunk blocks' cx cz neighborBlocks' blockInfo light' neighborLights' /\
  (forall s norm d mask mask', length mask = length mask' ->
     buildMask blocks neighborBlocks blockInfo light neighborLights s norm d mask
     = buildMask blocks' neighborBlocks' blockInfo light' neighborLights' s norm d mask').
Proof.
  intros Hb Hn Hl Hnl. split.
  - apply meshChunk_same; assumption.
  - intros s norm d mask mask' Hlen.
    rewrite (buildMask_same blocks blocks' neighborBlocks neighborBlocks'
               blockInfo light light' neighborLights neighborLights'
               Hb Hn Hl Hnl).
    unfold buildMask. rewrite (maskFill_length_eq mask mask' 0 Hlen). reflexivity.
Qed.




Lemma xyz_length v : length (xyz v) = 3%nat.
Proof. destruct v as [[a b] c]. reflexivity. Qed.

Lemma pushQuad_wf tmp v0 v1 v2 v3 n uv ao fl :
  temp_wf tmp -> temp_wf (pushQuad tmp v0 v1 v2 v3 n uv ao fl).
Proof.
  intros (HV & Hp & Hn & Hu & Ha & Hl & Hi & Hb).
  destruct uv as [[[u0 u1] u2] u3]. destruct ao as [[[a0 a1] a2] a3].
  unfold temp_wf, pushQuad.
  cbn [t_vertexCount t_positions t_normals t_uvs t_aos t_lights t_indices].
  rewrite !length_app, !xyz_length. cbn [length].
  repeat split; try lia.
  - destruct (negb _); cbn [length]; lia.
  - apply Forall_app. split.
    + eapply Forall_impl; [exact Hb|]. cbv beta. intros; lia.
    + destruct (negb _); repeat constructor; lia.
Qed.

Lemma createTemp_wf : temp_wf createTemp.
Proof. unfold temp_wf, createTemp. cbn. repeat split; try lia. constructor. Qed.

Lemma toMeshData_wf tmp : temp_wf tmp -> mesh_wf (toMeshData tmp) (t_vertexCount tmp).
Proof. intros H. exact H. Qed.

Lemma mesh_wf_vertexCount m V : mesh_wf m V -> vertexCount m = V.
Proof.
  intros (_ & Hp & _). unfold vertexCount. rewrite Hp.
  rewrite Z.mul_comm. apply Z.div_mul. lia.
Qed.

(** C9: every mesh that [meshChunk] returns, opaque and transparent alike, is
    well formed for its vertex count [V] = positions.length / 3: positions and
    normals hold [3 V] numbers, uvs [2 V], aos and lights [V], there are
    [3/2 V] indices, and every index is below [V].  [meshChunk] returns such
    a pair on every input. *)
Theorem meshChunk_buffers_well_formed
    (blocks : Uint8Array) (cx cz : Z) (neighborBlocks : NeighborMap)
    (blockInfo : list BlockInfo) (light : Uint8Array)
    (neighborLights : NeighborMap) :
  exists opaque transparent,
    meshChunk blocks cx cz neighborBlocks blockInfo light neighborLights
      = Some (opaque, transparent) /\
    mesh_wf opaque (vertexCount opaque) /\
    mesh_wf transparent (vertexCount transparent).
Proof.
  destruct (meshChunk_inv blocks cx cz neighborBlocks blockInfo light
              neighborLights temp_wf) as (o & t & E & Ho & Ht).
  - intros. apply pushQuad_wf. assumption.
  - apply createTemp_wf.
  - exists (toMeshData o), (toMeshData t). split; [exact E|].
    apply toMeshData_wf in Ho, Ht.
    rewrite (mesh_wf_vertexCount _ _ Ho), (mesh_wf_vertexCount _ _ Ht).
    split; assumption.
Qed.


End MesherFacts.

(** ** The light engine *)

Module LightFacts.
Import Light LightSpec.

Lemma u8_get_set_same a i v :
  u8_in a i = true -> u8_get (u8_set a i v) i = Some (v mod 256).
Proof.
  intros H. unfold u8_set. rewrite H. unfold u8_get, u8_in in *. cbn.
  rewrite H. rewrite Z.eqb_refl. rewrite byte_to_of_Z. reflexivity.
Qed.

Lemma u8_get_set_other a i j v : i <> j -> u8_get (u8_set a i v) j = u8_get a j.
Proof.
  intros H. unfold u8_set. destruct (u8_in a i); [|reflexivity].
  unfold u8_get, u8_in. cbn. destruct (_ && _); [|reflexivity].
  destruct (j =? i) eqn:E; [apply Z.eqb_eq in E; congruence|reflexivity].
Qed.

Lemma u8_length_set a i v : u8_length (u8_set a i v) = u8_length a.
Proof. unfold u8_set. destruct (u8_in a i); reflexivity. Qed.

Lemma toInt_Some x : toInt (Some x) = x.
Proof. reflexivity. Qed.

Lemma toInt_get_range a i : 0 <= toInt (u8_get a i) < 256.
Proof.
  destruct (u8_get a i) as [b|] eqn:E; cbn; [|lia].
  apply u8_get_range in E. exact E.
Qed.

Lemma nibbles_table :
  forallb (fun b => forallb (nibbles_ok b) (seqZ 0 16)) (seqZ 0 256) = true.
Proof. vm_compute. reflexivity. Qed.

Lemma nibbles b n : 0 <= b < 256 -> 0 <= n < 16 -> nibbles_ok b n = true.
Proof.
  intros Hb Hn. pose proof nibbles_table as H.
  rewrite forallb_forall in H. specialize (H b).
  rewrite forallb_forall in H. apply H.
  - apply list_elem_of_In, elem_of_seqZ. lia.
  - apply list_elem_of_In, elem_of_seqZ. lia.
Qed.

Ltac nibble_facts b n Hb Hn :=
  let H := fresh "Hnib" in
  pose proof (nibbles b n Hb Hn) as H; unfold nibbles_ok in H; cbv zeta in H;
  repeat (apply andb_prop in H as [H ?]);
  repeat match goal with
         | E : (_ <=? _) = true |- _ => apply Z.leb_le in E
         | E : (_ =? _) = true |- _ => apply Z.eqb_eq in E
         end.

Lemma sunAt_range light i : 0 <= sunAt light i <= 15.
Proof.
  unfold sunAt. pose proof (toInt_get_range light i) as Hb.
  assert (Hn : 0 <= 0 < 16) by lia.
  nibble_facts (toInt (u8_get light i)) 0 Hb Hn. lia.
Qed.

Lemma blockAt_range light i : 0 <= blockAt light i <= 15.
Proof.
  unfold blockAt. pose proof (toInt_get_range light i) as Hb.
  assert (Hn : 0 <= 0 < 16) by lia.
  nibble_facts (toInt (u8_get light i)) 0 Hb Hn. lia.
Qed.

Lemma sunAt_get l l' i : u8_get l i = u8_get l' i -> sunAt l i = sunAt l' i.
Proof. unfold sunAt. intros ->. reflexivity. Qed.

Lemma blockAt_get l l' i : u8_get l i = u8_get l' i -> blockAt l i = blockAt l' i.
Proof. unfold blockAt. intros ->. reflexivity. Qed.

Lemma inside_index p : inside p -> 0 <= index p < CHUNK_VOLUME.
Proof.
  destruct p as [[x y] z]. unfold inside, outOfChunk, index, idx.
  unfold CHUNK_VOLUME, CHUNK_SIZE, CHUNK_HEIGHT. intros H.
  repeat (apply orb_false_elim in H as [H ?]). lia.
Qed.

Lemma index_inj p q : inside p -> inside q -> index p = index q -> p = q.
Proof.
  destruct p as [[x y] z], q as [[x' y'] z'].
  unfold inside, outOfChunk, index, idx, CHUNK_SIZE, CHUNK_HEIGHT.
  intros H H' E.
  repeat (apply orb_false_elim in H as [H ?]).
  repeat (apply orb_false_elim in H' as [H' ?]).
  assert (x = x' /\ y = y' /\ z = z') as (-> & -> & ->) by lia. reflexivity.
Qed.

Lemma sum_list_with_lt {A : Type} (f g : A -> nat) (l : list A) (k : A) :
  (forall i, (g i <= f i)%nat) -> In k l -> (g k < f k)%nat ->
  (sum_list_with g l < sum_list_with f l)%nat.
Proof.
  intros Hle. induction l as [|a l IH]; intros Hin Hlt; [destruct Hin|].
  cbn [sum_list_with]. destruct Hin as [-> | Hin].
  - assert (sum_list_with g l <= sum_list_with f l)%nat.
    { clear IH. induction l as [|b l IHl]; cbn; [lia|]. specialize (Hle b). lia. }
    lia.
  - specialize (IH Hin Hlt). specialize (Hle a). lia.
Qed.

Section Flood.

Variables (blocks : Uint8Array) (isT : list bool).
Variables (lvl other : Uint8Array -> Z -> Z) (allowFull : bool).
Variable visit :
  Z -> Z -> Z -> Z -> Uint8Array * list Vec3 -> Z -> Uint8Array * list Vec3.
Hypothesis lvl_range : forall l i, 0 <= lvl l i <= 15.
Hypothesis lvl_get : forall l l' i, u8_get l i = u8_get l' i -> lvl l i = lvl l' i.
Hypothesis lvl_none : forall l i, u8_get l i = None -> lvl l i = 0.
Hypothesis other_get : forall l l' i, u8_get l i = u8_get l' i -> other l i = other l' i.
Hypothesis visit_relaxed : forall level sx sy sz st d,
  0 <= level <= 15 ->
  relaxed blocks isT lvl other allowFull (sx, sy, sz) level d st
          (visit level sx sy sz st d).
Hypothesis visit_idle : forall level sx sy sz st d,
  level <= 1 -> visit level sx sy sz st d = st.

Lemma lvl_set_other light k v i : i <> k -> lvl (u8_set light k v) i = lvl light i.
Proof. intros H. apply lvl_get. apply u8_get_set_other. congruence. Qed.

Lemma other_set_other light k v i : i <> k -> other (u8_set light k v) i = other light i.
Proof. intros H. apply other_get. apply u8_get_set_other. congruence. Qed.

Lemma deficit_write light k v :
  0 <= k < CHUNK_VOLUME -> lvl light k < lvl (u8_set light k v) k ->
  (deficit lvl (u8_set light k v) < deficit lvl light)%nat.
Proof.
  intros Hk Hlt. unfold deficit. apply sum_list_with_lt with (k := k).
  - intros i. destruct (Z.eq_dec i k) as [-> | Hne].
    + pose proof (lvl_range light k). lia.
    + rewrite lvl_set_other by exact Hne. lia.
  - apply list_elem_of_In, elem_of_seqZ. lia.
  - pose proof (lvl_range (u8_set light k v) k). lia.
Qed.

Lemma queueWeight_length l l' q :
  u8_length l = u8_length l' -> queueWeight l q = queueWeight l' q.
Proof. intros H. unfold queueWeight, u8_in. rewrite H. reflexivity. Qed.

Lemma queueWeight_app light q e :
  queueWeight light (q ++ [e])
  = (queueWeight light q + if u8_in light (index e) then 7 else 1)%nat.
Proof. unfold queueWeight. rewrite sum_list_with_app. cbn. lia. Qed.

Lemma relaxed_inv p level d light q light' q' :
  relaxed blocks isT lvl other allowFull p level d (light, q) (light', q') ->
  (light' = light /\ q' = q) \/
  (exists v newLevel,
     inside (toward p d) /\
     transparentAt blocks isT (index (toward p d)) = true /\
     u8_in light (index (toward p d)) = true /\
     lvl light (index (toward p d)) < newLevel /\
     (newLevel = level - 1 \/
      (allowFull = true /\ newLevel = 15 /\ level = 15 /\ at6 DY d = -1)) /\
     lvl (u8_set light (index (toward p d)) v) (index (toward p d)) = newLevel /\
     other (u8_set light (index (toward p d)) v) (index (toward p d))
       = other light (index (toward p d)) /\
     light' = u8_set light (index (toward p d)) v /\
     q' = q ++ [toward p d]) \/
  (inside (toward p d) /\ u8_in light (index (toward p d)) = false /\
   light' = light /\ q' = q ++ [toward p d]).
Proof.
  intros H. inversion H; subst;
    [left; split; reflexivity|right; left|right; right].
  - eexists _, _. repeat split; first [eassumption | reflexivity].
  - repeat split; assumption.
Qed.

(** What one pass of the loop body does to the light array as a whole. *)
Lemma relaxed_effect p level d light q light' q' :
  relaxed blocks isT lvl other allowFull p level d (light, q) (light', q') ->
  (work lvl light' q' <= work lvl light q + 1)%nat /\
  u8_length light' = u8_length light /\
  (forall i, lvl light i <= lvl light' i) /\
  (forall i, other light' i = other light i) /\
  (Forall inside q -> Forall inside q').
Proof.
  intros H. apply relaxed_inv in H
    as [[-> ->] | [(v & newLevel & Hin & Ht & Hu & Hlt & Hnew & Hw & Ho & -> & ->)
                  | (Hin & Hu & -> & ->)]].
  - repeat split; auto; intros; lia.
  - pose proof (inside_index _ Hin) as Hk.
    rewrite <- Hw in Hlt.
    repeat split.
    + unfold work.
      rewrite (queueWeight_length _ light) by apply u8_length_set.
      rewrite queueWeight_app, Hu.
      pose proof (deficit_write light _ v Hk Hlt). lia.
    + apply u8_length_set.
    + intros i. destruct (Z.eq_dec i (index (toward p d))) as [-> | Hne].
      * lia.
      * rewrite lvl_set_other by exact Hne. lia.
    + intros i. destruct (Z.eq_dec i (index (toward p d))) as [-> | Hne].
      * exact Ho.
      * apply other_set_other. exact Hne.
    + intros Hq. apply Forall_app. split; [exact Hq|]. repeat constructor. exact Hin.
  - split; [|split; [|split; [|split]]].
    + unfold work. rewrite queueWeight_app, Hu. lia.
    + reflexivity.
    + intros; lia.
    + reflexivity.
    + intros Hq. apply Forall_app. split; [exact Hq|]. repeat constructor. exact Hin.
Qed.

Lemma visits_effect level sx sy sz ds light q light' q' :
  0 <= level <= 15 ->
  fold_left (visit level sx sy sz) ds (light, q) = (light', q') ->
  (work lvl light' q' <= work lvl light q + length ds)%nat /\
  u8_length light' = u8_length light /\
  (forall i, lvl light i <= lvl light' i) /\
  (forall i, other light' i = other light i) /\
  (Forall inside q -> Forall inside q').
Proof.
  intros Hl. revert light q. induction ds as [|d ds IH]; intros light q E.
  - cbn in E. injection E as <- <-. repeat split; auto; intros; lia.
  - cbn [fold_left] in E.
    pose proof (visit_relaxed level sx sy sz (light, q) d Hl) as Hr.
    destruct (visit level sx sy sz (light, q) d) as [l1 q1].
    apply relaxed_effect in Hr as (Hm & Hlen1 & Hmono & Hoth & Hq).
    apply IH in E as (Hm' & Hlen' & Hmono' & Hoth' & Hq').
    repeat split.
    + cbn [length]. lia.
    + congruence.
    + intros i. specialize (Hmono i). specialize (Hmono' i). lia.
    + intros i. rewrite Hoth'. apply Hoth.
    + auto.
Qed.

Lemma visits_idle level sx sy sz ds st :
  level <= 1 -> fold_left (visit level sx sy sz) ds st = st.
Proof.
  intros H. induction ds as [|d ds IH]; [reflexivity|].
  cbn [fold_left]. rewrite visit_idle by exact H. exact IH.
Qed.

(** The loop runs to its end when the fuel covers the work left. *)
Lemma flood_terminates fuel light q :
  (work lvl light q <= fuel)%nat ->
  exists out, flood lvl visit fuel light q = Some out /\
              u8_length out = u8_length light.
Proof.
  revert light q. induction fuel as [|fuel IH]; intros light q Hm.
  - destruct q as [|[[sx sy] sz] rest].
    + exists light. split; reflexivity.
    + unfold work, queueWeight in Hm. cbn [sum_list_with] in Hm.
      destruct (u8_in light (index (sx, sy, sz))); lia.
  - destruct q as [|[[sx sy] sz] rest]; [exists light; split; reflexivity|].
    cbn [flood].
    destruct (fold_left (visit (lvl light (idx sx sy sz)) sx sy sz) (seqZ 0 6)
                        (light, rest)) as [l1 q1] eqn:E.
    assert (Hstep : (work lvl l1 q1 <= fuel)%nat /\ u8_length l1 = u8_length light).
    { unfold work, queueWeight in Hm. cbn [sum_list_with] in Hm.
      fold (queueWeight light rest) in Hm.
      destruct (u8_in light (index (sx, sy, sz))) eqn:Ein.
      - apply visits_effect in E as (Hm1 & Hlen1 & _); [|apply lvl_range].
        change (length (seqZ 0 6)) with 6%nat in Hm1.
        unfold work in Hm1 at 2. split; [lia|exact Hlen1].
      - assert (Hz : lvl light (idx sx sy sz) = 0).
        { apply lvl_none. unfold u8_get. cbn [index] in Ein. rewrite Ein. reflexivity. }
        rewrite visits_idle in E by lia. injection E as <- <-.
        split; [unfold work; lia|reflexivity]. }
    destruct Hstep as [Hw Hlen1].
    destruct (IH l1 q1 Hw) as (out & Hout & Hlo).
    exists out. split; [exact Hout|congruence].
Qed.

(** More fuel does not change the result. *)
Lemma flood_more_fuel fuel fuel' light q out :
  flood lvl visit fuel light q = Some out -> (fuel <= fuel')%nat ->
  flood lvl visit fuel' light q = Some out.
Proof.
  revert fuel' light q. induction fuel as [|fuel IH]; intros fuel' light q H Hle.
  - destruct q as [|[[sx sy] sz] rest]; [|discriminate].
    destruct fuel'; exact H.
  - destruct q as [|[[sx sy] sz] rest]; [destruct fuel'; exact H|].
    destruct fuel' as [|fuel']; [lia|]. cbn [flood] in *.
    destruct (fold_left _ _ _) as [l1 q1]. apply IH; [exact H|lia].
Qed.

Variable source : Vec3 -> Prop.

Lemma relaxed_supported p level d light q light' q' :
  relaxed blocks isT lvl other allowFull p level d (light, q) (light', q') ->
  0 <= d < 6 -> inside p -> level <= lvl light (index p) ->
  supported blocks isT lvl source light -> supported blocks isT lvl source light'.
Proof.
  intros H Hd Hp Hlev Hs. apply relaxed_inv in H
    as [[-> ->] | [(v & newLevel & Hin & Ht & Hu & Hlt & Hnew & Hw & Ho & -> & ->)
                  | (Hin & Hu & -> & ->)]];
    [exact Hs| |exact Hs].
  set (n := toward p d) in *.
  assert (Hle : newLevel <= level) by (destruct Hnew as [?|(?&?&?&?)]; lia).
  assert (Hmono : forall i, lvl light i <= lvl (u8_set light (index n) v) i).
  { intros i. destruct (Z.eq_dec i (index n)) as [-> | Hne]; [lia|].
    rewrite lvl_set_other by exact Hne. lia. }
  intros u Hu' Hpos.
  destruct (Z.eq_dec (index u) (index n)) as [E | Hne].
  - assert (u = n) as -> by (apply index_inj; assumption).
    rewrite Hw. rewrite Hw in Hpos.
    destruct (Hs p Hp) as (path & Hpath & Hlv); [lia|].
    exists (n :: path). split.
    + eapply path_step; [exact Hpath| |exact Hin|exact Ht].
      exists d. split; [exact Hd|reflexivity].
    + intros w [<- | Hw']; [rewrite Hw; lia|].
      specialize (Hlv w Hw'). specialize (Hmono (index w)). lia.
  - rewrite lvl_set_other in Hpos |- * by exact Hne.
    destruct (Hs u Hu' Hpos) as (path & Hpath & Hlv).
    exists path. split; [exact Hpath|].
    intros w Hw'. specialize (Hlv w Hw'). specialize (Hmono (index w)). lia.
Qed.

Lemma visits_supported level sx sy sz ds light q light' q' :
  0 <= level <= 15 ->
  Forall (fun d => 0 <= d < 6) ds ->
  inside (sx, sy, sz) -> level <= lvl light (idx sx sy sz) ->
  fold_left (visit level sx sy sz) ds (light, q) = (light', q') ->
  supported blocks isT lvl source light -> supported blocks isT lvl source light'.
Proof.
  intros Hl. revert light q.
  induction ds as [|d ds IH]; intros light q Hds Hp Hlev E Hs.
  - cbn in E. injection E as <- <-. exact Hs.
  - cbn [fold_left] in E. inversion Hds as [|? ? Hd Hds']; subst.
    pose proof (visit_relaxed level sx sy sz (light, q) d Hl) as Hr.
    destruct (visit level sx sy sz (light, q) d) as [l1 q1].
    pose proof (relaxed_effect _ _ _ _ _ _ _ Hr) as (_ & Hlen1 & Hmono & _).
    eapply (IH l1 q1); [exact Hds'|exact Hp| |exact E|].
    + specialize (Hmono (idx sx sy sz)). lia.
    + eapply relaxed_supported; [exact Hr|exact Hd|exact Hp|exact Hlev|exact Hs].
Qed.

Lemma seqZ_6_range : Forall (fun d => 0 <= d < 6) (seqZ 0 6).
Proof. apply Forall_forall. intros d Hd. apply elem_of_seqZ in Hd. lia. Qed.

Lemma flood_supported fuel light q out :
  flood lvl visit fuel light q = Some out ->
  Forall inside q ->
  supported blocks isT lvl source light ->
  supported blocks isT lvl source out /\
  (forall i, other out i = other light i) /\
  (forall i, lvl light i <= lvl out i).
Proof.
  revert light q. induction fuel as [|fuel IH]; intros light q H Hq Hs.
  - destruct q as [|[[sx sy] sz] rest]; [|discriminate].
    injection H as <-. repeat split; auto. intros; lia.
  - destruct q as [|[[sx sy] sz] rest].
    { injection H as <-. repeat split; auto. intros; lia. }
    cbn [flood] in H.
    destruct (fold_left (visit (lvl light (idx sx sy sz)) sx sy sz) (seqZ 0 6)
                        (light, rest)) as [l1 q1] eqn:E.
    inversion Hq as [|? ? Hp Hrest]; subst.
    pose proof (visits_effect _ _ _ _ _ _ _ _ _ (lvl_range light _) E)
      as (_ & Hlen1 & Hmono & Hoth & Hq1).
    pose proof (visits_supported _ _ _ _ _ _ _ _ _ (lvl_range light _)
                  seqZ_6_range Hp (Z.le_refl _) E Hs) as Hs1.
    apply IH in H as (Hso & Hoo & Hmo); [|auto|exact Hs1].
    repeat split; [exact Hso| |].
    + intros i. rewrite Hoo. apply Hoth.
    + intros i. specialize (Hmono i). specialize (Hmo i). lia.
Qed.

(** A voxel that every path to [b] crosses is at least as bright as [b]. *)
Lemma supported_onlyThrough light a b :
  supported blocks isT lvl source light -> inside b ->
  onlyThrough blocks isT source a b ->
  lvl light (index b) <= lvl light (index a).
Proof.
  intros Hs Hb Hcut.
  destruct (Z_lt_le_dec 0 (lvl light (index b))) as [Hpos | Hz].
  - destruct (Hs b Hb Hpos) as (path & Hpath & Hlv).
    apply Hlv, Hcut, Hpath.
  - pose proof (lvl_range light (index a)). lia.
Qed.

End Flood.

Section Engine.

Variables (blocks : Uint8Array) (isT : list bool) (emissions : list Z).

Lemma sunAt_none l i : u8_get l i = None -> sunAt l i = 0.
Proof. unfold sunAt. intros ->. reflexivity. Qed.

Lemma blockAt_none l i : u8_get l i = None -> blockAt l i = 0.
Proof. unfold blockAt. intros ->. reflexivity. Qed.

Lemma u8_set_outside a i v : u8_in a i = false -> u8_set a i v = a.
Proof. unfold u8_set. intros ->. reflexivity. Qed.

Lemma sunVisit_relaxed level sx sy sz st d :
  0 <= level <= 15 ->
  relaxed blocks isT sunAt blockAt true (sx, sy, sz) level d st
          (sunVisit blocks isT level sx sy sz st d).
Proof.
  intros Hl. destruct st as [light q]. unfold sunVisit.
  destruct (outOfChunk _ _ _) eqn:Eout; [constructor|].
  destruct (transparentAt blocks isT _) eqn:Et; cbn [negb]; [|constructor].
  set (newLevel := if (at6 DY d =? -1) && (level =? 15) then 15 else level - 1).
  destruct (newLevel <=? 0) eqn:E0; [constructor|]. apply Z.leb_gt in E0.
  destruct (newLevel >? _) eqn:Egt; [|constructor].
  apply Z.gtb_lt in Egt.
  set (ni := idx (sx + at6 DX d) (sy + at6 DY d) (sz + at6 DZ d)) in *.
  destruct (u8_in light ni) eqn:Hin.
  - assert (Hn : 0 <= newLevel < 16).
    { unfold newLevel in *. destruct (_ && _); lia. }
    pose proof (toInt_get_range light ni) as Hb.
    nibble_facts (toInt (u8_get light ni)) newLevel Hb Hn.
    apply (relaxed_write blocks isT sunAt blockAt true (sx, sy, sz) level d light q _
                         newLevel).
    + exact Eout.
    + exact Et.
    + exact Hin.
    + exact Egt.
    + unfold newLevel. destruct ((at6 DY d =? -1) && (level =? 15)) eqn:E;
        [right|left; reflexivity].
      apply andb_prop in E as [E1 E2]. apply Z.eqb_eq in E1, E2. auto.
    + cbn [index toward]. fold ni. unfold sunAt.
      rewrite u8_get_set_same by exact Hin. rewrite toInt_Some. congruence.
    + cbn [index toward]. fold ni. unfold blockAt.
      rewrite u8_get_set_same by exact Hin. rewrite toInt_Some. congruence.
  - rewrite u8_set_outside by exact Hin.
    apply (relaxed_lost blocks isT sunAt blockAt true (sx, sy, sz) level d light q);
      [exact Eout|exact Hin].
Qed.

Lemma sunVisit_idle level sx sy sz st d :
  level <= 1 -> sunVisit blocks isT level sx sy sz st d = st.
Proof.
  intros Hl. destruct st as [light q]. unfold sunVisit.
  destruct (outOfChunk _ _ _); [reflexivity|].
  destruct (negb _); [reflexivity|].
  destruct ((at6 DY d =? -1) && (level =? 15)) eqn:E.
  - apply andb_prop in E as [_ E]. apply Z.eqb_eq in E. lia.
  - destruct (level - 1 <=? 0) eqn:E0; [reflexivity|]. apply Z.leb_gt in E0. lia.
Qed.

Lemma blockVisit_relaxed level bx by_ bz st d :
  0 <= level <= 15 ->
  relaxed blocks isT blockAt sunAt false (bx, by_, bz) level d st
          (blockVisit blocks isT level bx by_ bz st d).
Proof.
  intros Hl. destruct st as [light q]. unfold blockVisit.
  destruct (outOfChunk _ _ _) eqn:Eout; [constructor|].
  destruct (transparentAt blocks isT _) eqn:Et; cbn [negb]; [|constructor].
  destruct (level - 1 <=? 0) eqn:E0; [constructor|]. apply Z.leb_gt in E0.
  destruct (level - 1 >? _) eqn:Egt; [|constructor].
  apply Z.gtb_lt in Egt.
  set (ni := idx (bx + at6 DX d) (by_ + at6 DY d) (bz + at6 DZ d)) in *.
  destruct (u8_in light ni) eqn:Hin.
  - assert (Hn : 0 <= level - 1 < 16) by lia.
    pose proof (toInt_get_range light ni) as Hb.
    nibble_facts (toInt (u8_get light ni)) (level - 1) Hb Hn.
    apply (relaxed_write blocks isT blockAt sunAt false (bx, by_, bz) level d light q _
                         (level - 1)).
    + exact Eout.
    + exact Et.
    + exact Hin.
    + exact Egt.
    + left. reflexivity.
    + cbn [index toward]. fold ni. unfold blockAt.
      rewrite u8_get_set_same by exact Hin. rewrite toInt_Some. congruence.
    + cbn [index toward]. fold ni. unfold sunAt.
      rewrite u8_get_set_same by exact Hin. rewrite toInt_Some. congruence.
  - rewrite u8_set_outside by exact Hin.
    apply (relaxed_lost blocks isT blockAt sunAt false (bx, by_, bz) level d light q);
      [exact Eout|exact Hin].
Qed.

Lemma blockVisit_idle level bx by_ bz st d :
  level <= 1 -> blockVisit blocks isT level bx by_ bz st d = st.
Proof.
  intros Hl. destruct st as [light q]. unfold blockVisit.
  destruct (outOfChunk _ _ _); [reflexivity|].
  destruct (negb _); [reflexivity|].
  destruct (level - 1 <=? 0) eqn:E0; [reflexivity|]. apply Z.leb_gt in E0. lia.
Qed.

Lemma sunFlood_flood fuel light q :
  sunFlood blocks isT fuel light q = flood sunAt (sunVisit blocks isT) fuel light q.
Proof.
  revert light q. induction fuel as [|fuel IH]; intros light q;
    destruct q as [|[[sx sy] sz] rest]; try reflexivity.
  cbn [sunFlood flood]. destruct (fold_left _ _ _) as [l1 q1]. apply IH.
Qed.

Lemma blockFlood_flood fuel light q :
  blockFlood blocks isT fuel light q = flood blockAt (blockVisit blocks isT) fuel light q.
Proof.
  revert light q. induction fuel as [|fuel IH]; intros light q;
    destruct q as [|[[bx by_] bz] rest]; try reflexivity.
  cbn [blockFlood flood]. destruct (fold_left _ _ _) as [l1 q1]. apply IH.
Qed.

(** *** The column scan *)

Lemma in_heightsDown y : In y heightsDown -> 0 <= y < CHUNK_HEIGHT.
Proof. unfold heightsDown. rewrite <- in_rev. apply in_seqZ. Qed.

Lemma inside_intro x y z :
  0 <= x < CHUNK_SIZE -> 0 <= y < CHUNK_HEIGHT -> 0 <= z < CHUNK_SIZE ->
  inside (x, y, z).
Proof.
  unfold inside, outOfChunk, CHUNK_SIZE, CHUNK_HEIGHT. intros Hx Hy Hz.
  repeat (apply orb_false_intro); lia.
Qed.

Lemma u8_get_fill a v i :
  u8_get (u8_fill a v) i = None \/ u8_get (u8_fill a v) i = Some (v mod 256).
Proof.
  unfold u8_get, u8_fill, u8_in. cbn.
  destruct (_ && _); [right|left; reflexivity].
  rewrite byte_to_of_Z. reflexivity.
Qed.

Lemma columnBytes_fill light : columnBytes blocks isT (u8_fill light 0).
Proof.
  intros i. destruct (u8_get_fill light 0 i) as [-> | ->]; [left|right; left];
    reflexivity.
Qed.

Lemma columnBytes_set light p :
  skyLit blocks isT p -> columnBytes blocks isT light ->
  columnBytes blocks isT (u8_set light (index p) 240).
Proof.
  intros Hp Hl i. destruct (Z.eq_dec i (index p)) as [-> | Hne].
  - destruct (u8_in light (index p)) eqn:Hin.
    + right. right. split; [apply u8_get_set_same, Hin|]. exists p. auto.
    + rewrite u8_set_outside by exact Hin. apply Hl.
  - rewrite u8_get_set_other by congruence. apply Hl.
Qed.

Lemma columnSun_bytes x z (n : nat) light :
  0 <= x < CHUNK_SIZE -> 0 <= z < CHUNK_SIZE -> Z.of_nat n <= CHUNK_HEIGHT ->
  (forall y', Z.of_nat n <= y' < CHUNK_HEIGHT -> transparentAt blocks isT (idx x y' z) = true) ->
  columnBytes blocks isT light ->
  columnBytes blocks isT (columnSun blocks isT x z (rev (seqZ 0 (Z.of_nat n))) light).
Proof.
  intros Hx Hz. revert light. induction n as [|n IH]; intros light Hn Habove Hl.
  - exact Hl.
  - rewrite seqZ_S, rev_app_distr. cbn [rev app columnSun]. rewrite Z.add_0_l.
    destruct (transparentAt blocks isT (idx x (Z.of_nat n) z)) eqn:Et; [|exact Hl].
    assert (Hsky : skyLit blocks isT (x, Z.of_nat n, z)).
    { split; [apply inside_intro; lia|].
      intros y' Hy'. destruct (Z.eq_dec y' (Z.of_nat n)) as [-> | Hne];
        [exact Et|apply Habove; lia]. }
    apply IH; [lia| |].
    + intros y' Hy'. destruct Hsky as [_ Hs]. apply Hs. lia.
    + apply (columnBytes_set light (x, Z.of_nat n, z)); assumption.
Qed.

Lemma columnSunlight_bytes light :
  columnBytes blocks isT light -> columnBytes blocks isT (columnSunlight blocks isT light).
Proof.
  intros Hl. unfold columnSunlight.
  apply fold_left_inv_in; [|exact Hl]. intros l x Hx Hl1.
  apply fold_left_inv_in; [|exact Hl1]. intros l' z Hz Hl2.
  apply in_seqZ in Hx, Hz. unfold heightsDown.
  change CHUNK_HEIGHT with (Z.of_nat 256).
  apply columnSun_bytes; try assumption.
  - change (Z.of_nat 256) with CHUNK_HEIGHT. lia.
  - intros y' Hy'. change (Z.of_nat 256) with CHUNK_HEIGHT in Hy'. lia.
Qed.

Lemma columnBytes_levels light :
  columnBytes blocks isT light ->
  litAtSources sunAt (skyLit blocks isT) light /\ (forall i, blockAt light i = 0).
Proof.
  intros Hl. split.
  - intros i Hpos. unfold sunAt in Hpos.
    destruct (Hl i) as [E | [E | [E Hp]]]; rewrite E in Hpos;
      [change (0 < 0) in Hpos; lia|change (0 < 0) in Hpos; lia|exact Hp].
  - intros i. unfold blockAt.
    destruct (Hl i) as [E | [E | [E _]]]; rewrite E; reflexivity.
Qed.

Lemma litAtSources_supported lvl source light :
  (forall p, source p -> inside p) ->
  litAtSources lvl source light -> supported blocks isT lvl source light.
Proof.
  intros Hsrc Hl v Hv Hpos. destruct (Hl _ Hpos) as (p & Hp & E).
  assert (p = v) as -> by (apply index_inj; auto).
  exists [v]. split; [constructor; exact Hp|].
  intros u [<- | []]. lia.
Qed.

Lemma supported_same_levels lvl source l l' :
  (forall i, lvl l' i = lvl l i) ->
  supported blocks isT lvl source l -> supported blocks isT lvl source l'.
Proof.
  intros E Hs v Hv Hpos. rewrite E in Hpos.
  destruct (Hs v Hv Hpos) as (path & Hpath & Hlv).
  exists path. split; [exact Hpath|]. intros u Hu. rewrite !E. apply Hlv, Hu.
Qed.

Lemma skyLit_inside p : skyLit blocks isT p -> inside p.
Proof. destruct p as [[x y] z]. intros [H _]. exact H. Qed.

(** *** The seeds of the two floods *)

Lemma seedSunCell_inside light x z st y :
  inside (x, y, z) -> Forall inside st.2 ->
  Forall inside (seedSunCell blocks isT light x z st y).2.
Proof.
  intros Hp Hq. destruct st as [fd q]. unfold seedSunCell. cbn [snd] in *.
  destruct (_ && _).
  - destruct (isFrontier blocks isT light x y z); cbn [snd]; [|exact Hq].
    apply Forall_app. split; [exact Hq|]. repeat constructor. exact Hp.
  - destruct (_ <? _); exact Hq.
Qed.

Lemma sunSeeds_inside light : Forall inside (sunSeeds blocks isT light).
Proof.
  unfold sunSeeds. apply fold_left_inv_in; [|constructor]. intros q x Hx Hq.
  apply fold_left_inv_in; [|exact Hq]. intros q' z Hz Hq'.
  apply (fold_left_inv_in (fun st => Forall inside st.2)); [|exact Hq'].
  intros st y Hy Hst. apply in_seqZ in Hx, Hz. apply in_heightsDown in Hy.
  apply seedSunCell_inside; [apply inside_intro; assumption|exact Hst].
Qed.

(** *** Both loops run to their end *)

Lemma sunFlood_terminates light q :
  exists out, u8_length out = u8_length light /\
    forall fuel, (work sunAt light q <= fuel)%nat ->
                 sunFlood blocks isT fuel light q = Some out.
Proof.
  destruct (flood_terminates blocks isT sunAt blockAt true (sunVisit blocks isT)
              sunAt_range sunAt_get sunAt_none blockAt_get
              sunVisit_relaxed sunVisit_idle
              (work sunAt light q) light q (Nat.le_refl _)) as (out & Hout & Hlen).
  exists out. split; [exact Hlen|]. intros fuel Hf. rewrite sunFlood_flood.
  eapply flood_more_fuel; [exact Hout|exact Hf].
Qed.

Lemma blockFlood_terminates light q :
  exists out, u8_length out = u8_length light /\
    forall fuel, (work blockAt light q <= fuel)%nat ->
                 blockFlood blocks isT fuel light q = Some out.
Proof.
  destruct (flood_terminates blocks isT blockAt sunAt false (blockVisit blocks isT)
              blockAt_range blockAt_get blockAt_none sunAt_get
              blockVisit_relaxed blockVisit_idle
              (work blockAt light q) light q (Nat.le_refl _)) as (out & Hout & Hlen).
  exists out. split; [exact Hlen|]. intros fuel Hf. rewrite blockFlood_flood.
  eapply flood_more_fuel; [exact Hout|exact Hf].
Qed.

(** The run of [calculateLight]: the light after the sunlight flood, the
    final light, and the fuel from which on both are reached. *)
Lemma calculateLight_run light :
  let light1 := columnSunlight blocks isT (u8_fill light 0) in
  exists fuel light2 out,
    forall fuel', (fuel <= fuel')%nat ->
      sunFlood blocks isT fuel' light1 (sunSeeds blocks isT light1) = Some light2 /\
      blockFlood blocks isT fuel' (blockSeeds blocks emissions light2).1
                 (blockSeeds blocks emissions light2).2 = Some out /\
      calculateLight blocks isT emissions fuel' light = Some out.
Proof.
  intros light1.
  destruct (sunFlood_terminates light1 (sunSeeds blocks isT light1))
    as (light2 & _ & H2).
  destruct (blockFlood_terminates (blockSeeds blocks emissions light2).1
                                  (blockSeeds blocks emissions light2).2)
    as (out & _ & H3).
  exists (Nat.max (work sunAt light1 (sunSeeds blocks isT light1))
                  (work blockAt (blockSeeds blocks emissions light2).1
                        (blockSeeds blocks emissions light2).2)),
         light2, out.
  intros fuel' Hf.
  assert (E2 : sunFlood blocks isT fuel' light1 (sunSeeds blocks isT light1) = Some light2)
    by (apply H2; lia).
  assert (E3 : blockFlood blocks isT fuel' (blockSeeds blocks emissions light2).1
                          (blockSeeds blocks emissions light2).2 = Some out)
    by (apply H3; lia).
  split; [exact E2|]. split; [exact E3|].
  unfold calculateLight. fold light1. rewrite E2.
  destruct (blockSeeds blocks emissions light2) as [l3 bq]. exact E3.
Qed.

Hypothesis emissions_range : Forall (fun e => 0 <= e <= 15) emissions.

Lemma emissionAt_range i : 0 <= emissionAt blocks emissions i <= 15.
Proof.
  unfold emissionAt. destruct (u8_get blocks i) as [b|]; [|lia].
  destruct (emissions !! Z.to_nat b) as [e|] eqn:E; cbn; [|lia].
  rewrite Forall_forall in emissions_range. apply emissions_range.
  apply list_elem_of_lookup. eauto.
Qed.

(** The state of the seeding loops of phase 3, relative to the light [l0]
    they start from. *)
Lemma seedBlockCell_inv l0 x z st y :
  inside (x, y, z) ->
  (Forall inside st.2 /\ (forall i, sunAt st.1 i = sunAt l0 i) /\
   litAtSources blockAt (emissive blocks emissions) st.1 /\
   u8_length st.1 = u8_length l0) ->
  let st' := seedBlockCell blocks emissions x z st y in
  Forall inside st'.2 /\ (forall i, sunAt st'.1 i = sunAt l0 i) /\
  litAtSources blockAt (emissive blocks emissions) st'.1 /\
  u8_length st'.1 = u8_length l0.
Proof.
  intros Hp (Hq & Hsun & Hlit & Hlen). destruct st as [light q]. cbn [fst snd] in *.
  unfold seedBlockCell. cbv zeta.
  destruct (emissionAt blocks emissions (idx x y z) >? 0) eqn:Eem;
    [|cbn [fst snd]; auto].
  apply Z.gtb_lt in Eem. cbn [fst snd].
  split; [apply Forall_app; split; [exact Hq|repeat constructor; exact Hp]|].
  pose proof (emissionAt_range (idx x y z)) as Hr.
  pose proof (toInt_get_range light (idx x y z)) as Hb.
  assert (Hn : 0 <= emissionAt blocks emissions (idx x y z) < 16) by lia.
  nibble_facts (toInt (u8_get light (idx x y z)))
               (emissionAt blocks emissions (idx x y z)) Hb Hn.
  destruct (u8_in light (idx x y z)) eqn:Hin.
  - split; [|split].
    + intros i. rewrite <- Hsun. destruct (Z.eq_dec i (idx x y z)) as [-> | Hne].
      * unfold sunAt at 1. rewrite u8_get_set_same by exact Hin.
        rewrite toInt_Some. unfold sunAt. congruence.
      * apply sunAt_get. apply u8_get_set_other. congruence.
    + intros i Hpos. destruct (Z.eq_dec i (idx x y z)) as [-> | Hne].
      * exists (x, y, z). split; [|reflexivity]. split; [exact Hp|]. cbn [index]. lia.
      * apply Hlit. erewrite <- blockAt_get; [exact Hpos|].
        apply u8_get_set_other. congruence.
    + rewrite u8_length_set. exact Hlen.
  - rewrite u8_set_outside by exact Hin. auto.
Qed.

Lemma blockSeeds_inv l0 :
  (forall i, blockAt l0 i = 0) ->
  let st := blockSeeds blocks emissions l0 in
  Forall inside st.2 /\ (forall i, sunAt st.1 i = sunAt l0 i) /\
  litAtSources blockAt (emissive blocks emissions) st.1 /\
  u8_length st.1 = u8_length l0.
Proof.
  intros Hz. cbv zeta. unfold blockSeeds.
  set (K := fun st : Uint8Array * list Vec3 =>
         Forall inside st.2 /\ (forall i, sunAt st.1 i = sunAt l0 i) /\
         litAtSources blockAt (emissive blocks emissions) st.1 /\
         u8_length st.1 = u8_length l0).
  change (K (fold_left
    (fun st x =>
       fold_left (fun st' z => fold_left (seedBlockCell blocks emissions x z)
                                         (seqZ 0 CHUNK_HEIGHT) st')
                 (seqZ 0 CHUNK_SIZE) st)
    (seqZ 0 CHUNK_SIZE) (l0, []))).
  apply fold_left_inv_in.
  - intros st x Hx Hst. apply fold_left_inv_in; [|exact Hst].
    intros st' z Hz' Hst'. apply fold_left_inv_in; [|exact Hst'].
    intros st'' y Hy Hst''. apply in_seqZ in Hx, Hz', Hy.
    apply seedBlockCell_inv; [apply inside_intro; assumption|exact Hst''].
  - unfold K. cbn [fst snd]. repeat split; auto.
    intros i Hpos. rewrite Hz in Hpos. lia.
Qed.

(** The two levels of the final light hang on paths from their sources. *)
Lemma calculateLight_supported light :
  exists fuel out,
    (forall fuel', (fuel <= fuel')%nat ->
       calculateLight blocks isT emissions fuel' light = Some out) /\
    supported blocks isT sunAt (skyLit blocks isT) out /\
    supported blocks isT blockAt (emissive blocks emissions) out.
Proof.
  destruct (calculateLight_run light) as (fuel & light2 & out & Hrun).
  destruct (Hrun fuel (Nat.le_refl _)) as (E2 & E3 & _).
  set (light1 := columnSunlight blocks isT (u8_fill light 0)) in *.
  assert (Hb1 : columnBytes blocks isT light1)
    by apply columnSunlight_bytes, columnBytes_fill.
  apply columnBytes_levels in Hb1 as [Hlit1 Hz1].
  rewrite sunFlood_flood in E2.
  apply (flood_supported blocks isT sunAt blockAt true (sunVisit blocks isT)
           sunAt_range sunAt_get blockAt_get sunVisit_relaxed
           (skyLit blocks isT)) in E2 as (Hs2 & Hz2 & _);
    [|apply sunSeeds_inside
     |apply litAtSources_supported; [apply skyLit_inside|exact Hlit1]].
  assert (Hz : forall i, blockAt light2 i = 0) by (intros i; rewrite Hz2; apply Hz1).
  pose proof (blockSeeds_inv light2 Hz) as (Hq3 & Hsun3 & Hlit3 & _).
  rewrite blockFlood_flood in E3.
  apply (flood_supported blocks isT blockAt sunAt false (blockVisit blocks isT)
           blockAt_range blockAt_get sunAt_get blockVisit_relaxed
           (emissive blocks emissions)) in E3 as (Hs4 & Hsun4 & _);
    [|exact Hq3|apply litAtSources_supported; [intros p [Hp _]; exact Hp|exact Hlit3]].
  exists fuel, out. split; [|split].
  - intros fuel' Hf. apply Hrun, Hf.
  - apply (supported_same_levels sunAt _ light2); [|exact Hs2].
    intros i. rewrite Hsun4. apply Hsun3.
  - exact Hs4.
Qed.

End Engine.

Lemma lightPath_head blocks isT source v path :
  lightPath blocks isT source v path -> In v path.
Proof. intros H. destruct H; left; reflexivity. Qed.

Lemma lightPath_kind blocks isT source v path :
  lightPath blocks isT source v path ->
  source v \/ (inside v /\ transparentAt blocks isT (index v) = true).
Proof. intros H. destruct H; [left|right]; auto. Qed.

(** C10: both flood-fill loops of [calculateLight] run to their end, on every
    block array, every metadata and every light array, and so does the whole
    function: there is a number of loop iterations from which on the fuel
    never runs out.  The reason is in the loop body: given a level between 0
    and 15 it leaves the state alone, or it enqueues one coordinate while the
    nibble stored for it rises strictly (levels stay within 0..15), or the
    coordinate lies beyond a too short light array and then enqueues nothing
    itself when popped; the work left, queue plus distance of the levels from
    15, shrinks with every popped entry. *)
Theorem calculateLight_terminates
    (blocks : Uint8Array) (isTransparent : list bool) (emissions : list Z)
    (light : Uint8Array) :
  (forall l q, exists out, forall fuel,
     (work sunAt l q <= fuel)%nat -> sunFlood blocks isTransparent fuel l q = Some out) /\
  (forall l q, exists out, forall fuel,
     (work blockAt l q <= fuel)%nat -> blockFlood blocks isTransparent fuel l q = Some out) /\
  (exists fuel out, forall fuel', (fuel <= fuel')%nat ->
     calculateLight blocks isTransparent emissions fuel' light = Some out) /\
  (forall level sx sy sz st d, 0 <= level <= 15 ->
     relaxed blocks isTransparent sunAt blockAt true (sx, sy, sz) level d st
             (sunVisit blocks isTransparent level sx sy sz st d) /\
     relaxed blocks isTransparent blockAt sunAt false (sx, sy, sz) level d st
             (blockVisit blocks isTransparent level sx sy sz st d)) /\
  (forall l i, 0 <= sunAt l i <= 15 /\ 0 <= blockAt l i <= 15).
Proof.
  split; [|split; [|split; [|split]]].
  - intros l q. destruct (sunFlood_terminates blocks isTransparent l q) as (out & _ & H).
    exists out. exact H.
  - intros l q. destruct (blockFlood_terminates blocks isTransparent l q) as (out & _ & H).
    exists out. exact H.
  - destruct (calculateLight_run blocks isTransparent emissions light)
      as (fuel & light2 & out & Hrun).
    exists fuel, out. intros fuel' Hf. apply Hrun, Hf.
  - intros level sx sy sz st d Hl. split;
      [apply sunVisit_relaxed|apply blockVisit_relaxed]; exact Hl.
  - intros l i. split; [apply sunAt_range|apply blockAt_range].
Qed.

(** C6: in the light array that [calculateLight] produces (emission levels
    being 0..15), if a voxel [b] can be reached from a light source only
    through a voxel [a] (every flood path from a source to [b] passes [a]),
    then [b] is not brighter than [a], for the sun nibble with the voxels
    under open sky as sources and for the block-light nibble with the
    emissive voxels as sources; straight down from level 15 the sun level
    stays 15, every other step loses one level.  During a flood fill a
    neighbour's nibble is overwritten only by a strictly greater level, which
    is the popped voxel's level minus one, or 15 straight down from 15. *)
Theorem light_is_monotone
    (blocks : Uint8Array) (isTransparent : list bool) (emissions : list Z)
    (light : Uint8Array) :
  Forall (fun e => 0 <= e <= 15) emissions ->
  (exists fuel out,
     (forall fuel', (fuel <= fuel')%nat ->
        calculateLight blocks isTransparent emissions fuel' light = Some out) /\
     (forall a b, inside b ->
        onlyThrough blocks isTransparent (skyLit blocks isTransparent) a b ->
        sunAt out (index b) <= sunAt out (index a)) /\
     (forall a b, inside b ->
        onlyThrough blocks isTransparent (emissive blocks emissions) a b ->
        blockAt out (index b) <= blockAt out (index a))) /\
  (forall level sx sy sz st d, 0 <= level <= 15 ->
     relaxed blocks isTransparent sunAt blockAt true (sx, sy, sz) level d st
             (sunVisit blocks isTransparent level sx sy sz st d) /\
     relaxed blocks isTransparent blockAt sunAt false (sx, sy, sz) level d st
             (blockVisit blocks isTransparent level sx sy sz st d)).
Proof.
  intros Hem. split.
  - destruct (calculateLight_supported blocks isTransparent emissions Hem light)
      as (fuel & out & Hrun & Hsun & Hblk).
    exists fuel, out. split; [exact Hrun|]. split.
    + intros a b Hb Hcut.
      apply (supported_onlyThrough blocks isTransparent sunAt sunAt_range
               (skyLit blocks isTransparent)); assumption.
    + intros a b Hb Hcut.
      apply (supported_onlyThrough blocks isTransparent blockAt blockAt_range
               (emissive blocks emissions)); assumption.
  - intros level sx sy sz st d Hl. split;
      [apply sunVisit_relaxed|apply blockVisit_relaxed]; exact Hl.
Qed.

End LightFacts.

(** ** Block edits *)

Module ManagerFacts.
Import Chunk Manager ManagerSpec LightFacts.

Lemma local_coordinate w :
  Z.rem (Z.rem w CHUNK_SIZE + CHUNK_SIZE) CHUNK_SIZE = w mod CHUNK_SIZE /\
  0 <= w mod CHUNK_SIZE < CHUNK_SIZE /\
  w = w / CHUNK_SIZE * CHUNK_SIZE + w mod CHUNK_SIZE.
Proof.
  unfold CHUNK_SIZE. Z.to_euclidean_division_equations. lia.
Qed.

Lemma markDirty_lookup a b m k :
  chunks (markDirty a b m) !! k
  = if bool_decide (k = (a, b)) then dirtied <$> chunks m !! k else chunks m !! k.
Proof.
  unfold markDirty, chunkKey.
  destruct (chunks m !! (a, b)) as [c|] eqn:E; case_bool_decide as Hk; subst;
    cbn [chunks withChunks].
  - rewrite lookup_insert_eq, E. reflexivity.
  - rewrite lookup_insert_ne by congruence. reflexivity.
  - rewrite E. reflexivity.
  - reflexivity.
Qed.

Lemma dirtied_twice (o : option Chunk) : dirtied <$> (dirtied <$> o) = dirtied <$> o.
Proof. destruct o; reflexivity. Qed.

Lemma markDirty_if (c : bool) a b m k :
  chunks (if c then markDirty a b m else m) !! k
  = if c && bool_decide (k = (a, b)) then dirtied <$> chunks m !! k else chunks m !! k.
Proof. destruct c; [apply markDirty_lookup|reflexivity]. Qed.

(** The chunk map after [setBlock], key by key. *)
Lemma setBlock_lookup m wx wy wz type chunk k :
  let cx := wx / CHUNK_SIZE in
  let cz := wz / CHUNK_SIZE in
  let lx := wx mod CHUNK_SIZE in
  let lz := wz mod CHUNK_SIZE in
  chunks m !! (cx, cz) = Some chunk ->
  chunks (setBlock m wx wy wz type) !! k
  = (if touched cx cz lx lz k then fmap dirtied else id)
      (<[(cx, cz) := Chunk.setBlock chunk lx wy lz type]> (chunks m) !! k).
Proof.
  intros cx cz lx lz E. unfold setBlock, chunkKey. fold cx cz. rewrite E.
  destruct (local_coordinate wx) as (-> & _ & _).
  destruct (local_coordinate wz) as (-> & _ & _). fold lx lz.
  rewrite !markDirty_if. cbn [chunks withChunks]. unfold touched.
  destruct ((lx =? 0) && bool_decide (k = (cx - 1, cz)));
    destruct ((lx =? CHUNK_SIZE - 1) && bool_decide (k = (cx + 1, cz)));
    destruct ((lz =? 0) && bool_decide (k = (cx, cz - 1)));
    destruct ((lz =? CHUNK_SIZE - 1) && bool_decide (k = (cx, cz + 1)));
    cbn [orb id]; rewrite ?dirtied_twice; reflexivity.
Qed.

Lemma touched_self cx cz lx lz : touched cx cz lx lz (cx, cz) = false.
Proof.
  unfold touched.
  rewrite !bool_decide_eq_false_2; [rewrite !andb_false_r; reflexivity| | | |];
    intros [= H]; lia.
Qed.

Lemma chunk_setBlock_spec c x y z type :
  sized c -> inBounds x y z = true ->
  Chunk.getBlock (Chunk.setBlock c x y z type) x y z = Some (type mod 256) /\
  dirty (Chunk.setBlock c x y z type)
  = dirty c || negb (bool_decide (Chunk.getBlock c x y z = Some type)).
Proof.
  intros Hs Hb. unfold Chunk.setBlock, Chunk.getBlock. rewrite Hb. cbn [negb].
  assert (Hin : u8_in (data c) (getIndex x y z) = true).
  { unfold u8_in. rewrite Hs. unfold inBounds in Hb.
    repeat (apply andb_prop in Hb as [Hb ?]).
    unfold getIndex, CHUNK_VOLUME, CHUNK_SIZE, CHUNK_HEIGHT in *.
    apply andb_true_intro. split; [apply Z.leb_le|apply Z.ltb_lt]; lia. }
  case_bool_decide as Hsame; cbn [negb].
  - split; [|rewrite orb_false_r; reflexivity].
    rewrite Hsame. f_equal. apply u8_get_range in Hsame.
    symmetry. apply Z.mod_small. exact Hsame.
  - cbn [data dirty].
    split; [apply u8_get_set_same, Hin|rewrite orb_true_r; reflexivity].
Qed.

Lemma chunk_setBlock_outside c x y z type :
  inBounds x y z = false -> Chunk.setBlock c x y z type = c.
Proof. intros Hb. unfold Chunk.setBlock. rewrite Hb. reflexivity. Qed.

(** C8, as stated, fails: an edit that writes the type the voxel already has
    resolves to a loaded chunk and leaves that chunk's dirty flag unset. *)
Lemma setBlock_same_type_stays_clean :
  chunks (oneChunk false) !! (1 / CHUNK_SIZE, 1 / CHUNK_SIZE) = Some (stoneChunk false) /\
  dirty <$> (chunks (setBlock (oneChunk false) 1 5 1 1) !! (0, 0)) = Some false.
Proof. split; reflexivity. Qed.

(** C8, amended: an edit [setBlock(wx, wy, wz, type)] that resolves to a
    loaded chunk (of full size) is written through to that chunk at the local
    coordinates [wx mod S], [wz mod S] when [wy] is within the chunk height,
    and is ignored otherwise; the chunk's dirty flag is set when the write
    changes the stored block and is left as it was when the voxel already
    held [type]; and whenever the local lateral coordinate is 0 or S - 1 the
    adjacent neighbour chunk in that direction, if loaded, is marked dirty
    with its blocks unchanged, whether or not the write changed anything.
    Every other chunk is left as it was. *)
Theorem setBlock_writes_through_and_marks
    (m : ChunkManager) (wx wy wz type : Z) (chunk : Chunk) :
  let cx := wx / CHUNK_SIZE in
  let cz := wz / CHUNK_SIZE in
  let lx := wx mod CHUNK_SIZE in
  let lz := wz mod CHUNK_SIZE in
  let m' := setBlock m wx wy wz type in
  chunks m !! chunkKey cx cz = Some chunk -> sized chunk ->
  (0 <= lx < CHUNK_SIZE /\ 0 <= lz < CHUNK_SIZE /\
   wx = cx * CHUNK_SIZE + lx /\ wz = cz * CHUNK_SIZE + lz) /\
  (exists chunk',
     chunks m' !! chunkKey cx cz = Some chunk' /\
     (0 <= wy < CHUNK_HEIGHT ->
      Chunk.getBlock chunk' lx wy lz = Some (type mod 256) /\
      dirty chunk'
      = dirty chunk || negb (bool_decide (Chunk.getBlock chunk lx wy lz = Some type))) /\
     (~ 0 <= wy < CHUNK_HEIGHT -> chunk' = chunk)) /\
  (forall k neighbour,
     touched cx cz lx lz k = true -> chunks m !! k = Some neighbour ->
     chunks m' !! k = Some (dirtied neighbour)) /\
  (forall k, k <> chunkKey cx cz -> touched cx cz lx lz k = false ->
     chunks m' !! k = chunks m !! k).
Proof.
  intros cx cz lx lz m' E Hs. unfold chunkKey in *.
  destruct (local_coordinate wx) as (_ & Hlx & Hwx).
  destruct (local_coordinate wz) as (_ & Hlz & Hwz).
  fold cx lx in Hlx, Hwx. fold cz lz in Hlz, Hwz.
  split; [auto|]. split; [|split].
  - exists (Chunk.setBlock chunk lx wy lz type). split; [|split].
    + unfold m'. rewrite (setBlock_lookup m wx wy wz type chunk _ E).
      fold cx cz lx lz. rewrite touched_self, lookup_insert_eq. reflexivity.
    + intros Hwy. apply chunk_setBlock_spec; [exact Hs|].
      unfold inBounds, CHUNK_SIZE, CHUNK_HEIGHT in *.
      repeat (apply andb_true_intro; split);
        first [apply Z.geb_le | apply Z.ltb_lt]; lia.
    + intros Hwy. apply chunk_setBlock_outside.
      unfold inBounds, CHUNK_SIZE, CHUNK_HEIGHT in *.
      destruct (wy >=? 0) eqn:E1; [|rewrite andb_false_r; reflexivity].
      destruct (wy <? 256) eqn:E2; [|rewrite !andb_false_r; reflexivity].
      apply Z.geb_le in E1. apply Z.ltb_lt in E2. lia.
  - intros k neighbour Ht Ek. unfold m'.
    rewrite (setBlock_lookup m wx wy wz type chunk _ E). fold cx cz lx lz.
    rewrite Ht. rewrite lookup_insert_ne, Ek; [reflexivity|].
    intros <-. rewrite touched_self in Ht. discriminate.
  - intros k Hk Ht. unfold m'.
    rewrite (setBlock_lookup m wx wy wz type chunk _ E). fold cx cz lx lz.
    rewrite Ht. cbn [id]. apply lookup_insert_ne. congruence.
Qed.

Lemma setBlock_writes_through_and_marks_witness :
  exists chunk',
    chunks (setBlock (oneChunk false) 0 5 1 2) !! (0, 0) = Some chunk' /\
    Chunk.getBlock chunk' 0 5 1 = Some 2 /\ dirty chunk' = true.
Proof.
  destruct (setBlock_writes_through_and_marks (oneChunk false) 0 5 1 2
              (stoneChunk false) eq_refl eq_refl) as (_ & (c' & E & Hw & _) & _).
  exists c'. split; [exact E|].
  destruct Hw as [Hg Hd]; [unfold CHUNK_HEIGHT; lia|].
  split; [exact Hg|rewrite Hd; reflexivity].
Defined.

(** ** Mesh jobs *)

Lemma jobSettled_rejected key err m :
  let m' := jobSettled key (Pool.Rejected err) m in
  chunks m' = chunks m /\
  consoleErrors m' = (consoleErrors m ++ ["Chunk mesh worker error: " +:+ err]) /\
  (key ∉ meshingInProgress m') /\
  sceneMeshes m' = sceneMeshes m.
Proof.
  cbn. split; [reflexivity|]. split; [reflexivity|]. split; [|reflexivity].
  intros H. apply elem_of_difference in H as [_ H]. apply H.
  apply elem_of_singleton. reflexivity.
Qed.

Lemma queueChunkMesh_clean key m chunk :
  chunks m !! key = Some chunk ->
  dirty <$> (chunks (queueChunkMesh key m) !! key) = Some false /\
  (key ∈ meshingInProgress (queueChunkMesh key m)).
Proof.
  intros E. unfold queueChunkMesh. rewrite E.
  destruct (Pool.queueTask _ _) as [promise pool]. cbn [chunks meshingInProgress].
  rewrite lookup_insert_eq. split; [reflexivity|set_solver].
Qed.

Lemma collected_clean m pcx pcz rd key :
  dirty <$> (chunks m !! key) = Some false -> collected m pcx pcz rd key = false.
Proof.
  unfold collected. destruct (chunks m !! key) as [c|]; [|reflexivity].
  cbn. intros [= ->]. reflexivity.
Qed.

(** C3, as stated, fails: after the job of a dirty chunk is queued and its
    worker fails, the chunk's dirty flag is false and a dirty scan around it
    does not collect it. *)
Lemma failed_job_leaves_chunk_clean :
  let m1 := queueChunkMesh (0, 0) (oneChunk true) in
  let m2 := workerAnswered 0 (Pool.Rejected "crash") m1 in
  dirty <$> (chunks (oneChunk true) !! (0, 0)) = Some true /\
  dirty <$> (chunks m2 !! (0, 0)) = Some false /\
  collected m2 0 0 8 (0, 0) = false.
Proof. repeat split. Qed.

(** C3, amended: when the mesh job of a loaded chunk fails (its promise is
    rejected), the coordinator writes the error to the console and clears the
    chunk's in-flight marker, and it touches neither the chunk map nor the
    scene: the dirty flag stays false, as [queueChunkMesh] set it, so no later
    dirty scan collects the chunk until a block edit marks it dirty again.  A
    result that does arrive is not validated: when the chunk is still loaded
    its two meshes go to the scene as received, a mesh with a zero vertex or
    index count as no mesh. *)
Theorem failed_job_is_logged_not_retried
    (m : ChunkManager) (key : Z * Z) (chunk : Chunk) (err : string) :
  chunks m !! key = Some chunk ->
  let m1 := queueChunkMesh key m in
  let m2 := jobSettled key (Pool.Rejected err) m1 in
  (dirty <$> (chunks m1 !! key) = Some false /\ (key ∈ meshingInProgress m1)) /\
  (chunks m2 = chunks m1 /\ sceneMeshes m2 = sceneMeshes m1 /\
   consoleErrors m2 = (consoleErrors m1 ++ ["Chunk mesh worker error: " +:+ err]) /\
   (key ∉ meshingInProgress m2)) /\
  (dirty <$> (chunks m2 !! key) = Some false /\
   forall pcx pcz rd, collected m2 pcx pcz rd key = false) /\
  (forall result,
     res_chunkX result = Chunk.cx chunk -> res_chunkZ result = Chunk.cz chunk ->
     key = chunkKey (Chunk.cx chunk) (Chunk.cz chunk) ->
     sceneMeshes (jobSettled key (Pool.Resolved result) m1) !! key
     = Some (buildMesh (res_opaque result), buildMesh (res_transparent result))).
Proof.
  intros E m1 m2.
  destruct (queueChunkMesh_clean key m chunk E) as [Hd Hin].
  destruct (jobSettled_rejected key err m1) as (Hc & Hl & Hout & Hsc).
  fold m2 in Hc, Hl, Hout, Hsc.
  split; [split; assumption|]. split; [repeat split; assumption|]. split.
  - rewrite Hc. split; [exact Hd|]. intros pcx pcz rd.
    apply collected_clean. rewrite Hc. exact Hd.
  - intros result Hx Hz Hk. unfold jobSettled, onMeshResult. rewrite Hx, Hz, <- Hk.
    fold m1 in Hd.
    destruct (chunks m1 !! key) as [c1|] eqn:E1; [|discriminate Hd].
    cbn [sceneMeshes]. apply lookup_insert_eq.
Qed.

Lemma failed_job_is_logged_not_retried_witness :
  let m1 := queueChunkMesh (0, 0) (oneChunk true) in
  let m2 := jobSettled (0, 0) (Pool.Rejected "crash") m1 in
  dirty <$> (chunks m2 !! (0, 0)) = Some false /\
  forall pcx pcz rd, collected m2 pcx pcz rd (0, 0) = false.
Proof.
  apply (failed_job_is_logged_not_retried (oneChunk true) (0, 0) (stoneChunk true)
                                          "crash" eq_refl).
Defined.

End ManagerFacts.

(** ** The worker pool *)

Module PoolFacts.
Import Pool ManagerSpec.

Section Dispose.

Variables (D R : Type).

Lemma settle_lookup p o (pool : WorkerPool D R) p' :
  settled (settle D R p o pool) !! p'
  = match settled pool !! p' with
    | Some o' => Some o'
    | None => if bool_decide (p' = p) then Some o else None
    end.
Proof.
  unfold settle. destruct (settled pool !! p) as [o0|] eqn:E.
  - destruct (settled pool !! p') as [o'|] eqn:E'; [reflexivity|].
    case_bool_decide; [congruence|reflexivity].
  - cbn [settled]. case_bool_decide as Hp.
    + subst. rewrite lookup_insert_eq, E. reflexivity.
    + rewrite lookup_insert_ne by congruence.
      destruct (settled pool !! p'); reflexivity.
Qed.

Lemma settle_others p o (pool : WorkerPool D R) :
  workers (settle D R p o pool) = workers pool /\
  queue (settle D R p o pool) = queue pool /\
  resolvers (settle D R p o pool) = resolvers pool /\
  terminated (settle D R p o pool) = terminated pool.
Proof. unfold settle. destruct (settled pool !! p); repeat split. Qed.

Lemma reject_all_lookup reason (tasks : list (PendingTask D)) (pool : WorkerPool D R) p :
  settled (fold_left (fun acc task => settle D R (task_promise task) (Rejected reason) acc)
                     tasks pool) !! p
  = match settled pool !! p with
    | Some o => Some o
    | None => if bool_decide (p ∈ map task_promise tasks)
              then Some (Rejected reason) else None
    end.
Proof.
  revert pool. induction tasks as [|t tasks IH]; intros pool.
  - cbn [fold_left map]. destruct (settled pool !! p); [reflexivity|].
    rewrite bool_decide_eq_false_2; [reflexivity|apply not_elem_of_nil].
  - cbn [fold_left map]. rewrite IH, settle_lookup.
    destruct (settled pool !! p) as [o|]; [reflexivity|].
    destruct (decide (p = task_promise t)) as [-> | Hne].
    + rewrite (bool_decide_eq_true_2 (task_promise t = task_promise t)) by reflexivity.
      rewrite bool_decide_eq_true_2; [reflexivity|apply elem_of_cons; auto].
    + rewrite (bool_decide_eq_false_2 (p = task_promise t)) by exact Hne.
      destruct (decide (p ∈ map task_promise tasks)) as [Hin | Hout].
      * rewrite (bool_decide_eq_true_2 _ Hin).
        rewrite bool_decide_eq_true_2; [reflexivity|apply elem_of_cons; auto].
      * rewrite (bool_decide_eq_false_2 _ Hout).
        rewrite bool_decide_eq_false_2; [reflexivity|].
        intros Hin. apply elem_of_cons in Hin as [Heq | Hin]; [congruence|contradiction].
Qed.

Lemma reject_all_others reason (tasks : list (PendingTask D)) (pool : WorkerPool D R) :
  let pool' := fold_left (fun acc task =>
                            settle D R (task_promise task) (Rejected reason) acc)
                         tasks pool in
  workers pool' = workers pool /\ terminated pool' = terminated pool.
Proof.
  revert pool. induction tasks as [|t tasks IH]; intros pool; [split; reflexivity|].
  cbn [fold_left]. destruct (IH (settle D R (task_promise t) (Rejected reason) pool))
    as [Hw Ht].
  destruct (settle_others (task_promise t) (Rejected reason) pool) as (Hw' & _ & _ & Ht').
  cbv zeta in *. split; congruence.
Qed.

(** What [dispose] does on every pool: all workers are terminated, the queue
    and the table of jobs in flight are emptied, and a promise not settled
    before is rejected exactly when its job was in the queue. *)
Lemma dispose_spec (pool : WorkerPool D R) :
  workers (dispose pool) = [] /\ queue (dispose pool) = [] /\
  resolvers (dispose pool) = ∅ /\
  terminated (dispose pool) = terminated pool ++ map (worker) (workers pool) /\
  forall p,
    settled (dispose pool) !! p
    = match settled pool !! p with
      | Some o => Some o
      | None => if bool_decide (p ∈ map task_promise (queue pool))
                then Some (Rejected "WorkerPool disposed") else None
      end.
Proof.
  unfold dispose. cbn [workers queue resolvers terminated settled].
  repeat split.
  - match goal with |- workers ?f = _ => set (pool' := f) end.
    apply (reject_all_others "WorkerPool disposed" (queue pool)).
  - apply (reject_all_others "WorkerPool disposed" (queue pool)).
  - intros p. rewrite reject_all_lookup. reflexivity.
Qed.

End Dispose.

(** C2 at the failing input: a pool of one worker with job 7 in flight
    (promise 0) and job 8 queued (promise 1).  [dispose] terminates the worker
    and rejects the queued job, and it leaves the promise of the job in
    flight unsettled: that job is dropped from the table without [reject]. *)
Theorem dispose_leaves_in_flight_job_pending :
  inFlightJob busyPool 0 /\ queuedJob busyPool 1 /\
  settled (dispose busyPool) !! 1%nat = Some (Rejected "WorkerPool disposed") /\
  settled (dispose busyPool) !! 0%nat = None /\
  resolvers (dispose busyPool) = ∅ /\
  terminated (dispose busyPool) = [0%nat].
Proof.
  split; [|split].
  - exists 0%nat, (mkTask 7 0%nat). split; reflexivity.
  - exists (mkTask 8 1%nat). split; [left|]; reflexivity.
  - repeat split.
Qed.

End PoolFacts.

(** ** The end-to-end scenario *)

Module ScenarioFacts.
Import Mesher MeshSpec MesherFacts Scenario.

Lemma mesh_sunlit :
  summary <$> meshChunk blocks 0 0 absent blockInfo sunlit absent = Some expected.
Proof.
  rewrite <- meshChunkSkipping_eq.
  vm_cast_no_check (eq_refl (Some expected)).
Qed.

Lemma mesh_unlit :
  summary <$> meshChunk blocks 0 0 absent blockInfo unlit absent = Some expected.
Proof.
  rewrite <- meshChunkSkipping_eq.
  vm_cast_no_check (eq_refl (Some expected)).
Qed.

Lemma summary_counts light o t :
  summary <$> meshChunk blocks 0 0 absent blockInfo light absent = Some expected ->
  meshChunk blocks 0 0 absent blockInfo light absent = Some (o, t) ->
  positions o = flat_map xyz (concat quads) /\
  vertexCount o = 24 /\ triangleCount o = 12 /\ vertexCount t = 0.
Proof.
  intros Hs E. rewrite E in Hs. cbn [fmap option_fmap option_map] in Hs.
  injection Hs as Hp Hn Hi Ht. cbn [fst snd] in *.
  unfold vertexCount, triangleCount. rewrite Hp, Hi, Ht.
  repeat split; reflexivity.
Qed.

(** C1, as stated, fails: with ten layers of stone under air and no lateral
    neighbour, the opaque mesh does not have 20 vertices and 10 triangles. *)
Lemma scenario_is_not_20_vertices :
  ~ (exists o t,
       meshChunk blocks 0 0 absent blockInfo sunlit absent = Some (o, t) /\
       vertexCount o = 20 /\ triangleCount o = 10).
Proof.
  intros (o & t & E & Hv & _).
  destruct (summary_counts _ _ _ mesh_sunlit E) as (_ & Hv' & _). lia.
Qed.

(** C1, amended: for the chunk at (0,0) holding block 1 (opaque) for y in
    0..9 and air above, with no lateral neighbour, [meshChunk] emits six merged
    opaque quads: the top (S x S at y = 10), the bottom (S x S at y = 0, since
    the voxel below the world counts as air) and the four side walls (S x 10
    each); the opaque buffer has 24 vertices and 12 triangles and the
    transparent buffer is empty.  This holds with the sunlit light field and
    with the all-zero light array of a job that carries no light. *)
Theorem scenario_emits_six_quads :
  forall light, light = sunlit \/ light = unlit ->
  exists o t,
    meshChunk blocks 0 0 absent blockInfo light absent = Some (o, t) /\
    positions o = flat_map xyz (concat quads) /\
    vertexCount o = 24 /\ triangleCount o = 12 /\ vertexCount t = 0.
Proof.
  intros light Hl.
  assert (Hs : summary <$> meshChunk blocks 0 0 absent blockInfo light absent
               = Some expected).
  { destruct Hl as [-> | ->]; [exact mesh_sunlit|exact mesh_unlit]. }
  destruct (meshChunk blocks 0 0 absent blockInfo light absent) as [[o t]|] eqn:E;
    [|discriminate].
  exists o, t. split; [reflexivity|].
  apply (summary_counts light); [rewrite E; exact Hs|exact E].
Qed.

Lemma scenario_emits_six_quads_witness :
  exists o t,
    meshChunk blocks 0 0 absent blockInfo sunlit absent = Some (o, t) /\
    positions o = flat_map xyz (concat quads) /\
    vertexCount o = 24 /\ triangleCount o = 12 /\ vertexCount t = 0.
Proof. apply (scenario_emits_six_quads sunlit). left. reflexivity. Defined.


Lemma calculateLight_terminates_witness :
  exists fuel out, forall fuel', (fuel <= fuel')%nat ->
    Light.calculateLight blocks transparency emissions fuel' unlit = Some out.
Proof.
  apply (LightFacts.calculateLight_terminates blocks transparency emissions unlit).
Defined.

(** The block light along the tunnel, from the torch outwards. *)
Example tunnel_block_light :
  (fun out => map (fun x => Light.blockAt out (Light.idx x 64 8)) (seqZ 3 7))
    <$> Light.calculateLight tunnel tunnelTransparency tunnelEmissions 64 unlit
  = Some [0; 14; 13; 12; 11; 10; 0].
Proof. vm_cast_no_check (eq_refl (Some [0; 14; 13; 12; 11; 10; 0])). Qed.

Ltac solve_neighbour IH Hpath :=
  first
    [ right; apply IH;
      first [left; reflexivity | right; left; reflexivity | right; right; reflexivity]
    | right; apply LightFacts.lightPath_head in Hpath; exact Hpath
    | let Hk := fresh "Hk" in
      destruct (LightFacts.lightPath_kind _ _ _ _ _ Hpath) as [[_ Hk] | [_ Hk]];
      vm_compute in Hk; discriminate Hk ].

(** Beyond the first air voxel of the tunnel, the torch light arrives only
    through that voxel. *)
Lemma tunnel_only_through :
  LightSpec.onlyThrough tunnel tunnelTransparency
    (LightSpec.emissive tunnel tunnelEmissions) (5, 64, 8) (6, 64, 8).
Proof.
  assert (H : forall v path,
             LightSpec.lightPath tunnel tunnelTransparency
               (LightSpec.emissive tunnel tunnelEmissions) v path ->
             v = (6, 64, 8) \/ v = (7, 64, 8) \/ v = (8, 64, 8) ->
             In (5, 64, 8) path).
  { intros v path Hp.
    induction Hp as [p Hsrc | p n path Hpath IH Hadj Hin Ht]; intros Hv.
    - destruct Hsrc as [_ Hem].
      destruct Hv as [-> | [-> | ->]]; vm_compute in Hem; discriminate Hem.
    - destruct Hadj as (d & Hd & Hn).
      assert (Hd' : d = 0 \/ d = 1 \/ d = 2 \/ d = 3 \/ d = 4 \/ d = 5) by lia.
      destruct p as [[px py] pz].
      destruct Hv as [-> | [-> | ->]];
        destruct Hd' as [-> | [-> | [-> | [-> | [-> | ->]]]]];
        cbn in Hn; injection Hn as Hx Hy Hz;
        match goal with
        | Hx : ?a = px + ?dx, Hy : ?b = py + ?dy, Hz : ?c = pz + ?dz |- _ =>
          assert (px = a - dx) by lia; assert (py = b - dy) by lia;
          assert (pz = c - dz) by lia; subst px py pz; clear Hx Hy Hz
        end;
        solve_neighbour IH Hpath. }
  intros path Hp. apply (H _ _ Hp). left. reflexivity.
Qed.

Lemma light_is_monotone_witness :
  exists fuel out,
    Light.calculateLight tunnel tunnelTransparency tunnelEmissions fuel unlit = Some out /\
    Light.blockAt out (Light.idx 6 64 8) <= Light.blockAt out (Light.idx 5 64 8).
Proof.
  destruct (LightFacts.light_is_monotone tunnel tunnelTransparency tunnelEmissions unlit)
    as [(fuel & out & Hrun & _ & Hblk) _].
  { repeat constructor; lia. }
  exists fuel, out. split; [apply Hrun; lia|].
  apply (Hblk (5, 64, 8) (6, 64, 8)); [reflexivity|exact tunnel_only_through].
Defined.

Lemma same_bytes_other_object : u8_same blocks blocksCopy.
Proof.
  split; [reflexivity|]. intros i Hi. cbn in *.
  destruct (0 <=? i) eqn:E1; [|lia].
  destruct (i <? CHUNK_VOLUME) eqn:E2; [reflexivity|].
  unfold CHUNK_VOLUME, CHUNK_SIZE, CHUNK_HEIGHT in *. lia.
Qed.

Lemma absent_same : neighbors_same absent absent.
Proof. intros k. unfold absent. rewrite lookup_empty. exact I. Qed.

Lemma u8_same_refl a : u8_same a a.
Proof. split; reflexivity. Qed.

Lemma meshChunk_deterministic_witness :
  meshChunk blocks 0 0 absent blockInfo sunlit absent
  = meshChunk blocksCopy 0 0 absent blockInfo sunlit absent /\
  (forall s norm d mask mask', length mask = length mask' ->
     buildMask blocks absent blockInfo sunlit absent s norm d mask
     = buildMask blocksCopy absent blockInfo sunlit absent s norm d mask').
Proof.
  apply meshChunk_deterministic.
  - exact same_bytes_other_object.
  - exact absent_same.
  - apply u8_same_refl.
  - exact absent_same.
Defined.

End ScenarioFacts.

Module CoordFacts.
Import Chunk Manager ManagerSpec CoordUtils LightFacts ManagerFacts.

Lemma worldToLocal_mod v : worldToLocal v = v mod CHUNK_SIZE.
Proof.
  unfold worldToLocal, CHUNK_SIZE. Z.to_euclidean_division_equations. lia.
Qed.

Lemma world_split v :
  0 <= worldToLocal v < CHUNK_SIZE /\
  worldToChunk v * CHUNK_SIZE + worldToLocal v = v.
Proof.
  rewrite worldToLocal_mod. unfold worldToChunk, CHUNK_SIZE.
  Z.to_euclidean_division_equations. lia.
Qed.

(** X1: a world coordinate [v] (an integer, negative ones too) splits into its
    chunk coordinate and its local coordinate: [worldToLocal v] lies in [0,
    CHUNK_SIZE), [worldToChunk v * CHUNK_SIZE + worldToLocal v = v], no other
    pair of a chunk and a local coordinate in that range gives [v], and one
    chunk further along the axis the local coordinate repeats. *)
Theorem world_coordinate_splits (v : Z) :
  0 <= worldToLocal v < CHUNK_SIZE /\
  worldToChunk v * CHUNK_SIZE + worldToLocal v = v /\
  (forall c l, 0 <= l < CHUNK_SIZE -> c * CHUNK_SIZE + l = v ->
     c = worldToChunk v /\ l = worldToLocal v) /\
  worldToChunk (v + CHUNK_SIZE) = worldToChunk v + 1 /\
  worldToLocal (v + CHUNK_SIZE) = worldToLocal v.
Proof.
  rewrite !worldToLocal_mod. unfold worldToChunk, CHUNK_SIZE.
  repeat split; try (intros; Z.to_euclidean_division_equations; nia).
  all: Z.to_euclidean_division_equations; nia.
Qed.

Lemma inBounds_range x y z :
  inBounds x y z = true <->
  0 <= x < CHUNK_SIZE /\ 0 <= y < CHUNK_HEIGHT /\ 0 <= z < CHUNK_SIZE.
Proof.
  unfold inBounds. rewrite !andb_true_iff, !Z.geb_le, !Z.ltb_lt. tauto.
Qed.

Lemma inBounds_false x y z :
  inBounds x y z = false <->
  ~ (0 <= x < CHUNK_SIZE /\ 0 <= y < CHUNK_HEIGHT /\ 0 <= z < CHUNK_SIZE).
Proof.
  rewrite <- inBounds_range. destruct (inBounds x y z); split; congruence.
Qed.

Lemma outside_false x y z :
  Mesher.outside x y z = false <->
  0 <= x < CHUNK_SIZE /\ 0 <= y < CHUNK_HEIGHT /\ 0 <= z < CHUNK_SIZE.
Proof.
  unfold Mesher.outside. rewrite !orb_false_iff, !Z.geb_leb, !Z.ltb_ge, !Z.leb_gt. tauto.
Qed.

Lemma getIndex_range x y z :
  inBounds x y z = true -> 0 <= getIndex x y z < CHUNK_VOLUME.
Proof.
  rewrite inBounds_range. unfold getIndex, CHUNK_VOLUME, CHUNK_SIZE, CHUNK_HEIGHT. lia.
Qed.

Lemma getIndex_inj x y z x' y' z' :
  inBounds x y z = true -> inBounds x' y' z' = true ->
  getIndex x y z = getIndex x' y' z' -> x = x' /\ y = y' /\ z = z'.
Proof.
  rewrite !inBounds_range. unfold getIndex, CHUNK_SIZE, CHUNK_HEIGHT. lia.
Qed.

(** X2: the four copies of the index formula ([localToIndex],
    [Chunk.getIndex], the mesher's [blockIndex] and the light engine's [idx])
    agree, as do the three bounds tests; on the coordinates inside a chunk the
    index lies in [0, CHUNK_VOLUME) and is injective, and every index of that
    range is the index of a voxel inside the chunk. *)
Theorem voxel_index_is_a_bijection :
  (forall x y z,
     localToIndex x y z = getIndex x y z /\
     Mesher.blockIndex x y z = getIndex x y z /\
     Light.idx x y z = getIndex x y z /\
     Mesher.outside x y z = negb (inBounds x y z) /\
     Light.outOfChunk x y z = negb (inBounds x y z)) /\
  (forall x y z, inBounds x y z = true -> 0 <= getIndex x y z < CHUNK_VOLUME) /\
  (forall x y z x' y' z',
     inBounds x y z = true -> inBounds x' y' z' = true ->
     getIndex x y z = getIndex x' y' z' -> x = x' /\ y = y' /\ z = z') /\
  (forall i, 0 <= i < CHUNK_VOLUME ->
     let x := i / (CHUNK_SIZE * CHUNK_HEIGHT) in
     let z := i / CHUNK_HEIGHT mod CHUNK_SIZE in
     let y := i mod CHUNK_HEIGHT in
     inBounds x y z = true /\ getIndex x y z = i).
Proof.
  split; [|split; [|split]].
  - intros x y z. repeat split; try reflexivity.
    + destruct (inBounds x y z) eqn:E; cbn [negb].
      * apply outside_false, inBounds_range, E.
      * destruct (Mesher.outside x y z) eqn:E'; [reflexivity|].
        apply outside_false in E'. apply inBounds_false in E. tauto.
    + change (Light.outOfChunk x y z) with (Mesher.outside x y z).
      destruct (inBounds x y z) eqn:E; cbn [negb].
      * apply outside_false, inBounds_range, E.
      * destruct (Mesher.outside x y z) eqn:E'; [reflexivity|].
        apply outside_false in E'. apply inBounds_false in E. tauto.
  - apply getIndex_range.
  - apply getIndex_inj.
  - intros i Hi x z y. split.
    + apply inBounds_range. unfold x, y, z, CHUNK_VOLUME, CHUNK_SIZE, CHUNK_HEIGHT in *.
      Z.to_euclidean_division_equations. lia.
    + unfold getIndex, x, y, z, CHUNK_VOLUME, CHUNK_SIZE, CHUNK_HEIGHT in *.
      Z.to_euclidean_division_equations. lia.
Qed.

Lemma sized_in c x y z :
  sized c -> inBounds x y z = true -> u8_in (data c) (getIndex x y z) = true.
Proof.
  intros Hs Hb. apply getIndex_range in Hb. unfold u8_in. rewrite Hs.
  apply andb_true_intro. split; [apply Z.leb_le|apply Z.ltb_lt]; lia.
Qed.

Lemma chunk_setBlock_read c x y z type x' y' z' :
  sized c ->
  Chunk.getBlock (Chunk.setBlock c x y z type) x' y' z'
  = if inBounds x y z && bool_decide ((x', y', z') = (x, y, z))
    then Some (type mod 256) else Chunk.getBlock c x' y' z'.
Proof.
  intros Hs. destruct (inBounds x y z) eqn:Hb; cbn [andb].
  2:{ rewrite chunk_setBlock_outside by exact Hb. reflexivity. }
  case_bool_decide as Heq.
  - injection Heq as -> -> ->. apply chunk_setBlock_spec; assumption.
  - unfold Chunk.setBlock. rewrite Hb. cbn [negb].
    case_bool_decide as Hsame; cbn [negb]; [reflexivity|].
    unfold Chunk.getBlock. cbn [data].
    destruct (inBounds x' y' z') eqn:Hb'; cbn [negb]; [|reflexivity].
    apply u8_get_set_other. intros E.
    apply getIndex_inj in E; [|assumption|assumption].
    destruct E as (-> & -> & ->). apply Heq. reflexivity.
Qed.

(** X3: [Chunk.setBlock] on a chunk of full size changes one voxel: afterwards
    [getBlock] reads the written type (reduced modulo 256, as the byte array
    stores it) at the written coordinates when they are in bounds, and what it
    read before everywhere else; a write out of bounds changes nothing, a read
    out of bounds gives AIR; the size and the coordinates of the chunk stay,
    and a dirty flag that was set stays set. *)
Theorem chunk_write_touches_one_voxel (c : Chunk) (x y z type : Z) :
  sized c ->
  let c' := Chunk.setBlock c x y z type in
  sized c' /\ Chunk.cx c' = Chunk.cx c /\ Chunk.cz c' = Chunk.cz c /\
  (dirty c = true -> dirty c' = true) /\
  (forall x' y' z',
     Chunk.getBlock c' x' y' z'
     = if inBounds x y z && bool_decide ((x', y', z') = (x, y, z))
       then Some (type mod 256) else Chunk.getBlock c x' y' z') /\
  (forall x' y' z', inBounds x' y' z' = false -> Chunk.getBlock c' x' y' z' = Some AIR).
Proof.
  intros Hs c'. split; [|split; [|split; [|split; [|split]]]].
  - unfold c', Chunk.setBlock, sized in *.
    destruct (inBounds x y z); cbn [negb]; [|exact Hs].
    case_bool_decide; cbn [negb data]; [exact Hs|]. rewrite u8_length_set. exact Hs.
  - unfold c', Chunk.setBlock. destruct (inBounds x y z); cbn [negb]; [|reflexivity].
    case_bool_decide; reflexivity.
  - unfold c', Chunk.setBlock. destruct (inBounds x y z); cbn [negb]; [|reflexivity].
    case_bool_decide; reflexivity.
  - unfold c', Chunk.setBlock. destruct (inBounds x y z); cbn [negb]; [|auto].
    case_bool_decide; cbn [negb dirty]; auto.
  - intros x' y' z'. apply chunk_setBlock_read. exact Hs.
  - intros x' y' z' Hb. unfold Chunk.getBlock. rewrite Hb. reflexivity.
Qed.

Lemma chunk_write_touches_one_voxel_witness :
  let c' := Chunk.setBlock (stoneChunk false) 3 70 5 300 in
  sized c' /\ Chunk.cx c' = 0 /\ Chunk.cz c' = 0 /\
  (dirty (stoneChunk false) = true -> dirty c' = true) /\
  (forall x' y' z',
     Chunk.getBlock c' x' y' z'
     = if inBounds 3 70 5 && bool_decide ((x', y', z') = (3, 70, 5))
       then Some (300 mod 256) else Chunk.getBlock (stoneChunk false) x' y' z') /\
  (forall x' y' z', inBounds x' y' z' = false -> Chunk.getBlock c' x' y' z' = Some AIR).
Proof. apply (chunk_write_touches_one_voxel (stoneChunk false) 3 70 5 300). reflexivity. Defined.

End CoordFacts.

Module WorldFacts.
Import Chunk Manager ManagerSpec CoordUtils LightFacts ManagerFacts CoordFacts.

(** [ChunkManager.getBlock] reads the chunk of the coordinate at the local
    coordinates. *)
Lemma manager_getBlock_local m wx wy wz :
  Manager.getBlock m wx wy wz
  = match chunks m !! (worldToChunk wx, worldToChunk wz) with
    | None => Some AIR
    | Some c => Chunk.getBlock c (worldToLocal wx) wy (worldToLocal wz)
    end.
Proof. reflexivity. Qed.

Lemma getBlock_dirtied (o : option Chunk) x y z :
  match dirtied <$> o with
  | None => Some AIR
  | Some c => Chunk.getBlock c x y z
  end
  = match o with None => Some AIR | Some c => Chunk.getBlock c x y z end.
Proof. destruct o; reflexivity. Qed.

Lemma manager_read_after_write m wx wy wz type wx' wy' wz' :
  (forall c, chunks m !! (worldToChunk wx, worldToChunk wz) = Some c -> sized c) ->
  Manager.getBlock (Manager.setBlock m wx wy wz type) wx' wy' wz'
  = if bool_decide (is_Some (chunks m !! (worldToChunk wx, worldToChunk wz)))
       && (0 <=? wy) && (wy <? CHUNK_HEIGHT)
       && bool_decide ((wx', wy', wz') = (wx, wy, wz))
    then Some (type mod 256)
    else Manager.getBlock m wx' wy' wz'.
Proof.
  intros Hs. rewrite !manager_getBlock_local.
  destruct (chunks m !! (worldToChunk wx, worldToChunk wz)) as [chunk|] eqn:E.
  2:{ rewrite bool_decide_eq_false_2 by (intros [? ?]; discriminate). cbn [andb].
      unfold Manager.setBlock, chunkKey. fold (worldToChunk wx) (worldToChunk wz).
      rewrite E. reflexivity. }
  rewrite bool_decide_eq_true_2 by eauto. cbn [andb].
  specialize (Hs chunk eq_refl).
  pose proof (setBlock_lookup m wx wy wz type chunk
                (worldToChunk wx', worldToChunk wz') E) as Hl.
  cbv zeta in Hl. rewrite Hl. clear Hl.
  rewrite <- !worldToLocal_mod.
  fold (worldToChunk wx) (worldToChunk wz).
  destruct (world_split wx) as (Hlx & Hwx).
  destruct (world_split wz) as (Hlz & Hwz).
  destruct (world_split wx') as (Hlx' & Hwx').
  destruct (world_split wz') as (Hlz' & Hwz').
  assert (Hread : forall o : option Chunk,
            match (if touched (worldToChunk wx) (worldToChunk wz) (worldToLocal wx)
                              (worldToLocal wz) (worldToChunk wx', worldToChunk wz')
                   then fmap dirtied else id) o with
            | None => Some AIR
            | Some c => Chunk.getBlock c (worldToLocal wx') wy' (worldToLocal wz')
            end
            = match o with
              | None => Some AIR
              | Some c => Chunk.getBlock c (worldToLocal wx') wy' (worldToLocal wz')
              end).
  { intros o. destruct (touched _ _ _ _ _); [apply getBlock_dirtied|reflexivity]. }
  rewrite Hread. clear Hread.
  destruct (decide ((worldToChunk wx', worldToChunk wz')
                    = (worldToChunk wx, worldToChunk wz))) as [Ek|Ek].
  - rewrite Ek, lookup_insert_eq. injection Ek as Ex Ez.
    rewrite chunk_setBlock_read by exact Hs. rewrite E.
    assert (Hb : inBounds (worldToLocal wx) wy (worldToLocal wz)
                 = (0 <=? wy) && (wy <? CHUNK_HEIGHT)).
    { destruct ((0 <=? wy) && (wy <? CHUNK_HEIGHT)) eqn:Ey.
      - apply andb_prop in Ey as [E1 E2]. apply Z.leb_le in E1. apply Z.ltb_lt in E2.
        apply inBounds_range. lia.
      - apply inBounds_false. intros (_ & Hy & _).
        apply andb_false_iff in Ey as [Ey|Ey];
          [apply Z.leb_gt in Ey|apply Z.ltb_ge in Ey]; lia. }
    rewrite Hb.
    destruct ((0 <=? wy) && (wy <? CHUNK_HEIGHT)); cbn [andb]; [|reflexivity].
    destruct (decide ((wx', wy', wz') = (wx, wy, wz))) as [Ew|Ew].
    + injection Ew as -> -> ->. rewrite !bool_decide_eq_true_2 by reflexivity. reflexivity.
    + rewrite (bool_decide_eq_false_2 _ Ew). rewrite bool_decide_eq_false_2; [reflexivity|].
      intros [= El Ey' El']. apply Ew. f_equal; [f_equal|]; [lia|exact Ey'|lia].
  - rewrite lookup_insert_ne by (intros E'; apply Ek; symmetry; exact E').
    rewrite (bool_decide_eq_false_2 ((wx', wy', wz') = (wx, wy, wz))).
    + rewrite andb_false_r. reflexivity.
    + intros [= -> -> ->]. apply Ek. reflexivity.
Qed.

Lemma outOfHeight_false y :
  World.outOfHeight y = false <-> 0 <= Qfloor y < CHUNK_HEIGHT.
Proof.
  unfold World.outOfHeight. rewrite orb_false_iff, negb_false_iff.
  rewrite Qle_bool_iff. rewrite <- not_true_iff_false, Qle_bool_iff.
  pose proof (Qfloor_le y) as Hl. pose proof (Qlt_floor y) as Hu.
  split.
  - intros [H0 H1]. split.
    + apply Qfloor_resp_le in H0. exact H0.
    + apply Qnot_le_lt in H1. rewrite Zlt_Qlt. eapply Qle_lt_trans; eassumption.
  - intros [H0 H1]. split.
    + rewrite Zle_Qle in H0. eapply Qle_trans; [exact H0|exact Hl].
    + apply Qlt_not_le. eapply Qlt_le_trans; [exact Hu|].
      rewrite <- Zle_Qle. lia.
Qed.

(** X4: reading after writing, in world coordinates.  After
    [ChunkManager.setBlock] at [(wx, wy, wz)], [ChunkManager.getBlock] returns
    the written type (modulo 256) at these coordinates, if their chunk is
    loaded and [wy] is within the chunk height, and at every other coordinate,
    in this chunk or another, what it returned before; without the chunk, or
    outside the height, the edit changes no reading.  The same holds for
    [World.setBlock] and [World.getBlock] with fractional coordinates: the
    written block is read at every point of its unit cube. *)
Theorem block_edit_is_read_back (m : ChunkManager) :
  (forall wx wy wz type wx' wy' wz',
     (forall c, World.getChunk m (worldToChunk wx) (worldToChunk wz) = Some c -> sized c) ->
     Manager.getBlock (Manager.setBlock m wx wy wz type) wx' wy' wz'
     = if bool_decide (is_Some (World.getChunk m (worldToChunk wx) (worldToChunk wz)))
          && (0 <=? wy) && (wy <? CHUNK_HEIGHT)
          && bool_decide ((wx', wy', wz') = (wx, wy, wz))
       then Some (type mod 256)
       else Manager.getBlock m wx' wy' wz') /\
  (forall x y z type x' y' z',
     (forall c, World.getChunkAtWorld m x z = Some c -> sized c) ->
     World.getBlock (World.setBlock m x y z type) x' y' z'
     = if bool_decide (is_Some (World.getChunkAtWorld m x z))
          && negb (World.outOfHeight y)
          && bool_decide (Qfloor x' = Qfloor x /\ Qfloor y' = Qfloor y /\
                          Qfloor z' = Qfloor z)
       then Some (type mod 256)
       else World.getBlock m x' y' z').
Proof.
  split.
  - intros wx wy wz type wx' wy' wz' Hs. apply manager_read_after_write. exact Hs.
  - intros x y z type x' y' z' Hs. unfold World.getBlock, World.setBlock.
    destruct (World.outOfHeight y) eqn:Ey; cbn [negb].
    { rewrite andb_false_r. reflexivity. }
    rewrite andb_true_r. apply outOfHeight_false in Ey.
    destruct (World.outOfHeight y') eqn:Ey'.
    { rewrite (bool_decide_eq_false_2 (Qfloor x' = Qfloor x /\ _)).
      - rewrite andb_false_r. reflexivity.
      - intros (_ & E & _). rewrite <- E in Ey. apply outOfHeight_false in Ey.
        congruence. }
    rewrite manager_read_after_write by exact Hs.
    unfold World.getChunkAtWorld, World.getChunk, chunkKey.
    replace (0 <=? Qfloor y) with true by (symmetry; apply Z.leb_le; lia).
    replace (Qfloor y <? CHUNK_HEIGHT) with true by (symmetry; apply Z.ltb_lt; lia).
    rewrite !andb_true_r.
    replace (bool_decide ((Qfloor x', Qfloor y', Qfloor z')
                          = (Qfloor x, Qfloor y, Qfloor z)))
      with (bool_decide (Qfloor x' = Qfloor x /\ Qfloor y' = Qfloor y /\
                         Qfloor z' = Qfloor z)); [reflexivity|].
    apply bool_decide_ext. split.
    + intros (-> & -> & ->). reflexivity.
    + intros [= -> -> ->]. auto.
Qed.

Lemma block_edit_is_read_back_witness :
  World.getBlock (World.setBlock (oneChunk false) (7 # 2) (141 # 2) (5 # 1) 4)
                 (15 # 4) (70 # 1) (11 # 2)
  = Some 4.
Proof.
  destruct (block_edit_is_read_back (oneChunk false)) as [_ H].
  rewrite (H (7 # 2) (141 # 2) (5 # 1) 4 (15 # 4) (70 # 1) (11 # 2)).
  - reflexivity.
  - intros c [= <-]. reflexivity.
Defined.

Lemma scanDown_top chunk lx lz (n : nat) :
  let h := World.scanDown chunk lx lz (rev (seqZ 0 (Z.of_nat n))) in
  -1 <= h < Z.of_nat n /\
  (forall y, h < y < Z.of_nat n -> Chunk.getBlock chunk lx y lz = Some AIR) /\
  (0 <= h -> Chunk.getBlock chunk lx h lz <> Some AIR).
Proof.
  induction n as [|n IH].
  - change (seqZ 0 (Z.of_nat 0)) with (@nil Z). cbn [rev World.scanDown Z.of_nat].
    repeat split; intros; lia.
  - rewrite seqZ_S, rev_app_distr. cbn [rev app World.scanDown].
    rewrite Z.add_0_l.
    case_bool_decide as Hair; cbn [negb].
    + destruct IH as (Hr & Habove & Hat). cbv zeta. split; [lia|]. split; [|exact Hat].
      intros y Hy. destruct (Z.eq_dec y (Z.of_nat n)) as [->|Hne]; [exact Hair|].
      apply Habove. lia.
    + cbv zeta. split; [lia|]. split; [intros y Hy; lia|]. intros _. exact Hair.
Qed.

(** X5: [World.getHeightAt] returns the height of the topmost block of the
    column that is not AIR, as [World.getBlock] reads it: the result is
    between -1 and CHUNK_HEIGHT - 1, every height above it reads AIR, the
    result itself, unless it is -1, does not, and it is -1 when the chunk of
    the column is not loaded. *)
Theorem getHeightAt_is_the_top_block (m : ChunkManager) (worldX worldZ : Q) :
  let h := World.getHeightAt m worldX worldZ in
  -1 <= h < CHUNK_HEIGHT /\
  (forall y : Z, h < y -> World.getBlock m worldX (inject_Z y) worldZ = Some AIR) /\
  (0 <= h -> World.getBlock m worldX (inject_Z h) worldZ <> Some AIR) /\
  (World.getChunkAtWorld m worldX worldZ = None -> h = -1).
Proof.
  intros h. unfold h, World.getHeightAt, World.getBlock, World.getChunkAtWorld.
  destruct (World.getChunk m (worldToChunk (Qfloor worldX))
                           (worldToChunk (Qfloor worldZ))) as [chunk|] eqn:E.
  2:{ cbv zeta. split; [unfold CHUNK_HEIGHT; lia|]. split; [|split; [lia|reflexivity]].
      intros y Hy. destruct (World.outOfHeight (inject_Z y)); [reflexivity|].
      rewrite manager_getBlock_local. unfold World.getChunk, chunkKey in E.
      rewrite E. reflexivity. }
  cbv zeta.
  destruct (scanDown_top chunk (worldToLocal (Qfloor worldX))
                         (worldToLocal (Qfloor worldZ)) (Z.to_nat CHUNK_HEIGHT))
    as (Hr & Habove & Hat).
  change (Z.of_nat (Z.to_nat CHUNK_HEIGHT)) with CHUNK_HEIGHT in *.
  split; [exact Hr|]. split; [|split; [|intros F; discriminate F]].
  - intros y Hy. destruct (World.outOfHeight (inject_Z y)) eqn:Eo; [reflexivity|].
    apply outOfHeight_false in Eo. rewrite Qfloor_Z in *.
    rewrite manager_getBlock_local. unfold World.getChunk, chunkKey in E. rewrite E.
    apply Habove. lia.
  - intros Hh. destruct (World.outOfHeight (inject_Z _)) eqn:Eo.
    + exfalso. apply not_false_iff_true in Eo. apply Eo.
      apply outOfHeight_false. rewrite Qfloor_Z. lia.
    + rewrite Qfloor_Z. rewrite manager_getBlock_local.
      unfold World.getChunk, chunkKey in E. rewrite E. apply Hat. exact Hh.
Qed.

End WorldFacts.

Module PoolInvariants.
Import Pool PoolSpec.

Section Invariants.

Variables (D R : Type).
Implicit Types (pool : WorkerPool D R) (ws : list WorkerEntry).

Lemma map_worker_setBusy w b ws : map worker (setBusy w b ws) = map worker ws.
Proof.
  unfold setBusy. rewrite map_map. apply map_ext. intros e.
  destruct (Nat.eqb_spec (worker e) w) as [E|E]; [cbn; auto|reflexivity].
Qed.

Lemma In_setBusy w b ws e' :
  In e' (setBusy w b ws) <->
  exists e, In e ws /\ e' = if Nat.eqb (worker e) w then mkEntry w b else e.
Proof.
  unfold setBusy. rewrite in_map_iff. split.
  - intros (e & <- & He). exists e. auto.
  - intros (e & He & ->). exists e. auto.
Qed.

Lemma busyOf_In w pool :
  In w (map worker (workers pool)) ->
  exists e, In e (workers pool) /\ worker e = w /\ busyOf D R w pool = busy e.
Proof.
  unfold busyOf. generalize (workers pool). intros ws.
  induction ws as [|e ws IH]; intros Hin; [destruct Hin|].
  cbn [find]. destruct (Nat.eqb_spec (worker e) w) as [E|E].
  - exists e. split; [left; reflexivity|]. auto.
  - destruct Hin as [Hin|Hin]; [contradiction|].
    destruct (IH Hin) as (e' & He' & Hw & Hb). exists e'. split; [right; exact He'|]. auto.
Qed.

Lemma find_idle ws :
  match find (fun e => negb (busy e)) ws with
  | Some e => In e ws /\ busy e = false
  | None => forall e, In e ws -> busy e = true
  end.
Proof.
  destruct (find _ ws) as [e|] eqn:E.
  - apply find_some in E as [H1 H2]. split; [exact H1|].
    apply negb_true_iff. exact H2.
  - intros e He. pose proof (find_none _ _ E e He) as H. cbn in H.
    apply negb_false_iff. exact H.
Qed.

Lemma consistent_dispatch pool w task :
  NoDup (map worker (workers pool)) ->
  (forall e, In e (workers pool) ->
     (busy e = true <-> is_Some (resolvers pool !! worker e))) ->
  (forall w, is_Some (resolvers pool !! w) -> In w (map worker (workers pool))) ->
  In w (map worker (workers pool)) ->
  (queue pool <> [] -> forall e, In e (workers pool) -> worker e <> w -> busy e = true) ->
  consistent (dispatch D R w task pool).
Proof.
  intros Hnd Hbusy Hdom Hw Hq. unfold consistent, dispatch.
  cbn [workers resolvers queue]. rewrite map_worker_setBusy.
  split; [exact Hnd|]. split; [|split].
  - intros e' He'. apply In_setBusy in He' as (e & He & ->).
    destruct (Nat.eqb_spec (worker e) w) as [E|E]; cbn [worker busy].
    + rewrite lookup_insert_eq. split; eauto.
    + rewrite lookup_insert_ne by congruence. apply Hbusy, He.
  - intros w' Hw'. destruct (decide (w' = w)) as [->|Hne]; [exact Hw|].
    rewrite lookup_insert_ne in Hw' by congruence. apply Hdom, Hw'.
  - intros Hne e' He'. apply In_setBusy in He' as (e & He & ->).
    destruct (Nat.eqb_spec (worker e) w) as [E|E]; [reflexivity|].
    apply Hq; assumption.
Qed.

Lemma consistent_create (poolSize : nat) : consistent (@create D R poolSize).
Proof.
  unfold consistent, create. cbn [workers resolvers queue].
  rewrite map_map. cbn [worker]. rewrite map_id.
  split; [apply NoDup_seq|]. split; [|split].
  - intros e He. apply in_map_iff in He as (i & <- & _). cbn [busy worker].
    rewrite lookup_empty. split; [discriminate|intros [? ?]; discriminate].
  - intros w [? Hw]. rewrite lookup_empty in Hw. discriminate.
  - intros Hq. contradiction.
Qed.

Lemma consistent_queueTask pool d :
  consistent pool -> consistent (queueTask d pool).2.
Proof.
  intros (Hnd & Hbusy & Hdom & Hq). unfold queueTask. cbn [workers].
  pose proof (find_idle (workers pool)) as Hidle.
  destruct (find (fun e => negb (busy e)) (workers pool)) as [idle|]; cbn [snd].
  - destruct Hidle as [Hin Hfree].
    apply consistent_dispatch; cbn [workers resolvers queue]; try assumption.
    + apply in_map, Hin.
    + intros Hne e He _. apply Hq; assumption.
  - unfold consistent. cbn [workers resolvers queue].
    split; [exact Hnd|]. split; [exact Hbusy|]. split; [exact Hdom|].
    intros _. exact Hidle.
Qed.

Lemma consistent_settle pool p o :
  consistent (settle D R p o pool) <-> consistent pool.
Proof.
  unfold settle. destruct (settled pool !! p); reflexivity.
Qed.

Lemma settle_fields pool p o :
  workers (settle D R p o pool) = workers pool /\
  queue (settle D R p o pool) = queue pool /\
  resolvers (settle D R p o pool) = resolvers pool /\
  posted (settle D R p o pool) = posted pool /\
  terminated (settle D R p o pool) = terminated pool /\
  promises (settle D R p o pool) = promises pool.
Proof. unfold settle. destruct (settled pool !! p); repeat split. Qed.

Lemma consistent_dispatchNext pool w :
  NoDup (map worker (workers pool)) ->
  (forall e, In e (workers pool) ->
     (busy e = true <-> is_Some (resolvers pool !! worker e))) ->
  (forall w, is_Some (resolvers pool !! w) -> In w (map worker (workers pool))) ->
  In w (map worker (workers pool)) ->
  (queue pool <> [] -> forall e, In e (workers pool) -> worker e <> w -> busy e = true) ->
  consistent (dispatchNext D R w pool).
Proof.
  intros Hnd Hbusy Hdom Hw Hq. unfold dispatchNext.
  destruct (queue pool) as [|next rest] eqn:Eq.
  - unfold consistent. rewrite Eq. split; [exact Hnd|]. split; [exact Hbusy|].
    split; [exact Hdom|]. intros F. contradiction.
  - destruct (busyOf_In w pool Hw) as (e & He & Hwe & Hb).
    destruct (busyOf D R w pool) eqn:Eb; cbn [negb].
    + unfold consistent. rewrite Eq. split; [exact Hnd|]. split; [exact Hbusy|].
      split; [exact Hdom|]. intros _ e' He'.
      destruct (Nat.eq_dec (worker e') w) as [E|E].
      * assert (e' = e) as ->.
        { clear - Hnd He He' E Hwe. revert Hnd He He'. generalize (workers pool).
          intros ws. induction ws as [|a ws IH]; intros Hnd He He'; [destruct He|].
          cbn [map] in Hnd. apply NoDup_cons in Hnd as [Hna Hnd].
          destruct He as [->|He], He' as [->|He']; auto.
          - exfalso. apply Hna, list_elem_of_In. rewrite Hwe, <- E. apply in_map, He'.
          - exfalso. apply Hna, list_elem_of_In. rewrite E, <- Hwe. apply in_map, He.
        }
        congruence.
      * apply Hq; [discriminate|assumption|assumption].
    + apply consistent_dispatch; cbn [workers resolvers queue]; try assumption.
      intros Hrest e' He' Hne. apply Hq; [discriminate|assumption|assumption].
Qed.

Lemma consistent_onSettled pool w o :
  consistent pool -> In w (map worker (workers pool)) ->
  consistent (onSettled D R w o pool).
Proof.
  intros (Hnd & Hbusy & Hdom & Hq) Hw. unfold onSettled.
  destruct (resolvers pool !! w) as [task|] eqn:Er.
  - destruct (settle_fields
                (mkPool D R (setBusy w false (workers pool)) (queue pool)
                        (delete w (resolvers pool)) (settled pool) (posted pool)
                        (terminated pool) (promises pool))
                (task_promise task) o) as (Ew & Eq & Ers & _).
    cbn [workers queue resolvers] in Ew, Eq, Ers.
    apply consistent_dispatchNext; rewrite ?Ew, ?Eq, ?Ers, ?map_worker_setBusy;
      try assumption.
    + intros e' He'. apply In_setBusy in He' as (e & He & ->).
      destruct (Nat.eqb_spec (worker e) w) as [E|E]; cbn [worker busy].
      * rewrite lookup_delete_eq. split; [discriminate|intros [? ?]; discriminate].
      * rewrite lookup_delete_ne by congruence. apply Hbusy, He.
    + intros w' Hw'. destruct (decide (w' = w)) as [->|Hne]; [exact Hw|].
      rewrite lookup_delete_ne in Hw' by congruence. apply Hdom, Hw'.
    + intros Hne e' He' Hw'. apply In_setBusy in He' as (e & He & ->).
      destruct (Nat.eqb_spec (worker e) w) as [E|E]; [cbn [worker] in Hw'; congruence|].
      apply Hq; assumption.
  - apply consistent_dispatchNext; try assumption.
    intros Hne e He _. apply Hq; assumption.
Qed.

(** [accounted] reads the queue, the resolvers, the settled promises and the
    promise counter only. *)
Lemma accounted_fields pool pool' :
  queue pool' = queue pool -> resolvers pool' = resolvers pool ->
  settled pool' = settled pool -> promises pool' = promises pool ->
  accounted pool -> accounted pool'.
Proof.
  intros Eq Er Es Ep. unfold accounted, queuedJob, inFlightJob.
  rewrite Eq, Er, Es, Ep. tauto.
Qed.

Lemma queued_promise_in pool p :
  queuedJob pool p <-> In p (map task_promise (queue pool)).
Proof.
  unfold queuedJob. rewrite in_map_iff. split.
  - intros (t & Ht & <-). eauto.
  - intros (t & <- & Ht). eauto.
Qed.

(** A new task goes to a worker that has no job. *)
Lemma accounted_fresh_inflight pool pool' w d :
  accounted pool -> resolvers pool !! w = None ->
  queue pool' = queue pool ->
  resolvers pool' = <[w := mkTask d (promises pool)]> (resolvers pool) ->
  settled pool' = settled pool -> promises pool' = S (promises pool) ->
  accounted pool'.
Proof.
  intros (H1 & H2 & H3 & H4 & H5 & H6) Hw Eq Er Es Ep.
  unfold accounted, queuedJob, inFlightJob in *. rewrite Eq, Er, Es, Ep.
  assert (Hold : forall w0 t, resolvers pool !! w0 = Some t -> w0 <> w) by congruence.
  assert (Hinf : forall p, (exists w0 t, <[w := mkTask d (promises pool)]> (resolvers pool)
                                           !! w0 = Some t /\ task_promise t = p) ->
                 p = promises pool \/
                 exists w0 t, resolvers pool !! w0 = Some t /\ task_promise t = p).
  { intros p (w0 & t & Ht & Hp). destruct (decide (w0 = w)) as [->|Hne].
    - rewrite lookup_insert_eq in Ht. injection Ht as <-. left. symmetry. exact Hp.
    - rewrite lookup_insert_ne in Ht by congruence. right. eauto. }
  split; [|split; [|split; [|split; [|split]]]].
  - intros p Hp. destruct (Nat.eq_dec p (promises pool)) as [->|Hne].
    + right. right. exists w, (mkTask d (promises pool)).
      rewrite lookup_insert_eq. auto.
    + destruct (H1 p) as [Hs|[Hq|(w0 & t & Ht & Hpt)]]; [lia|auto|auto|].
      right. right. exists w0, t. rewrite lookup_insert_ne by (apply not_eq_sym; eauto).
      auto.
  - intros p Hp. apply H2 in Hp. lia.
  - intros p [Hq|Hi].
    + destruct (H3 p (or_introl Hq)). split; [lia|assumption].
    + apply Hinf in Hi as [->|Hi].
      * split; [lia|]. destruct (settled pool !! promises pool) eqn:E; [|reflexivity].
        assert (promises pool < promises pool)%nat by (apply H2; eauto). lia.
      * destruct (H3 p (or_intror Hi)). split; [lia|assumption].
  - exact H4.
  - intros p Hq Hi. apply Hinf in Hi as [->|Hi].
    + destruct (H3 _ (or_introl Hq)). lia.
    + exact (H5 p Hq Hi).
  - intros w0 w0' t t' Ht Ht' Hp.
    destruct (decide (w0 = w)) as [->|Hne], (decide (w0' = w)) as [->|Hne'];
      [reflexivity| | |].
    + rewrite lookup_insert_eq in Ht. injection Ht as <-.
      rewrite lookup_insert_ne in Ht' by congruence. cbn [task_promise] in Hp.
      destruct (H3 (task_promise t')) as [Hlt _]; [right; eauto|]. lia.
    + rewrite lookup_insert_eq in Ht'. injection Ht' as <-.
      rewrite lookup_insert_ne in Ht by congruence. cbn [task_promise] in Hp.
      destruct (H3 (task_promise t)) as [Hlt _]; [right; eauto|]. lia.
    + rewrite lookup_insert_ne in Ht, Ht' by congruence. eauto.
Qed.

(** A new task waits at the end of the queue. *)
Lemma accounted_fresh_queued pool pool' d :
  accounted pool ->
  queue pool' = queue pool ++ [mkTask d (promises pool)] ->
  resolvers pool' = resolvers pool ->
  settled pool' = settled pool -> promises pool' = S (promises pool) ->
  accounted pool'.
Proof.
  intros (H1 & H2 & H3 & H4 & H5 & H6) Eq Er Es Ep.
  assert (Hqd : forall p, queuedJob pool' p <-> queuedJob pool p \/ p = promises pool).
  { intros p. rewrite !queued_promise_in, Eq, map_app, in_app_iff. cbn. intuition. }
  assert (Hif : forall p, inFlightJob pool' p <-> inFlightJob pool p).
  { intros p. unfold inFlightJob. rewrite Er. reflexivity. }
  unfold accounted. rewrite Es, Ep.
  split; [|split; [|split; [|split; [|split]]]].
  - intros p Hp. rewrite Hqd, Hif. destruct (Nat.eq_dec p (promises pool)) as [->|Hne];
      [auto|]. destruct (H1 p) as [?|[?|?]]; [lia|auto..].
  - intros p Hp. apply H2 in Hp. lia.
  - intros p Hp. rewrite Hqd, Hif in Hp. destruct Hp as [[Hq| ->]|Hi].
    + destruct (H3 p (or_introl Hq)). split; [lia|assumption].
    + split; [lia|]. destruct (settled pool !! promises pool) eqn:E; [|reflexivity].
      assert (promises pool < promises pool)%nat by (apply H2; eauto). lia.
    + destruct (H3 p (or_intror Hi)). split; [lia|assumption].
  - rewrite Eq, map_app. cbn [map task_promise]. apply NoDup_app.
    split; [exact H4|]. split; [|apply NoDup_singleton].
    intros p Hp Hp'. apply list_elem_of_In in Hp. apply list_elem_of_singleton in Hp'.
    subst p. apply queued_promise_in in Hp. destruct (H3 _ (or_introl Hp)). lia.
  - intros p Hq. rewrite Hif. apply Hqd in Hq as [Hq| ->]; [apply H5, Hq|].
    intros Hi. destruct (H3 _ (or_intror Hi)). lia.
  - rewrite Er. exact H6.
Qed.

(** The head of the queue goes to a worker that has no job. *)
Lemma accounted_head_inflight pool pool' w next rest :
  accounted pool -> resolvers pool !! w = None ->
  queue pool = next :: rest ->
  queue pool' = rest ->
  resolvers pool' = <[w := next]> (resolvers pool) ->
  settled pool' = settled pool -> promises pool' = promises pool ->
  accounted pool'.
Proof.
  intros (H1 & H2 & H3 & H4 & H5 & H6) Hw Eq0 Eq Er Es Ep.
  assert (Hqd : forall p, queuedJob pool p <-> p = task_promise next \/ queuedJob pool' p).
  { intros p. rewrite !queued_promise_in, Eq0, Eq. cbn. intuition. }
  assert (Hif : forall p, inFlightJob pool' p <->
                          p = task_promise next \/ inFlightJob pool p).
  { intros p. unfold inFlightJob. rewrite Er. split.
    - intros (w0 & t & Ht & Hp). destruct (decide (w0 = w)) as [->|Hne].
      + rewrite lookup_insert_eq in Ht. injection Ht as <-. auto.
      + rewrite lookup_insert_ne in Ht by congruence. eauto.
    - intros [->|(w0 & t & Ht & Hp)].
      + exists w, next. rewrite lookup_insert_eq. auto.
      + exists w0, t. rewrite lookup_insert_ne by congruence. auto. }
  rewrite Eq0 in H4. cbn [map] in H4. apply NoDup_cons in H4 as [Hnext H4].
  assert (Hnq : ~ queuedJob pool' (task_promise next)).
  { rewrite queued_promise_in, Eq. intros F. apply Hnext, list_elem_of_In, F. }
  unfold accounted. rewrite Es, Ep.
  split; [|split; [|split; [|split; [|split]]]].
  - intros p Hp. rewrite Hif. destruct (H1 p Hp) as [?|[Hq|?]]; [auto| |auto].
    apply Hqd in Hq as [?|?]; auto.
  - exact H2.
  - intros p Hp. apply H3. rewrite Hqd. rewrite Hif in Hp. tauto.
  - rewrite Eq. exact H4.
  - intros p Hq. rewrite Hif. intros [->|Hi]; [contradiction|].
    apply (H5 p); [apply Hqd; auto|exact Hi].
  - rewrite Er. intros w0 w0' t t' Ht Ht' Hp.
    destruct (decide (w0 = w)) as [->|Hne], (decide (w0' = w)) as [->|Hne'];
      [reflexivity| | |].
    + rewrite lookup_insert_eq in Ht. injection Ht as <-.
      rewrite lookup_insert_ne in Ht' by congruence.
      exfalso. apply (H5 (task_promise next)); [apply Hqd; auto|].
      exists w0', t'. auto.
    + rewrite lookup_insert_eq in Ht'. injection Ht' as <-.
      rewrite lookup_insert_ne in Ht by congruence.
      exfalso. apply (H5 (task_promise next)); [apply Hqd; auto|].
      exists w0, t. auto.
    + rewrite lookup_insert_ne in Ht, Ht' by congruence. eauto.
Qed.

(** The job in flight on a worker is settled. *)
Lemma accounted_settle_inflight pool pool' w task o :
  accounted pool -> resolvers pool !! w = Some task ->
  queue pool' = queue pool ->
  resolvers pool' = delete w (resolvers pool) ->
  settled pool' = <[task_promise task := o]> (settled pool) ->
  promises pool' = promises pool ->
  accounted pool'.
Proof.
  intros (H1 & H2 & H3 & H4 & H5 & H6) Hw Eq Er Es Ep.
  assert (Hqd : forall p, queuedJob pool' p <-> queuedJob pool p).
  { intros p. rewrite !queued_promise_in, Eq. reflexivity. }
  assert (Hif : forall p, inFlightJob pool p <->
                          p = task_promise task \/ inFlightJob pool' p).
  { intros p. unfold inFlightJob. rewrite Er. split.
    - intros (w0 & t & Ht & Hp). destruct (decide (w0 = w)) as [->|Hne].
      + left. congruence.
      + right. exists w0, t. rewrite lookup_delete_ne by congruence. auto.
    - intros [->|(w0 & t & Ht & Hp)]; [eauto|].
      apply lookup_delete_Some in Ht as [_ Ht]. eauto. }
  assert (Hnot : ~ inFlightJob pool' (task_promise task)).
  { unfold inFlightJob. rewrite Er. intros (w0 & t & Ht & Hp).
    apply lookup_delete_Some in Ht as [Hne Ht]. apply Hne. symmetry. eauto. }
  unfold accounted. rewrite Es, Ep.
  split; [|split; [|split; [|split; [|split]]]].
  - intros p Hp. rewrite Hqd. destruct (H1 p Hp) as [Hs|[?|Hi]]; [|auto|].
    + left. rewrite lookup_insert_is_Some. destruct (decide (task_promise task = p)); auto.
    + apply Hif in Hi as [->|?]; [|auto]. left. rewrite lookup_insert_eq. eauto.
  - intros p Hp. apply lookup_insert_is_Some in Hp as [<-|[_ Hp]]; [|apply H2, Hp].
    apply (H3 (task_promise task)). right. apply Hif. auto.
  - intros p Hp. assert (Hne : task_promise task <> p).
    { intros <-. destruct Hp as [Hq|Hi]; [|contradiction].
      apply (H5 (task_promise task)); [apply Hqd, Hq|apply Hif; auto]. }
    rewrite lookup_insert_ne by exact Hne. apply H3.
    rewrite Hqd in Hp. rewrite Hif. tauto.
  - rewrite Eq. exact H4.
  - intros p Hq Hi. apply (H5 p); [apply Hqd, Hq|apply Hif; auto].
  - rewrite Er. intros w0 w0' t t' Ht Ht' Hp.
    apply lookup_delete_Some in Ht as [_ Ht]. apply lookup_delete_Some in Ht' as [_ Ht'].
    eauto.
Qed.

Lemma accounted_create (poolSize : nat) : accounted (@create D R poolSize).
Proof.
  unfold accounted, create, queuedJob, inFlightJob.
  cbn [promises settled queue resolvers].
  split; [intros p Hp; lia|]. split; [intros p [? Hp]; rewrite lookup_empty in Hp; discriminate|].
  split; [|split; [apply NoDup_nil_2|split]].
  - intros p [(t & [] & _)|(w & t & Ht & _)]. rewrite lookup_empty in Ht. discriminate.
  - intros p (t & [] & _).
  - intros w w' t t' Ht. rewrite lookup_empty in Ht. discriminate.
Qed.

Lemma accounted_queueTask pool d :
  consistent pool -> accounted pool -> accounted (queueTask d pool).2.
Proof.
  intros (Hnd & Hbusy & Hdom & Hq) Hacc. unfold queueTask. cbn [workers].
  pose proof (find_idle (workers pool)) as Hidle.
  destruct (find (fun e => negb (busy e)) (workers pool)) as [idle|]; cbn [snd].
  - destruct Hidle as [Hin Hfree].
    apply (accounted_fresh_inflight pool _ (worker idle) d Hacc); try reflexivity.
    destruct (resolvers pool !! worker idle) eqn:E; [|reflexivity].
    assert (busy idle = true) by (apply Hbusy; eauto). congruence.
  - apply (accounted_fresh_queued pool _ d Hacc); reflexivity.
Qed.

Lemma accounted_dispatchNext pool w :
  accounted pool -> resolvers pool !! w = None ->
  accounted (dispatchNext D R w pool).
Proof.
  intros Hacc Hw. unfold dispatchNext.
  destruct (queue pool) as [|next rest] eqn:Eq; [exact Hacc|].
  destruct (negb (busyOf D R w pool)); [|exact Hacc].
  apply (accounted_head_inflight pool _ w next rest Hacc Hw Eq); reflexivity.
Qed.

Lemma accounted_onSettled pool w o :
  accounted pool -> accounted (onSettled D R w o pool).
Proof.
  intros Hacc. unfold onSettled.
  destruct (resolvers pool !! w) as [task|] eqn:Er.
  - apply accounted_dispatchNext.
    + pose proof Hacc as (H1 & H2 & H3 & H4 & H5 & H6).
      destruct (H3 (task_promise task)) as [_ Hns]; [right; exists w, task; auto|].
      unfold settle. cbn [settled]. rewrite Hns.
      apply (accounted_settle_inflight pool _ w task o Hacc Er); reflexivity.
    + destruct (settle_fields
                  (mkPool D R (setBusy w false (workers pool)) (queue pool)
                          (delete w (resolvers pool)) (settled pool) (posted pool)
                          (terminated pool) (promises pool))
                  (task_promise task) o) as (_ & _ & -> & _).
      cbn [resolvers]. apply lookup_delete_eq.
  - apply accounted_dispatchNext; assumption.
Qed.

Lemma settled_dispatchNext pool w :
  settled (dispatchNext D R w pool) = settled pool.
Proof.
  unfold dispatchNext. destruct (queue pool); [reflexivity|].
  destruct (negb (busyOf D R w pool)); reflexivity.
Qed.

Lemma busy_all ws :
  (forall e, In e ws -> busy e = true) ->
  length (filter (fun e => busy e = true) ws) = length ws.
Proof.
  induction ws as [|e ws IH]; intros H; [reflexivity|].
  rewrite filter_cons_True by (apply H; left; reflexivity).
  cbn [length]. f_equal. apply IH. intros e' He'. apply H. right. exact He'.
Qed.

Lemma busy_workers_in_flight pool :
  consistent pool -> busyCount D R pool = size (resolvers pool).
Proof.
  intros (Hnd & Hbusy & Hdom & _). unfold busyCount.
  rewrite <- size_dom.
  assert (Hset : dom (resolvers pool)
                 = list_to_set (map worker (filter (fun e => busy e = true) (workers pool)))
                   :> gset nat).
  { apply set_eq. intros w. rewrite elem_of_dom, elem_of_list_to_set, list_elem_of_In.
    rewrite in_map_iff. split.
    - intros Hw. pose proof (Hdom w Hw) as Hin.
      apply in_map_iff in Hin as (e & <- & He). exists e. split; [reflexivity|].
      apply list_elem_of_In, list_elem_of_filter. split; [|apply list_elem_of_In, He].
      apply Hbusy; assumption.
    - intros (e & <- & He). apply list_elem_of_In, list_elem_of_filter in He as [Hb He].
      apply Hbusy; [apply list_elem_of_In, He|exact Hb]. }
  rewrite Hset, size_list_to_set, length_map; [reflexivity|].
  clear - Hnd. revert Hnd. generalize (workers pool). intros ws.
  induction ws as [|e ws IH]; intros Hnd; [apply NoDup_nil_2|].
  cbn [map] in Hnd. apply NoDup_cons in Hnd as [Hne Hnd].
  destruct (decide (busy e = true)) as [Hb|Hb].
  - rewrite filter_cons_True by exact Hb. cbn [map]. apply NoDup_cons. split; [|apply IH, Hnd].
    intros F. apply Hne. apply list_elem_of_In in F. apply in_map_iff in F as (e' & E & He').
    apply list_elem_of_In, list_elem_of_filter in He' as [_ He'].
    apply list_elem_of_In. rewrite <- E. apply in_map, list_elem_of_In, He'.
  - rewrite filter_cons_False by exact Hb. apply IH, Hnd.
Qed.

End Invariants.

(** X6: the worker pool keeps its bookkeeping consistent and never lets a task
    wait while a worker is idle.  The invariant (every worker once, a worker
    busy exactly when a job is in flight on it, all workers busy whenever the
    queue is not empty) holds after the constructor and is kept by [queueTask]
    and by the [onmessage] and [onerror] handlers of the pool's workers, which
    also keep the set of workers.  Under it [busyCount] is the number of jobs
    in flight and equals the pool size whenever [pendingCount] is positive. *)
Theorem pool_never_idles_with_work (D R : Type) :
  (forall poolSize, consistent (@create D R poolSize)) /\
  (forall (pool : WorkerPool D R) d,
     consistent pool ->
     consistent (queueTask d pool).2 /\
     map worker (workers (queueTask d pool).2) = map worker (workers pool)) /\
  (forall (pool : WorkerPool D R) w value,
     consistent pool -> In w (map worker (workers pool)) ->
     consistent (onmessage w value pool)) /\
  (forall (pool : WorkerPool D R) w err,
     consistent pool -> In w (map worker (workers pool)) ->
     consistent (onerror w err pool)) /\
  (forall pool : WorkerPool D R,
     consistent pool ->
     busyCount D R pool = size (resolvers pool) /\
     ((0 < pendingCount D R pool)%nat -> busyCount D R pool = length (workers pool))).
Proof.
  split; [apply consistent_create|]. split; [|split; [|split]].
  - intros pool d Hc. split; [apply consistent_queueTask, Hc|].
    unfold queueTask. cbn [workers].
    destruct (find (fun e => negb (busy e)) (workers pool)); cbn [snd];
      [apply map_worker_setBusy|reflexivity].
  - intros pool w value Hc Hw. apply consistent_onSettled; assumption.
  - intros pool w err Hc Hw. apply consistent_onSettled; assumption.
  - intros pool Hc. split; [apply busy_workers_in_flight, Hc|].
    intros Hp. destruct Hc as (_ & _ & _ & Hq). apply busy_all, Hq.
    unfold pendingCount in Hp. destruct (queue pool); [cbn in Hp; lia|discriminate].
Qed.

Lemma pool_never_idles_with_work_witness :
  let pool := (queueTask 8%Z (queueTask 7%Z (@create Z Z 1)).2).2 in
  consistent (onmessage 0%nat 49%Z pool) /\
  busyCount Z Z pool = 1%nat.
Proof.
  destruct (pool_never_idles_with_work Z Z) as (Hc & Hq & Hm & _ & Hb).
  pose proof (proj1 (Hq _ 8%Z (proj1 (Hq _ 7%Z (Hc 1%nat))))) as Hpool.
  split.
  - apply Hm; [exact Hpool|]. left. reflexivity.
  - apply (proj2 (Hb _ Hpool)). cbn. lia.
Defined.

(** X7: between the constructor and [dispose] the pool loses no job and
    answers none twice.  Every promise handed out is in exactly one place:
    settled, or waiting in the queue, or in flight on one worker; this holds
    after the constructor and is kept by [queueTask] (on a consistent pool)
    and by the two handlers.  [queueTask] returns a fresh promise that is
    still pending; a message from a worker resolves the promise of the job in
    flight on that worker with the message, an error rejects it with the
    error. *)
Theorem pool_loses_no_job (D R : Type) :
  (forall poolSize, accounted (@create D R poolSize)) /\
  (forall (pool : WorkerPool D R) d,
     consistent pool -> accounted pool ->
     accounted (queueTask d pool).2 /\
     (queueTask d pool).1 = promises pool /\
     settled (queueTask d pool).2 !! (queueTask d pool).1 = None) /\
  (forall (pool : WorkerPool D R) w value,
     accounted pool ->
     accounted (onmessage w value pool) /\
     forall task, resolvers pool !! w = Some task ->
       settled (onmessage w value pool) !! task_promise task = Some (Resolved value)) /\
  (forall (pool : WorkerPool D R) w err,
     accounted pool ->
     accounted (onerror w err pool) /\
     forall task, resolvers pool !! w = Some task ->
       settled (onerror w err pool) !! task_promise task = Some (Rejected err)).
Proof.
  assert (Hset : forall (pool : WorkerPool D R) w o task,
            accounted pool -> resolvers pool !! w = Some task ->
            settled (onSettled D R w o pool) !! task_promise task = Some o).
  { intros pool w o task Hacc Er. unfold onSettled. rewrite Er.
    rewrite settled_dispatchNext. unfold settle. cbn [settled].
    destruct Hacc as (_ & _ & H3 & _).
    destruct (H3 (task_promise task)) as [_ ->]; [right; exists w, task; auto|].
    cbn [settled]. apply lookup_insert_eq. }
  split; [apply accounted_create|]. split; [|split].
  - intros pool d Hc Hacc.
    pose proof (accounted_queueTask D R pool d Hc Hacc) as Hacc'.
    assert (E : (queueTask d pool).1 = promises pool).
    { unfold queueTask. destruct (find _ _); reflexivity. }
    split; [exact Hacc'|]. split; [exact E|]. rewrite E.
    assert (Es : settled (queueTask d pool).2 = settled pool).
    { unfold queueTask. destruct (find _ _); reflexivity. }
    rewrite Es. destruct Hacc as (_ & H2 & _).
    destruct (settled pool !! promises pool) eqn:El; [|reflexivity].
    assert (promises pool < promises pool)%nat by (apply H2; eauto). lia.
  - intros pool w value Hacc. split; [apply accounted_onSettled, Hacc|].
    intros task Er. apply Hset; assumption.
  - intros pool w err Hacc. split; [apply accounted_onSettled, Hacc|].
    intros task Er. apply Hset; assumption.
Qed.

Lemma pool_loses_no_job_witness :
  let pool := (queueTask 8%Z (queueTask 7%Z (@create Z Z 1)).2).2 in
  accounted (onerror 0%nat "crash" pool) /\
  settled (onerror 0%nat "crash" pool) !! 0%nat = Some (Rejected "crash").
Proof.
  destruct (pool_loses_no_job Z Z) as (Hc & Hq & _ & He).
  pose proof (proj1 (Hq _ 8%Z (consistent_queueTask Z Z _ 7%Z (consistent_create Z Z 1))
                       (proj1 (Hq _ 7%Z (consistent_create Z Z 1) (Hc 1%nat))))) as Hpool.
  destruct (He _ 0%nat "crash" Hpool) as [Ha Hs].
  split; [exact Ha|]. apply (Hs (mkTask 7%Z 0%nat)). reflexivity.
Defined.

End PoolInvariants.

Module LifecycleFacts.
Import Chunk Manager ManagerSpec Lifecycle LifecycleSpec ManagerFacts.

(** *** Unloading *)

Lemma removeChunks_spec (l : list (Z * Z)) (st : State) :
  let st' := fold_left removeChunk l st in
  (forall k, chunks (manager st') !! k
             = if bool_decide (k ∈ l) then None else chunks (manager st) !! k) /\
  (forall k, sceneMeshes (manager st') !! k
             = if bool_decide (k ∈ l) then None else sceneMeshes (manager st) !! k) /\
  (forall k, k ∈ meshingInProgress (manager st') <->
             k ∈ meshingInProgress (manager st) /\ k ∉ l) /\
  order st' = List.filter (fun k => negb (bool_decide (k ∈ l))) (order st) /\
  workerPool (manager st') = workerPool (manager st) /\
  awaiting (manager st') = awaiting (manager st) /\
  blockInfo (manager st') = blockInfo (manager st) /\
  consoleErrors (manager st') = consoleErrors (manager st).
Proof.
  revert st. induction l as [|key l IH]; intros st; cbn [fold_left].
  - cbv zeta. split; [reflexivity|]. split; [reflexivity|].
    split; [|split; [|repeat split]].
    + intros k. split; [intros Hk; split; [exact Hk|apply not_elem_of_nil]|].
      intros [Hk _]. exact Hk.
    + induction (order st) as [|k ks IHk]; [reflexivity|]. cbn. f_equal. exact IHk.
  - specialize (IH (removeChunk st key)). cbv zeta in *.
    destruct IH as (Hc & Hs & Hm & Ho & Hp & Ha & Hb & He).
    split; [|split; [|split; [|split; [|split; [|split; [|split]]]]]].
    + intros k. rewrite Hc. cbn [removeChunk manager chunks].
      destruct (decide (k = key)) as [->|Hne].
      * rewrite lookup_delete_eq.
        rewrite (bool_decide_eq_true_2 (key ∈ key :: l)) by (left).
        destruct (bool_decide (key ∈ l)); reflexivity.
      * rewrite lookup_delete_ne by congruence.
        apply (f_equal (fun b : bool => if b then None else chunks (manager st) !! k)).
        apply bool_decide_ext. rewrite elem_of_cons. tauto.
    + intros k. rewrite Hs. cbn [removeChunk manager sceneMeshes].
      destruct (decide (k = key)) as [->|Hne].
      * rewrite lookup_delete_eq.
        rewrite (bool_decide_eq_true_2 (key ∈ key :: l)) by (left).
        destruct (bool_decide (key ∈ l)); reflexivity.
      * rewrite lookup_delete_ne by congruence.
        apply (f_equal (fun b : bool => if b then None else sceneMeshes (manager st) !! k)).
        apply bool_decide_ext. rewrite elem_of_cons. tauto.
    + intros k. rewrite Hm. cbn [removeChunk manager meshingInProgress].
      rewrite elem_of_difference, elem_of_singleton, elem_of_cons. tauto.
    + rewrite Ho. cbn [removeChunk order]. clear.
      induction (order st) as [|k ks IHk]; [reflexivity|]. cbn [List.filter].
      destruct (decide (k = key)) as [->|Hne].
      * rewrite (bool_decide_eq_true_2 (key = key)) by reflexivity. cbn [negb].
        rewrite (bool_decide_eq_true_2 (key ∈ key :: l)) by (left). cbn [negb]. exact IHk.
      * rewrite (bool_decide_eq_false_2 (k = key)) by exact Hne. cbn [negb List.filter].
        rewrite IHk.
        replace (bool_decide (k ∈ key :: l)) with (bool_decide (k ∈ l)); [reflexivity|].
        apply bool_decide_ext. rewrite elem_of_cons. tauto.
    + rewrite Hp. reflexivity.
    + rewrite Ha. reflexivity.
    + rewrite Hb. reflexivity.
    + rewrite He. reflexivity.
Qed.

Lemma isDistant_keyed m pcx pcz maxDist k c :
  keyed m -> chunks m !! k = Some c ->
  isDistant m pcx pcz maxDist k = (dist2 pcx pcz k >? maxDist * maxDist).
Proof.
  intros Hk E. unfold isDistant, dist2. rewrite E.
  specialize (Hk k c E). unfold chunkKey in Hk. subst k. reflexivity.
Qed.

Lemma toRemove_spec st pcx pcz maxDist k :
  ordered st ->
  k ∈ List.filter (isDistant (manager st) pcx pcz maxDist) (order st) <->
  isDistant (manager st) pcx pcz maxDist k = true.
Proof.
  intros [_ Hord]. rewrite list_elem_of_In, filter_In, <- list_elem_of_In, Hord.
  split; [tauto|]. intros H. split; [|exact H].
  unfold isDistant in H. destruct (chunks (manager st) !! k); [eauto|discriminate].
Qed.

Lemma NoDup_filter_list {A : Type} (f : A -> bool) (l : list A) :
  NoDup l -> NoDup (List.filter f l).
Proof.
  induction l as [|x l IH]; intros Hnd; [apply NoDup_nil_2|].
  apply NoDup_cons in Hnd as [Hx Hnd]. cbn [List.filter].
  destruct (f x); [|apply IH, Hnd].
  apply NoDup_cons. split; [|apply IH, Hnd].
  intros F. apply Hx. apply list_elem_of_In in F. apply filter_In in F as [F _].
  apply list_elem_of_In, F.
Qed.

Lemma unloadDistantChunks_spec (pcx pcz maxDist : Z) (st : State) :
  ordered st ->
  let far := isDistant (manager st) pcx pcz maxDist in
  let st' := unloadDistantChunks pcx pcz maxDist st in
  (forall k, chunks (manager st') !! k
             = if far k then None else chunks (manager st) !! k) /\
  (forall k, sceneMeshes (manager st') !! k
             = if far k then None else sceneMeshes (manager st) !! k) /\
  (forall k, k ∈ meshingInProgress (manager st') <->
             k ∈ meshingInProgress (manager st) /\ far k = false) /\
  ordered st' /\
  (keyed (manager st) ->
   keyed (manager st') /\
   (forall k, is_Some (chunks (manager st') !! k) ->
              dist2 pcx pcz k <= maxDist * maxDist) /\
   (forall k c, chunks (manager st) !! k = Some c ->
              dist2 pcx pcz k <= maxDist * maxDist ->
              chunks (manager st') !! k = Some c)) /\
  (forall result,
     far (chunkKey (res_chunkX result) (res_chunkZ result)) = true ->
     onMeshResult result (manager st') = manager st').
Proof.
  intros Hord far st'. unfold st', unloadDistantChunks.
  destruct (removeChunks_spec
              (List.filter (isDistant (manager st) pcx pcz maxDist) (order st)) st)
    as (Hc & Hs & Hm & Ho & _).
  cbv zeta in *.
  assert (Hfar : forall k,
            bool_decide (k ∈ List.filter (isDistant (manager st) pcx pcz maxDist)
                                         (order st)) = far k).
  { intros k. destruct (far k) eqn:E.
    - apply bool_decide_eq_true_2, toRemove_spec; assumption.
    - apply bool_decide_eq_false_2. rewrite toRemove_spec by assumption.
      unfold far in E. congruence. }
  assert (Hc' : forall k, chunks (manager (fold_left removeChunk
                  (List.filter (isDistant (manager st) pcx pcz maxDist) (order st)) st))
                  !! k = if far k then None else chunks (manager st) !! k).
  { intros k. rewrite Hc, Hfar. reflexivity. }
  split; [exact Hc'|]. split; [|split; [|split; [|split]]].
  - intros k. rewrite Hs, Hfar. reflexivity.
  - intros k. rewrite Hm. rewrite <- Hfar.
    rewrite bool_decide_eq_false. reflexivity.
  - destruct Hord as [Hnd Hord]. split.
    + rewrite Ho. apply NoDup_filter_list, Hnd.
    + intros k. rewrite Ho, Hc', list_elem_of_In, filter_In, <- list_elem_of_In, Hord.
      rewrite Hfar. destruct (far k) eqn:E; cbn [negb].
      * split; [intros [_ F]; discriminate|intros [? F]; discriminate].
      * tauto.
  - intros Hk. split; [|split].
    + intros k c. rewrite Hc'. destruct (far k); [discriminate|]. apply Hk.
    + intros k [c Hkc]. rewrite Hc' in Hkc. destruct (far k) eqn:E; [discriminate|].
      unfold far in E. rewrite (isDistant_keyed _ _ _ _ _ c Hk Hkc) in E.
      rewrite Z.gtb_ltb in E. apply Z.ltb_ge in E. exact E.
    + intros k c Hkc Hd. rewrite Hc'. unfold far.
      rewrite (isDistant_keyed _ _ _ _ _ c Hk Hkc).
      replace (dist2 pcx pcz k >? maxDist * maxDist) with false; [exact Hkc|].
      symmetry. rewrite Z.gtb_ltb. apply Z.ltb_ge. exact Hd.
  - intros result Hr. unfold onMeshResult. rewrite Hc', Hr. reflexivity.
Qed.

(** *** Queueing dirty chunks *)

Lemma insertByDist_perm e l : insertByDist e l ≡ₚ e :: l.
Proof.
  induction l as [|x l IH]; [reflexivity|]. cbn [insertByDist].
  destruct (d_dist e <? d_dist x); [reflexivity|].
  rewrite IH. apply Permutation_swap.
Qed.

Lemma sortByDist_perm l : sortByDist l ≡ₚ l.
Proof.
  unfold sortByDist.
  assert (H : forall acc, fold_left (fun acc e => insertByDist e acc) l acc ≡ₚ acc ++ l).
  { induction l as [|e l IH]; intros acc; cbn [fold_left].
    - rewrite app_nil_r. reflexivity.
    - rewrite IH, insertByDist_perm. cbn [app]. apply Permutation_middle. }
  apply (H []).
Qed.

Lemma insertByDist_sorted e l :
  StronglySorted byDist l -> StronglySorted byDist (insertByDist e l).
Proof.
  induction l as [|x l IH]; intros Hs; cbn [insertByDist].
  - repeat constructor.
  - apply StronglySorted_inv in Hs as [Hs Hx].
    destruct (Z.ltb_spec (d_dist e) (d_dist x)) as [Hlt|Hge].
    + constructor; [constructor; assumption|].
      constructor; [unfold byDist; lia|].
      eapply Forall_impl; [exact Hx|]. intros a Ha. unfold byDist in *. lia.
    + constructor; [apply IH, Hs|].
      apply List.Forall_forall. intros a Ha.
      apply (Permutation_in _ (insertByDist_perm e l)) in Ha.
      destruct Ha as [<-|Ha]; [exact Hge|].
      rewrite List.Forall_forall in Hx. apply Hx, Ha.
Qed.

Lemma sortByDist_sorted l : StronglySorted byDist (sortByDist l).
Proof.
  unfold sortByDist.
  assert (H : forall acc, StronglySorted byDist acc ->
                          StronglySorted byDist
                            (fold_left (fun acc e => insertByDist e acc) l acc)).
  { induction l as [|e l IH]; intros acc Hs; cbn [fold_left]; [exact Hs|].
    apply IH, insertByDist_sorted, Hs. }
  apply H. constructor.
Qed.

Lemma sorted_split (l1 l2 : list DirtyEntry) :
  StronglySorted byDist (l1 ++ l2) ->
  forall a b, In a l1 -> In b l2 -> d_dist a <= d_dist b.
Proof.
  induction l1 as [|x l1 IH]; intros Hs a b Ha Hb; [destruct Ha|].
  cbn [app] in Hs. apply StronglySorted_inv in Hs as [Hs Hx].
  destruct Ha as [<-|Ha]; [|apply IH; assumption].
  rewrite List.Forall_forall in Hx. apply Hx. apply in_or_app. right. exact Hb.
Qed.

Lemma collect_fold m pcx pcz rd ks acc :
  fold_left (collect m pcx pcz rd) ks acc
  = acc ++ flat_map (entryOf m pcx pcz rd) ks.
Proof.
  revert acc. induction ks as [|k ks IH]; intros acc; cbn [fold_left flat_map].
  - rewrite app_nil_r. reflexivity.
  - rewrite IH, app_assoc. f_equal. unfold entryOf, collect.
    destruct (chunks m !! k); [|rewrite app_nil_r; reflexivity].
    destruct (collected m pcx pcz rd k); [reflexivity|rewrite app_nil_r; reflexivity].
Qed.

Lemma entryOf_spec m pcx pcz rd k e :
  In e (entryOf m pcx pcz rd k) <->
  d_key e = k /\ collected m pcx pcz rd k = true /\
  chunks m !! k = Some (d_chunk e) /\
  d_dist e = (Chunk.cx (d_chunk e) - pcx) * (Chunk.cx (d_chunk e) - pcx)
             + (Chunk.cz (d_chunk e) - pcz) * (Chunk.cz (d_chunk e) - pcz).
Proof.
  unfold entryOf, collect.
  destruct (chunks m !! k) as [c|] eqn:E.
  - destruct (collected m pcx pcz rd k) eqn:Ec; cbn.
    + split.
      * intros [<-|[]]. cbn. auto.
      * intros (Hk & _ & [= Hc] & Hd). left. destruct e as [k' c' d']. cbn in *.
        subst. reflexivity.
    + split; [intros []|intros (_ & F & _); discriminate].
  - cbn. split; [intros []|].
    intros (_ & F & _). unfold collected in F. rewrite E in F. discriminate.
Qed.

Lemma entries_keys m pcx pcz rd ks :
  map d_key (flat_map (entryOf m pcx pcz rd) ks)
  = List.filter (collected m pcx pcz rd) ks.
Proof.
  induction ks as [|k ks IH]; [reflexivity|]. cbn [flat_map List.filter].
  rewrite map_app, IH. unfold entryOf at 1, collect.
  destruct (collected m pcx pcz rd k) eqn:Ec.
  - unfold collected in Ec. destruct (chunks m !! k); [reflexivity|discriminate].
  - destruct (chunks m !! k); reflexivity.
Qed.

Lemma queueTask_promises {D R : Type} (d : D) (pool : Pool.WorkerPool D R) :
  Pool.promises (Pool.queueTask d pool).2 = S (Pool.promises pool).
Proof.
  unfold Pool.queueTask. destruct (find _ _); reflexivity.
Qed.

Lemma queueChunkMesh_fields key m chunk :
  chunks m !! key = Some chunk ->
  let m' := queueChunkMesh key m in
  chunks m' = <[key := cleaned chunk]> (chunks m) /\
  meshingInProgress m' = {[key]} ∪ meshingInProgress m /\
  Pool.promises (workerPool m') = S (Pool.promises (workerPool m)) /\
  sceneMeshes m' = sceneMeshes m /\ blockInfo m' = blockInfo m /\
  consoleErrors m' = consoleErrors m.
Proof.
  intros E. unfold queueChunkMesh. rewrite E.
  pose proof (queueTask_promises
                (mkMessage (Chunk.cx chunk) (Chunk.cz chunk) (data chunk)
                           (gatherNeighbors m chunk) (blockInfo m)) (workerPool m)) as Hp.
  destruct (Pool.queueTask _ _) as [promise pool]. cbn [snd] in Hp. cbv zeta.
  cbn [chunks meshingInProgress workerPool sceneMeshes blockInfo consoleErrors].
  repeat split. exact Hp.
Qed.

Lemma queueAll_spec (keys : list (Z * Z)) (m : ChunkManager) :
  NoDup keys -> (forall k, k ∈ keys -> is_Some (chunks m !! k)) ->
  let m' := fold_left (fun m k => queueChunkMesh k m) keys m in
  (forall k, chunks m' !! k
             = if bool_decide (k ∈ keys) then cleaned <$> chunks m !! k
               else chunks m !! k) /\
  (forall k, k ∈ meshingInProgress m' <-> k ∈ keys \/ k ∈ meshingInProgress m) /\
  Pool.promises (workerPool m') = (Pool.promises (workerPool m) + length keys)%nat /\
  sceneMeshes m' = sceneMeshes m /\ blockInfo m' = blockInfo m /\
  consoleErrors m' = consoleErrors m.
Proof.
  revert m. induction keys as [|key keys IH]; intros m Hnd Hin; cbn [fold_left].
  - cbv zeta. split; [reflexivity|]. split; [|repeat split; cbn; lia].
    intros k. rewrite elem_of_nil. tauto.
  - apply NoDup_cons in Hnd as [Hkey Hnd].
    destruct (Hin key) as [chunk E]; [left|].
    destruct (queueChunkMesh_fields key m chunk E) as (Hc & Hm & Hp & Hs & Hb & He).
    cbv zeta in *.
    destruct (IH (queueChunkMesh key m) Hnd) as (Hc' & Hm' & Hp' & Hs' & Hb' & He').
    { intros k Hk. rewrite Hc. destruct (decide (k = key)) as [->|Hne].
      - rewrite lookup_insert_eq. eauto.
      - rewrite lookup_insert_ne by congruence. apply Hin. right. exact Hk. }
    split; [|split; [|split; [|split; [|split]]]].
    + intros k. rewrite Hc', Hc. destruct (decide (k = key)) as [->|Hne].
      * rewrite lookup_insert_eq, E.
        rewrite (bool_decide_eq_false_2 _ Hkey).
        rewrite (bool_decide_eq_true_2 (key ∈ key :: keys)) by left. reflexivity.
      * rewrite lookup_insert_ne by congruence.
        replace (bool_decide (k ∈ key :: keys)) with (bool_decide (k ∈ keys));
          [reflexivity|].
        apply bool_decide_ext. rewrite elem_of_cons. tauto.
    + intros k. rewrite Hm', Hm, elem_of_union, elem_of_singleton, elem_of_cons. tauto.
    + rewrite Hp', Hp. cbn [length]. lia.
    + rewrite Hs', Hs. reflexivity.
    + rewrite Hb', Hb. reflexivity.
    + rewrite He', He. reflexivity.
Qed.

Lemma entries_in m pcx pcz rd ks e :
  In e (flat_map (entryOf m pcx pcz rd) ks) ->
  collected m pcx pcz rd (d_key e) = true /\
  chunks m !! d_key e = Some (d_chunk e) /\
  d_dist e = (Chunk.cx (d_chunk e) - pcx) * (Chunk.cx (d_chunk e) - pcx)
             + (Chunk.cz (d_chunk e) - pcz) * (Chunk.cz (d_chunk e) - pcz).
Proof.
  intros He. apply in_flat_map in He as (k & _ & He).
  apply entryOf_spec in He as (<- & Hc & Hl & Hd). auto.
Qed.

Lemma collected_loaded m pcx pcz rd k :
  collected m pcx pcz rd k = true -> is_Some (chunks m !! k).
Proof. unfold collected. destruct (chunks m !! k); [eauto|discriminate]. Qed.

Lemma queueDirtyChunks_spec (pcx pcz rd : Z) (st : State) :
  ordered st -> keyed (manager st) ->
  let m := manager st in
  let st' := queueDirtyChunks pcx pcz rd st in
  let m' := manager st' in
  exists queued : list (Z * Z),
    NoDup queued /\ (length queued <= 4)%nat /\
    (forall k, k ∈ queued -> collected m pcx pcz rd k = true) /\
    (forall k k', k ∈ queued -> k' ∉ queued -> collected m pcx pcz rd k' = true ->
       dist2 pcx pcz k <= dist2 pcx pcz k') /\
    ((length queued < 4)%nat ->
     forall k, collected m pcx pcz rd k = true -> k ∈ queued) /\
    (forall k, chunks m' !! k
               = if bool_decide (k ∈ queued) then cleaned <$> chunks m !! k
                 else chunks m !! k) /\
    (forall k, k ∈ meshingInProgress m' <-> k ∈ queued \/ k ∈ meshingInProgress m) /\
    Pool.promises (workerPool m')
    = (Pool.promises (workerPool m) + length queued)%nat /\
    sceneMeshes m' = sceneMeshes m /\ order st' = order st /\
    (forall k, k ∈ queued -> collected m' pcx pcz rd k = false).
Proof.
  intros [Hnd Hord] Hkeyed m st' m'.
  set (E := flat_map (entryOf m pcx pcz rd) (order st)).
  set (S := sortByDist E).
  set (n := Z.to_nat (Z.min (Z.of_nat (length S)) maxMeshQueuePerFrame)).
  assert (Hst : m' = fold_left (fun m k => queueChunkMesh k m)
                               (map d_key (firstn n S)) m).
  { unfold m', st', queueDirtyChunks. cbn [manager]. rewrite collect_fold. cbn [app].
    fold m E S n. generalize (firstn n S). intros l. generalize m.
    induction l as [|e l IH]; intros m0; [reflexivity|]. cbn [fold_left map]. apply IH. }
  assert (HSE : S ≡ₚ E) by apply sortByDist_perm.
  assert (Hkeys : forall k, k ∈ map d_key S <-> collected m pcx pcz rd k = true).
  { intros k. rewrite HSE. unfold E. rewrite entries_keys.
    rewrite list_elem_of_In, filter_In, <- list_elem_of_In, Hord.
    split; [tauto|]. intros H. split; [apply (collected_loaded _ _ _ _ _ H)|exact H]. }
  assert (HndS : NoDup (map d_key S)).
  { rewrite HSE. unfold E. rewrite entries_keys. apply NoDup_filter_list, Hnd. }
  assert (Hsplit : S = firstn n S ++ skipn n S) by (symmetry; apply firstn_skipn).
  assert (HndQ : NoDup (map d_key (firstn n S)) /\
                 forall k, k ∈ map d_key (firstn n S) -> k ∈ map d_key (skipn n S) -> False).
  { rewrite Hsplit, map_app in HndS. apply NoDup_app in HndS as (H1 & H2 & _).
    split; [exact H1|]. intros k Hk Hk'. exact (H2 k Hk Hk'). }
  destruct HndQ as [HndQ Hdisj].
  assert (Hlen : (length (map d_key (firstn n S)) <= 4)%nat).
  { rewrite length_map, length_firstn. unfold n, maxMeshQueuePerFrame. lia. }
  assert (Hsub : forall k, k ∈ map d_key (firstn n S) -> k ∈ map d_key S).
  { intros k Hk. rewrite Hsplit, map_app, elem_of_app. left. exact Hk. }
  assert (Hdist : forall e, In e S -> d_dist e = dist2 pcx pcz (d_key e)).
  { intros e He. apply (Permutation_in _ HSE) in He.
    apply entries_in in He as (_ & Hl & ->).
    specialize (Hkeyed _ _ Hl). unfold chunkKey in Hkeyed. unfold dist2.
    rewrite <- Hkeyed. reflexivity. }
  destruct (queueAll_spec (map d_key (firstn n S)) m HndQ)
    as (Hc & Hm & Hp & Hs & _).
  { intros k Hk. apply (collected_loaded m pcx pcz rd). apply Hkeys, Hsub, Hk. }
  cbv zeta in Hc, Hm, Hp, Hs. rewrite <- Hst in Hc, Hm, Hp, Hs.
  exists (map d_key (firstn n S)).
  split; [exact HndQ|]. split; [exact Hlen|].
  split; [intros k Hk; apply Hkeys, Hsub, Hk|].
  split; [|split; [|split; [exact Hc|split; [exact Hm|split; [exact Hp|split;
    [exact Hs|split; [reflexivity|]]]]]]].
  - intros k k' Hk Hk' Hc'.
    apply Hkeys in Hc'. rewrite Hsplit, map_app, elem_of_app in Hc'.
    destruct Hc' as [F|Hc']; [contradiction|].
    apply list_elem_of_In, in_map_iff in Hk as (e & <- & He).
    apply list_elem_of_In, in_map_iff in Hc' as (e' & <- & He').
    rewrite <- !Hdist.
    + apply (sorted_split (firstn n S) (skipn n S)); [|exact He|exact He'].
      rewrite <- Hsplit. apply sortByDist_sorted.
    + rewrite Hsplit. apply in_or_app. right. exact He'.
    + rewrite Hsplit. apply in_or_app. left. exact He.
  - intros Hlt k Hk. apply Hkeys in Hk.
    rewrite length_map, length_firstn in Hlt.
    assert (Hn : (length S <= n)%nat).
    { clear - Hlt. unfold n, maxMeshQueuePerFrame in *. lia. }
    rewrite firstn_all2 by exact Hn. exact Hk.
  - intros k Hk. apply collected_clean. rewrite Hc.
    rewrite (bool_decide_eq_true_2 _ Hk).
    destruct (collected_loaded m pcx pcz rd k) as [c ->]; [apply Hkeys, Hsub, Hk|].
    reflexivity.
Qed.

(** *** Generation *)

Lemma forWhileL_idle {S A : Type} (cond : S -> bool) (body : S -> A -> S) l s :
  cond s = false -> forWhileL cond body l s = s.
Proof.
  intros H. induction l as [|x l IH]; [reflexivity|].
  unfold forWhileL in *. cbn [fold_left]. rewrite H. exact IH.
Qed.

Lemma forWhileL_ext {S A : Type} (cond : S -> bool) (f g : S -> A -> S) l s :
  (forall s x, f s x = g s x) -> forWhileL cond f l s = forWhileL cond g l s.
Proof.
  intros H. revert s. induction l as [|x l IH]; intros s; [reflexivity|].
  unfold forWhileL in *. cbn [fold_left]. rewrite H. apply IH.
Qed.

Lemma forWhileL_map {S A B : Type} (cond : S -> bool) (f : S -> B -> S) (g : A -> B) l s :
  forWhileL cond f (map g l) s = forWhileL cond (fun s x => f s (g x)) l s.
Proof.
  revert s. induction l as [|x l IH]; intros s; [reflexivity|].
  unfold forWhileL in *. cbn [map fold_left]. apply IH.
Qed.

Lemma forWhileL_flat {S A B : Type} (cond : S -> bool) (inner : A -> list B)
    (body : A -> S -> B -> S) outer s :
  forWhileL cond (fun s i => forWhileL cond (body i) (inner i) s) outer s
  = forWhileL cond (fun s p => body p.1 s p.2)
              (flat_map (fun i => map (pair i) (inner i)) outer) s.
Proof.
  revert s. induction outer as [|i outer IH]; intros s; [reflexivity|].
  cbn [flat_map].
  transitivity (forWhileL cond (fun s p => body p.1 s p.2)
                  (flat_map (fun i => map (pair i) (inner i)) outer)
                  (forWhileL cond (fun s p => body p.1 s p.2)
                             (map (pair i) (inner i)) s)).
  - rewrite <- IH, forWhileL_map. cbn [fst snd].
    unfold forWhileL at 1. cbn [fold_left].
    destruct (cond s) eqn:E; [reflexivity|].
    rewrite (forWhileL_idle cond (fun s0 x => body i s0 x) (inner i) s E). reflexivity.
  - unfold forWhileL. rewrite fold_left_app. reflexivity.
Qed.

Lemma forWhileL_ind {S A : Type} (cond : S -> bool) (body : S -> A -> S)
    (I : list A -> S -> Prop) l s0 :
  I [] s0 ->
  (forall pre x suf s, l = pre ++ x :: suf -> I pre s ->
     I (pre ++ [x]) (if cond s then body s x else s)) ->
  I l (forWhileL cond body l s0).
Proof.
  intros H0 Hstep.
  assert (H : forall l' pre s, l = pre ++ l' -> I pre s ->
                               I l (forWhileL cond body l' s)).
  { induction l' as [|x l' IH]; intros pre s El Hs.
    - rewrite app_nil_r in El. subst pre. exact Hs.
    - unfold forWhileL. cbn [fold_left]. apply (IH (pre ++ [x])).
      + rewrite <- app_assoc. exact El.
      + apply (Hstep pre x l' s El Hs). }
  apply (H l [] s0); [reflexivity|exact H0].
Qed.

(** The three loops as one loop over the cells. *)
Lemma generateNearbyChunks_cells gen pcx pcz rd st :
  generateNearbyChunks gen pcx pcz rd st
  = (forWhileL underBudget (fun s c => nearbyCell gen pcx pcz c.1 c.2.1 s c.2.2)
               (cells rd) (st, 0)).1.
Proof.
  unfold generateNearbyChunks, cells. f_equal.
  change (@forWhile) with (fun S => @forWhileL S Z). cbv beta.
  etransitivity.
  - apply forWhileL_ext. intros s ring.
    apply (forWhileL_flat underBudget (fun _ => seqZ (- ring) (2 * ring + 1))
                          (fun dx s dz => nearbyCell gen pcx pcz ring dx s dz)).
  - apply (forWhileL_flat underBudget
             (fun ring => flat_map (fun dx => map (pair dx) (seqZ (- ring) (2 * ring + 1)))
                                   (seqZ (- ring) (2 * ring + 1)))
             (fun ring s p => nearbyCell gen pcx pcz ring p.1 s p.2)).
Qed.

Lemma in_cells rd c :
  In c (cells rd) <->
  0 <= c.1 <= rd /\ - c.1 <= c.2.1 <= c.1 /\ - c.1 <= c.2.2 <= c.1.
Proof.
  destruct c as [ring [dx dz]]. unfold cells. cbn [fst snd].
  rewrite in_flat_map. split.
  - intros (r & Hr & Hc). apply in_map_iff in Hc as ([dx' dz'] & [= -> -> ->] & Hc).
    apply in_flat_map in Hc as (x & Hx & Hc). apply in_map_iff in Hc as (z & [= -> ->] & Hz).
    apply list_elem_of_In, elem_of_seqZ in Hr, Hx, Hz. lia.
  - intros (Hr & Hx & Hz). exists ring. split; [apply list_elem_of_In, elem_of_seqZ; lia|].
    apply in_map, in_flat_map. exists dx. split; [apply list_elem_of_In, elem_of_seqZ; lia|].
    apply in_map, list_elem_of_In, elem_of_seqZ. lia.
Qed.

Lemma NoDup_map_pair {A B : Type} (a : A) (l : list B) :
  NoDup l -> NoDup (map (pair a) l).
Proof.
  induction l as [|x l IH]; intros Hnd; [apply NoDup_nil_2|].
  apply NoDup_cons in Hnd as [Hx Hnd]. cbn [map]. apply NoDup_cons.
  split; [|apply IH, Hnd]. intros F. apply Hx.
  apply list_elem_of_In, in_map_iff in F as (y & [= ->] & Hy). apply list_elem_of_In, Hy.
Qed.

Lemma NoDup_flat_map_pair {A B : Type} (f : A -> list B) (l : list A) :
  NoDup l -> (forall a, NoDup (f a)) ->
  NoDup (flat_map (fun a => map (pair a) (f a)) l).
Proof.
  intros Hnd Hf. induction l as [|a l IH]; [apply NoDup_nil_2|].
  apply NoDup_cons in Hnd as [Ha Hnd]. cbn [flat_map]. apply NoDup_app.
  split; [apply NoDup_map_pair, Hf|]. split; [|apply IH, Hnd].
  intros [a' b] H1 H2. apply Ha.
  apply list_elem_of_In, in_map_iff in H1 as (y & [= -> ->] & _).
  apply list_elem_of_In, in_flat_map in H2 as (a'' & Ha'' & H2).
  apply in_map_iff in H2 as (y' & [= -> ->] & _). apply list_elem_of_In, Ha''.
Qed.

Lemma NoDup_cells rd : NoDup (cells rd).
Proof.
  unfold cells.
  apply (NoDup_flat_map_pair
           (fun ring => flat_map (fun dx => map (pair dx) (seqZ (- ring) (2 * ring + 1)))
                                 (seqZ (- ring) (2 * ring + 1)))).
  - apply NoDup_seqZ.
  - intros ring. apply (NoDup_flat_map_pair (fun _ => seqZ (- ring) (2 * ring + 1))).
    + apply NoDup_seqZ.
    + intros _. apply NoDup_seqZ.
Qed.

Lemma seqZ_sorted_lt a n : StronglySorted Z.lt (seqZ a n).
Proof.
  assert (H : forall (k : nat) a, StronglySorted Z.lt (seqZ a (Z.of_nat k))).
  { induction k as [|k IH]; intros a'.
    - change (seqZ a' (Z.of_nat 0)) with (@nil Z). constructor.
    - rewrite seqZ_cons by lia.
      replace (Z.pred (Z.of_nat (S k))) with (Z.of_nat k) by lia.
      constructor; [apply IH|]. apply List.Forall_forall. intros x Hx.
      apply list_elem_of_In, elem_of_seqZ in Hx. lia. }
  destruct (Z_le_gt_dec n 0) as [Hn|Hn].
  - rewrite seqZ_nil by exact Hn. constructor.
  - rewrite <- (Z2Nat.id n) by lia. apply H.
Qed.

Lemma app_prefix_split {A : Type} (P : A -> Prop) (block rest pre suf : list A) c :
  block ++ rest = pre ++ c :: suf -> (forall x, In x block -> P x) -> ~ P c ->
  exists q, pre = block ++ q /\ rest = q ++ c :: suf.
Proof.
  revert pre. induction block as [|b block IH]; intros pre E Hb Hc.
  - exists pre. auto.
  - destruct pre as [|p pre].
    + cbn in E. injection E as E _. subst c. exfalso. apply Hc, Hb. left. reflexivity.
    + cbn in E. injection E as <- E.
      destruct (IH pre E (fun x Hx => Hb x (or_intror Hx)) Hc) as (q & -> & Hq).
      exists q. auto.
Qed.

(** The cells come ring by ring. *)
Lemma cells_by_ring rd pre c suf c' :
  cells rd = pre ++ c :: suf -> In c' (cells rd) -> c'.1 < c.1 -> In c' pre.
Proof.
  unfold cells. generalize (seqZ_sorted_lt 0 (rd + 1)).
  generalize (seqZ 0 (rd + 1)). intros rings. revert pre.
  induction rings as [|r rings IH]; intros pre Hs E Hin Hlt.
  - destruct pre; discriminate E.
  - cbn [flat_map] in E, Hin. apply StronglySorted_inv in Hs as [Hs Hr].
    remember (map (pair r)
                  (flat_map (fun dx => map (pair dx) (seqZ (- r) (2 * r + 1)))
                            (seqZ (- r) (2 * r + 1)))) as block eqn:Eblock.
    remember (flat_map
                (fun ring =>
                   map (pair ring)
                       (flat_map (fun dx => map (pair dx) (seqZ (- ring) (2 * ring + 1)))
                                 (seqZ (- ring) (2 * ring + 1)))) rings) as rest eqn:Erest.
    assert (Hblock : forall x, In x block -> x.1 = r).
    { intros x Hx. rewrite Eblock in Hx. apply in_map_iff in Hx as (y & <- & _). reflexivity. }
    assert (Hrest : forall x, In x rest -> r < x.1).
    { intros x Hx. rewrite Erest in Hx. apply in_flat_map in Hx as (r' & Hr' & Hx).
      apply in_map_iff in Hx as (y & <- & _). cbn [fst].
      rewrite List.Forall_forall in Hr. apply Hr, Hr'. }
    assert (Hcin : In c (block ++ rest)) by (rewrite E; apply in_elt).
    assert (Hc : In c rest).
    { apply in_app_or in Hcin as [Hcin|Hcin]; [|exact Hcin].
      apply Hblock in Hcin. apply in_app_or in Hin as [Hin|Hin].
      - apply Hblock in Hin. lia.
      - apply Hrest in Hin. lia. }
    destruct (app_prefix_split (fun x => x.1 = r) block rest pre suf c E Hblock)
      as (q & -> & Eq).
    { apply Hrest in Hc. lia. }
    apply in_or_app. apply in_app_or in Hin as [Hin|Hin]; [left; exact Hin|right].
    subst rest. apply (IH q Hs Eq Hin Hlt).
Qed.

Lemma onRing_ring rd c :
  In c (cells rd) -> onRing c = true -> c.1 = Z.max (Z.abs c.2.1) (Z.abs c.2.2).
Proof.
  intros Hc Ho. apply in_cells in Hc. unfold onRing in Ho.
  apply orb_prop in Ho as [Ho|Ho]; apply Z.eqb_eq in Ho; lia.
Qed.

Lemma cellKey_inj pcx pcz rd c c' :
  In c (cells rd) -> In c' (cells rd) -> onRing c = true -> onRing c' = true ->
  cellKey pcx pcz c = cellKey pcx pcz c' -> c = c'.
Proof.
  intros Hc Hc' Ho Ho' E.
  pose proof (onRing_ring rd c Hc Ho) as Hr.
  pose proof (onRing_ring rd c' Hc' Ho') as Hr'.
  destruct c as [r [dx dz]], c' as [r' [dx' dz']]. unfold cellKey, chunkKey in E.
  cbn [fst snd] in *. injection E as Ex Ez.
  assert (dx = dx') by lia. assert (dz = dz') by lia. subst. reflexivity.
Qed.

Lemma scanMissing_app m pcx pcz pre c :
  scanMissing m pcx pcz (pre ++ [c])
  = scanMissing m pcx pcz pre
    ++ (if onRing c && negb (bool_decide (is_Some (chunks m !! cellKey pcx pcz c)))
        then [cellKey pcx pcz c] else []).
Proof.
  unfold scanMissing. rewrite List.filter_app, map_app, List.filter_app. f_equal.
  cbn [List.filter]. destruct (onRing c); cbn [map List.filter andb]; [|reflexivity].
  destruct (negb _); reflexivity.
Qed.

Lemma scanMissing_in m pcx pcz cs k :
  In k (scanMissing m pcx pcz cs) <->
  chunks m !! k = None /\ exists c, In c cs /\ onRing c = true /\ cellKey pcx pcz c = k.
Proof.
  unfold scanMissing. rewrite filter_In, in_map_iff. split.
  - intros [(c & <- & Hc) Hm]. apply filter_In in Hc as [Hc Ho].
    split; [|eauto]. apply negb_true_iff, bool_decide_eq_false in Hm.
    destruct (chunks m !! cellKey pcx pcz c); [exfalso; eauto|reflexivity].
  - intros (Hm & c & Hc & Ho & <-). split.
    + exists c. split; [reflexivity|]. apply filter_In. auto.
    + apply negb_true_iff, bool_decide_eq_false. rewrite Hm. intros [? ?]. discriminate.
Qed.

Lemma grown_refl gen st : grown gen st st [].
Proof.
  unfold grown. rewrite app_nil_r. split; [reflexivity|]. split; [apply NoDup_nil_2|].
  split; [intros k Hk; apply elem_of_nil in Hk; destruct Hk|].
  split; [intros k; reflexivity|]. repeat split.
Qed.

Lemma createChunk_grown gen st0 s news cx cz :
  grown gen st0 s news ->
  (is_Some (chunks (manager s) !! (cx, cz)) -> createChunk gen cx cz s = (s, false)) /\
  (chunks (manager s) !! (cx, cz) = None ->
   (createChunk gen cx cz s).2 = true /\
   grown gen st0 (createChunk gen cx cz s).1 (news ++ [(cx, cz)])).
Proof.
  intros (Ho & Hnd & Hnew & Hc & Hm & Hp & Ha & Hb & Hs & He).
  unfold createChunk, chunkKey. split.
  - intros [c E]. rewrite E. reflexivity.
  - intros E. rewrite E. cbn [fst snd]. split; [reflexivity|].
    assert (Hk : ((cx, cz) ∉ news) /\ chunks (manager st0) !! (cx, cz) = None).
    { rewrite Hc in E. case_bool_decide as Hin; [discriminate|]. auto. }
    destruct Hk as [Hnin Hk0].
    unfold grown. cbn [order manager withChunks chunks meshingInProgress workerPool
                       awaiting blockInfo sceneMeshes consoleErrors].
    split; [rewrite Ho, app_assoc; reflexivity|].
    split; [apply NoDup_app; split; [exact Hnd|]; split; [|apply NoDup_singleton];
            intros k Hk Hk'; apply list_elem_of_singleton in Hk'; subst k; contradiction|].
    split; [intros k Hk; apply elem_of_app in Hk as [Hk|Hk];
            [apply Hnew, Hk|apply list_elem_of_singleton in Hk; subst k; exact Hk0]|].
    split; [|repeat split; assumption].
    intros k. destruct (decide (k = (cx, cz))) as [->|Hne].
    + rewrite lookup_insert_eq. rewrite bool_decide_eq_true_2; [reflexivity|].
      apply elem_of_app. right. apply list_elem_of_singleton. reflexivity.
    + rewrite lookup_insert_ne by congruence. rewrite Hc.
      apply (f_equal (fun b : bool => if b then _ else _)).
      apply bool_decide_ext. rewrite elem_of_app, list_elem_of_singleton. tauto.
Qed.

Lemma firstn_short {A : Type} (n : nat) (l : list A) :
  (length (firstn n l) < n)%nat -> firstn n l = l.
Proof. intros H. rewrite length_firstn in H. apply firstn_all2. lia. Qed.

Lemma firstn_full {A : Type} (n : nat) (l l' : list A) :
  (n <= length (firstn n l))%nat -> firstn n (l ++ l') = firstn n l.
Proof.
  intros H. rewrite length_firstn in H. rewrite firstn_app.
  replace (n - length l)%nat with 0%nat by lia. cbn. apply app_nil_r.
Qed.

(** The chunks that [generateNearbyChunks] creates are the first three that
    the scan of the rings finds missing. *)
Lemma generateNearbyChunks_exact gen pcx pcz rd st :
  grown gen st (generateNearbyChunks gen pcx pcz rd st)
        (firstn 3 (scanMissing (manager st) pcx pcz (cells rd))).
Proof.
  rewrite generateNearbyChunks_cells.
  set (SM := scanMissing (manager st) pcx pcz).
  apply (forWhileL_ind underBudget
           (fun s c => nearbyCell gen pcx pcz c.1 c.2.1 s c.2.2)
           (fun pre s => grown gen st s.1 (firstn 3 (SM pre)) /\
                         s.2 = Z.of_nat (length (firstn 3 (SM pre))))).
  - cbn. split; [apply grown_refl|reflexivity].
  - intros pre c suf s El [Hg Hn]. unfold SM at 1 2. rewrite scanMissing_app. fold SM.
    unfold underBudget, maxGeneratePerFrame.
    destruct (Z.ltb_spec s.2 3) as [Hlt|Hge].
    2:{ rewrite firstn_full by lia. split; assumption. }
    assert (Hall : firstn 3 (SM pre) = SM pre) by (apply firstn_short; lia).
    rewrite Hall in Hg, Hn.
    assert (Hlen : (length (SM pre) < 3)%nat) by lia.
    unfold nearbyCell. fold (onRing c).
    destruct (onRing c) eqn:Eo; cbn [negb andb].
    2:{ replace (negb (Z.abs c.2.1 =? c.1) && negb (Z.abs c.2.2 =? c.1)) with true.
        - rewrite app_nil_r, Hall. split; assumption.
        - unfold onRing in Eo. apply orb_false_elim in Eo as [-> ->]. reflexivity. }
    replace (negb (Z.abs c.2.1 =? c.1) && negb (Z.abs c.2.2 =? c.1)) with false.
    2:{ unfold onRing in Eo. apply orb_prop in Eo as [-> | ->];
          [reflexivity|rewrite andb_false_r; reflexivity]. }
    assert (Hc : In c (cells rd)) by (rewrite El; apply in_elt).
    assert (Hfresh : cellKey pcx pcz c ∉ SM pre).
    { intros F. apply list_elem_of_In, scanMissing_in in F as (_ & c' & Hc' & Ho' & E).
      assert (c' = c).
      { apply (cellKey_inj pcx pcz rd); try assumption.
        rewrite El. apply in_or_app. left. exact Hc'. }
      subst c'. pose proof (NoDup_cells rd) as Hnd. rewrite El in Hnd.
      apply NoDup_app in Hnd as (_ & Hnd & _).
      apply (Hnd c); [apply list_elem_of_In, Hc'|left]. }
    assert (Hsame : chunks (manager s.1) !! cellKey pcx pcz c
                    = chunks (manager st) !! cellKey pcx pcz c).
    { destruct Hg as (_ & _ & _ & Hcs & _). rewrite Hcs.
      rewrite bool_decide_eq_false_2 by exact Hfresh. reflexivity. }
    destruct (createChunk_grown gen st s.1 (SM pre) (pcx + c.2.1) (pcz + c.2.2) Hg)
      as [Hold Hnew].
    change (pcx + c.2.1, pcz + c.2.2) with (cellKey pcx pcz c) in Hold, Hnew.
    rewrite Hsame in Hold, Hnew.
    destruct (chunks (manager st) !! cellKey pcx pcz c) as [ch|] eqn:Ek.
    + rewrite Hold by eauto.
      rewrite (bool_decide_eq_true_2 (is_Some (Some ch))) by eauto. cbn [negb].
      rewrite app_nil_r, Hall. split; assumption.
    + destruct (Hnew eq_refl) as [Ecr Hg'].
      destruct (createChunk gen (pcx + c.2.1) (pcz + c.2.2) s.1) as [s' created].
      cbn [fst snd] in *. subst created.
      rewrite (bool_decide_eq_false_2 (is_Some None)) by (intros [? ?]; discriminate).
      cbn [negb].
      rewrite firstn_all2 by (rewrite length_app; cbn; lia).
      split; [exact Hg'|]. rewrite length_app. cbn [length]. lia.
Qed.

Lemma scanMissing_app2 m pcx pcz l1 l2 :
  scanMissing m pcx pcz (l1 ++ l2)
  = scanMissing m pcx pcz l1 ++ scanMissing m pcx pcz l2.
Proof. unfold scanMissing. rewrite List.filter_app, map_app, List.filter_app. reflexivity. Qed.

Lemma in_firstn {A : Type} (n : nat) (l : list A) x : In x (firstn n l) -> In x l.
Proof. intros H. rewrite <- (firstn_skipn n l). apply in_or_app. left. exact H. Qed.

Lemma firstn_reach {A : Type} (n : nat) (l1 l2 : list A) x y :
  In x (firstn n (l1 ++ l2)) -> ~ In x l1 -> In y l1 -> In y (firstn n (l1 ++ l2)).
Proof.
  intros Hx Hnx Hy. rewrite firstn_app in *. apply in_app_or in Hx as [Hx|Hx].
  - exfalso. apply Hnx. eapply in_firstn; eauto.
  - destruct (n - length l1)%nat eqn:E; [destruct Hx|].
    apply in_or_app. left. rewrite firstn_all2 by lia. exact Hy.
Qed.

Lemma cell_of_key pcx pcz rd k :
  ringOf pcx pcz k <= rd ->
  let c := (ringOf pcx pcz k, (k.1 - pcx, k.2 - pcz)) in
  In c (cells rd) /\ onRing c = true /\ cellKey pcx pcz c = k.
Proof.
  intros Hr c. destruct k as [kx kz]. unfold c, ringOf in *. cbn [fst snd] in *.
  split; [apply in_cells; cbn [fst snd]; lia|]. split.
  - unfold onRing. cbn [fst snd]. apply orb_true_iff.
    rewrite !Z.eqb_eq. lia.
  - unfold cellKey, chunkKey. cbn [fst snd]. f_equal; lia.
Qed.

Lemma grown_loaded gen st st' news k :
  grown gen st st' news ->
  (is_Some (chunks (manager st') !! k) <->
   k ∈ news \/ is_Some (chunks (manager st) !! k)).
Proof.
  intros (_ & _ & _ & Hc & _). rewrite Hc. case_bool_decide as Hin.
  - split; [auto|eauto].
  - tauto.
Qed.

Lemma grown_ordered gen st st' news :
  grown gen st st' news -> ordered st -> ordered st'.
Proof.
  intros Hg [Hnd Hord]. pose proof Hg as (Ho & Hndn & Hnew & _). split.
  - rewrite Ho. apply NoDup_app. split; [exact Hnd|]. split; [|exact Hndn].
    intros k Hk Hk'. apply Hord in Hk as [c Hk]. rewrite (Hnew k Hk') in Hk. discriminate.
  - intros k. rewrite (grown_loaded gen st st' news k Hg), Ho, elem_of_app, Hord. tauto.
Qed.

Lemma grown_keyed gen st st' news :
  grown gen st st' news -> keyed (manager st) -> keepsCoordinates gen ->
  keyed (manager st').
Proof.
  intros (_ & _ & _ & Hc & _) Hk Hgen k c. rewrite Hc. case_bool_decide as Hin.
  - intros [= <-]. destruct k as [kx kz]. unfold generated, chunkKey. cbn [fst snd].
    destruct gen as [g|]; [|reflexivity].
    destruct (Hgen g (Chunk.create kx kz) eq_refl) as [-> ->]. reflexivity.
  - apply Hk.
Qed.

Lemma generateNearbyChunks_rings gen pcx pcz rd st :
  let st' := generateNearbyChunks gen pcx pcz rd st in
  let news := firstn 3 (scanMissing (manager st) pcx pcz (cells rd)) in
  (forall k, k ∈ news -> chunks (manager st) !! k = None /\ ringOf pcx pcz k <= rd) /\
  (forall k k', k ∈ news -> ringOf pcx pcz k' < ringOf pcx pcz k ->
     is_Some (chunks (manager st') !! k')) /\
  ((length news < 3)%nat ->
   forall k, ringOf pcx pcz k <= rd -> is_Some (chunks (manager st') !! k)).
Proof.
  intros st' news.
  pose proof (generateNearbyChunks_exact gen pcx pcz rd st) as Hg. fold st' news in Hg.
  assert (Hring : forall k c, In c (cells rd) -> onRing c = true ->
                  cellKey pcx pcz c = k -> ringOf pcx pcz k = c.1).
  { intros k c Hc Ho <-. rewrite (onRing_ring rd c Hc Ho).
    unfold ringOf, cellKey, chunkKey. cbn [fst snd]. f_equal; f_equal; lia. }
  split; [|split].
  - intros k Hk. apply list_elem_of_In in Hk. apply in_firstn in Hk.
    apply scanMissing_in in Hk as (Hm & c & Hc & Ho & E). split; [exact Hm|].
    rewrite (Hring k c Hc Ho E). apply in_cells in Hc. lia.
  - intros k k' Hk Hlt. apply (grown_loaded gen st st' news k' Hg).
    destruct (chunks (manager st) !! k') as [ch|] eqn:Ek'; [right; eauto|left].
    apply list_elem_of_In in Hk. pose proof (in_firstn _ _ _ Hk) as Hk0.
    apply scanMissing_in in Hk0 as (Hm & c & Hc & Ho & E).
    pose proof (Hring k c Hc Ho E) as Hrk.
    destruct (cell_of_key pcx pcz rd k') as (Hc' & Ho' & E').
    { apply in_cells in Hc. lia. }
    destruct (in_split _ _ Hc) as (pre & suf & El).
    assert (Hpre : In (ringOf pcx pcz k', (k'.1 - pcx, k'.2 - pcz)) pre).
    { apply (cells_by_ring rd pre c suf); [exact El|exact Hc'|]. cbn [fst]. lia. }
    apply list_elem_of_In. unfold news in *. rewrite El, scanMissing_app2 in Hk |- *.
    apply (firstn_reach 3 _ _ k k'); [exact Hk| |].
    + intros F. apply scanMissing_in in F as (_ & c0 & Hc0 & Ho0 & E0).
      assert (c0 = c).
      { apply (cellKey_inj pcx pcz rd); try assumption; [|congruence].
        rewrite El. apply in_or_app. left. exact Hc0. }
      subst c0. pose proof (NoDup_cells rd) as Hnd. rewrite El in Hnd.
      apply NoDup_app in Hnd as (_ & Hnd & _).
      apply (Hnd c); [apply list_elem_of_In, Hc0|left].
    + apply scanMissing_in. split; [exact Ek'|]. eauto.
  - intros Hlt k Hr. apply (grown_loaded gen st st' news k Hg).
    destruct (chunks (manager st) !! k) as [ch|] eqn:Ek; [right; eauto|left].
    unfold news in *. rewrite firstn_short by exact Hlt.
    apply list_elem_of_In, scanMissing_in. split; [exact Ek|].
    destruct (cell_of_key pcx pcz rd k Hr) as (Hc & Ho & E). eauto.
Qed.

(** X8: [generateNearbyChunks] creates the first three chunks that its scan of
    the rings around the player's chunk finds missing, and nothing else: the
    state grows by these keys, in scan order, each holding the chunk the
    generator made, and every loaded chunk and every other field of the
    manager stay as they were.  A created chunk lies within ring [rd], all
    chunks of the rings closer than it are loaded afterwards, and when fewer
    than three chunks were created the whole square of rings up to [rd] is
    loaded.  The key order and the keying of the chunk map are kept. *)
Theorem generateNearbyChunks_fills_rings
    (gen : option (Chunk -> Chunk)) (pcx pcz rd : Z) (st : State) :
  let st' := generateNearbyChunks gen pcx pcz rd st in
  let news := firstn 3 (scanMissing (manager st) pcx pcz (cells rd)) in
  grown gen st st' news /\ (length news <= 3)%nat /\
  (forall k, k ∈ news -> chunks (manager st) !! k = None /\ ringOf pcx pcz k <= rd) /\
  (forall k k', k ∈ news -> ringOf pcx pcz k' < ringOf pcx pcz k ->
     is_Some (chunks (manager st') !! k')) /\
  ((length news < 3)%nat ->
   forall k, ringOf pcx pcz k <= rd -> is_Some (chunks (manager st') !! k)) /\
  (ordered st -> ordered st') /\
  (keyed (manager st) -> keepsCoordinates gen -> keyed (manager st')).
Proof.
  intros st' news.
  pose proof (generateNearbyChunks_exact gen pcx pcz rd st) as Hg.
  destruct (generateNearbyChunks_rings gen pcx pcz rd st) as (H1 & H2 & H3).
  split; [exact Hg|]. split; [apply firstn_le_length|].
  split; [exact H1|]. split; [exact H2|]. split; [exact H3|]. split.
  - apply (grown_ordered gen st _ _ Hg).
  - apply (grown_keyed gen st _ _ Hg).
Qed.

(** *** The initial square *)

Lemma fold_left_prefix {S A : Type} (body : S -> A -> S) (I : list A -> S -> Prop) l s0 :
  I [] s0 ->
  (forall pre x suf s, l = pre ++ x :: suf -> I pre s -> I (pre ++ [x]) (body s x)) ->
  I l (fold_left body l s0).
Proof.
  intros H0 Hstep.
  apply (forWhileL_ind (fun _ => true) body I l s0 H0 Hstep).
Qed.

Lemma loadSquare_spec gen pcx pcz rd st :
  let st1 :=
    fold_left
      (fun st dx =>
         fold_left (fun st dz => (createChunk gen (pcx + dx) (pcz + dz) st).1)
                   (seqZ (- rd) (2 * rd + 1)) st)
      (seqZ (- rd) (2 * rd + 1)) st in
  exists news,
    grown gen st st1 news /\
    (forall k, k ∈ news -> ringOf pcx pcz k <= rd) /\
    (forall k, ringOf pcx pcz k <= rd -> is_Some (chunks (manager st1) !! k)).
Proof.
  intros st1.
  set (sq := flat_map (fun dx => map (pair dx) (seqZ (- rd) (2 * rd + 1)))
                      (seqZ (- rd) (2 * rd + 1))).
  assert (Hsq : forall p, In p sq <-> - rd <= p.1 <= rd /\ - rd <= p.2 <= rd).
  { intros [dx dz]. unfold sq. rewrite in_flat_map. cbn [fst snd]. split.
    - intros (x & Hx & Hp). apply in_map_iff in Hp as (z & [= -> ->] & Hz).
      apply list_elem_of_In, elem_of_seqZ in Hx, Hz. lia.
    - intros [Hx Hz]. exists dx. split; [apply list_elem_of_In, elem_of_seqZ; lia|].
      apply in_map, list_elem_of_In, elem_of_seqZ. lia. }
  assert (E : st1 = fold_left (fun st p => (createChunk gen (pcx + p.1) (pcz + p.2) st).1)
                              sq st).
  { unfold st1, sq. rewrite MesherFacts.fold_left_flat_map.
    apply MesherFacts.fold_left_ext_all. intros s dx.
    generalize (seqZ (- rd) (2 * rd + 1)). intros l. revert s.
    induction l as [|dz l IH]; intros s; [reflexivity|]. cbn [map fold_left]. apply IH. }
  rewrite E. clear E st1.
  assert (H : exists news,
            grown gen st (fold_left (fun st p => (createChunk gen (pcx + p.1) (pcz + p.2) st).1)
                                    sq st) news /\
            (forall k, k ∈ news -> exists p, In p sq /\ k = (pcx + p.1, pcz + p.2)) /\
            (forall p, In p sq ->
               is_Some (chunks (manager (fold_left
                          (fun st p => (createChunk gen (pcx + p.1) (pcz + p.2) st).1) sq st))
                        !! (pcx + p.1, pcz + p.2)))).
  { apply (fold_left_prefix
             (fun st p => (createChunk gen (pcx + p.1) (pcz + p.2) st).1)
             (fun pre s => exists news,
                grown gen st s news /\
                (forall k, k ∈ news -> exists p, In p pre /\ k = (pcx + p.1, pcz + p.2)) /\
                (forall p, In p pre ->
                   is_Some (chunks (manager s) !! (pcx + p.1, pcz + p.2))))).
    - exists []. split; [apply grown_refl|]. split; [|intros p []].
      intros k Hk. apply elem_of_nil in Hk. destruct Hk.
    - intros pre p suf s _ (news & Hg & Hn & Hl).
      destruct (createChunk_grown gen st s news (pcx + p.1) (pcz + p.2) Hg) as [Hold Hnew].
      destruct (chunks (manager s) !! (pcx + p.1, pcz + p.2)) as [ch|] eqn:Ek.
      + rewrite Hold by eauto. cbn [fst]. exists news. split; [exact Hg|]. split.
        * intros k Hk. destruct (Hn k Hk) as (q & Hq & ->). exists q.
          split; [apply in_or_app; left; exact Hq|reflexivity].
        * intros q Hq. apply in_app_or in Hq as [Hq|[<-|[]]]; [apply Hl, Hq|].
          rewrite Ek. eauto.
      + destruct (Hnew eq_refl) as [_ Hg']. exists (news ++ [(pcx + p.1, pcz + p.2)]).
        split; [exact Hg'|]. split.
        * intros k Hk. apply elem_of_app in Hk as [Hk|Hk].
          -- destruct (Hn k Hk) as (q & Hq & ->). exists q.
             split; [apply in_or_app; left; exact Hq|reflexivity].
          -- apply list_elem_of_singleton in Hk. subst k. exists p.
             split; [apply in_or_app; right; left; reflexivity|reflexivity].
        * intros q Hq. apply (grown_loaded gen st _ _ _ Hg').
          apply in_app_or in Hq as [Hq|[<-|[]]].
          -- destruct (proj1 (grown_loaded gen st s news _ Hg) (Hl q Hq)) as [Hin|Hst];
               [left; apply elem_of_app; left; exact Hin|right; exact Hst].
          -- left. apply elem_of_app. right. apply list_elem_of_singleton. reflexivity. }
  destruct H as (news & Hg & Hn & Hl). exists news. split; [exact Hg|]. split.
  - intros k Hk. destruct (Hn k Hk) as (p & Hp & ->). apply Hsq in Hp.
    unfold ringOf. cbn [fst snd]. lia.
  - intros [kx kz] Hr. unfold ringOf in Hr. cbn [fst snd] in Hr.
    replace (kx, kz) with (pcx + (kx - pcx, kz - pcz).1, pcz + (kx - pcx, kz - pcz).2)
      by (cbn [fst snd]; f_equal; lia).
    apply Hl, Hsq. cbn [fst snd]. lia.
Qed.

(** *** Composition *)

Lemma queueDirtyChunks_keeps pcx pcz rd st :
  ordered st -> keyed (manager st) ->
  let st' := queueDirtyChunks pcx pcz rd st in
  (forall k, chunks (manager st') !! k = chunks (manager st) !! k \/
             chunks (manager st') !! k = cleaned <$> chunks (manager st) !! k) /\
  order st' = order st /\
  (Pool.promises (workerPool (manager st'))
   <= Pool.promises (workerPool (manager st)) + 4)%nat /\
  sceneMeshes (manager st') = sceneMeshes (manager st).
Proof.
  intros Ho Hk st'.
  destruct (queueDirtyChunks_spec pcx pcz rd st Ho Hk)
    as (queued & _ & Hlen & _ & _ & _ & Hc & _ & Hp & Hs & Hord & _).
  cbv zeta in *. fold st' in Hc, Hp, Hs, Hord.
  split; [|split; [exact Hord|split; [lia|exact Hs]]].
  intros k. rewrite Hc. destruct (bool_decide (k ∈ queued)); auto.
Qed.

Lemma touched_up_loaded (m m' : ChunkManager) :
  (forall k, chunks m' !! k = chunks m !! k \/
             chunks m' !! k = cleaned <$> chunks m !! k) ->
  (forall k, is_Some (chunks m' !! k) <-> is_Some (chunks m !! k)) /\
  (forall k c', chunks m' !! k = Some c' ->
     exists c, chunks m !! k = Some c /\ data c' = data c /\
               Chunk.cx c' = Chunk.cx c /\ Chunk.cz c' = Chunk.cz c) /\
  (keyed m -> keyed m').
Proof.
  intros H. split; [|split].
  - intros k. destruct (H k) as [-> | ->]; [reflexivity|].
    destruct (chunks m !! k); cbn; split; intros [? ?]; eauto; discriminate.
  - intros k c' E. destruct (H k) as [E'|E']; rewrite E' in E.
    + exists c'. auto.
    + destruct (chunks m !! k) as [c|]; [|discriminate]. injection E as <-.
      exists c. auto.
  - intros Hk k c' E. destruct (H k) as [E'|E']; rewrite E' in E.
    + apply Hk, E.
    + destruct (chunks m !! k) as [c|] eqn:Ec; [|discriminate]. injection E as <-.
      apply (Hk k c Ec).
Qed.

Lemma ordered_same_keys st st' :
  order st' = order st ->
  (forall k, is_Some (chunks (manager st') !! k) <-> is_Some (chunks (manager st) !! k)) ->
  ordered st -> ordered st'.
Proof.
  intros Eo Hl [Hnd Hord]. split; [rewrite Eo; exact Hnd|].
  intros k. rewrite Eo, Hl. apply Hord.
Qed.

Lemma unloadDistantChunks_pool pcx pcz maxDist st :
  workerPool (manager (unloadDistantChunks pcx pcz maxDist st))
  = workerPool (manager st) /\
  (length (order (unloadDistantChunks pcx pcz maxDist st)) <= length (order st))%nat.
Proof.
  unfold unloadDistantChunks.
  destruct (removeChunks_spec
              (List.filter (isDistant (manager st) pcx pcz maxDist) (order st)) st)
    as (_ & _ & _ & Ho & Hp & _).
  cbv zeta in *. split; [exact Hp|]. rewrite Ho. apply filter_length_le.
Qed.

(** X9: [unloadDistantChunks] removes the loaded chunks whose own coordinates
    are further than [maxDist] from the player's chunk (squared distance above
    [maxDist * maxDist]), and with each its meshes in the scene and its in-
    progress mark; every other chunk, mesh and mark stays.  With the chunks
    stored under the keys of their coordinates, the chunks left are those
    within the distance, unchanged.  A mesh result that arrives later for a
    removed chunk is ignored. *)
Theorem unloadDistantChunks_drops_far_chunks
    (pcx pcz maxDist : Z) (st : State) :
  ordered st ->
  let far := isDistant (manager st) pcx pcz maxDist in
  let st' := unloadDistantChunks pcx pcz maxDist st in
  (forall k, chunks (manager st') !! k
             = if far k then None else chunks (manager st) !! k) /\
  (forall k, sceneMeshes (manager st') !! k
             = if far k then None else sceneMeshes (manager st) !! k) /\
  (forall k, k ∈ meshingInProgress (manager st') <->
             k ∈ meshingInProgress (manager st) /\ far k = false) /\
  ordered st' /\
  (keyed (manager st) ->
   keyed (manager st') /\
   (forall k, is_Some (chunks (manager st') !! k) ->
              dist2 pcx pcz k <= maxDist * maxDist) /\
   (forall k c, chunks (manager st) !! k = Some c ->
              dist2 pcx pcz k <= maxDist * maxDist ->
              chunks (manager st') !! k = Some c)) /\
  (forall result,
     far (chunkKey (res_chunkX result) (res_chunkZ result)) = true ->
     onMeshResult result (manager st') = manager st').
Proof. apply unloadDistantChunks_spec. Qed.

(** X10: [queueDirtyChunks] starts a mesh job for at most four chunks, each
    once: chunks that are dirty, not being meshed and within distance [rd + 1]
    of the player's chunk, and the closest of them (no chunk left out is
    closer than a chunk taken; with fewer than four taken none is left out).
    The chunks taken are marked clean and in progress, so that the next scan
    does not take them again; one promise is handed out per job; every other
    chunk, the key order and the scene stay. *)
Theorem queueDirtyChunks_queues_the_closest (pcx pcz rd : Z) (st : State) :
  ordered st -> keyed (manager st) ->
  let m := manager st in
  let st' := queueDirtyChunks pcx pcz rd st in
  let m' := manager st' in
  exists queued : list (Z * Z),
    NoDup queued /\ (length queued <= 4)%nat /\
    (forall k, k ∈ queued -> collected m pcx pcz rd k = true) /\
    (forall k k', k ∈ queued -> k' ∉ queued -> collected m pcx pcz rd k' = true ->
       dist2 pcx pcz k <= dist2 pcx pcz k') /\
    ((length queued < 4)%nat ->
     forall k, collected m pcx pcz rd k = true -> k ∈ queued) /\
    (forall k, chunks m' !! k
               = if bool_decide (k ∈ queued) then cleaned <$> chunks m !! k
                 else chunks m !! k) /\
    (forall k, k ∈ meshingInProgress m' <-> k ∈ queued \/ k ∈ meshingInProgress m) /\
    Pool.promises (workerPool m')
    = (Pool.promises (workerPool m) + length queued)%nat /\
    sceneMeshes m' = sceneMeshes m /\ order st' = order st /\
    (forall k, k ∈ queued -> collected m' pcx pcz rd k = false).
Proof. apply queueDirtyChunks_spec. Qed.

(** X11: [generateInitialChunks] (called without a progress callback) loads
    every chunk of the square of [RENDER_DISTANCE] rings around the player's
    chunk; chunks loaded before keep their blocks, the new ones lie in the
    square and hold the blocks the generator made; and it starts at most four
    mesh jobs, not one per chunk. *)
Theorem generateInitialChunks_loads_the_square
    (gen : option (Chunk -> Chunk)) (playerX playerZ : Q) (st : State) :
  ordered st -> keyed (manager st) -> keepsCoordinates gen ->
  let pcx := Qfloor (playerX / inject_Z CHUNK_SIZE) in
  let pcz := Qfloor (playerZ / inject_Z CHUNK_SIZE) in
  let st' := generateInitialChunks gen playerX playerZ st in
  (forall k, ringOf pcx pcz k <= RENDER_DISTANCE ->
     is_Some (chunks (manager st') !! k)) /\
  (forall k c, chunks (manager st) !! k = Some c ->
     exists c', chunks (manager st') !! k = Some c' /\ data c' = data c) /\
  (forall k c', chunks (manager st') !! k = Some c' -> chunks (manager st) !! k = None ->
     ringOf pcx pcz k <= RENDER_DISTANCE /\ data c' = data (generated gen k.1 k.2)) /\
  (Pool.promises (workerPool (manager st'))
   <= Pool.promises (workerPool (manager st)) + 4)%nat /\
  ordered st' /\ keyed (manager st').
Proof.
  intros Ho Hk Hgen pcx pcz st'. unfold st', generateInitialChunks. fold pcx pcz.
  destruct (loadSquare_spec gen pcx pcz RENDER_DISTANCE st) as (news & Hg & Hn & Hl).
  cbv zeta in Hg, Hl.
  set (st1 := fold_left _ (seqZ (- RENDER_DISTANCE) (2 * RENDER_DISTANCE + 1)) st) in *.
  pose proof (grown_ordered gen st st1 news Hg Ho) as Ho1.
  pose proof (grown_keyed gen st st1 news Hg Hk Hgen) as Hk1.
  destruct (queueDirtyChunks_keeps pcx pcz RENDER_DISTANCE st1 Ho1 Hk1)
    as (Hc & Hord & Hp & _).
  cbv zeta in Hc, Hord, Hp.
  destruct (touched_up_loaded _ _ Hc) as (Hload & Hdata & Hkeyed).
  pose proof Hg as (_ & _ & Hnone & Hcs & _ & Hpool & _).
  split; [|split; [|split; [|split; [|split]]]].
  - intros k Hr. apply Hload, Hl, Hr.
  - intros k c E.
    assert (E1 : chunks (manager st1) !! k = Some c).
    { rewrite Hcs. case_bool_decide as Hin; [|exact E].
      rewrite (Hnone k Hin) in E. discriminate. }
    destruct (Hc k) as [E'|E']; rewrite E1 in E'; [eauto|].
    exists (cleaned c). auto.
  - intros k c' E Hnew. destruct (Hdata k c' E) as (c & E1 & Hd & _).
    rewrite Hcs in E1. case_bool_decide as Hin; [|congruence].
    injection E1 as <-. split; [apply Hn, Hin|exact Hd].
  - rewrite <- Hpool. exact Hp.
  - apply (ordered_same_keys st1); assumption.
  - apply Hkeyed, Hk1.
Qed.

Lemma update_spec
    (gen : option (Chunk -> Chunk)) (playerX playerZ : Q) (st : State) :
  ordered st -> keyed (manager st) -> keepsCoordinates gen ->
  let pcx := Qfloor (playerX / inject_Z CHUNK_SIZE) in
  let pcz := Qfloor (playerZ / inject_Z CHUNK_SIZE) in
  let st' := update gen playerX playerZ st in
  (forall k, is_Some (chunks (manager st') !! k) -> dist2 pcx pcz k <= 100) /\
  (forall k c, chunks (manager st) !! k = Some c -> dist2 pcx pcz k <= 100 ->
     exists c', chunks (manager st') !! k = Some c' /\ data c' = data c) /\
  (forall k c', chunks (manager st') !! k = Some c' -> chunks (manager st) !! k = None ->
     k ∈ firstn 3 (scanMissing (manager st) pcx pcz (cells RENDER_DISTANCE)) /\
     ringOf pcx pcz k <= RENDER_DISTANCE /\ data c' = data (generated gen k.1 k.2)) /\
  (length (order st') <= length (order st) + 3)%nat /\
  (Pool.promises (workerPool (manager st'))
   <= Pool.promises (workerPool (manager st)) + 4)%nat /\
  ordered st' /\ keyed (manager st').
Proof.
  intros Ho Hk Hgen pcx pcz st'. unfold st', update. fold pcx pcz.
  pose proof (generateNearbyChunks_exact gen pcx pcz RENDER_DISTANCE st) as Hg.
  destruct (generateNearbyChunks_rings gen pcx pcz RENDER_DISTANCE st) as (Hn & _ & _).
  cbv zeta in Hn.
  set (news := firstn 3 (scanMissing (manager st) pcx pcz (cells RENDER_DISTANCE))) in *.
  set (st1 := generateNearbyChunks gen pcx pcz RENDER_DISTANCE st) in *.
  pose proof (grown_ordered gen st st1 news Hg Ho) as Ho1.
  pose proof (grown_keyed gen st st1 news Hg Hk Hgen) as Hk1.
  destruct (queueDirtyChunks_keeps pcx pcz RENDER_DISTANCE st1 Ho1 Hk1)
    as (Hc & Hord & Hp & _).
  cbv zeta in Hc, Hord, Hp.
  set (st2 := queueDirtyChunks pcx pcz RENDER_DISTANCE st1) in *.
  destruct (touched_up_loaded _ _ Hc) as (Hload & Hdata & Hkeyed).
  pose proof (ordered_same_keys st1 st2 Hord Hload Ho1) as Ho2.
  pose proof (Hkeyed Hk1) as Hk2.
  destruct (unloadDistantChunks_spec pcx pcz (RENDER_DISTANCE + 2) st2 Ho2)
    as (Hc3 & _ & _ & Ho3 & Hkd & _).
  cbv zeta in Hc3, Ho3, Hkd. destruct (Hkd Hk2) as (Hk3 & Hnear & Hkeep).
  destruct (unloadDistantChunks_pool pcx pcz (RENDER_DISTANCE + 2) st2) as [Hpool Hlen].
  pose proof Hg as (Hog & _ & Hnone & Hcs & _ & Hpg & _).
  split; [|split; [|split; [|split; [|split; [|split]]]]].
  - intros k Hl. apply Hnear in Hl. exact Hl.
  - intros k c E Hd.
    assert (E1 : chunks (manager st1) !! k = Some c).
    { rewrite Hcs. case_bool_decide as Hin; [|exact E].
      rewrite (Hnone k Hin) in E. discriminate. }
    destruct (Hc k) as [E'|E']; rewrite E1 in E'.
    + exists c. split; [apply Hkeep; assumption|reflexivity].
    + exists (cleaned c). split; [apply Hkeep; assumption|reflexivity].
  - intros k c' E Hnew.
    rewrite Hc3 in E. destruct (isDistant _ _ _ _ k); [discriminate|].
    destruct (Hdata k c' E) as (c & E1 & Hd & _).
    rewrite Hcs in E1. case_bool_decide as Hin; [|congruence].
    injection E1 as <-. split; [exact Hin|]. split; [apply Hn, Hin|exact Hd].
  - rewrite Hord, Hog, length_app in Hlen.
    pose proof (firstn_le_length 3 (scanMissing (manager st) pcx pcz
                                                (cells RENDER_DISTANCE))) as H3.
    fold news in H3. lia.
  - rewrite Hpool, <- Hpg. exact Hp.
  - exact Ho3.
  - exact Hk3.
Qed.

(** X12: after [update] every loaded chunk lies within distance
    [RENDER_DISTANCE + 2] of the player's chunk (squared distance at most
    100); a chunk loaded before and within that distance is still loaded, with
    its blocks; a chunk that is new is one of the first three that the ring
    scan found missing; the chunk map grows by at most three chunks and at
    most four mesh jobs are started. *)
Theorem update_keeps_a_disc_of_chunks
    (gen : option (Chunk -> Chunk)) (playerX playerZ : Q) (st : State) :
  ordered st -> keyed (manager st) -> keepsCoordinates gen ->
  let pcx := Qfloor (playerX / inject_Z CHUNK_SIZE) in
  let pcz := Qfloor (playerZ / inject_Z CHUNK_SIZE) in
  let st' := update gen playerX playerZ st in
  (forall k, is_Some (chunks (manager st') !! k) -> dist2 pcx pcz k <= 100) /\
  (forall k c, chunks (manager st) !! k = Some c -> dist2 pcx pcz k <= 100 ->
     exists c', chunks (manager st') !! k = Some c' /\ data c' = data c) /\
  (forall k c', chunks (manager st') !! k = Some c' -> chunks (manager st) !! k = None ->
     k ∈ firstn 3 (scanMissing (manager st) pcx pcz (cells RENDER_DISTANCE)) /\
     ringOf pcx pcz k <= RENDER_DISTANCE /\ data c' = data (generated gen k.1 k.2)) /\
  (length (order st') <= length (order st) + 3)%nat /\
  (Pool.promises (workerPool (manager st'))
   <= Pool.promises (workerPool (manager st)) + 4)%nat /\
  ordered st' /\ keyed (manager st').
Proof. apply update_spec. Qed.

(** *** A player's chunk around which loading stops *)

Lemma scanMissing_ext m m' pcx pcz cs :
  (forall k, is_Some (chunks m' !! k) <-> is_Some (chunks m !! k)) ->
  scanMissing m' pcx pcz cs = scanMissing m pcx pcz cs.
Proof.
  intros H. unfold scanMissing. apply filter_ext. intros k. f_equal.
  apply bool_decide_ext, H.
Qed.

Lemma update_stuck_step gen playerX playerZ st a b c :
  let pcx := Qfloor (playerX / inject_Z CHUNK_SIZE) in
  let pcz := Qfloor (playerZ / inject_Z CHUNK_SIZE) in
  ordered st -> keyed (manager st) -> keepsCoordinates gen ->
  (forall k, is_Some (chunks (manager st) !! k) -> dist2 pcx pcz k <= 100) ->
  firstn 3 (scanMissing (manager st) pcx pcz (cells RENDER_DISTANCE)) = [a; b; c] ->
  100 < dist2 pcx pcz a -> 100 < dist2 pcx pcz b -> 100 < dist2 pcx pcz c ->
  forall k, is_Some (chunks (manager (update gen playerX playerZ st)) !! k)
            <-> is_Some (chunks (manager st) !! k).
Proof.
  intros pcx pcz Ho Hk Hgen Hnear Hscan Ha Hb Hc k.
  destruct (update_spec gen playerX playerZ st Ho Hk Hgen) as (H1 & H2 & H3 & _).
  cbv zeta in H1, H2, H3. fold pcx pcz in H1, H2, H3. split.
  - intros [c' E]. destruct (chunks (manager st) !! k) as [c0|] eqn:E0; [eauto|].
    exfalso. destruct (H3 k c' E E0) as (Hin & _).
    assert (Hd : dist2 pcx pcz k <= 100) by (apply H1; eauto).
    rewrite Hscan in Hin.
    repeat (apply elem_of_cons in Hin as [->|Hin]; [lia|]).
    apply elem_of_nil in Hin. exact Hin.
  - intros [c0 E0]. destruct (H2 k c0 E0) as (c' & E & _); [apply Hnear; eauto|]. eauto.
Qed.

(** X13: [update] can spend its whole generation budget on chunks that it
    unloads in the same call.  When all loaded chunks are within distance
    [RENDER_DISTANCE + 2] and the first three chunks that the ring scan finds
    missing lie beyond it (corners of the square of [RENDER_DISTANCE] rings),
    a call of [update] creates these three and removes them again, and so does
    every later call while the player stays in the chunk: the set of loaded
    chunks never changes, whatever else of the square is missing. *)
Theorem update_can_starve
    (gen : option (Chunk -> Chunk)) (playerX playerZ : Q) (st : State)
    (a b c : Z * Z) :
  let pcx := Qfloor (playerX / inject_Z CHUNK_SIZE) in
  let pcz := Qfloor (playerZ / inject_Z CHUNK_SIZE) in
  ordered st -> keyed (manager st) -> keepsCoordinates gen ->
  (forall k, is_Some (chunks (manager st) !! k) -> dist2 pcx pcz k <= 100) ->
  firstn 3 (scanMissing (manager st) pcx pcz (cells RENDER_DISTANCE)) = [a; b; c] ->
  100 < dist2 pcx pcz a -> 100 < dist2 pcx pcz b -> 100 < dist2 pcx pcz c ->
  forall (n : nat) k,
    is_Some (chunks (manager (Nat.iter n (update gen playerX playerZ) st)) !! k)
    <-> is_Some (chunks (manager st) !! k).
Proof.
  intros pcx pcz Ho Hk Hgen Hnear Hscan Ha Hb Hc n.
  assert (H : let st' := Nat.iter n (update gen playerX playerZ) st in
              ordered st' /\ keyed (manager st') /\
              (forall k, is_Some (chunks (manager st') !! k)
                         <-> is_Some (chunks (manager st) !! k))).
  { induction n as [|n IH]; cbn [Nat.iter]; cbv zeta.
    - split; [exact Ho|]. split; [exact Hk|]. intros k. reflexivity.
    - cbv zeta in IH. destruct IH as (Ho' & Hk' & Hsame).
      set (st' := Nat.iter n (update gen playerX playerZ) st) in *.
      destruct (update_spec gen playerX playerZ st' Ho' Hk' Hgen)
        as (_ & _ & _ & _ & _ & Ho'' & Hk'').
      cbv zeta in Ho'', Hk''. split; [exact Ho''|]. split; [exact Hk''|].
      intros k. rewrite <- Hsame.
      apply (update_stuck_step gen playerX playerZ st' a b c); try assumption.
      + intros k' Hk'0. apply Hnear, Hsame, Hk'0.
      + fold pcx pcz. rewrite (scanMissing_ext (manager st) (manager st')); assumption. }
  apply H.
Qed.

(** *** Example states *)

Lemma ordered_emptyState : ordered emptyState /\ keyed (manager emptyState).
Proof.
  split; [split|].
  - apply NoDup_nil_2.
  - intros k. cbn. rewrite lookup_empty, elem_of_nil. split; [tauto|intros [? ?]; discriminate].
  - intros k c E. cbn in E. rewrite lookup_empty in E. discriminate.
Qed.

Lemma keepsCoordinates_None : keepsCoordinates None.
Proof. intros gen c E. discriminate. Qed.

Lemma loadAll_grown keys : NoDup keys -> grown None emptyState (loadAll keys) keys.
Proof.
  intros Hnd. unfold loadAll.
  assert (H : forall pre suf, keys = pre ++ suf ->
            forall s, grown None emptyState s pre ->
            grown None emptyState
                  (fold_left (fun st k => (createChunk None k.1 k.2 st).1) suf s)
                  (pre ++ suf)).
  { intros pre suf. revert pre. induction suf as [|k suf IH]; intros pre E s Hg.
    - rewrite app_nil_r. exact Hg.
    - cbn [fold_left].
      replace (pre ++ k :: suf) with ((pre ++ [k]) ++ suf)
        by (rewrite <- app_assoc; reflexivity).
      apply IH; [rewrite <- app_assoc; exact E|].
      destruct (createChunk_grown None emptyState s pre k.1 k.2 Hg) as [_ Hnew].
      destruct k as [kx kz]. cbn [fst snd] in *. apply Hnew.
      destruct Hg as (_ & _ & _ & Hc & _). rewrite Hc.
      rewrite bool_decide_eq_false_2; [reflexivity|].
      rewrite E in Hnd. apply NoDup_app in Hnd as (_ & Hd & _).
      intros F. apply (Hd _ F). left. }
  apply (H [] keys eq_refl). apply grown_refl.
Qed.

Lemma in_stuckKeys k : k ∈ stuckKeys <-> inStuck k = true.
Proof.
  destruct k as [kx kz]. unfold stuckKeys, inStuck, ringOf. cbn [fst snd].
  rewrite elem_of_app, !list_elem_of_In, in_flat_map, in_map_iff.
  rewrite orb_true_iff, !andb_true_iff, !Z.leb_le, Z.eqb_eq. split.
  - intros [(dx & Hx & Hz)|(dz & [= <- <-] & Hz)].
    + apply in_map_iff in Hz as (dz & [= <- <-] & Hz).
      apply list_elem_of_In, elem_of_seqZ in Hx, Hz. left. lia.
    + apply list_elem_of_In, elem_of_seqZ in Hz. right. lia.
  - intros [H|[[Hx H1] H2]].
    + left. exists kx. split; [apply list_elem_of_In, elem_of_seqZ; lia|].
      apply in_map, list_elem_of_In, elem_of_seqZ. lia.
    + right. exists kz. subst kx. split; [reflexivity|].
      apply list_elem_of_In, elem_of_seqZ. lia.
Qed.

Lemma NoDup_stuckKeys : NoDup stuckKeys.
Proof.
  unfold stuckKeys. apply NoDup_app. split; [|split].
  - apply (NoDup_flat_map_pair (fun _ => seqZ (-7) 15)); [apply NoDup_seqZ|].
    intros _. apply NoDup_seqZ.
  - intros [kx kz] H1 H2.
    apply list_elem_of_In, in_flat_map in H1 as (dx & Hx & Hz).
    apply in_map_iff in Hz as (dz & [= <- <-] & _).
    apply list_elem_of_In, in_map_iff in H2 as (dz' & [= E _] & _).
    apply list_elem_of_In, elem_of_seqZ in Hx. lia.
  - apply NoDup_map_pair, NoDup_seqZ.
Qed.

Lemma stuck_state :
  ordered (loadAll stuckKeys) /\ keyed (manager (loadAll stuckKeys)) /\
  (forall k, is_Some (chunks (manager (loadAll stuckKeys)) !! k) <-> inStuck k = true).
Proof.
  pose proof (loadAll_grown stuckKeys NoDup_stuckKeys) as Hg.
  destruct ordered_emptyState as [Ho Hk].
  split; [apply (grown_ordered None emptyState _ _ Hg Ho)|].
  split; [apply (grown_keyed None emptyState _ _ Hg Hk keepsCoordinates_None)|].
  intros k. rewrite (grown_loaded None emptyState _ _ k Hg), in_stuckKeys.
  cbn. rewrite lookup_empty. split; [intros [H|[? H]]; [exact H|discriminate]|auto].
Qed.

Lemma stuck_scan :
  firstn 3 (scanMissing (manager (loadAll stuckKeys)) 0 0 (cells RENDER_DISTANCE))
  = [(-8, -8); (-8, -7); (-8, 7)].
Proof.
  destruct stuck_state as (_ & _ & Hin).
  assert (E : scanMissing (manager (loadAll stuckKeys)) 0 0 (cells RENDER_DISTANCE)
              = List.filter (fun k => negb (inStuck k))
                            (map (cellKey 0 0) (List.filter onRing (cells RENDER_DISTANCE)))).
  { unfold scanMissing. apply filter_ext. intros k. f_equal.
    destruct (inStuck k) eqn:Ek.
    - apply bool_decide_eq_true_2, Hin, Ek.
    - apply bool_decide_eq_false_2. rewrite Hin, Ek. discriminate. }
  rewrite E. vm_compute. reflexivity.
Qed.

Lemma update_can_starve_witness :
  ringOf 0 0 (8, 0) <= RENDER_DISTANCE /\
  (is_Some (chunks (manager (Nat.iter 1000 (update None (1 # 2) (1 # 2))
                                      (loadAll stuckKeys))) !! (8, 0))
   <-> is_Some (chunks (manager (loadAll stuckKeys)) !! (8, 0))).
Proof.
  split; [vm_compute; discriminate|].
  destruct stuck_state as (Ho & Hk & Hin).
  apply (update_can_starve None (1 # 2) (1 # 2) (loadAll stuckKeys)
                           (-8, -8) (-8, -7) (-8, 7)).
  - exact Ho.
  - exact Hk.
  - exact keepsCoordinates_None.
  - change (Qfloor ((1 # 2) / inject_Z CHUNK_SIZE)) with 0.
    intros k' Hk'. apply Hin in Hk'. unfold inStuck, ringOf, dist2 in *.
    destruct k' as [kx kz]. cbn [fst snd] in *.
    apply orb_prop in Hk' as [H|H].
    + apply Z.leb_le in H. nia.
    + apply andb_prop in H as [H H2]. apply andb_prop in H as [H H1].
      apply Z.eqb_eq in H. apply Z.leb_le in H1, H2. nia.
  - exact stuck_scan.
  - vm_compute. reflexivity.
  - vm_compute. reflexivity.
  - vm_compute. reflexivity.
Defined.

Lemma twoChunks_state : ordered twoChunks /\ keyed (manager twoChunks).
Proof.
  assert (Hnd : NoDup [(0, 0); (20, 0)]).
  { apply NoDup_cons. split; [|apply NoDup_singleton].
    intros F. apply list_elem_of_singleton in F. discriminate F. }
  pose proof (loadAll_grown _ Hnd) as Hg.
  destruct ordered_emptyState as [Ho Hk].
  split; [apply (grown_ordered None emptyState _ _ Hg Ho)|].
  apply (grown_keyed None emptyState _ _ Hg Hk keepsCoordinates_None).
Qed.

Lemma unloadDistantChunks_drops_far_chunks_witness :
  let st' := unloadDistantChunks 0 0 10 twoChunks in
  chunks (manager st') !! (20, 0) = None /\
  chunks (manager st') !! (0, 0) = chunks (manager twoChunks) !! (0, 0) /\
  ordered st'.
Proof.
  destruct (unloadDistantChunks_drops_far_chunks 0 0 10 twoChunks (proj1 twoChunks_state))
    as (Hc & _ & _ & Ho & _).
  split; [exact (Hc (20, 0))|]. split; [exact (Hc (0, 0))|exact Ho].
Defined.

Lemma queueDirtyChunks_queues_the_closest_witness :
  exists queued : list (Z * Z),
    (length queued <= 4)%nat /\
    (forall k, k ∈ queued -> collected (manager twoChunks) 0 0 8 k = true) /\
    (forall k, k ∈ queued ->
       collected (manager (queueDirtyChunks 0 0 8 twoChunks)) 0 0 8 k = false).
Proof.
  destruct (queueDirtyChunks_queues_the_closest 0 0 8 twoChunks
              (proj1 twoChunks_state) (proj2 twoChunks_state))
    as (queued & _ & Hlen & Hcol & _ & _ & _ & _ & _ & _ & _ & Hclean).
  exists queued. split; [exact Hlen|]. split; [exact Hcol|exact Hclean].
Defined.

Lemma generateInitialChunks_loads_the_square_witness :
  let st' := generateInitialChunks None (1 # 2) (1 # 2) twoChunks in
  (forall k, ringOf 0 0 k <= RENDER_DISTANCE -> is_Some (chunks (manager st') !! k)) /\
  ordered st'.
Proof.
  destruct (generateInitialChunks_loads_the_square None (1 # 2) (1 # 2) twoChunks
              (proj1 twoChunks_state) (proj2 twoChunks_state) keepsCoordinates_None)
    as (Hl & _ & _ & _ & Ho & _).
  split; [exact Hl|exact Ho].
Defined.

Lemma update_keeps_a_disc_of_chunks_witness :
  let st' := update None (1 # 2) (1 # 2) twoChunks in
  (forall k, is_Some (chunks (manager st') !! k) -> dist2 0 0 k <= 100) /\
  (length (order st') <= length (order twoChunks) + 3)%nat.
Proof.
  destruct (update_keeps_a_disc_of_chunks None (1 # 2) (1 # 2) twoChunks
              (proj1 twoChunks_state) (proj2 twoChunks_state) keepsCoordinates_None)
    as (Hd & _ & _ & Hlen & _).
  split; [exact Hd|exact Hlen].
Defined.

End LifecycleFacts.

Module JobFacts.
Import Mesher MeshSpec Chunk Manager MeshWorker JobSpec MesherFacts ManagerFacts
       CoordFacts.

(** *** What a mesh job reads *)

Lemma gatherNeighbors_lookup m chunk k :
  gatherNeighbors m chunk !! k
  = if lateral k
    then data <$> chunks m !! chunkKey (Chunk.cx chunk + k.1) (Chunk.cz chunk + k.2)
    else None.
Proof.
  unfold gatherNeighbors, lateral, chunkKey. cbn [fold_left].
  destruct k as [dx dz]. cbn [fst snd].
  repeat case_bool_decide; cbn [orb];
    repeat match goal with
           | H : (_, _) = (_, _) |- _ => injection H as -> ->
           end;
    repeat match goal with
           | |- context [match chunks m !! ?key with _ => _ end] =>
             destruct (chunks m !! key) eqn:?
           end;
    repeat (rewrite lookup_insert_ne by congruence);
    rewrite ?lookup_insert_eq, ?lookup_empty;
    try reflexivity; try congruence.
Qed.

Lemma wrapAxis_spec l :
  - CHUNK_SIZE <= l < 2 * CHUNK_SIZE ->
  wrapAxis l = (l / CHUNK_SIZE, l mod CHUNK_SIZE) /\
  (l / CHUNK_SIZE = 0 <-> 0 <= l < CHUNK_SIZE) /\
  (l / CHUNK_SIZE = -1 \/ l / CHUNK_SIZE = 0 \/ l / CHUNK_SIZE = 1).
Proof.
  unfold wrapAxis, CHUNK_SIZE. intros H.
  destruct (l <? 0) eqn:E1; [|destruct (l >=? 16) eqn:E2].
  - apply Z.ltb_lt in E1. split; [f_equal|]; Z.to_euclidean_division_equations; lia.
  - apply Z.ltb_ge in E1. rewrite Z.geb_leb in E2. apply Z.leb_le in E2.
    split; [f_equal|]; Z.to_euclidean_division_equations; lia.
  - apply Z.ltb_ge in E1. rewrite Z.geb_leb in E2. apply Z.leb_gt in E2.
    split; [f_equal|]; Z.to_euclidean_division_equations; lia.
Qed.

Lemma shifted_coordinate c l :
  (c * CHUNK_SIZE + l) / CHUNK_SIZE = c + l / CHUNK_SIZE /\
  (c * CHUNK_SIZE + l) mod CHUNK_SIZE = l mod CHUNK_SIZE.
Proof.
  unfold CHUNK_SIZE. split.
  - rewrite Z.add_comm, Z.div_add by lia. lia.
  - rewrite Z.add_comm, Z.mod_add by lia. reflexivity.
Qed.

(** X14: what the mesher reads through the message of a mesh job.  For a chunk
    stored under its own key and local coordinates up to one chunk beyond its
    sides, [getBlockOrNeighbor] on the arrays of the message returns what
    [ChunkManager.getBlock] returns at the same place in world coordinates, as
    long as the place lies in the chunk or in one of its four lateral
    neighbours (within the height or not, loaded or not); in the four diagonal
    neighbours it returns AIR whatever the world holds, as the message carries
    no diagonal neighbour. *)
Theorem mesh_job_sees_the_world (m : ChunkManager) (chunk : Chunk) (lx ly lz : Z) :
  chunks m !! chunkKey (Chunk.cx chunk) (Chunk.cz chunk) = Some chunk ->
  - CHUNK_SIZE <= lx < 2 * CHUNK_SIZE ->
  - CHUNK_SIZE <= lz < 2 * CHUNK_SIZE ->
  let message := jobMessage m chunk in
  let seen := getBlockOrNeighbor (msg_blocks message) lx ly lz (msg_neighbors message) in
  let world := Manager.getBlock m (Chunk.cx chunk * CHUNK_SIZE + lx) ly
                                (Chunk.cz chunk * CHUNK_SIZE + lz) in
  (0 <= lx < CHUNK_SIZE \/ 0 <= lz < CHUNK_SIZE -> seen = world) /\
  (~ 0 <= lx < CHUNK_SIZE -> ~ 0 <= lz < CHUNK_SIZE -> seen = Some AIR).
Proof.
  intros Hself Hx Hz message seen world.
  destruct (wrapAxis_spec lx Hx) as (Ex & Hx0 & Hxr).
  destruct (wrapAxis_spec lz Hz) as (Ez & Hz0 & Hzr).
  assert (Hseen : seen =
    if (ly <? 0) || (ly >=? CHUNK_HEIGHT) then Some 0
    else if (lx / CHUNK_SIZE =? 0) && (lz / CHUNK_SIZE =? 0)
         then u8_get (data chunk)
                     (blockIndex (lx mod CHUNK_SIZE) ly (lz mod CHUNK_SIZE))
         else match gatherNeighbors m chunk !! (lx / CHUNK_SIZE, lz / CHUNK_SIZE) with
              | None => Some 0
              | Some nb => u8_get nb (blockIndex (lx mod CHUNK_SIZE) ly
                                                 (lz mod CHUNK_SIZE))
              end).
  { unfold seen, getBlockOrNeighbor, message, jobMessage.
    cbn [msg_blocks msg_neighbors]. rewrite Ex, Ez. reflexivity. }
  assert (Hworld : world =
    match chunks m !! (Chunk.cx chunk + lx / CHUNK_SIZE,
                       Chunk.cz chunk + lz / CHUNK_SIZE) with
    | None => Some AIR
    | Some c => Chunk.getBlock c (lx mod CHUNK_SIZE) ly (lz mod CHUNK_SIZE)
    end).
  { unfold world, Manager.getBlock, chunkKey. cbv zeta.
    rewrite (proj1 (local_coordinate _)), (proj1 (local_coordinate _)).
    rewrite !(proj1 (shifted_coordinate _ _)), !(proj2 (shifted_coordinate _ _)).
    reflexivity. }
  assert (Hread : forall c : Chunk,
    Chunk.getBlock c (lx mod CHUNK_SIZE) ly (lz mod CHUNK_SIZE)
    = if (ly <? 0) || (ly >=? CHUNK_HEIGHT) then Some 0
      else u8_get (data c) (blockIndex (lx mod CHUNK_SIZE) ly (lz mod CHUNK_SIZE))).
  { intros c. unfold Chunk.getBlock.
    pose proof (Z.mod_pos_bound lx CHUNK_SIZE ltac:(reflexivity)) as Hmx.
    pose proof (Z.mod_pos_bound lz CHUNK_SIZE ltac:(reflexivity)) as Hmz.
    destruct ((ly <? 0) || (ly >=? CHUNK_HEIGHT)) eqn:Ey.
    - assert (Eb : inBounds (lx mod CHUNK_SIZE) ly (lz mod CHUNK_SIZE) = false).
      { apply inBounds_false. intros (_ & Hy & _).
        apply orb_true_iff in Ey as [Ey|Ey];
          [apply Z.ltb_lt in Ey|rewrite Z.geb_leb in Ey; apply Z.leb_le in Ey]; lia. }
      rewrite Eb. reflexivity.
    - apply orb_false_iff in Ey as [Ey1 Ey2]. apply Z.ltb_ge in Ey1.
      rewrite Z.geb_leb in Ey2. apply Z.leb_gt in Ey2.
      assert (Eb : inBounds (lx mod CHUNK_SIZE) ly (lz mod CHUNK_SIZE) = true).
      { apply inBounds_range. lia. }
      rewrite Eb. reflexivity. }
  rewrite Hseen, Hworld. clear Hseen Hworld seen world message.
  rewrite gatherNeighbors_lookup. cbn [fst snd]. unfold chunkKey in *.
  split.
  - intros Hlat.
    destruct ((lx / CHUNK_SIZE =? 0) && (lz / CHUNK_SIZE =? 0)) eqn:E0.
    + apply andb_true_iff in E0 as [E1 E2]. apply Z.eqb_eq in E1, E2.
      rewrite E1, E2, !Z.add_0_r, Hself, Hread. reflexivity.
    + assert (Hl : lateral (lx / CHUNK_SIZE, lz / CHUNK_SIZE) = true).
      { unfold lateral. apply andb_false_iff in E0.
        assert (Hc : lx / CHUNK_SIZE = 0 \/ lz / CHUNK_SIZE = 0) by tauto.
        rewrite !Z.eqb_neq in E0.
        destruct Hc as [Hc|Hc]; rewrite Hc in *.
        - destruct Hzr as [H1|[H1|H1]]; rewrite H1 in *; [| lia |];
            repeat case_bool_decide; try reflexivity; congruence.
        - destruct Hxr as [H1|[H1|H1]]; rewrite H1 in *; [| lia |];
            repeat case_bool_decide; try reflexivity; congruence. }
      rewrite Hl.
      destruct (chunks m !! (Chunk.cx chunk + lx / CHUNK_SIZE,
                             Chunk.cz chunk + lz / CHUNK_SIZE)) as [c|];
        cbn [fmap option_fmap option_map].
      * rewrite Hread. destruct ((ly <? 0) || (ly >=? CHUNK_HEIGHT)); reflexivity.
      * destruct ((ly <? 0) || (ly >=? CHUNK_HEIGHT)); reflexivity.
  - intros Hnx Hnz.
    assert (E1 : lx / CHUNK_SIZE <> 0) by tauto.
    assert (E2 : lz / CHUNK_SIZE <> 0) by tauto.
    apply Z.eqb_neq in E1 as E1'. rewrite E1'. cbn [andb].
    assert (Hl : lateral (lx / CHUNK_SIZE, lz / CHUNK_SIZE) = false).
    { unfold lateral. repeat case_bool_decide; try reflexivity;
        match goal with H : (_, _) = (_, _) |- _ => injection H as ? ? end; lia. }
    rewrite Hl. destruct ((ly <? 0) || (ly >=? CHUNK_HEIGHT)); reflexivity.
Qed.

Lemma mesh_job_sees_the_world_witness :
  (0 <= -1 < CHUNK_SIZE \/ 0 <= 3 < CHUNK_SIZE ->
   getBlockOrNeighbor
     (msg_blocks (jobMessage (stoneWorld) (ManagerSpec.stoneChunk true)))
     (-1) 5 3
     (msg_neighbors (jobMessage (stoneWorld) (ManagerSpec.stoneChunk true)))
   = Manager.getBlock (stoneWorld) (0 * CHUNK_SIZE + -1) 5
                      (0 * CHUNK_SIZE + 3)) /\
  (~ 0 <= -1 < CHUNK_SIZE -> ~ 0 <= 3 < CHUNK_SIZE ->
   getBlockOrNeighbor
     (msg_blocks (jobMessage (stoneWorld) (ManagerSpec.stoneChunk true)))
     (-1) 5 3
     (msg_neighbors (jobMessage (stoneWorld) (ManagerSpec.stoneChunk true)))
   = Some AIR).
Proof.
  apply (mesh_job_sees_the_world (stoneWorld)
                                 (ManagerSpec.stoneChunk true) (-1) 5 3).
  - reflexivity.
  - unfold CHUNK_SIZE. lia.
  - unfold CHUNK_SIZE. lia.
Defined.

(** *** The worker's answer *)

Lemma buildMesh_wf md :
  mesh_wf md (MeshSpec.vertexCount md) ->
  buildMesh (toTransferable md) = None <-> positions md = [].
Proof.
  intros (HV & Hp & _ & _ & _ & _ & Hi & _).
  unfold buildMesh, toTransferable. cbn [Manager.vertexCount indexCount].
  fold (MeshSpec.vertexCount md).
  destruct ((MeshSpec.vertexCount md =? 0) || (Z.of_nat (length (indices md)) =? 0))
    eqn:E.
  - split; [intros _|reflexivity].
    apply orb_true_iff in E. rewrite !Z.eqb_eq in E.
    assert (Z.of_nat (length (positions md)) = 0) by lia.
    destruct (positions md); [reflexivity|cbn [length] in *; lia].
  - split; [discriminate|]. intros E0. rewrite E0 in Hp. cbn [length] in Hp.
    apply orb_false_iff in E as [E _]. apply Z.eqb_neq in E. lia.
Qed.

(** X15: the message handler of the mesh worker.  On an event whose type is
    not 'mesh' it posts nothing.  On one of type 'mesh', whatever the other
    fields hold, it posts one result: the mesher does not throw, the result
    carries the chunk coordinates of the request, and each of its two meshes
    is well formed for the [vertexCount] sent with it (so the quotient
    [positions.length / 3] is a whole number), has [2 * indexCount = 3 *
    vertexCount], and is turned into a mesh object by [ChunkManager.buildMesh]
    exactly when it has a vertex. *)
Theorem worker_answers_every_mesh_request (data : WorkerData) :
  (wd_type data <> "mesh" -> onmessage data = Silent) /\
  (wd_type data = "mesh" ->
   exists result,
     onmessage data = Posted result /\
     res_chunkX result = wd_chunkX data /\
     res_chunkZ result = wd_chunkZ data /\
     Forall (fun t =>
               mesh_wf (tm_arrays t) (Manager.vertexCount t) /\
               2 * indexCount t = 3 * Manager.vertexCount t /\
               (buildMesh t = None <-> positions (tm_arrays t) = []))
            [res_opaque result; res_transparent result]).
Proof.
  split.
  - intros H. unfold onmessage. rewrite bool_decide_eq_false_2 by exact H. reflexivity.
  - intros H. unfold onmessage. rewrite bool_decide_eq_true_2 by exact H. cbv zeta.
    destruct (meshChunk_inv (wd_blocks data) (wd_chunkX data) (wd_chunkZ data)
                (default ∅ (wd_neighbors data)) (wd_blockInfo data)
                (default (zeros (u8_length (wd_blocks data))) (wd_light data))
                (default ∅ (wd_neighborLights data)) temp_wf)
      as (o & t & E & Ho & Ht).
    + intros. apply pushQuad_wf. assumption.
    + apply createTemp_wf.
    + rewrite E. eexists. split; [reflexivity|]. cbn [res_chunkX res_chunkZ].
      split; [reflexivity|]. split; [reflexivity|].
      cbn [res_opaque res_transparent].
      apply toMeshData_wf in Ho, Ht.
      pose proof (mesh_wf_vertexCount _ _ Ho) as Vo.
      pose proof (mesh_wf_vertexCount _ _ Ht) as Vt.
      rewrite <- Vo in Ho. rewrite <- Vt in Ht.
      assert (Hone : forall md, mesh_wf md (MeshSpec.vertexCount md) ->
        mesh_wf (tm_arrays (toTransferable md)) (Manager.vertexCount (toTransferable md)) /\
        2 * indexCount (toTransferable md) = 3 * Manager.vertexCount (toTransferable md) /\
        (buildMesh (toTransferable md) = None
         <-> positions (tm_arrays (toTransferable md)) = [])).
      { intros md Hwf. split; [exact Hwf|]. split; [|apply buildMesh_wf, Hwf].
        destruct Hwf as (_ & _ & _ & _ & _ & _ & Hi & _). exact Hi. }
      constructor; [apply Hone, Ho|]. constructor; [apply Hone, Ht|]. constructor.
Qed.

(** *** A chunk of air *)

Lemma allAir_get blocks i :
  allAir blocks -> u8_get blocks i = Some 0 \/ u8_get blocks i = None.
Proof.
  intros H. unfold u8_get. destruct (u8_in blocks i) eqn:E; [left|right; reflexivity].
  unfold u8_in in E. apply andb_true_iff in E as [E1 E2].
  apply Z.leb_le in E1. apply Z.ltb_lt in E2. rewrite H by lia. reflexivity.
Qed.

Lemma allAir_hidden blocks neighbors blockInfo norm lx ly lz :
  allAir blocks -> faceVisible blocks neighbors blockInfo norm lx ly lz = None.
Proof.
  intros H. unfold faceVisible, Mesher.getBlock.
  destruct (outside lx ly lz); [reflexivity|].
  destruct (allAir_get blocks (blockIndex lx ly lz) H) as [-> | ->]; reflexivity.
Qed.

Lemma allAir_meshChunk blocks cx cz neighbors blockInfo light neighborLights :
  allAir blocks ->
  meshChunk blocks cx cz neighbors blockInfo light neighborLights
  = Some (emptyMesh, emptyMesh).
Proof.
  intros H. rewrite <- meshChunkSkipping_eq. unfold meshChunkSkipping.
  assert (Hd : forall dirs out,
    fold_left (meshDirSkipping blocks cx cz neighbors blockInfo light neighborLights)
              dirs (Some out) = Some out).
  { induction dirs as [|dir dirs IH]; intros out; [reflexivity|].
    cbn [fold_left]. rewrite <- (IH out) at 2. f_equal.
    unfold meshDirSkipping. cbn [mbind option_bind].
    set (s := sweepOf dir). set (norm := nth (Z.to_nat dir) DIRECTION_NORMALS (0, 0, 0)).
    assert (Hs : forall ds n,
      fold_left (meshSliceSkipping blocks cx cz neighbors blockInfo light
                                   neighborLights dir s norm)
                ds (Some (replicate n 0, out)) = Some (replicate n 0, out)).
    { induction ds as [|d ds IHd]; intros n; [reflexivity|].
      cbn [fold_left]. rewrite <- (IHd n) at 2. f_equal.
      unfold meshSliceSkipping. cbn [mbind option_bind].
      assert (He : sliceEmpty blocks neighbors blockInfo s norm d = true).
      { unfold sliceEmpty. apply forallb_forall. intros v _.
        apply forallb_forall. intros u _. unfold cellHidden.
        destruct (place s d u v) as [[x y] z].
        rewrite allAir_hidden by exact H. reflexivity. }
      rewrite He. unfold maskFill. rewrite length_replicate. reflexivity. }
    rewrite Hs. reflexivity. }
  rewrite Hd. reflexivity.
Qed.

(** X16: a block array that holds only zeros (AIR), of any length, gives two
    empty meshes, whatever the neighbours, the metadata and the light are: the
    worker's result has no vertex, and [ChunkManager.buildMesh] makes no mesh
    object of either part. *)
Theorem chunk_of_air_has_no_mesh (data : WorkerData) :
  wd_type data = "mesh" -> allAir (wd_blocks data) ->
  exists result,
    onmessage data = Posted result /\
    tm_arrays (res_opaque result) = emptyMesh /\
    tm_arrays (res_transparent result) = emptyMesh /\
    buildMesh (res_opaque result) = None /\
    buildMesh (res_transparent result) = None.
Proof.
  intros Ht Ha. unfold onmessage. rewrite bool_decide_eq_true_2 by exact Ht.
  cbv zeta. rewrite allAir_meshChunk by exact Ha.
  eexists. split; [reflexivity|]. repeat split.
Qed.

Lemma chunk_of_air_has_no_mesh_witness :
  exists result,
    onmessage (received (jobMessage (stoneWorld) (Chunk.create 0 0)))
      = Posted result /\
    tm_arrays (res_opaque result) = emptyMesh /\
    tm_arrays (res_transparent result) = emptyMesh /\
    buildMesh (res_opaque result) = None /\
    buildMesh (res_transparent result) = None.
Proof.
  apply chunk_of_air_has_no_mesh.
  - reflexivity.
  - intros i _. reflexivity.
Defined.

(** *** A job from the queue to the scene *)

(** X17: a mesh job from the queue to the scene.  When [queueChunkMesh] runs
    for a chunk stored under its own key while a worker of the pool is idle,
    the message is posted to the first idle worker and the key is marked as
    being meshed; once that worker has handled the message and its answer has
    been delivered, the scene holds under the key the two meshes of
    [meshChunk] on the chunk's bytes as they were when the job was queued
    (with the neighbours gathered then, and a light array of zeros), the key
    is no longer marked, the chunk is clean with its bytes unchanged, and
    nothing was written to the console. *)
Theorem mesh_job_round_trip (m : ChunkManager) (key : Z * Z) (chunk : Chunk)
    (idle : Pool.WorkerEntry) (err : string) :
  chunks m !! key = Some chunk ->
  chunkKey (Chunk.cx chunk) (Chunk.cz chunk) = key ->
  find (fun e => negb (Pool.busy e)) (Pool.workers (workerPool m)) = Some idle ->
  let message := jobMessage m chunk in
  let queued := queueChunkMesh key m in
  let done := delivered (Pool.worker idle) (onmessage (received message)) err queued in
  exists opaque transparent,
    meshChunk (data chunk) (Chunk.cx chunk) (Chunk.cz chunk) (gatherNeighbors m chunk)
              (blockInfo m) (zeros (u8_length (data chunk))) ∅
      = Some (opaque, transparent) /\
    Pool.posted (workerPool queued)
      = Pool.posted (workerPool m) ++ [(Pool.worker idle, message)] /\
    (key ∈ meshingInProgress queued) /\
    sceneMeshes done !! key
      = Some (buildMesh (toTransferable opaque), buildMesh (toTransferable transparent)) /\
    (key ∉ meshingInProgress done) /\
    chunks done !! key
      = Some (mkChunk (Chunk.cx chunk) (Chunk.cz chunk) (data chunk) false) /\
    consoleErrors done = consoleErrors m.
Proof.
  intros Hchunk Hkey Hidle message queued done.
  destruct (meshChunk_inv (data chunk) (Chunk.cx chunk) (Chunk.cz chunk)
              (gatherNeighbors m chunk) (blockInfo m)
              (zeros (u8_length (data chunk))) ∅ (fun _ => True))
    as (o & t & E & _ & _); [intros; exact I|exact I|].
  exists (toMeshData o), (toMeshData t). split; [exact E|].
  assert (Eq : queued =
    mkManager (<[key := mkChunk (Chunk.cx chunk) (Chunk.cz chunk) (data chunk) false]>
                 (chunks m))
              ({[key]} ∪ meshingInProgress m)
              (Pool.dispatch _ _ (Pool.worker idle)
                 (Pool.mkTask message (Pool.promises (workerPool m)))
                 (Pool.mkPool _ _ (Pool.workers (workerPool m))
                    (Pool.queue (workerPool m)) (Pool.resolvers (workerPool m))
                    (Pool.settled (workerPool m)) (Pool.posted (workerPool m))
                    (Pool.terminated (workerPool m))
                    (S (Pool.promises (workerPool m)))))
              (<[Pool.promises (workerPool m) := key]> (awaiting m)) (blockInfo m)
              (sceneMeshes m) (consoleErrors m)).
  { unfold queued, queueChunkMesh. rewrite Hchunk. cbv zeta.
    unfold Pool.queueTask. cbv zeta. cbn [Pool.workers]. rewrite Hidle. reflexivity. }
  assert (Er : onmessage (received message)
               = Posted (mkResult (Chunk.cx chunk) (Chunk.cz chunk)
                                  (toTransferable (toMeshData o))
                                  (toTransferable (toMeshData t)))).
  { unfold onmessage, received, message, jobMessage.
    cbn [wd_type wd_blocks wd_neighbors wd_blockInfo wd_light wd_neighborLights
         wd_chunkX wd_chunkZ chunkX chunkZ msg_blocks msg_neighbors msg_blockInfo
         from_option id].
    rewrite bool_decide_eq_true_2 by reflexivity. rewrite E. reflexivity. }
  split; [rewrite Eq; reflexivity|].
  split; [rewrite Eq; cbn [meshingInProgress];
          apply elem_of_union_l, elem_of_singleton; reflexivity|].
  assert (Ed : done =
    mkManager (chunks queued) (meshingInProgress queued ∖ {[key]})
              (Pool.onSettled _ _ (Pool.worker idle)
                 (Pool.Resolved (mkResult (Chunk.cx chunk) (Chunk.cz chunk)
                                    (toTransferable (toMeshData o))
                                    (toTransferable (toMeshData t))))
                 (workerPool queued))
              (awaiting queued) (blockInfo queued)
              (<[key := (buildMesh (toTransferable (toMeshData o)),
                         buildMesh (toTransferable (toMeshData t)))]>
                 (sceneMeshes queued))
              (consoleErrors queued)).
  { unfold done. rewrite Er. unfold delivered, workerAnswered.
    assert (Ef : Pool.resolvers (workerPool queued) !! Pool.worker idle
                 = Some (Pool.mkTask message (Pool.promises (workerPool m)))).
    { rewrite Eq. cbn [workerPool Pool.dispatch Pool.resolvers].
      apply lookup_insert_eq. }
    rewrite Ef. cbn [awaiting Pool.task_promise].
    assert (Ea : awaiting queued !! Pool.promises (workerPool m) = Some key).
    { rewrite Eq. cbn [awaiting]. apply lookup_insert_eq. }
    rewrite Ea. unfold jobSettled, onMeshResult.
    cbn [res_chunkX res_chunkZ res_opaque res_transparent chunks].
    rewrite Hkey.
    assert (Ec : chunks queued !! key
                 = Some (mkChunk (Chunk.cx chunk) (Chunk.cz chunk) (data chunk) false)).
    { rewrite Eq. cbn [chunks]. apply lookup_insert_eq. }
    rewrite Ec. reflexivity. }
  rewrite Ed. cbn [sceneMeshes meshingInProgress chunks consoleErrors].
  split; [apply lookup_insert_eq|].
  split; [intros [_ Hn]%elem_of_difference; apply Hn, elem_of_singleton; reflexivity|].
  split; [rewrite Eq; cbn [chunks]; apply lookup_insert_eq|].
  rewrite Eq. reflexivity.
Qed.

Lemma mesh_job_round_trip_witness :
  exists opaque transparent,
    meshChunk (data (ManagerSpec.stoneChunk true)) 0 0
              (gatherNeighbors (stoneWorld) (ManagerSpec.stoneChunk true))
              (blockInfo (stoneWorld))
              (zeros (u8_length (data (ManagerSpec.stoneChunk true)))) ∅
      = Some (opaque, transparent) /\
    Pool.posted (workerPool (queueChunkMesh (0, 0) (stoneWorld)))
      = Pool.posted (workerPool (stoneWorld))
        ++ [(0%nat, jobMessage (stoneWorld) (ManagerSpec.stoneChunk true))] /\
    ((0, 0) ∈ meshingInProgress (queueChunkMesh (0, 0) (stoneWorld))) /\
    sceneMeshes
      (delivered 0%nat
         (onmessage (received (jobMessage (stoneWorld)
                                          (ManagerSpec.stoneChunk true))))
         "TypeError" (queueChunkMesh (0, 0) (stoneWorld))) !! (0, 0)
      = Some (buildMesh (toTransferable opaque), buildMesh (toTransferable transparent)) /\
    ((0, 0) ∉ meshingInProgress
      (delivered 0%nat
         (onmessage (received (jobMessage (stoneWorld)
                                          (ManagerSpec.stoneChunk true))))
         "TypeError" (queueChunkMesh (0, 0) (stoneWorld)))) /\
    chunks
      (delivered 0%nat
         (onmessage (received (jobMessage (stoneWorld)
                                          (ManagerSpec.stoneChunk true))))
         "TypeError" (queueChunkMesh (0, 0) (stoneWorld))) !! (0, 0)
      = Some (mkChunk 0 0 (data (ManagerSpec.stoneChunk true)) false) /\
    consoleErrors
      (delivered 0%nat
         (onmessage (received (jobMessage (stoneWorld)
                                          (ManagerSpec.stoneChunk true))))
         "TypeError" (queueChunkMesh (0, 0) (stoneWorld)))
      = consoleErrors (stoneWorld).
Proof.
  apply (mesh_job_round_trip (stoneWorld) (0, 0)
           (ManagerSpec.stoneChunk true) (Pool.mkEntry 0 false) "TypeError").
  - reflexivity.
  - reflexivity.
  - reflexivity.
Defined.

End JobFacts.

Module GeometryFacts.
Import Mesher MeshSpec Manager MeshWorker JobSpec GeometrySpec MesherFacts.

Lemma fold_bind_inv_in {A B : Type} (I : A -> Prop) (f : B -> A -> option A)
    (l : list B) (a : A) :
  (forall x a0, In x l -> I a0 -> exists a', f x a0 = Some a' /\ I a') ->
  I a ->
  exists a', fold_left (fun acc x => acc ≫= f x) l (Some a) = Some a' /\ I a'.
Proof.
  revert a. induction l as [|x l IH]; intros a Hf Ha; simpl.
  - eauto.
  - destruct (Hf x a (or_introl eq_refl) Ha) as (a' & -> & Ha'). apply IH.
    + intros y a0 Hy. apply Hf. right. exact Hy.
    + exact Ha'.
Qed.

Lemma growWidth_le fuel s mask v u maskVal w :
  u + w <= uSize s -> u + growWidth fuel s mask v u maskVal w <= uSize s.
Proof.
  revert w. induction fuel as [|fuel IH]; intros w Hw; cbn [growWidth]; [exact Hw|].
  destruct ((u + w <? uSize s) && _) eqn:E; [|exact Hw].
  apply andb_prop in E as [E _]. apply Z.ltb_lt in E. apply IH. lia.
Qed.

Lemma growHeight_ge fuel s mask v u w maskVal h :
  h <= growHeight fuel s mask v u w maskVal h.
Proof.
  revert h. induction fuel as [|fuel IH]; intros h; cbn [growHeight]; [lia|].
  destruct (_ && _); [|lia]. specialize (IH (h + 1)). lia.
Qed.

Lemma growHeight_le fuel s mask v u w maskVal h :
  v + h <= vSize s -> v + growHeight fuel s mask v u w maskVal h <= vSize s.
Proof.
  revert h. induction fuel as [|fuel IH]; intros h Hh; cbn [growHeight]; [exact Hh|].
  destruct ((v + h <? vSize s) && _) eqn:E; [|exact Hh].
  apply andb_prop in E as [E _]. apply Z.ltb_lt in E. apply IH. lia.
Qed.

Lemma byte_land x : 0 <= Z.land x 255 <= 255.
Proof.
  change (Z.land x 255) with (Z.land x (Z.ones 8)). rewrite Z.land_ones by lia.
  change (2 ^ 8) with 256. pose proof (Z.mod_pos_bound x 256 ltac:(lia)). lia.
Qed.

Lemma faceLightOf_pack id f :
  0 <= id < 256 -> 0 <= f < 256 -> faceLightOf (Z.lor id (Z.shiftl f 8)) = f.
Proof.
  intros Hid Hf. unfold faceLightOf.
  rewrite Z.shiftr_lor, Z.shiftr_shiftl_l by lia. rewrite Z.sub_diag, Z.shiftl_0_r.
  rewrite (Z.shiftr_div_pow2 id 8) by lia. change (2 ^ 8) with 256.
  rewrite Z.div_small by lia.
  rewrite Z.lor_0_l. change 255 with (Z.ones 8). rewrite Z.land_ones by lia.
  change (2 ^ 8) with 256. apply Z.mod_small. lia.
Qed.

Lemma pushQuad_fields tmp v0 v1 v2 v3 n uv ao fl :
  t_positions (pushQuad tmp v0 v1 v2 v3 n uv ao fl)
    = t_positions tmp ++ flat_map xyz [v0; v1; v2; v3] /\
  t_normals (pushQuad tmp v0 v1 v2 v3 n uv ao fl)
    = t_normals tmp ++ flat_map xyz (replicate 4 n) /\
  t_lights (pushQuad tmp v0 v1 v2 v3 n uv ao fl)
    = t_lights tmp ++ replicate 4 fl.
Proof.
  destruct uv as [[[u0 u1] u2] u3]. destruct ao as [[[a0 a1] a2] a3].
  unfold pushQuad. cbn [t_positions t_normals t_lights flat_map replicate].
  rewrite !app_nil_r. repeat split; reflexivity.
Qed.

(** *** The rectangle of an emitted quad *)

Lemma dir_cases dir :
  0 <= dir < 6 ->
  dir = 0 \/ dir = 1 \/ dir = 2 \/ dir = 3 \/ dir = 4 \/ dir = 5.
Proof. lia. Qed.

Lemma emitQuad_quad blocks cx cz neighborBlocks blockInfo dir d v u w h maskVal out :
  let s := sweepOf dir in
  let norm := nth (Z.to_nat dir) DIRECTION_NORMALS (0, 0, 0) in
  0 <= dir < 6 -> 0 <= d < dSize s ->
  0 <= u -> 1 <= w -> u + w <= uSize s ->
  0 <= v -> 1 <= h -> v + h <= vSize s ->
  cell_ok blockInfo maskVal -> maskVal <> 0 ->
  exists info v0 v1 v2 v3 uv ao,
    wellPlaced cx cz (mkQuad (v0, v1, v2, v3) norm (faceLightOf maskVal)) /\
    emitQuad blocks cx cz neighborBlocks blockInfo dir s norm d v u w h maskVal out
    = Some (if bi_transparent info
            then mkBuffers (b_opaque out)
                   (pushQuad (b_transparent out) v0 v1 v2 v3 norm uv ao
                             (faceLightOf maskVal))
            else mkBuffers
                   (pushQuad (b_opaque out) v0 v1 v2 v3 norm uv ao
                             (faceLightOf maskVal))
                   (b_transparent out)).
Proof.
  intros s norm Hdir Hd Hu Hw Huw Hv Hh Hvh [->|[info Hi]] Hnz; [congruence|].
  exists info. unfold emitQuad. rewrite Hi. fold (faceLightOf maskVal).
  pose proof (byte_land (Z.shiftr maskVal 8)) as Hl. fold (faceLightOf maskVal) in Hl.
  destruct (dir_cases dir Hdir) as [-> | [-> | [-> | [-> | [-> | ->]]]]];
    subst s norm;
    cbn [sweepOf DIR_UP DIR_DOWN DIR_NORTH DIR_SOUTH DIR_EAST DIR_WEST Z.eqb orb
         Pos.eqb dSize uSize vSize dAxis uAxis vAxis place setAxis getAxis vadd
         Z.to_nat Pos.to_nat Pos.iter_op Init.Nat.add nth DIRECTION_NORMALS] in *;
    unfold CHUNK_SIZE, CHUNK_HEIGHT in *;
    cbv [Z.to_nat Pos.to_nat Pos.iter_op Init.Nat.add];
    (eexists _, _, _, _, _, _; split; [|reflexivity]);
    (split; [cbn [q_normal In]; repeat ((left; reflexivity) || right)|]);
    (split; [|split; [eexists; cbn [corners q_corners q_normal];
                      constructor; [reflexivity|];
                      repeat (constructor; [cbv [dot]; lia|]); constructor
                     |cbn [q_light]; exact Hl]]);
    cbn [corners q_corners]; unfold inChunkBox, CHUNK_SIZE, CHUNK_HEIGHT;
    repeat (constructor; [cbv beta iota; lia|]); constructor.
Qed.

(** *** An invariant of the buffers along the whole sweep *)

Section Quads.

Variables (blocks : Uint8Array) (cx cz : Z) (neighborBlocks : NeighborMap)
          (blockInfo : list BlockInfo) (light : Uint8Array)
          (neighborLights : NeighborMap).

(** [C] is what is known of a face value, [P] what is kept of a buffer. *)
Variable C : Z -> Prop.
Variable P : TempArrays -> Prop.

Hypothesis C_face : forall norm lx ly lz,
  faceValue blocks neighborBlocks blockInfo light neighborLights norm lx ly lz <> 0 ->
  C (faceValue blocks neighborBlocks blockInfo light neighborLights norm lx ly lz).
Hypothesis C_info : forall m, C m -> cell_ok blockInfo m.
Hypothesis P_push : forall tmp v0 v1 v2 v3 n uv ao maskVal,
  C maskVal -> maskVal <> 0 ->
  wellPlaced cx cz (mkQuad (v0, v1, v2, v3) n (faceLightOf maskVal)) ->
  P tmp -> P (pushQuad tmp v0 v1 v2 v3 n uv ao (faceLightOf maskVal)).

Lemma maskSet_known mask i x :
  Forall (fun m => m = 0 \/ C m) mask -> x = 0 \/ C x ->
  Forall (fun m => m = 0 \/ C m) (maskSet mask i x).
Proof.
  intros H Hx. unfold maskSet. destruct (i <? 0); [exact H|].
  apply Forall_insert; assumption.
Qed.

Lemma maskGet_known mask i :
  Forall (fun m => m = 0 \/ C m) mask -> maskGet mask i = 0 \/ C (maskGet mask i).
Proof.
  intros H. unfold maskGet. destruct (i <? 0); [left; reflexivity|].
  destruct (nth_in_or_default (Z.to_nat i) mask 0) as [Hin | ->]; [|left; reflexivity].
  rewrite Forall_forall in H. apply H. apply list_elem_of_In, Hin.
Qed.

Lemma clearRegion_known s mask v u w h :
  Forall (fun m => m = 0 \/ C m) mask ->
  Forall (fun m => m = 0 \/ C m) (clearRegion s mask v u w h).
Proof.
  intros H. unfold clearRegion.
  apply fold_left_inv; [|exact H]. intros m hh Hm.
  apply fold_left_inv; [|exact Hm]. intros m' ww Hm'.
  apply maskSet_known; [exact Hm'|left; reflexivity].
Qed.

Lemma buildMask_known s norm d mask :
  Forall (fun m => m = 0 \/ C m)
         (buildMask blocks neighborBlocks blockInfo light neighborLights s norm d mask).
Proof.
  unfold buildMask. apply fold_left_inv.
  - intros m v Hm. apply fold_left_inv; [|exact Hm].
    intros m' u Hm'. rewrite maskCell_faceValue.
    destruct (place s d u v) as [[lx ly] lz]. cbv zeta.
    destruct (faceValue _ _ _ _ _ _ _ _ _ =? 0) eqn:E; [exact Hm'|].
    apply Z.eqb_neq in E. apply maskSet_known; [exact Hm'|].
    right. apply C_face, E.
  - unfold maskFill. apply Forall_replicate. left. reflexivity.
Qed.

Lemma mergeRow_known fuel dir d v u st :
  let s := sweepOf dir in
  let norm := nth (Z.to_nat dir) DIRECTION_NORMALS (0, 0, 0) in
  0 <= dir < 6 -> 0 <= d < dSize s -> 0 <= v < vSize s -> 0 <= u ->
  known C P st ->
  exists st', mergeRow blocks cx cz neighborBlocks blockInfo fuel dir s norm d v u st
              = Some st' /\ known C P st'.
Proof.
  intros s norm Hdir Hd Hv. revert u st.
  induction fuel as [|fuel IH]; intros u st Hu Hst; cbn [mergeRow]; [eauto|].
  destruct (u <? uSize s) eqn:Eu; [|eauto]. apply Z.ltb_lt in Eu.
  destruct st as [mask out]. destruct Hst as (Hm & Ho & Ht). cbn [fst snd] in *.
  set (maskVal := maskGet mask (v * uSize s + u)).
  destruct (maskVal =? 0) eqn:E0.
  - apply IH; [lia|]. repeat split; assumption.
  - apply Z.eqb_neq in E0.
    set (w := growWidth (Z.to_nat (uSize s)) s mask v u maskVal 1).
    set (h := growHeight (Z.to_nat (vSize s)) s mask v u w maskVal 1).
    assert (HC : C maskVal).
    { destruct (maskGet_known mask (v * uSize s + u) Hm) as [H0|H0];
        [contradiction|exact H0]. }
    assert (Hw : 1 <= w /\ u + w <= uSize s).
    { split; [apply growWidth_ge|apply growWidth_le; lia]. }
    assert (Hh : 1 <= h /\ v + h <= vSize s).
    { split; [apply growHeight_ge|apply growHeight_le; lia]. }
    destruct (emitQuad_quad blocks cx cz neighborBlocks blockInfo dir d v u w h
                maskVal out Hdir Hd Hu (proj1 Hw) (proj2 Hw) (proj1 Hv)
                (proj1 Hh) (proj2 Hh) (C_info _ HC) E0)
      as (info & v0 & v1 & v2 & v3 & uv & ao & Hq & Ee).
    fold s norm in Ee. rewrite Ee. apply IH; [lia|].
    split; [apply clearRegion_known, Hm|]. cbn [snd].
    destruct (bi_transparent info); cbn [b_opaque b_transparent];
      split; try assumption; apply P_push; assumption.
Qed.

Lemma mergeSlice_known dir d st :
  let s := sweepOf dir in
  let norm := nth (Z.to_nat dir) DIRECTION_NORMALS (0, 0, 0) in
  0 <= dir < 6 -> 0 <= d < dSize s -> known C P st ->
  exists st', mergeSlice blocks cx cz neighborBlocks blockInfo dir s norm d st
              = Some st' /\ known C P st'.
Proof.
  intros s norm Hdir Hd Hst. unfold mergeSlice.
  apply (fold_bind_inv_in (known C P)
           (fun v => mergeRow blocks cx cz neighborBlocks blockInfo
                              (Z.to_nat (uSize s)) dir s norm d v 0)); [|exact Hst].
  intros v st0 Hv H0. apply mergeRow_known; try assumption; [|lia].
  apply in_seqZ, Hv.
Qed.

Lemma meshDir_known dir out :
  0 <= dir < 6 -> P (b_opaque out) -> P (b_transparent out) ->
  exists out', meshDir blocks cx cz neighborBlocks blockInfo light neighborLights
                       (Some out) dir = Some out' /\
               P (b_opaque out') /\ P (b_transparent out').
Proof.
  intros Hdir Ho Ht. unfold meshDir. cbn [mbind option_bind].
  set (s := sweepOf dir).
  set (norm := nth (Z.to_nat dir) DIRECTION_NORMALS (0, 0, 0)).
  edestruct (fold_bind_inv_in (known C P)
    (fun d '(mask, o) =>
       mergeSlice blocks cx cz neighborBlocks blockInfo dir s norm d
         (buildMask blocks neighborBlocks blockInfo light neighborLights s norm d mask, o))
    (seqZ 0 (dSize s)) (replicate (Z.to_nat (uSize s * vSize s)) 0, out))
    as (st' & Hst' & Hinv').
  - intros d [mask o] Hd (Hm & Ho' & Ht'). apply mergeSlice_known.
    + exact Hdir.
    + apply in_seqZ, Hd.
    + split; [apply buildMask_known|]. split; assumption.
  - split; [apply Forall_replicate; left; reflexivity|]. split; assumption.
  - unfold meshSlice. rewrite Hst'. simpl. eexists; split; [reflexivity|].
    destruct Hinv' as (_ & ? & ?). split; assumption.
Qed.

Lemma meshChunk_known :
  P createTemp ->
  exists o t,
    meshChunk blocks cx cz neighborBlocks blockInfo light neighborLights
      = Some (toMeshData o, toMeshData t) /\ P o /\ P t.
Proof.
  intros H0. unfold meshChunk.
  assert (Hd : forall dirs out,
    Forall (fun dir => 0 <= dir < 6) dirs ->
    P (b_opaque out) -> P (b_transparent out) ->
    exists out',
      fold_left (meshDir blocks cx cz neighborBlocks blockInfo light neighborLights)
                dirs (Some out) = Some out' /\
      P (b_opaque out') /\ P (b_transparent out')).
  { induction dirs as [|dir dirs IH]; intros out Hr Ho Ht.
    - exists out. repeat split; assumption.
    - cbn [fold_left]. apply List.Forall_cons_iff in Hr as [Hdir Hr].
      destruct (meshDir_known dir out Hdir Ho Ht) as (out1 & -> & Ho1 & Ht1).
      apply IH; assumption. }
  destruct (Hd (seqZ 0 6) (mkBuffers createTemp createTemp)) as ([o t] & -> & Ho & Ht);
    [|exact H0|exact H0|].
  - apply List.Forall_forall. intros dir Hin. apply in_seqZ in Hin. exact Hin.
  - exists o, t. repeat split; assumption.
Qed.

End Quads.

(** *** Where the quads lie *)

Lemma placed_push cx cz tmp v0 v1 v2 v3 n uv ao fl :
  wellPlaced cx cz (mkQuad (v0, v1, v2, v3) n fl) ->
  placed cx cz tmp -> placed cx cz (pushQuad tmp v0 v1 v2 v3 n uv ao fl).
Proof.
  intros Hq (quads & (Hp & Hn & Hl) & Hw).
  exists (quads ++ [mkQuad (v0, v1, v2, v3) n fl]).
  destruct (pushQuad_fields tmp v0 v1 v2 v3 n uv ao fl) as (Ep & En & El).
  split.
  - unfold quadsOf. rewrite Ep, En, El, Hp, Hn, Hl, !flat_map_app.
    cbn [flat_map corners q_corners q_normal q_light]. rewrite !app_nil_r.
    repeat split; reflexivity.
  - apply Forall_app. split; [exact Hw|]. constructor; [exact Hq|constructor].
Qed.

(** X18: the geometry of the meshes.  For chunk coordinates whose world
    coordinates a [Float32Array] holds exactly, each mesh that [meshChunk]
    returns is a list of quads, four vertices each, in the order of its
    position, normal and light arrays; the normal of every quad is one of the
    six of [DIRECTION_NORMALS], its four corners lie in the world-space box of
    the chunk (faces included) and in one plane across the normal, its light
    is a byte, and every number in the position array is an integer of at most
    2^24 in size. *)
Theorem mesh_quads_lie_in_the_chunk
    (blocks : Uint8Array) (cx cz : Z) (neighborBlocks : NeighborMap)
    (blockInfo : list BlockInfo) (light : Uint8Array)
    (neighborLights : NeighborMap) :
  float32Exact cx -> float32Exact cz ->
  exists opaque transparent,
    meshChunk blocks cx cz neighborBlocks blockInfo light neighborLights
      = Some (opaque, transparent) /\
    Forall (fun md =>
              (exists quads,
                 quadsOf (positions md) (normals md) (lights md) quads /\
                 Forall (wellPlaced cx cz) quads) /\
              Forall (fun x => - 16777216 <= x <= 16777216) (positions md))
           [opaque; transparent].
Proof.
  intros Hcx Hcz.
  destruct (meshChunk_known blocks cx cz neighborBlocks blockInfo light neighborLights
              (cell_ok blockInfo) (placed cx cz))
    as (o & t & E & Ho & Ht).
  - intros norm lx ly lz Hnz. unfold faceValue in *.
    destruct (faceVisible blocks neighborBlocks blockInfo norm lx ly lz)
      as [[blockId [|]]|] eqn:Ev; try congruence.
    apply faceVisible_info in Ev as (Hr & _ & Hi).
    destruct (vadd (lx, ly, lz) norm) as [[nlx nly] nlz].
    right. rewrite land_pack by lia. exact Hi.
  - intros m Hm. exact Hm.
  - intros tmp v0 v1 v2 v3 n uv ao maskVal _ _ Hq Hp. apply placed_push; assumption.
  - exists []. split; [repeat split; reflexivity|constructor].
  - exists (toMeshData o), (toMeshData t). split; [exact E|].
    assert (Hone : forall tmp, placed cx cz tmp ->
      (exists quads,
         quadsOf (positions (toMeshData tmp)) (normals (toMeshData tmp))
                 (lights (toMeshData tmp)) quads /\
         Forall (wellPlaced cx cz) quads) /\
      Forall (fun x => - 16777216 <= x <= 16777216) (positions (toMeshData tmp))).
    { intros tmp Hp. split; [exact Hp|].
      destruct Hp as (quads & (Hp & _ & _) & Hw). cbn [positions toMeshData].
      apply List.Forall_forall. intros x Hin. rewrite Hp in Hin.
      apply in_flat_map in Hin as (q & Hq & Hin).
      apply in_flat_map in Hin as (c & Hc & Hin).
      rewrite List.Forall_forall in Hw. destruct (Hw q Hq) as (_ & Hbox & _).
      rewrite List.Forall_forall in Hbox. specialize (Hbox c Hc).
      destruct c as [[a b] c]. unfold inChunkBox, CHUNK_SIZE, CHUNK_HEIGHT in Hbox.
      unfold float32Exact in Hcx, Hcz.
      destruct Hin as [<- | [<- | [<- | []]]]; lia. }
    constructor; [apply Hone, Ho|]. constructor; [apply Hone, Ht|]. constructor.
Qed.

Lemma mesh_quads_lie_in_the_chunk_witness :
  exists opaque transparent,
    meshChunk Scenario.blocks 0 0 Scenario.absent Scenario.blockInfo Scenario.sunlit
              Scenario.absent
      = Some (opaque, transparent) /\
    Forall (fun md =>
              (exists quads,
                 quadsOf (positions md) (normals md) (lights md) quads /\
                 Forall (wellPlaced 0 0) quads) /\
              Forall (fun x => - 16777216 <= x <= 16777216) (positions md))
           [opaque; transparent].
Proof.
  apply mesh_quads_lie_in_the_chunk; unfold float32Exact; lia.
Defined.

(** *** The light of a job that carries none *)

Lemma unlit_light n x y z :
  toInt (getLightOrNeighbor (zeros n) x y z ∅) = unlitByte x y z.
Proof.
  unfold getLightOrNeighbor, unlitByte, wrapAxis, CHUNK_SIZE.
  destruct (y >=? CHUNK_HEIGHT); [reflexivity|].
  destruct (y <? 0); [reflexivity|].
  assert (Hz : forall i, toInt (u8_get (zeros n) i) = 0).
  { intros i. unfold u8_get. destruct (u8_in (zeros n) i); reflexivity. }
  destruct (x <? 0) eqn:Ex; [|destruct (x >=? 16) eqn:Ex'];
    (destruct (z <? 0) eqn:Ez; [|destruct (z >=? 16) eqn:Ez']);
    cbn [Z.eqb andb]; rewrite ?lookup_empty, ?Hz;
    rewrite ?Z.geb_leb in *;
    repeat match goal with
           | H : (_ <? _) = true |- _ => apply Z.ltb_lt in H
           | H : (_ <? _) = false |- _ => apply Z.ltb_ge in H
           | H : (_ <=? _) = true |- _ => apply Z.leb_le in H
           | H : (_ <=? _) = false |- _ => apply Z.leb_gt in H
           end;
    match goal with
    | |- _ = if ?b then _ else _ => destruct b eqn:Eb
    end; try reflexivity;
    rewrite ?andb_true_iff, ?andb_false_iff, ?Z.leb_le, ?Z.ltb_lt, ?Z.leb_gt, ?Z.ltb_ge
      in Eb; lia.
Qed.

Lemma unlitByte_values x y z : unlitByte x y z = 0 \/ unlitByte x y z = 240.
Proof.
  unfold unlitByte. destruct (y >=? CHUNK_HEIGHT); [tauto|].
  destruct (y <? 0); [tauto|]. destruct (_ && _); tauto.
Qed.

(** X19: the light of a request that carries none, as the requests of
    [ChunkManager.queueChunkMesh] do.  The worker then meshes with an array of
    zeros and no neighbour lights, so the light of a visible face is 0xF0
    (240) when the voxel in front of it lies above the chunk or beside it, and
    0 when that voxel lies inside the chunk or below it; every entry of the
    [lights] arrays of the result is 0 or 240. *)
Theorem job_without_light_is_dark_inside (data : WorkerData) :
  wd_type data = "mesh" -> wd_light data = None -> wd_neighborLights data = None ->
  (forall norm lx ly lz blockId,
     faceVisible (wd_blocks data) (default ∅ (wd_neighbors data)) (wd_blockInfo data)
                 norm lx ly lz = Some (blockId, true) ->
     faceLightOf (faceValue (wd_blocks data) (default ∅ (wd_neighbors data))
                            (wd_blockInfo data) (zeros (u8_length (wd_blocks data))) ∅
                            norm lx ly lz)
     = let '(nlx, nly, nlz) := vadd (lx, ly, lz) norm in unlitByte nlx nly nlz) /\
  exists result,
    onmessage data = Posted result /\
    Forall (fun t => Forall (fun l => l = 0 \/ l = 240) (lights (tm_arrays t)))
           [res_opaque result; res_transparent result].
Proof.
  intros Ht Hl Hn.
  assert (Hface : forall norm lx ly lz blockId,
     faceVisible (wd_blocks data) (default ∅ (wd_neighbors data)) (wd_blockInfo data)
                 norm lx ly lz = Some (blockId, true) ->
     0 < blockId < 256 /\
     is_Some (lookupInfo (wd_blockInfo data) (Some blockId)) /\
     faceValue (wd_blocks data) (default ∅ (wd_neighbors data))
               (wd_blockInfo data) (zeros (u8_length (wd_blocks data))) ∅
               norm lx ly lz
     = Z.lor blockId
             (Z.shiftl (let '(nlx, nly, nlz) := vadd (lx, ly, lz) norm in
                        unlitByte nlx nly nlz) 8)).
  { intros norm lx ly lz blockId Ev. unfold faceValue. rewrite Ev.
    apply faceVisible_info in Ev as (Hr & _ & Hi).
    destruct (vadd (lx, ly, lz) norm) as [[nlx nly] nlz].
    rewrite unlit_light. repeat split; try lia. exact Hi. }
  split.
  - intros norm lx ly lz blockId Ev.
    destruct (Hface norm lx ly lz blockId Ev) as (Hr & _ & ->).
    destruct (vadd (lx, ly, lz) norm) as [[nlx nly] nlz].
    apply faceLightOf_pack; [lia|].
    destruct (unlitByte_values nlx nly nlz) as [-> | ->]; lia.
  - unfold onmessage. rewrite bool_decide_eq_true_2 by exact Ht. cbv zeta.
    rewrite Hl, Hn. cbn [from_option id].
    destruct (meshChunk_known (wd_blocks data) (wd_chunkX data) (wd_chunkZ data)
                (default ∅ (wd_neighbors data)) (wd_blockInfo data)
                (zeros (u8_length (wd_blocks data))) ∅
                (fun m => cell_ok (wd_blockInfo data) m /\
                          (faceLightOf m = 0 \/ faceLightOf m = 240))
                (fun tmp => Forall (fun l => l = 0 \/ l = 240) (t_lights tmp)))
      as (o & t & E & Ho & Hq).
    + intros norm lx ly lz Hnz.
      destruct (faceVisible (wd_blocks data) (default ∅ (wd_neighbors data))
                            (wd_blockInfo data) norm lx ly lz)
        as [[blockId [|]]|] eqn:Ev;
        try (unfold faceValue in Hnz; rewrite Ev in Hnz; congruence).
      destruct (Hface norm lx ly lz blockId Ev) as (Hr & Hi & Ef). rewrite Ef.
      destruct (vadd (lx, ly, lz) norm) as [[nlx nly] nlz].
      split.
      * right. rewrite land_pack by lia. exact Hi.
      * rewrite faceLightOf_pack;
          [apply unlitByte_values|lia|
           destruct (unlitByte_values nlx nly nlz) as [-> | ->]; lia].
    + intros m [Hm _]. exact Hm.
    + intros tmp v0 v1 v2 v3 n uv ao maskVal [_ Hc] _ _ Hp.
      destruct (pushQuad_fields tmp v0 v1 v2 v3 n uv ao (faceLightOf maskVal))
        as (_ & _ & ->).
      apply Forall_app. split; [exact Hp|]. cbn [replicate].
      repeat (constructor; [exact Hc|]). constructor.
    + constructor.
    + rewrite E. eexists. split; [reflexivity|].
      cbn [res_opaque res_transparent toTransferable tm_arrays].
      constructor; [exact Ho|]. constructor; [exact Hq|]. constructor.
Qed.

Lemma job_without_light_is_dark_inside_witness :
  (forall norm lx ly lz blockId,
     faceVisible (ManagerSpec.stoneChunk true).(Chunk.data)
                 (gatherNeighbors (stoneWorld) (ManagerSpec.stoneChunk true))
                 Scenario.blockInfo norm lx ly lz = Some (blockId, true) ->
     faceLightOf (faceValue (ManagerSpec.stoneChunk true).(Chunk.data)
                    (gatherNeighbors (stoneWorld)
                                     (ManagerSpec.stoneChunk true))
                    Scenario.blockInfo (zeros CHUNK_VOLUME) ∅ norm lx ly lz)
     = let '(nlx, nly, nlz) := vadd (lx, ly, lz) norm in unlitByte nlx nly nlz) /\
  exists result,
    onmessage (received (jobMessage (stoneWorld)
                                    (ManagerSpec.stoneChunk true)))
      = Posted result /\
    Forall (fun t => Forall (fun l => l = 0 \/ l = 240) (lights (tm_arrays t)))
           [res_opaque result; res_transparent result].
Proof.
  apply (job_without_light_is_dark_inside
           (received (jobMessage (stoneWorld)
                                 (ManagerSpec.stoneChunk true))));
    reflexivity.
Defined.

End GeometryFacts.

Module FloodFacts.
Import Light LightSpec FloodSpec LightFacts MesherFacts.

Lemma covers_length l l' : u8_length l' = u8_length l -> covers l -> covers l'.
Proof. intros E H v Hv. unfold u8_in. rewrite E. apply H, Hv. Qed.

Lemma covers_sized l : u8_length l = CHUNK_VOLUME -> covers l.
Proof.
  intros E v Hv. apply inside_index in Hv. unfold u8_in. rewrite E.
  apply andb_true_iff. split; [apply Z.leb_le|apply Z.ltb_lt]; lia.
Qed.

(** *** A flood fill ends in a settled light *)

Section Settle.

Variables (blocks : Uint8Array) (isT : list bool).
Variables (lvl other : Uint8Array -> Z -> Z) (allowFull : bool).
Variable visit :
  Z -> Z -> Z -> Z -> Uint8Array * list Vec3 -> Z -> Uint8Array * list Vec3.
Hypothesis lvl_range : forall l i, 0 <= lvl l i <= 15.
Hypothesis lvl_get : forall l l' i, u8_get l i = u8_get l' i -> lvl l i = lvl l' i.
Hypothesis other_get : forall l l' i, u8_get l i = u8_get l' i -> other l i = other l' i.
Hypothesis visit_relaxed : forall level sx sy sz st d,
  0 <= level <= 15 ->
  relaxed blocks isT lvl other allowFull (sx, sy, sz) level d st
          (visit level sx sy sz st d).
Hypothesis visit_reach : forall level sx sy sz light q d,
  0 <= level <= 15 ->
  inside (toward (sx, sy, sz) d) ->
  transparentAt blocks isT (index (toward (sx, sy, sz) d)) = true ->
  u8_in light (index (toward (sx, sy, sz) d)) = true ->
  proposed allowFull level d
  <= lvl (visit level sx sy sz (light, q) d).1 (index (toward (sx, sy, sz) d)).

(** What one pass of the loop body leaves as it is. *)
Lemma relaxed_frame p level d light q light' q' :
  relaxed blocks isT lvl other allowFull p level d (light, q) (light', q') ->
  u8_length light' = u8_length light /\
  (forall i, lvl light i <= lvl light' i) /\
  (forall e, In e q -> In e q') /\
  (forall v, inside v -> lvl light (index v) < lvl light' (index v) -> In v q') /\
  (forall v, inside v -> transparentAt blocks isT (index v) = false ->
             lvl light' (index v) = lvl light (index v)).
Proof.
  intros H. apply relaxed_inv in H
    as [[-> ->] | [(x & newLevel & Hin & Ht & Hu & Hlt & Hnew & Hw & Ho & -> & ->)
                  | (Hin & Hu & -> & ->)]].
  - repeat split; auto; intros; lia.
  - split; [apply u8_length_set|]. split; [|split; [|split]].
    + intros i. destruct (Z.eq_dec i (index (toward p d))) as [-> | Hne].
      * lia.
      * rewrite (lvl_set_other lvl lvl_get) by exact Hne. lia.
    + intros e He. apply in_or_app. left. exact He.
    + intros v Hv Hc. apply in_or_app. right. left.
      destruct (Z.eq_dec (index v) (index (toward p d))) as [E | Hne].
      * symmetry. apply index_inj; assumption.
      * rewrite (lvl_set_other lvl lvl_get) in Hc by exact Hne. lia.
    + intros v Hv Ho'.
      destruct (Z.eq_dec (index v) (index (toward p d))) as [E | Hne].
      * rewrite E in Ho'. congruence.
      * apply (lvl_set_other lvl lvl_get). exact Hne.
  - repeat split; auto; try (intros; lia).
    intros e He. apply in_or_app. left. exact He.
Qed.

Lemma visits_frame level sx sy sz ds light q light' q' :
  0 <= level <= 15 ->
  fold_left (visit level sx sy sz) ds (light, q) = (light', q') ->
  u8_length light' = u8_length light /\
  (forall i, lvl light i <= lvl light' i) /\
  (forall e, In e q -> In e q') /\
  (forall v, inside v -> lvl light (index v) < lvl light' (index v) -> In v q') /\
  (forall v, inside v -> transparentAt blocks isT (index v) = false ->
             lvl light' (index v) = lvl light (index v)) /\
  (forall d, In d ds -> inside (toward (sx, sy, sz) d) ->
     transparentAt blocks isT (index (toward (sx, sy, sz) d)) = true ->
     u8_in light (index (toward (sx, sy, sz) d)) = true ->
     proposed allowFull level d <= lvl light' (index (toward (sx, sy, sz) d))).
Proof.
  intros Hl. revert light q. induction ds as [|d ds IH]; intros light q E.
  - cbn in E. injection E as <- <-. repeat split; auto; try (intros; lia).
    intros d [].
  - cbn [fold_left] in E.
    pose proof (visit_relaxed level sx sy sz (light, q) d Hl) as Hr.
    pose proof (visit_reach level sx sy sz light q d Hl) as Hreach.
    destruct (visit level sx sy sz (light, q) d) as [l1 q1]. cbn [fst] in Hreach.
    apply relaxed_frame in Hr as (Hlen1 & Hmono1 & Hq1 & Hch1 & Hop1).
    apply IH in E as (Hlen & Hmono & Hq & Hch & Hop & Hre).
    split; [congruence|]. split; [|split; [|split; [|split]]].
    + intros i. specialize (Hmono1 i). specialize (Hmono i). lia.
    + auto.
    + intros v Hv Hc.
      destruct (Z_lt_le_dec (lvl light (index v)) (lvl l1 (index v))) as [H1|H1].
      * apply Hq, Hch1; assumption.
      * apply Hch; [exact Hv|]. specialize (Hmono1 (index v)). lia.
    + intros v Hv Ho. rewrite Hop, Hop1 by assumption. reflexivity.
    + intros d' [<- | Hd'] Hin Ht Hu.
      * specialize (Hreach Hin Ht Hu).
        specialize (Hmono (index (toward (sx, sy, sz) d))). lia.
      * apply Hre; try assumption. unfold u8_in in *. rewrite Hlen1. exact Hu.
Qed.

Lemma flood_settles fuel light q out :
  flood lvl visit fuel light q = Some out ->
  Forall inside q -> covers light -> calm blocks isT lvl allowFull light q ->
  settledLight blocks isT lvl allowFull out /\
  u8_length out = u8_length light /\
  (forall i, lvl light i <= lvl out i) /\
  (forall v, inside v -> transparentAt blocks isT (index v) = false ->
             lvl out (index v) = lvl light (index v)).
Proof.
  revert light q. induction fuel as [|fuel IH]; intros light q H Hq Hcov Hcalm.
  - destruct q as [|[[sx sy] sz] rest]; [|discriminate].
    injection H as <-. split; [|repeat split; auto; intros; lia].
    intros u d Hu Hd Hn Ht. destruct (Hcalm u d Hu Hd Hn Ht) as [[]|Hok]. exact Hok.
  - destruct q as [|[[sx sy] sz] rest].
    { injection H as <-. split; [|repeat split; auto; intros; lia].
      intros u d Hu Hd Hn Ht. destruct (Hcalm u d Hu Hd Hn Ht) as [[]|Hok]. exact Hok. }
    cbn [flood] in H.
    destruct (fold_left (visit (lvl light (idx sx sy sz)) sx sy sz) (seqZ 0 6)
                        (light, rest)) as [l1 q1] eqn:E.
    inversion Hq as [|? ? Hp Hrest]; subst.
    pose proof (visits_effect blocks isT lvl other allowFull visit lvl_range lvl_get
                  other_get visit_relaxed _ _ _ _ _ _ _ _ _ (lvl_range light _) E)
      as (_ & _ & _ & _ & Hq1).
    pose proof (visits_frame _ _ _ _ _ _ _ _ _ (lvl_range light _) E)
      as (Hlen1 & Hmono1 & Hin1 & Hch1 & Hop1 & Hre1).
    apply IH in H as (Hset & Hlen & Hmono & Hop); [|auto|..].
    + split; [exact Hset|]. split; [congruence|]. split.
      * intros i. specialize (Hmono1 i). specialize (Hmono i). lia.
      * intros v Hv Ho. rewrite Hop, Hop1 by assumption. reflexivity.
    + apply (covers_length light); assumption.
    + intros u d Hu Hd Hn Ht.
      destruct (Z_lt_le_dec (lvl light (index u)) (lvl l1 (index u))) as [Hc|Hc].
      { left. apply Hch1; assumption. }
      assert (Eu : lvl l1 (index u) = lvl light (index u)).
      { specialize (Hmono1 (index u)). lia. }
      rewrite Eu.
      destruct (decide (u = (sx, sy, sz))) as [-> | Hne].
      * right. apply Hre1; try assumption.
        -- apply list_elem_of_In, elem_of_seqZ. lia.
        -- apply Hcov, Hn.
      * destruct (Hcalm u d Hu Hd Hn Ht) as [[Heq | Hin] | Hok].
        -- congruence.
        -- left. apply Hin1, Hin.
        -- right. specialize (Hmono1 (index (toward u d))). lia.
Qed.

End Settle.

(** *** The loop bodies reach the level they compute *)

Section Reach.

Variables (blocks : Uint8Array) (isT : list bool).

Lemma sunVisit_reach level sx sy sz light q d :
  0 <= level <= 15 ->
  inside (toward (sx, sy, sz) d) ->
  transparentAt blocks isT (index (toward (sx, sy, sz) d)) = true ->
  u8_in light (index (toward (sx, sy, sz) d)) = true ->
  proposed true level d
  <= sunAt (sunVisit blocks isT level sx sy sz (light, q) d).1
           (index (toward (sx, sy, sz) d)).
Proof.
  intros Hl Hin Ht Hu. unfold sunVisit, proposed. cbn [toward index inside] in *.
  rewrite Hin, Ht. cbn [negb andb]. clear Hin.
  set (newLevel := if (at6 DY d =? -1) && (level =? 15) then 15 else level - 1).
  set (ni := idx (sx + at6 DX d) (sy + at6 DY d) (sz + at6 DZ d)) in *.
  pose proof (sunAt_range light ni) as Hr.
  assert (Hn : newLevel < 16).
  { unfold newLevel. destruct (_ && _); lia. }
  clearbody newLevel ni.
  destruct (newLevel <=? 0) eqn:E0; [apply Z.leb_le in E0; cbn [fst]; lia|].
  apply Z.leb_gt in E0.
  destruct (newLevel >? sunAt light ni) eqn:Egt.
  - cbn [fst]. assert (Hn' : 0 <= newLevel < 16) by lia.
    pose proof (toInt_get_range light ni) as Hb.
    nibble_facts (toInt (u8_get light ni)) newLevel Hb Hn'.
    unfold sunAt. rewrite u8_get_set_same by exact Hu. rewrite toInt_Some.
    repeat match goal with H : ?a = _ |- context [?a] => rewrite H end.
    apply Z.le_refl.
  - cbn [fst]. rewrite Z.gtb_ltb in Egt. apply Z.ltb_ge in Egt. lia.
Qed.

Lemma blockVisit_reach level bx by_ bz light q d :
  0 <= level <= 15 ->
  inside (toward (bx, by_, bz) d) ->
  transparentAt blocks isT (index (toward (bx, by_, bz) d)) = true ->
  u8_in light (index (toward (bx, by_, bz) d)) = true ->
  proposed false level d
  <= blockAt (blockVisit blocks isT level bx by_ bz (light, q) d).1
             (index (toward (bx, by_, bz) d)).
Proof.
  intros Hl Hin Ht Hu. unfold blockVisit, proposed. cbn [toward index inside] in *.
  rewrite Hin, Ht. cbn [negb andb]. clear Hin.
  set (ni := idx (bx + at6 DX d) (by_ + at6 DY d) (bz + at6 DZ d)) in *.
  pose proof (blockAt_range light ni) as Hr. clearbody ni.
  destruct (level - 1 <=? 0) eqn:E0; [apply Z.leb_le in E0; cbn [fst]; lia|].
  apply Z.leb_gt in E0.
  destruct (level - 1 >? blockAt light ni) eqn:Egt.
  - cbn [fst]. assert (Hn : 0 <= level - 1 < 16) by lia.
    pose proof (toInt_get_range light ni) as Hb.
    nibble_facts (toInt (u8_get light ni)) (level - 1) Hb Hn.
    unfold blockAt. rewrite u8_get_set_same by exact Hu. rewrite toInt_Some.
    repeat match goal with H : ?a = _ |- context [?a] => rewrite H end.
    apply Z.le_refl.
  - cbn [fst]. rewrite Z.gtb_ltb in Egt. apply Z.ltb_ge in Egt. lia.
Qed.

End Reach.

(** *** The column scan and the seeds *)

Lemma fold_left_reach {A B : Type} (Q R : A -> Prop) (f : A -> B -> A)
    (l : list B) (a : A) (x : B) :
  In x l -> R a ->
  (forall a0 y, R a0 -> R (f a0 y)) ->
  (forall a0, R a0 -> Q (f a0 x)) ->
  (forall a0 y, Q a0 -> Q (f a0 y)) ->
  Q (fold_left f l a).
Proof.
  intros Hin Ha HR Hx HQ. revert a Ha.
  induction l as [|y l IH]; intros a Ha; [destruct Hin|].
  cbn [fold_left]. destruct Hin as [-> | Hin].
  - apply fold_left_inv; [intros; apply HQ; assumption|]. apply Hx, Ha.
  - apply IH; [exact Hin|]. apply HR, Ha.
Qed.

Lemma inside_coordinates x y z :
  inside (x, y, z) ->
  0 <= x < CHUNK_SIZE /\ 0 <= y < CHUNK_HEIGHT /\ 0 <= z < CHUNK_SIZE.
Proof.
  unfold inside, outOfChunk. rewrite !orb_false_iff, !Z.geb_leb, !Z.ltb_ge, !Z.leb_gt.
  tauto.
Qed.

Lemma in_seqZ_0 x n : 0 <= x < n -> In x (seqZ 0 n).
Proof. intros H. apply list_elem_of_In, elem_of_seqZ. lia. Qed.

Lemma heightsDown_split y :
  0 <= y < CHUNK_HEIGHT ->
  heightsDown = rev (seqZ (y + 1) (CHUNK_HEIGHT - y - 1)) ++ y :: rev (seqZ 0 y).
Proof.
  intros Hy. unfold heightsDown.
  replace CHUNK_HEIGHT with (y + (CHUNK_HEIGHT - y)) at 1 by lia.
  rewrite seqZ_app by lia. rewrite Z.add_0_l.
  rewrite (seqZ_cons y) by lia.
  rewrite rev_app_distr. cbn [rev]. rewrite <- app_assoc. cbn [app].
  replace (Z.succ y) with (y + 1) by lia.
  replace (Z.pred (CHUNK_HEIGHT - y)) with (CHUNK_HEIGHT - y - 1) by lia.
  reflexivity.
Qed.

Section Result.

Variables (blocks : Uint8Array) (isT : list bool) (emissions : list Z).

Lemma columnSun_length x z ys light :
  u8_length (columnSun blocks isT x z ys light) = u8_length light.
Proof.
  revert light. induction ys as [|y ys IH]; intros light; cbn [columnSun];
    [reflexivity|].
  destruct (transparentAt _ _ _); [|reflexivity]. rewrite IH. apply u8_length_set.
Qed.

Lemma columnSunlight_length light :
  u8_length (columnSunlight blocks isT light) = u8_length light.
Proof.
  unfold columnSunlight.
  apply (fold_left_inv (fun l => u8_length l = u8_length light)); [|reflexivity].
  intros l x Hl.
  apply (fold_left_inv (fun l => u8_length l = u8_length light)); [|exact Hl].
  intros l' z Hl'. rewrite columnSun_length. exact Hl'.
Qed.

Lemma columnSun_keeps x z ys light i :
  u8_get light i = Some 240 ->
  u8_get (columnSun blocks isT x z ys light) i = Some 240.
Proof.
  revert light. induction ys as [|y ys IH]; intros light H; cbn [columnSun];
    [exact H|].
  destruct (transparentAt _ _ _); [|exact H]. apply IH.
  destruct (Z.eq_dec (idx x y z) i) as [<- | Hne].
  - apply u8_get_set_same. unfold u8_get in H.
    destruct (u8_in light _); [reflexivity|discriminate].
  - rewrite u8_get_set_other by exact Hne. exact H.
Qed.

Lemma columnSun_lit x z (n : nat) y light :
  0 <= y < Z.of_nat n ->
  (forall y', y <= y' < Z.of_nat n -> transparentAt blocks isT (idx x y' z) = true) ->
  u8_in light (idx x y z) = true ->
  u8_get (columnSun blocks isT x z (rev (seqZ 0 (Z.of_nat n))) light) (idx x y z)
  = Some 240.
Proof.
  revert light. induction n as [|n IH]; intros light Hy Ht Hu; [lia|].
  rewrite seqZ_S, rev_app_distr. cbn [rev app columnSun]. rewrite Z.add_0_l.
  rewrite (Ht (Z.of_nat n)) by lia.
  destruct (Z.eq_dec y (Z.of_nat n)) as [-> | Hne].
  - apply columnSun_keeps. apply u8_get_set_same, Hu.
  - apply IH; [lia|intros; apply Ht; lia|].
    unfold u8_in. rewrite u8_length_set. exact Hu.
Qed.

Lemma columnSunlight_lit light p :
  u8_in light (index p) = true -> skyLit blocks isT p ->
  u8_get (columnSunlight blocks isT light) (index p) = Some 240.
Proof.
  destruct p as [[x y] z]. intros Hu [Hin Hsky]. cbn [index] in *.
  apply inside_coordinates in Hin as (Hx & Hy & Hz).
  unfold columnSunlight.
  apply (fold_left_reach (fun l => u8_get l (idx x y z) = Some 240)
                         (fun l => u8_in l (idx x y z) = true) _ _ _ x).
  - apply in_seqZ_0, Hx.
  - exact Hu.
  - intros l x' Hl.
    apply (fold_left_inv (fun l => u8_in l (idx x y z) = true)); [|exact Hl].
    intros l' z' Hl'. unfold u8_in. rewrite columnSun_length. exact Hl'.
  - intros l Hl.
    apply (fold_left_reach (fun l => u8_get l (idx x y z) = Some 240)
                           (fun l => u8_in l (idx x y z) = true) _ _ _ z).
    + apply in_seqZ_0, Hz.
    + exact Hl.
    + intros l' z' Hl'. unfold u8_in. rewrite columnSun_length. exact Hl'.
    + intros l' Hl'. unfold heightsDown. change CHUNK_HEIGHT with (Z.of_nat 256).
      apply columnSun_lit; [exact Hy|intros y' Hy'; apply Hsky; exact Hy'|exact Hl'].
    + intros l' z'. apply columnSun_keeps.
  - intros l x' Hl.
    apply (fold_left_inv (fun l => u8_get l (idx x y z) = Some 240)); [|exact Hl].
    intros l' z'. apply columnSun_keeps.
Qed.

(** The light after the column scan. *)
Lemma column_levels light i :
  let light1 := columnSunlight blocks isT (u8_fill light 0) in
  sunAt light1 i = 0 \/
  (sunAt light1 i = 15 /\ exists p, skyLit blocks isT p /\ index p = i).
Proof.
  intros light1.
  assert (Hb : columnBytes blocks isT light1)
    by apply columnSunlight_bytes, columnBytes_fill.
  unfold sunAt. destruct (Hb i) as [E | [E | [E Hp]]]; rewrite E;
    [left; reflexivity|left; reflexivity|right; split; [reflexivity|exact Hp]].
Qed.

Lemma skyLit_above x y y' z :
  skyLit blocks isT (x, y, z) -> y <= y' < CHUNK_HEIGHT ->
  skyLit blocks isT (x, y', z).
Proof.
  intros [Hin Hsky] Hy. apply inside_coordinates in Hin as (Hx & Hy0 & Hz).
  split; [apply inside_intro; lia|]. intros y'' Hy''. apply Hsky. lia.
Qed.

Lemma seedSunCell_grows light x z st y e :
  In e st.2 -> In e (seedSunCell blocks isT light x z st y).2.
Proof.
  destruct st as [fd q]. unfold seedSunCell. cbn [snd]. intros H.
  destruct (_ && _).
  - destruct (isFrontier _ _ _ _ _ _); cbn [snd]; [|exact H].
    apply in_or_app. left. exact H.
  - destruct (_ <? _); exact H.
Qed.

Lemma seedColumn_grows light x z ys st e :
  In e st.2 -> In e (fold_left (seedSunCell blocks isT light x z) ys st).2.
Proof.
  revert st. induction ys as [|y ys IH]; intros st H; [exact H|].
  cbn [fold_left]. apply IH, seedSunCell_grows, H.
Qed.

Lemma seedColumn_in light x z ys1 y ys2 q :
  (forall y', In y' ys1 -> sunAt light (idx x y' z) = 15) ->
  sunAt light (idx x y z) = 15 -> isFrontier blocks isT light x y z = true ->
  In (x, y, z)
     (fold_left (seedSunCell blocks isT light x z) (ys1 ++ y :: ys2) (false, q)).2.
Proof.
  revert q. induction ys1 as [|a ys1 IH]; intros q Habove Hs Hf; cbn [app fold_left].
  - apply seedColumn_grows. unfold seedSunCell. rewrite Hs, Hf, Z.eqb_refl.
    cbn [andb negb snd].
    apply in_or_app. right. left. reflexivity.
  - assert (E : exists q', seedSunCell blocks isT light x z (false, q) a = (false, q')).
    { unfold seedSunCell. rewrite (Habove a (or_introl eq_refl)).
      rewrite Z.eqb_refl. cbn [andb negb].
      destruct (isFrontier blocks isT light x a z); eexists; reflexivity. }
    destruct E as [q' ->]. apply IH; [|exact Hs|exact Hf].
    intros y' Hy'. apply Habove. right. exact Hy'.
Qed.

Lemma sunSeeds_in light x y z :
  inside (x, y, z) -> sunAt light (idx x y z) = 15 ->
  isFrontier blocks isT light x y z = true ->
  (forall y', y < y' < CHUNK_HEIGHT -> sunAt light (idx x y' z) = 15) ->
  In (x, y, z) (sunSeeds blocks isT light).
Proof.
  intros Hin Hs Hf Habove. apply inside_coordinates in Hin as (Hx & Hy & Hz).
  unfold sunSeeds.
  apply (fold_left_reach (fun q => In (x, y, z) q) (fun _ => True) _ _ _ x);
    [apply in_seqZ_0, Hx|exact I|intros; exact I| |].
  - intros q _.
    apply (fold_left_reach (fun q => In (x, y, z) q) (fun _ => True) _ _ _ z);
      [apply in_seqZ_0, Hz|exact I|intros; exact I| |].
    + intros q' _. rewrite (heightsDown_split y Hy). apply seedColumn_in;
        [|exact Hs|exact Hf].
      intros y' Hy'. apply in_rev, list_elem_of_In, elem_of_seqZ in Hy'.
      apply Habove. lia.
    + intros q' z' Hq'. apply seedColumn_grows. exact Hq'.
  - intros q x' Hq.
    apply (fold_left_inv (fun q => In (x, y, z) q)); [|exact Hq].
    intros q' z' Hq'. apply seedColumn_grows. exact Hq'.
Qed.

Lemma sun_calm light :
  covers light ->
  let light1 := columnSunlight blocks isT (u8_fill light 0) in
  calm blocks isT sunAt true light1 (sunSeeds blocks isT light1).
Proof.
  intros Hcov light1 u d Hu Hd Hn Ht.
  pose proof (sunAt_range light1 (index (toward u d))) as Hr.
  pose proof (column_levels light (index u)) as Hc. cbv zeta in Hc.
  fold light1 in Hc. destruct Hc as [E0 | [E15 (p & Hp & Ep)]].
  - right. rewrite E0. unfold proposed. cbn [Z.eqb]. rewrite !andb_false_r.
    clear - Hr. lia.
  - assert (p = u) as -> by (apply index_inj; [apply skyLit_inside in Hp|..]; assumption).
    destruct (Z_lt_le_dec (sunAt light1 (index (toward u d))) 15) as [Hlt | Hge].
    + left. destruct u as [[x y] z]. apply sunSeeds_in.
      * exact Hu.
      * exact E15.
      * unfold isFrontier. apply existsb_exists. exists d.
        split; [apply in_seqZ_0; exact Hd|].
        cbn [toward index inside] in Hn, Ht, Hlt. rewrite Hn, Ht.
        apply Z.ltb_lt in Hlt. rewrite Hlt. reflexivity.
      * intros y' Hy'.
        assert (Hsky : skyLit blocks isT (x, y', z))
          by (apply (skyLit_above x y); [exact Hp|lia]).
        pose proof (columnSunlight_lit (u8_fill light 0) (x, y', z)) as Hlit.
        cbn [index] in Hlit. unfold sunAt. fold light1 in Hlit. rewrite Hlit.
        -- reflexivity.
        -- apply (covers_length light (u8_fill light 0) eq_refl Hcov (x, y', z)).
           apply skyLit_inside in Hsky. exact Hsky.
        -- exact Hsky.
    + right. unfold proposed. destruct (_ && _); clear - Hr Hge E15; lia.
Qed.

Hypothesis emissions_range : Forall (fun e => 0 <= e <= 15) emissions.

Lemma seedBlockCell_grows x z st y e :
  In e st.2 -> In e (seedBlockCell blocks emissions x z st y).2.
Proof.
  destruct st as [l q]. unfold seedBlockCell. cbv zeta. cbn [snd]. intros H.
  destruct (_ >? 0); cbn [snd]; [|exact H]. apply in_or_app. left. exact H.
Qed.

Lemma blockSeeds_queue l0 u :
  inside u -> emissionAt blocks emissions (index u) > 0 ->
  In u (blockSeeds blocks emissions l0).2.
Proof.
  destruct u as [[x y] z]. intros Hin Hem. cbn [index] in Hem.
  apply inside_coordinates in Hin as (Hx & Hy & Hz). unfold blockSeeds.
  apply (fold_left_reach (fun st => In (x, y, z) st.2) (fun _ => True) _ _ _ x);
    [apply in_seqZ_0, Hx|exact I|intros; exact I| |].
  - intros st _.
    apply (fold_left_reach (fun st => In (x, y, z) st.2) (fun _ => True) _ _ _ z);
      [apply in_seqZ_0, Hz|exact I|intros; exact I| |].
    + intros st' _.
      apply (fold_left_reach (fun st => In (x, y, z) st.2) (fun _ => True) _ _ _ y);
        [apply in_seqZ_0, Hy|exact I|intros; exact I| |].
      * intros [l q] _. unfold seedBlockCell. cbv zeta.
        apply Z.gt_lt, Z.gtb_lt in Hem. rewrite Hem. cbn [snd].
        apply in_or_app. right. left. reflexivity.
      * intros st'' y' H. apply seedBlockCell_grows, H.
    + intros st' z' H.
      apply (fold_left_inv (fun st => In (x, y, z) st.2)); [|exact H].
      intros st'' y' H'. apply seedBlockCell_grows, H'.
  - intros st x' H.
    apply (fold_left_inv (fun st => In (x, y, z) st.2)); [|exact H].
    intros st' z' H'.
    apply (fold_left_inv (fun st => In (x, y, z) st.2)); [|exact H'].
    intros st'' y' H''. apply seedBlockCell_grows, H''.
Qed.

Lemma seedBlockCell_level x z st y i :
  blockAt st.1 i = emissionAt blocks emissions i ->
  blockAt (seedBlockCell blocks emissions x z st y).1 i = emissionAt blocks emissions i.
Proof.
  destruct st as [l q]. unfold seedBlockCell. cbv zeta. cbn [fst]. intros H.
  destruct (emissionAt blocks emissions (idx x y z) >? 0) eqn:Eem; cbn [fst];
    [|exact H].
  destruct (Z.eq_dec i (idx x y z)) as [-> | Hne].
  - destruct (u8_in l (idx x y z)) eqn:Hin.
    + pose proof (emissionAt_range blocks emissions emissions_range (idx x y z)) as Hr.
      pose proof (toInt_get_range l (idx x y z)) as Hb.
      assert (Hn : 0 <= emissionAt blocks emissions (idx x y z) < 16) by lia.
      nibble_facts (toInt (u8_get l (idx x y z)))
                   (emissionAt blocks emissions (idx x y z)) Hb Hn.
      unfold blockAt. rewrite u8_get_set_same by exact Hin. rewrite toInt_Some.
      repeat match goal with E : ?a = _ |- context [?a] => rewrite E end.
      reflexivity.
    + rewrite u8_set_outside by exact Hin. exact H.
  - rewrite <- H. apply blockAt_get. apply u8_get_set_other. congruence.
Qed.

Lemma seedBlockCell_sets x z l q y :
  u8_in l (idx x y z) = true ->
  emissionAt blocks emissions (idx x y z) > 0 ->
  blockAt (seedBlockCell blocks emissions x z (l, q) y).1 (idx x y z)
  = emissionAt blocks emissions (idx x y z).
Proof.
  intros Hin Hem. unfold seedBlockCell. cbv zeta.
  apply Z.gt_lt, Z.gtb_lt in Hem. rewrite Hem. cbn [fst].
  pose proof (emissionAt_range blocks emissions emissions_range (idx x y z)) as Hr.
  pose proof (toInt_get_range l (idx x y z)) as Hb.
  assert (Hn : 0 <= emissionAt blocks emissions (idx x y z) < 16) by lia.
  nibble_facts (toInt (u8_get l (idx x y z)))
               (emissionAt blocks emissions (idx x y z)) Hb Hn.
  unfold blockAt. rewrite u8_get_set_same by exact Hin. rewrite toInt_Some.
  repeat match goal with E : ?a = _ |- context [?a] => rewrite E end.
  reflexivity.
Qed.

Lemma seedBlockCell_length x z st y :
  u8_length (seedBlockCell blocks emissions x z st y).1 = u8_length st.1.
Proof.
  destruct st as [l q]. unfold seedBlockCell. cbv zeta.
  destruct (_ >? 0); cbn [fst]; [apply u8_length_set|reflexivity].
Qed.

Lemma blockSeeds_level l0 u :
  u8_in l0 (index u) = true -> inside u ->
  emissionAt blocks emissions (index u) > 0 ->
  blockAt (blockSeeds blocks emissions l0).1 (index u)
  = emissionAt blocks emissions (index u).
Proof.
  destruct u as [[x y] z]. intros Hu Hin Hem. cbn [index] in *.
  apply inside_coordinates in Hin as (Hx & Hy & Hz). unfold blockSeeds.
  set (Q := fun st : Uint8Array * list Vec3 =>
              blockAt st.1 (idx x y z) = emissionAt blocks emissions (idx x y z)).
  set (R := fun st : Uint8Array * list Vec3 => u8_in st.1 (idx x y z) = true).
  assert (HR : forall x' z' st y', R st -> R (seedBlockCell blocks emissions x' z' st y')).
  { intros x' z' st y' H. unfold R, u8_in in *. rewrite seedBlockCell_length. exact H. }
  assert (HQ : forall x' z' st y', Q st -> Q (seedBlockCell blocks emissions x' z' st y')).
  { intros x' z' st y' H. apply seedBlockCell_level, H. }
  apply (fold_left_reach Q R _ _ _ x); [apply in_seqZ_0, Hx|exact Hu| | |].
  - intros st x' H. apply (fold_left_inv R); [|exact H].
    intros st' z' H'. apply (fold_left_inv R); [|exact H'].
    intros st'' y' H''. apply HR, H''.
  - intros st H.
    apply (fold_left_reach Q R _ _ _ z); [apply in_seqZ_0, Hz|exact H| | |].
    + intros st' z' H'. apply (fold_left_inv R); [|exact H'].
      intros st'' y' H''. apply HR, H''.
    + intros st' H'.
      apply (fold_left_reach Q R _ _ _ y); [apply in_seqZ_0, Hy|exact H'| | |].
      * intros st'' y' H''. apply HR, H''.
      * intros [l q] H''. apply seedBlockCell_sets; [exact H''|exact Hem].
      * intros st'' y' H''. apply HQ, H''.
    + intros st' z' H'. apply (fold_left_inv Q); [|exact H'].
      intros st'' y' H''. apply HQ, H''.
  - intros st x' H. apply (fold_left_inv Q); [|exact H].
    intros st' z' H'. apply (fold_left_inv Q); [|exact H'].
    intros st'' y' H''. apply HQ, H''.
Qed.

Lemma block_calm l0 :
  (forall i, blockAt l0 i = 0) ->
  calm blocks isT blockAt false (blockSeeds blocks emissions l0).1
       (blockSeeds blocks emissions l0).2.
Proof.
  intros Hz u d Hu Hd Hn Ht.
  pose proof (blockSeeds_inv blocks emissions emissions_range l0 Hz)
    as (_ & _ & Hlit & _).
  pose proof (blockAt_range (blockSeeds blocks emissions l0).1 (index (toward u d)))
    as Hr.
  destruct (Z_lt_le_dec 0 (blockAt (blockSeeds blocks emissions l0).1 (index u)))
    as [Hpos | Hle].
  - left. destruct (Hlit _ Hpos) as (p & [Hp Hem] & Ep).
    assert (p = u) as -> by (apply index_inj; assumption).
    apply blockSeeds_queue; assumption.
  - right. unfold proposed. cbn [andb]. clear - Hr Hle. lia.
Qed.

(** *** The light that [calculateLight] returns *)

Lemma calculateLight_result light :
  u8_length light = CHUNK_VOLUME ->
  exists fuel out,
    (forall fuel', (fuel <= fuel')%nat ->
       calculateLight blocks isT emissions fuel' light = Some out) /\
    u8_length out = CHUNK_VOLUME /\
    settledLight blocks isT sunAt true out /\
    settledLight blocks isT blockAt false out /\
    (forall v, skyLit blocks isT v -> sunAt out (index v) = 15) /\
    (forall v, emissive blocks emissions v ->
               emissionAt blocks emissions (index v) <= blockAt out (index v)) /\
    (forall v, inside v -> transparentAt blocks isT (index v) = false ->
               sunAt out (index v) = 0 /\
               blockAt out (index v) = emissionAt blocks emissions (index v)).
Proof.
  intros Hlen.
  destruct (calculateLight_run blocks isT emissions light) as (fuel & light2 & out & Hrun).
  destruct (Hrun fuel (Nat.le_refl _)) as (E2 & E3 & _).
  set (light1 := columnSunlight blocks isT (u8_fill light 0)) in *.
  assert (Hlen1 : u8_length light1 = CHUNK_VOLUME).
  { unfold light1. rewrite columnSunlight_length. exact Hlen. }
  assert (Hcov : covers light) by apply covers_sized, Hlen.
  assert (Hb1 : columnBytes blocks isT light1)
    by apply columnSunlight_bytes, columnBytes_fill.
  apply columnBytes_levels in Hb1 as [_ Hz1].
  rewrite sunFlood_flood in E2.
  pose proof (flood_supported blocks isT sunAt blockAt true (sunVisit blocks isT)
                sunAt_range sunAt_get blockAt_get (sunVisit_relaxed blocks isT)
                (fun _ => True) _ _ _ _ E2 (sunSeeds_inside blocks isT light1))
    as Hkeep2.
  apply (flood_settles blocks isT sunAt blockAt true (sunVisit blocks isT)
           sunAt_range sunAt_get blockAt_get (sunVisit_relaxed blocks isT)
           (sunVisit_reach blocks isT)) in E2
    as (Hset2 & Hlen2 & Hmono2 & Hop2);
    [|apply sunSeeds_inside|apply covers_sized, Hlen1|apply sun_calm, Hcov].
  assert (Hz2 : forall i, blockAt light2 i = 0).
  { intros i. destruct Hkeep2 as (_ & Ho & _).
    - intros v _ Hpos. exists [v]. split; [constructor; exact I|].
      intros u [<- | []]. lia.
    - rewrite Ho. apply Hz1. }
  pose proof (blockSeeds_inv blocks emissions emissions_range light2 Hz2)
    as (Hq3 & Hsun3 & Hlit3 & Hlen3).
  rewrite blockFlood_flood in E3.
  pose proof (flood_supported blocks isT blockAt sunAt false (blockVisit blocks isT)
                blockAt_range blockAt_get sunAt_get (blockVisit_relaxed blocks isT)
                (fun _ => True) _ _ _ _ E3 Hq3) as Hkeep4.
  apply (flood_settles blocks isT blockAt sunAt false (blockVisit blocks isT)
           blockAt_range blockAt_get sunAt_get (blockVisit_relaxed blocks isT)
           (blockVisit_reach blocks isT)) in E3
    as (Hset4 & Hlen4 & Hmono4 & Hop4);
    [|exact Hq3|apply covers_sized; congruence|apply block_calm, Hz2].
  assert (Hsun4 : forall i, sunAt out i = sunAt light2 i).
  { intros i. destruct Hkeep4 as (_ & Ho & _).
    - intros v _ Hpos. exists [v]. split; [constructor; exact I|].
      intros u [<- | []]. lia.
    - rewrite Ho. apply Hsun3. }
  exists fuel, out. split; [intros fuel' Hf; apply Hrun, Hf|].
  split; [congruence|]. split; [|split; [exact Hset4|split; [|split]]].
  - intros u d Hu Hd Hn Ht. rewrite !Hsun4. apply Hset2; assumption.
  - intros v Hv. rewrite Hsun4.
    pose proof (columnSunlight_lit (u8_fill light 0) v) as Hlit.
    fold light1 in Hlit.
    assert (E1 : sunAt light1 (index v) = 15).
    { unfold sunAt. rewrite Hlit; [reflexivity| |exact Hv].
      apply (covers_length light (u8_fill light 0) eq_refl Hcov).
      apply skyLit_inside in Hv. exact Hv. }
    pose proof (Hmono2 (index v)) as Hm. pose proof (sunAt_range light2 (index v)) as Hr.
    clear - E1 Hm Hr. lia.
  - intros v [Hv Hem].
    rewrite <- (blockSeeds_level light2 v); [apply Hmono4| |exact Hv|exact Hem].
    apply covers_sized; [congruence|exact Hv].
  - intros v Hv Ho. split.
    + rewrite Hsun4, Hop2 by assumption.
      pose proof (column_levels light (index v)) as Hc. cbv zeta in Hc.
      fold light1 in Hc. destruct Hc as [E0 | [_ (p & Hp & Ep)]]; [exact E0|].
      assert (p = v) as -> by (apply index_inj; [apply skyLit_inside in Hp|..]; assumption).
      destruct v as [[x y] z]. destruct Hp as [Hin Hsky]. cbn [index] in Ho.
      apply inside_coordinates in Hin as (_ & Hy & _).
      rewrite Hsky in Ho by lia. discriminate.
    + rewrite Hop4 by assumption.
      pose proof (emissionAt_range blocks emissions emissions_range (index v)) as Hr.
      destruct (Z_lt_le_dec 0 (emissionAt blocks emissions (index v))) as [Hpos | Hle].
      * apply blockSeeds_level; [|exact Hv|lia].
        apply covers_sized; [congruence|exact Hv].
      * pose proof (blockAt_range (blockSeeds blocks emissions light2).1 (index v))
          as Hr'.
        destruct (Z_lt_le_dec 0 (blockAt (blockSeeds blocks emissions light2).1 (index v)))
          as [Hpos' | Hle']; [|clear - Hr Hr' Hle Hle'; lia].
        destruct (Hlit3 _ Hpos') as (p & [Hp Hem] & Ep).
        rewrite Ep in Hem. clear - Hem Hle. lia.
Qed.

End Result.

(** X20: the sources and the shadows of the light that [calculateLight]
    returns, for a light array of the size of the chunk and emission levels
    within 0..15.  The function returns, the array keeps its size, every voxel
    under open sky (transparent, with only transparent blocks above it) has
    sun level 15, every emitting voxel has at least its emission as block
    light, and an opaque voxel has sun level 0 and its own emission (0 if it
    emits nothing) as block light. *)
Theorem calculateLight_lights_its_sources
    (blocks : Uint8Array) (isTransparent : list bool) (emissions : list Z)
    (light : Uint8Array) :
  Forall (fun e => 0 <= e <= 15) emissions ->
  u8_length light = CHUNK_VOLUME ->
  exists fuel out,
    (forall fuel', (fuel <= fuel')%nat ->
       calculateLight blocks isTransparent emissions fuel' light = Some out) /\
    u8_length out = CHUNK_VOLUME /\
    (forall v, skyLit blocks isTransparent v -> sunAt out (index v) = 15) /\
    (forall v, emissive blocks emissions v ->
               emissionAt blocks emissions (index v) <= blockAt out (index v)) /\
    (forall v, inside v -> transparentAt blocks isTransparent (index v) = false ->
               sunAt out (index v) = 0 /\
               blockAt out (index v) = emissionAt blocks emissions (index v)).
Proof.
  intros Hem Hlen.
  destruct (calculateLight_result blocks isTransparent emissions Hem light Hlen)
    as (fuel & out & Hrun & Hl & _ & _ & Hsky & Hemit & Hopaque).
  exists fuel, out. repeat split; try assumption; apply Hopaque; assumption.
Qed.

Lemma calculateLight_lights_its_sources_witness :
  exists fuel out,
    (forall fuel', (fuel <= fuel')%nat ->
       calculateLight Scenario.blocks Scenario.transparency Scenario.emissions
                      fuel' Scenario.unlit = Some out) /\
    u8_length out = CHUNK_VOLUME /\
    (forall v, skyLit Scenario.blocks Scenario.transparency v ->
               sunAt out (index v) = 15) /\
    (forall v, emissive Scenario.blocks Scenario.emissions v ->
               emissionAt Scenario.blocks Scenario.emissions (index v)
               <= blockAt out (index v)) /\
    (forall v, inside v ->
               transparentAt Scenario.blocks Scenario.transparency (index v) = false ->
               sunAt out (index v) = 0 /\
               blockAt out (index v)
               = emissionAt Scenario.blocks Scenario.emissions (index v)).
Proof.
  apply calculateLight_lights_its_sources.
  - repeat constructor; lia.
  - reflexivity.
Defined.

(** X21: the light that [calculateLight] returns is a fixed point of its
    propagation rule (light array of the size of the chunk, emissions within
    0..15): for every voxel [u] of the chunk and every transparent neighbour
    [n] of it inside the chunk, the sun level of [n] is at least that of [u]
    minus one, it is 15 when [n] is the voxel below [u] and [u] has 15, and
    the block light of [n] is at least that of [u] minus one.  So the queue-
    driven flood fills miss no voxel. *)
Theorem calculateLight_leaves_no_step_to_take
    (blocks : Uint8Array) (isTransparent : list bool) (emissions : list Z)
    (light : Uint8Array) :
  Forall (fun e => 0 <= e <= 15) emissions ->
  u8_length light = CHUNK_VOLUME ->
  exists fuel out,
    (forall fuel', (fuel <= fuel')%nat ->
       calculateLight blocks isTransparent emissions fuel' light = Some out) /\
    (forall u d, inside u -> 0 <= d < 6 -> inside (toward u d) ->
       transparentAt blocks isTransparent (index (toward u d)) = true ->
       sunAt out (index u) - 1 <= sunAt out (index (toward u d)) /\
       (at6 DY d = -1 -> sunAt out (index u) = 15 ->
        sunAt out (index (toward u d)) = 15) /\
       blockAt out (index u) - 1 <= blockAt out (index (toward u d))).
Proof.
  intros Hem Hlen.
  destruct (calculateLight_result blocks isTransparent emissions Hem light Hlen)
    as (fuel & out & Hrun & _ & Hsun & Hblk & _).
  exists fuel, out. split; [exact Hrun|].
  intros u d Hu Hd Hn Ht.
  specialize (Hsun u d Hu Hd Hn Ht). specialize (Hblk u d Hu Hd Hn Ht).
  unfold proposed in Hsun, Hblk. cbn [andb] in Hsun, Hblk.
  pose proof (sunAt_range out (index (toward u d))) as Hr.
  pose proof (sunAt_range out (index u)) as Hr'.
  split; [|split].
  - destruct (_ && _); clear - Hsun Hr Hr'; lia.
  - intros Hdown H15. rewrite Hdown, H15 in Hsun. cbn in Hsun. clear - Hsun Hr. lia.
  - exact Hblk.
Qed.

Lemma calculateLight_leaves_no_step_to_take_witness :
  exists fuel out,
    (forall fuel', (fuel <= fuel')%nat ->
       calculateLight Scenario.blocks Scenario.transparency Scenario.emissions
                      fuel' Scenario.unlit = Some out) /\
    (forall u d, inside u -> 0 <= d < 6 -> inside (toward u d) ->
       transparentAt Scenario.blocks Scenario.transparency (index (toward u d)) = true ->
       sunAt out (index u) - 1 <= sunAt out (index (toward u d)) /\
       (at6 DY d = -1 -> sunAt out (index u) = 15 ->
        sunAt out (index (toward u d)) = 15) /\
       blockAt out (index u) - 1 <= blockAt out (index (toward u d))).
Proof.
  apply calculateLight_leaves_no_step_to_take.
  - repeat constructor; lia.
  - reflexivity.
Defined.

End FloodFacts.
